(** * A verification development for the build-tools scheduler

    The development embeds, function by function, the parts of
    [debian_dep_sort.py], [agiros_tools_menu.py] and [debuild_runner.py] that
    the dependency-aware build scheduler consists of, and proves properties
    of the embedded code.

    Conventions of the embedding:
    - a Python [str] is a [string] (its UTF-8 bytes; comparing byte strings
      and comparing code points give the same order);
    - a Python [set] of strings is the list of its members in the order
      they were added, without duplicates; whenever the source iterates a
      set, the model iterates [set_iter s], where [set_iter] is an arbitrary
      rearrangement: CPython promises no iteration order for a set;
    - a Python [dict] that is only looked up is a [gmap]; one that is
      iterated keeps its insertion order as an association list;
    - exceptions are constructors of the result type. *)

From Stdlib Require Import ZArith Lia Ascii String OrderedTypeEx.
From stdpp Require Import functions.
From stdpp Require Import base tactics option list relations sorting gmap strings pretty.

Local Open Scope Z_scope.

(** ** Python values shared by the three modules *)

Module Py.

(** [str] comparison, as [<=] and [<] of Python on two strings. *)
Definition str_le (a b : string) : Prop := String.leb a b = true.
Definition str_lt (a b : string) : Prop := String.ltb a b = true.

#[global] Instance str_le_dec a b : Decision (str_le a b).
Proof. unfold str_le. apply _. Defined.

(** [s.add(x)] on a set. *)
Definition set_add (x : string) (s : list string) : list string :=
  if decide (x ∈ s) then s else s ++ [x].

(** [a - b] on two sets. *)
Definition set_diff (a b : list string) : list string :=
  filter (λ x, x ∉ b) a.

(** [sorted(s)] on a collection of strings. *)
Definition sorted (s : list string) : list string := merge_sort str_le s.

(** Tuples [(priority, name)], compared the way Python compares tuples:
    first component first, the second one on a tie. *)
Definition key : Type := Z * string.

Definition key_leb (x y : key) : bool :=
  (x.1 <? y.1) || ((x.1 =? y.1) && String.leb x.2 y.2).

Definition key_le (x y : key) : Prop := key_leb x y = true.

(** [heapq]: the heap is the multiset of its items, kept as a list;
    [heappush] adds an item, [heappop] takes the least item out. *)
Definition heappush (q : list key) (x : key) : list key := q ++ [x].

Fixpoint heap_min (x : key) (q : list key) : key :=
  match q with
  | [] => x
  | y :: q' => heap_min (if key_leb x y then x else y) q'
  end.

Fixpoint remove_first (x : key) (q : list key) : list key :=
  match q with
  | [] => []
  | y :: q' => if decide (x = y) then q' else y :: remove_first x q'
  end.

Definition heappop (q : list key) : option (key * list key) :=
  match q with
  | [] => None
  | x :: q' => let m := heap_min x q' in Some (m, remove_first m q)
  end.

(** *** [str] methods

    The methods below are the ones the embedded code calls, on ASCII text
    (the whitespace and line boundaries outside ASCII that Python also
    knows, such as U+0085 and U+2028, are not modelled). *)

Local Open Scope char_scope.

(** [c.isspace()] *)
Definition isspace (c : ascii) : bool :=
  let n := nat_of_ascii c in
  ((9 <=? n) && (n <=? 13) || (28 <=? n) && (n <=? 32))%nat.

(** A character at which [splitlines] ends a line. *)
Definition is_linebreak (c : ascii) : bool :=
  let n := nat_of_ascii c in
  ((10 <=? n) && (n <=? 13) || (28 <=? n) && (n <=? 30))%nat.

Definition char_eqb (a b : ascii) : bool := Ascii.eqb a b.

Fixpoint lstrip (s : string) : string :=
  match s with
  | EmptyString => EmptyString
  | String c s' => if isspace c then lstrip s' else s
  end.

Fixpoint rstrip (s : string) : string :=
  match s with
  | EmptyString => EmptyString
  | String c s' =>
    match rstrip s' with
    | EmptyString => if isspace c then EmptyString else String c EmptyString
    | r => String c r
    end
  end.

(** [s.strip()] *)
Definition strip (s : string) : string := rstrip (lstrip s).

(** [s.split(sep)] for a separator of one character. *)
Fixpoint split (sep : ascii) (s : string) : list string :=
  match s with
  | EmptyString => [EmptyString]
  | String c s' =>
    if char_eqb c sep then EmptyString :: split sep s'
    else match split sep s' with
         | t :: ts => String c t :: ts
         | [] => [String c EmptyString]
         end
  end.

(** [s.split(sep, 1)], as [(head, Some tail)], and [(s, None)] when [sep]
    does not occur. *)
Fixpoint split_once (sep : ascii) (s : string) : string * option string :=
  match s with
  | EmptyString => (EmptyString, None)
  | String c s' =>
    if char_eqb c sep then (EmptyString, Some s')
    else let '(h, t) := split_once sep s' in (String c h, t)
  end.

(** [sep in s] *)
Fixpoint contains_char (sep : ascii) (s : string) : bool :=
  match s with
  | EmptyString => false
  | String c s' => char_eqb c sep || contains_char sep s'
  end.

(** [s.split(sep)[0]] *)
Definition before_char (sep : ascii) (s : string) : string :=
  (split_once sep s).1.

(** [s.splitlines()] *)
Fixpoint splitlines (s : string) : list string :=
  match s with
  | EmptyString => []
  | String c s' =>
    if is_linebreak c then
      match s' with
      | String c' _ =>
        if char_eqb c "013" && char_eqb c' "010" then splitlines s'
        else EmptyString :: splitlines s'
      | EmptyString => [EmptyString]
      end
    else match splitlines s' with
         | l :: ls => String c l :: ls
         | [] => [String c EmptyString]
         end
  end.

(** [s.endswith(c)] and [s.startswith(c)] for one character. *)
Fixpoint endswith (c : ascii) (s : string) : bool :=
  match s with
  | EmptyString => false
  | String a EmptyString => char_eqb a c
  | String _ s' => endswith c s'
  end.

Definition startswith (c : ascii) (s : string) : bool :=
  match s with
  | String a _ => char_eqb a c
  | EmptyString => false
  end.

(** [s[:-1]] *)
Fixpoint drop_last (s : string) : string :=
  match s with
  | EmptyString => EmptyString
  | String _ EmptyString => EmptyString
  | String c s' => String c (drop_last s')
  end.

(** [s.isascii()]: every character is below U+0080. On such text [isspace],
    [strip] and [splitlines] above are those of Python; the statements
    about texts that are stripped or split into lines ask for it. *)
Fixpoint isascii (s : string) : bool :=
  match s with
  | EmptyString => true
  | String c s' => (nat_of_ascii c <? 128)%nat && isascii s'
  end.

Local Close Scope char_scope.

(** *** Facts about [str] methods *)

Lemma rstrip_length s : (String.length (rstrip s) ≤ String.length s)%nat.
Proof.
  induction s as [|c s IH]; simpl; [done|].
  destruct (rstrip s); simpl in *; [destruct (isspace c); simpl; lia|lia].
Qed.

Lemma lstrip_length s : (String.length (lstrip s) ≤ String.length s)%nat.
Proof.
  induction s as [|c s IH]; simpl; [done|]. destruct (isspace c); simpl; lia.
Qed.

(** A string that [strip] leaves alone is left alone by [lstrip] and by
    [rstrip]. *)
Lemma strip_fixed s : strip s = s → lstrip s = s ∧ rstrip s = s.
Proof.
  unfold strip. intros H.
  assert (lstrip s = s) as Hl.
  { destruct s as [|c s]; [done|]. simpl in *.
    destruct (isspace c); [|done].
    pose proof (rstrip_length (lstrip s)). pose proof (lstrip_length s).
    apply (f_equal String.length) in H. simpl in H. lia. }
  by rewrite Hl in H.
Qed.

Lemma lstrip_app s x : s ≠ "" → lstrip s = s → lstrip (s +:+ x) = s +:+ x.
Proof.
  destruct s as [|c s]; [done|]. simpl. intros _.
  destruct (isspace c) eqn:E; [|done].
  intros H. pose proof (lstrip_length s).
  apply (f_equal String.length) in H. simpl in H. lia.
Qed.

Lemma rstrip_snoc s c :
  isspace c = false → rstrip (s +:+ String c "") = s +:+ String c "".
Proof.
  intros Hc. induction s as [|a s IH]; simpl; [by rewrite Hc|].
  rewrite IH. by destruct s.
Qed.

Lemma strip_snoc s c :
  s ≠ "" → strip s = s → isspace c = false →
  strip (s +:+ String c "") = s +:+ String c "".
Proof.
  intros Hs [Hl _]%strip_fixed Hc. unfold strip.
  by rewrite lstrip_app, rstrip_snoc.
Qed.

Lemma endswith_snoc s c : endswith c (s +:+ String c "") = true.
Proof.
  induction s as [|a s IH]; simpl; [apply Ascii.eqb_refl|].
  by destruct s.
Qed.

Lemma drop_last_snoc s c : drop_last (s +:+ String c "") = s.
Proof.
  induction s as [|a s IH]; simpl; [done|]. rewrite IH. by destruct s.
Qed.


(** [sep] does not occur in the pieces [split] makes, and a string without
    [sep] is its only piece. *)
Lemma split_pieces sep s piece :
  piece ∈ split sep s → contains_char sep piece = false.
Proof.
  revert piece. induction s as [|c s IH]; intros piece; simpl.
  - by intros ->%list_elem_of_singleton.
  - destruct (char_eqb c sep) eqn:E.
    + intros [->|?]%elem_of_cons; [done|by apply IH].
    + destruct (split sep s) as [|t ts] eqn:Es.
      * intros ->%list_elem_of_singleton. simpl. by rewrite E.
      * intros [->|?]%elem_of_cons; [|apply IH; by right].
        simpl. rewrite E. apply IH. left.
Qed.

Lemma split_whole sep s : contains_char sep s = false → split sep s = [s].
Proof.
  induction s as [|c s IH]; simpl; [done|].
  intros [Hc Hs]%orb_false_iff. rewrite Hc, (IH Hs). done.
Qed.

(** *** The order on strings and on keys *)

Lemma str_le_cases a b : str_le a b ↔ a = b ∨ String_as_OT.lt a b.
Proof.
  unfold str_le, String.leb.
  destruct (String.compare a b) eqn:E.
  - apply String_as_OT.cmp_eq in E. tauto.
  - apply String_as_OT.cmp_lt in E. tauto.
  - split; [done|]. intros [->|H].
    + assert (String.compare b b = Eq) as X by (by apply String_as_OT.cmp_eq).
      unfold String_as_OT.cmp in *. congruence.
    + apply String_as_OT.cmp_lt in H. unfold String_as_OT.cmp in *. congruence.
Qed.

#[global] Instance str_le_refl : Reflexive str_le.
Proof. intros a. apply str_le_cases. by left. Qed.

#[global] Instance str_le_trans : Transitive str_le.
Proof.
  intros a b c [->|H1]%str_le_cases [->|H2]%str_le_cases;
    apply str_le_cases; eauto using String_as_OT.lt_trans.
Qed.

#[global] Instance str_le_total : Total str_le.
Proof. intros a b. apply String.leb_total. Qed.

#[global] Instance str_le_antisym : AntiSymm (=) str_le.
Proof. intros a b. apply String.leb_antisym. Qed.

Lemma key_le_cases (x y : key) :
  key_le x y ↔ x.1 < y.1 ∨ (x.1 = y.1 ∧ str_le x.2 y.2).
Proof.
  unfold key_le, key_leb, str_le.
  rewrite orb_true_iff, andb_true_iff, Z.ltb_lt, Z.eqb_eq. tauto.
Qed.

#[global] Instance key_le_refl : Reflexive key_le.
Proof. intros x. apply key_le_cases. right. split; [done|reflexivity]. Qed.

#[global] Instance key_le_trans : Transitive key_le.
Proof.
  intros x y z [H1|[H1 H1']]%key_le_cases [H2|[H2 H2']]%key_le_cases;
    apply key_le_cases; try (left; lia).
  right. split; [lia|]. by etrans.
Qed.

#[global] Instance key_le_total : Total key_le.
Proof.
  intros x y. rewrite !key_le_cases.
  destruct (Z.lt_trichotomy x.1 y.1) as [?|[?|?]]; try tauto.
  destruct (total str_le x.2 y.2); [left|right]; right; split; done.
Qed.

#[global] Instance key_le_antisym : AntiSymm (=) key_le.
Proof.
  intros [p a] [q b] [H1|[H1 H1']]%key_le_cases [H2|[H2 H2']]%key_le_cases;
    simpl in *; try lia.
  f_equal; [done|]. by apply (anti_symm str_le).
Qed.

(** *** [heappop] takes out a least item *)

Lemma heap_min_elem_of x q : heap_min x q ∈ x :: q.
Proof.
  revert x. induction q as [|y q IH]; intros x; simpl; [set_solver|].
  destruct (key_leb x y); [pose proof (IH x)|pose proof (IH y)]; set_solver.
Qed.

Lemma heap_min_le x q y : y ∈ x :: q → key_le (heap_min x q) y.
Proof.
  revert x y. induction q as [|z q IH]; intros x y; simpl.
  - intros ->%list_elem_of_singleton. reflexivity.
  - assert (∀ a b : key, key_leb a b = false → key_le b a) as Hflip.
    { intros a b E. destruct (total key_le a b) as [H|H]; [|done].
      unfold key_le in H. congruence. }
    destruct (key_leb x z) eqn:E.
    + intros [->|[->|H]%elem_of_cons]%elem_of_cons.
      * apply IH. left.
      * etrans; [apply (IH x x); left|done].
      * apply IH. by right.
    + intros [->|[->|H]%elem_of_cons]%elem_of_cons.
      * etrans; [apply (IH z z); left|by apply Hflip].
      * apply IH. left.
      * apply IH. by right.
Qed.

Lemma remove_first_perm x q : x ∈ q → q ≡ₚ x :: remove_first x q.
Proof.
  induction q as [|y q IH]; [by intros ?%elem_of_nil|].
  simpl. destruct (decide (x = y)) as [->|Hne]; [done|].
  intros [?|H]%elem_of_cons; [done|].
  rewrite (IH H) at 1. apply Permutation_swap.
Qed.

Lemma heappop_None q : heappop q = None ↔ q = [].
Proof. destruct q; simpl; split; congruence. Qed.

Lemma heappop_Some q m q' :
  heappop q = Some (m, q') →
  q ≡ₚ m :: q' ∧ ∀ y, y ∈ q → key_le m y.
Proof.
  destruct q as [|x q]; [done|]. unfold heappop.
  intros [= <- <-]. split.
  - apply remove_first_perm, heap_min_elem_of.
  - intros y. apply heap_min_le.
Qed.

(** *** Lists *)

Lemma filter_none {A} (P : A → Prop) `{∀ x, Decision (P x)} (l : list A) :
  (∀ x, x ∈ l → ¬ P x) → filter P l = [].
Proof.
  induction l as [|x l IH]; intros Hl; [done|].
  rewrite filter_cons_False by (apply Hl; left).
  apply IH. intros y Hy. apply Hl. by right.
Qed.

Lemma filter_ext_elem_of {A} (P Q : A → Prop)
    `{∀ x, Decision (P x), ∀ x, Decision (Q x)} (l : list A) :
  (∀ x, x ∈ l → P x ↔ Q x) → filter P l = filter Q l.
Proof.
  induction l as [|x l IH]; intros Hl; [done|].
  rewrite !filter_cons, IH by (intros y Hy; apply Hl; by right).
  destruct (decide (P x)) as [HP|HP], (decide (Q x)) as [HQ|HQ]; try done;
    exfalso; apply (Hl x) in HP || apply (Hl x) in HQ; done || left.
Qed.

(** *** Sets *)

Lemma elem_of_set_add x y s : x ∈ set_add y s ↔ x = y ∨ x ∈ s.
Proof. unfold set_add. case_decide; set_solver. Qed.

Lemma NoDup_set_add y s : NoDup s → NoDup (set_add y s).
Proof.
  unfold set_add. case_decide; [done|]. intros.
  apply NoDup_app. split_and!; [done|set_solver|apply NoDup_singleton].
Qed.

Lemma elem_of_set_diff x a b : x ∈ set_diff a b ↔ x ∈ a ∧ x ∉ b.
Proof. unfold set_diff. by rewrite list_elem_of_filter, (comm and). Qed.

Lemma sum_filter_set_add (w : string → nat) (L : list string) n V :
  NoDup L → n ∉ V →
  (sum_list (map w (filter (λ m, m ∉ set_add n V) L))
   + (if decide (n ∈ L) then w n else 0)
   = sum_list (map w (filter (λ m, m ∉ V) L)))%nat.
Proof.
  intros HL Hn. induction HL as [|m L Hm HL IH]; [done|].
  rewrite !filter_cons.
  destruct (decide (m = n)) as [->|Hmn].
  - rewrite decide_False by (rewrite elem_of_set_add; naive_solver).
    rewrite (decide_True (P := n ∉ V)) by done.
    rewrite (decide_True (P := n ∈ n :: L)) by left.
    rewrite decide_False in IH by done. simpl. lia.
  - destruct (decide (m ∈ V)) as [HmV|HmV].
    + rewrite decide_False by (rewrite elem_of_set_add; naive_solver).
      rewrite (decide_False (P := m ∉ V)) by naive_solver.
      rewrite <- IH. repeat case_decide; set_solver.
    + rewrite decide_True by (rewrite elem_of_set_add; naive_solver).
      rewrite (decide_True (P := m ∉ V)) by done.
      simpl. rewrite <- IH. repeat case_decide; try lia; set_solver.
Qed.

Lemma sum_filter_le (w : string → nat) (P : string → Prop)
    `{∀ x, Decision (P x)} (L : list string) :
  (sum_list (map w (filter P L)) ≤ sum_list (map w L))%nat.
Proof.
  induction L as [|x L IH]; [done|]. rewrite filter_cons.
  case_decide; simpl; lia.
Qed.

Lemma elem_of_concat {A} (x : A) (ls : list (list A)) :
  x ∈ concat ls ↔ ∃ c, c ∈ ls ∧ x ∈ c.
Proof.
  induction ls as [|c ls IH]; simpl.
  - split; [by intros ?%elem_of_nil|]. by intros (c & ?%elem_of_nil & _).
  - rewrite elem_of_app, IH. split.
    + intros [?|(c' & ? & ?)]; [exists c|exists c']; split; (done || by constructor).
    + intros (c' & [->|?]%elem_of_cons & ?); [by left|right; by exists c'].
Qed.

Lemma concat_perm {A} (l1 l2 : list (list A)) :
  l1 ≡ₚ l2 → concat l1 ≡ₚ concat l2.
Proof.
  induction 1 as [|x l1 l2 _ IH|x y l|l1 l2 l3 _ IH1 _ IH2]; simpl.
  - done.
  - by rewrite IH.
  - rewrite !app_assoc. f_equiv. apply Permutation_app_comm.
  - by etrans.
Qed.

Lemma sorted_perm s : sorted s ≡ₚ s.
Proof. apply merge_sort_Permutation. Qed.

Lemma elem_of_sorted x s : x ∈ sorted s ↔ x ∈ s.
Proof. by rewrite sorted_perm. Qed.

Lemma sorted_ascending s : StronglySorted str_le (sorted s).
Proof. apply (StronglySorted_merge_sort _). Qed.

End Py.

(** ** debian_dep_sort.py *)

Module DepSort.
Import Py.

(** A [pathlib.Path], by its string. *)
Definition Path : Type := string.

Record PackageDepGraph : Type := mkGraph {
  package_dirs : list (string * Path);
  order_hint : gmap string Z;
  nodes : list string;
  adj : gmap string (list string);
  rev : gmap string (list string);
  unresolved : list (string * list string)
}.

(** [d.get(k, ())] and [d[k]] of a [defaultdict(set)]. *)
Definition get_set (d : gmap string (list string)) (k : string) : list string :=
  default [] (d !! k).

(** [PackageDepGraph.__init__] *)
Definition init (dirs : list (string * Path)) (hint : gmap string Z)
  : PackageDepGraph :=
  let ns := foldl (λ s kv, set_add kv.1 s) [] dirs in
  let empty_sets := foldl (λ m pkg, if m !! pkg is Some _ then m else <[pkg := []]> m)
                          (∅ : gmap string (list string)) ns in
  {| package_dirs := dirs; order_hint := hint; nodes := ns;
     adj := empty_sets; rev := empty_sets; unresolved := [] |}.

(** [PackageDepGraph.add_edge] *)
Definition add_edge (g : PackageDepGraph) (prereq dependent : string)
  : PackageDepGraph :=
  if decide (prereq = dependent) then g
  else
    {| package_dirs := package_dirs g; order_hint := order_hint g;
       nodes := nodes g;
       adj := <[prereq := set_add dependent (get_set (adj g) prereq)]> (adj g);
       rev := <[dependent := set_add prereq (get_set (rev g) dependent)]> (rev g);
       unresolved := unresolved g |}.

(** [d[k].add(x)] on a [defaultdict(set)] that is iterated later: the
    dict keeps its keys in the order they were first used. *)
Fixpoint dict_set_add (d : list (string * list string)) (k x : string)
  : list (string * list string) :=
  match d with
  | [] => [(k, [x])]
  | (k', s) :: d' =>
    if decide (k' = k) then (k', set_add x s) :: d'
    else (k', s) :: dict_set_add d' k x
  end.

(** [self.unresolved[pkg].add(dep_pkg)] *)
Definition add_unresolved (g : PackageDepGraph) (pkg dep_pkg : string)
  : PackageDepGraph :=
  {| package_dirs := package_dirs g; order_hint := order_hint g;
     nodes := nodes g; adj := adj g; rev := rev g;
     unresolved := dict_set_add (unresolved g) pkg dep_pkg |}.

(** The state of the loop of [_split_paragraphs]: [paragraphs], [current]
    and [current_key]. *)
Definition paragraph_state : Type :=
  list (gmap string string) * gmap string string * option string.

(** One round of [for raw_line in content.splitlines()]. *)
Definition split_paragraphs_step (st : paragraph_state) (raw_line : string)
  : paragraph_state :=
  let '(paragraphs, current, current_key) := st in
  let line := rstrip raw_line in
  if decide (strip line = "") then
    if decide (current = ∅) then st else (paragraphs ++ [current], ∅, None)
  else if match line with String c _ => isspace c | EmptyString => false end then
    match current_key with
    | Some k =>
      if decide (k = "") then st
      else (paragraphs,
            <[k := default "" (current !! k) +:+ " " +:+ strip line]> current,
            current_key)
    | None => st
    end
  else
    match split_once ":" line with
    | (key, Some value) =>
      let current_key := strip key in
      (paragraphs, <[current_key := strip value]> current, Some current_key)
    | (_, None) => st
    end.

(** [_split_paragraphs] *)
Definition _split_paragraphs (content : string) : list (gmap string string) :=
  let '(paragraphs, current, _) :=
    foldl split_paragraphs_step ([], ∅, None) (splitlines content) in
  if decide (current = ∅) then paragraphs else paragraphs ++ [current].

(** A character of the class [[A-Za-z0-9+_.:-]]. *)
Definition pkgname_char (c : ascii) : bool :=
  let n := nat_of_ascii c in
  ((65 <=? n) && (n <=? 90) || (97 <=? n) && (n <=? 122)
   || (48 <=? n) && (n <=? 58)
   || (n =? 43) || (n =? 95) || (n =? 46) || (n =? 45))%nat.

Fixpoint take_pkgname (s : string) : string :=
  match s with
  | EmptyString => EmptyString
  | String c s' => if pkgname_char c then String c (take_pkgname s') else EmptyString
  end.

(** [re.compile(r"([A-Za-z0-9+_.:-]+)").match(token)], as its group 1. *)
Definition pkgname_re_match (token : string) : option string :=
  match take_pkgname token with
  | EmptyString => None
  | m => Some m
  end.

(** [_parse_depends] *)
Definition _parse_depends (value : string) : list string :=
  omap (λ part,
          let token := strip (before_char "|" part) in
          let token := strip (before_char "(" token) in
          let token := strip (before_char "[" token) in
          let token := strip (before_char "{" token) in
          let token := if contains_char ":" token
                       then strip (before_char ":" token) else token in
          pkgname_re_match token)
       (split "," value).

Definition default_fields : list string :=
  ["Depends"; "Build-Depends"; "Build-Depends-Indep"; "Build-Depends-Arch"].

(** The body of [for dep_pkg in _parse_depends(...)]. *)
Definition dep_step (pkg : string) (g : PackageDepGraph) (dep_pkg : string)
  : PackageDepGraph :=
  if decide (dep_pkg ∈ (package_dirs g).*1) then
    if decide (dep_pkg ≠ pkg) then add_edge g dep_pkg pkg else g
  else add_unresolved g pkg dep_pkg.

(** The file system as [build_from_control_dirs] sees it: the text of
    [base_path / "debian" / "control"], and [None] where that is no file or
    cannot be read. *)
Definition control_files : Type := Path → option string.

(** The body of [for field in fields]. *)
Definition field_step (pkg : string) (stanza : gmap string string)
    (g : PackageDepGraph) (field : string) : PackageDepGraph :=
  match stanza !! field with
  | Some raw_value =>
    if decide (raw_value = "") then g
    else foldl (dep_step pkg) g (_parse_depends raw_value)
  | None => g
  end.

(** The body of [for pkg, base_path in self.package_dirs.items()]. *)
Definition package_step (fs : control_files) (fields : list string)
    (g : PackageDepGraph) (item : string * Path) : PackageDepGraph :=
  let '(pkg, base_path) := item in
  match fs base_path with
  | None => g
  | Some content =>
    foldl (λ g stanza, foldl (field_step pkg stanza) g fields)
          g (_split_paragraphs content)
  end.

(** [PackageDepGraph.build_from_control_dirs] *)
Definition build_from_control_dirs (fs : control_files) (g : PackageDepGraph)
    (depends_field_names : option (list string)) : PackageDepGraph :=
  let fields :=
    match depends_field_names with
    | Some (f :: fields) => f :: fields
    | _ => default_fields
    end in
  foldl (package_step fs fields) g (package_dirs g).

(** What [topo_sort] evaluates to: a list, or one of its two exceptions.
    [Diverged] stands for a loop of the model running out of fuel; the
    loops are given enough (see [topo_sort_total]). *)
Inductive outcome (A : Type) : Type :=
| Returned (a : A)
| KeyError (node : string)
| CycleDetected (remaining : list string)
| Diverged.
Arguments Returned {A} a.
Arguments KeyError {A} node.
Arguments CycleDetected {A} remaining.
Arguments Diverged {A}.

Section with_set_order.
(** The order in which a set is iterated. *)
Variable set_iter : list string → list string.

(** The [while stack:] loop of [topo_sort]; the stack is kept top
    first, so [stack.pop()] takes the head and a run of
    [stack.append] calls leaves the last appended item on top. *)
Fixpoint closure_loop (fuel : nat) (g : PackageDepGraph)
    (stack working_nodes : list string) : outcome (list string) :=
  match stack with
  | [] => Returned working_nodes
  | node :: stack =>
    match fuel with
    | O => Diverged
    | S fuel =>
      if decide (node ∈ working_nodes) then
        closure_loop fuel g stack working_nodes
      else if decide (node ∈ nodes g) then
        let working_nodes := set_add node working_nodes in
        let pushed :=
          filter (λ predecessor, predecessor ∉ working_nodes)
                 (set_iter (get_set (rev g) node)) in
        closure_loop fuel g (reverse pushed ++ stack) working_nodes
      else KeyError node
    end
  end.

Definition closure_fuel (g : PackageDepGraph) (subset : list string) : nat :=
  S (length subset
     + sum_list (map (λ n, length (get_set (rev g) n)) (nodes g))).

(** [in_degree[k]] for a key that is present. *)
Definition deg (in_degree : gmap string Z) (k : string) : Z :=
  default 0 (in_degree !! k).

(** The body of [for follower in self.adj.get(node, ())] when [in_degree]
    is filled. *)
Definition count_step (working_nodes : list string)
    (in_degree : gmap string Z) (follower : string) : gmap string Z :=
  if decide (follower ∈ working_nodes)
  then <[follower := deg in_degree follower + 1]> in_degree
  else in_degree.

(** [in_degree = {node: 0 for ...}] and the two nested [for] loops
    filling it. *)
Definition count_in_degree (g : PackageDepGraph) (working_nodes : list string)
  : gmap string Z :=
  let zero := foldl (λ d node, <[node := 0]> d) (∅ : gmap string Z)
                    (set_iter working_nodes) in
  foldl (λ d node,
           foldl (count_step working_nodes) d (set_iter (get_set (adj g) node)))
        zero (set_iter working_nodes).

Definition priority_of (g : PackageDepGraph) (default_priority : Z)
    (node : string) : Z :=
  default default_priority (order_hint g !! node).

(** The body of [for follower in self.adj.get(node, ())] in the main
    loop. *)
Definition release_step (g : PackageDepGraph) (working_nodes : list string)
    (default_priority : Z) (st : gmap string Z * list key)
    (follower : string) : gmap string Z * list key :=
  let '(in_degree, queue) := st in
  if decide (follower ∈ working_nodes) then
    let in_degree := <[follower := deg in_degree follower - 1]> in_degree in
    if decide (deg in_degree follower = 0) then
      (in_degree,
       heappush queue (priority_of g default_priority follower, follower))
    else (in_degree, queue)
  else (in_degree, queue).

(** That loop. *)
Definition release (g : PackageDepGraph) (working_nodes : list string)
    (default_priority : Z) (node : string)
    (st : gmap string Z * list key) : gmap string Z * list key :=
  foldl (release_step g working_nodes default_priority) st
        (set_iter (get_set (adj g) node)).

(** The [while queue:] loop. *)
Fixpoint kahn_loop (fuel : nat) (g : PackageDepGraph)
    (working_nodes : list string) (default_priority : Z)
    (in_degree : gmap string Z) (queue : list key)
    (sorted_nodes : list string) : option (list string) :=
  match heappop queue with
  | None => Some sorted_nodes
  | Some ((_, node), queue) =>
    match fuel with
    | O => None
    | S fuel =>
      let '(in_degree, queue) :=
        release g working_nodes default_priority node (in_degree, queue) in
      kahn_loop fuel g working_nodes default_priority in_degree queue
                (sorted_nodes ++ [node])
    end
  end.

(** [default_priority = len(self.order_hint) + len(working_nodes) + 5] *)
Definition default_priority (g : PackageDepGraph) (working_nodes : list string)
  : Z :=
  Z.of_nat (size (order_hint g)) + Z.of_nat (length working_nodes) + 5.

(** [for node, degree in in_degree.items(): if degree == 0: heappush(...)];
    the dict lists its keys in the order they were inserted, the order in
    which [working_nodes] was iterated. *)
Definition initial_queue (g : PackageDepGraph) (working_nodes : list string)
    (default_priority : Z) (in_degree : gmap string Z) : list key :=
  foldl (λ queue node,
           if decide (deg in_degree node = 0)
           then heappush queue (priority_of g default_priority node, node)
           else queue)
        [] (set_iter working_nodes).

(** Everything of [topo_sort] after [working_nodes] is known. *)
Definition schedule (g : PackageDepGraph) (working_nodes : list string)
  : outcome (list string) :=
  let in_degree := count_in_degree g working_nodes in
  let default_priority := default_priority g working_nodes in
  let queue := initial_queue g working_nodes default_priority in_degree in
  match kahn_loop (length working_nodes) g working_nodes default_priority
                  in_degree queue [] with
  | None => Diverged
  | Some sorted_nodes =>
    if decide (length sorted_nodes ≠ length working_nodes) then
      CycleDetected (sorted (set_diff working_nodes sorted_nodes))
    else Returned sorted_nodes
  end.

(** [PackageDepGraph.topo_sort] *)
Definition topo_sort (g : PackageDepGraph) (subset : option (list string))
    (include_dependencies : bool) : outcome (list string) :=
  let working :=
    match subset with
    | None => Returned (nodes g)
    | Some subset =>
      closure_loop (closure_fuel g subset) g (reverse subset) []
    end in
  match working with
  | Returned working_nodes =>
    match schedule g working_nodes with
    | Returned sorted_nodes =>
      match subset with
      | None => Returned sorted_nodes
      | Some subset =>
        if include_dependencies then Returned sorted_nodes
        else Returned (filter (λ node, node ∈ subset) sorted_nodes)
      end
    | other => other
    end
  | other => other
  end.

End with_set_order.

(** *** [compute_series_toposort] *)

(** [list.sort(key=...)]: a stable sort; [le a b] compares the keys of [a]
    and [b]. *)
Fixpoint insert_by {A} (le : A → A → bool) (x : A) (l : list A) : list A :=
  match l with
  | [] => [x]
  | y :: l' => if le x y then x :: l else y :: insert_by le x l'
  end.

Definition sort_by {A} (le : A → A → bool) (l : list A) : list A :=
  foldr (insert_by le) [] l.

(** [{name: idx for idx, name in enumerate(topo_all)}] *)
Definition make_topo_index (topo_all : list string) : gmap string Z :=
  foldl (λ m '(idx, name), <[name := Z.of_nat idx]> m) ∅
        (imap (λ idx name, (idx, name)) topo_all).

(** [topo_index[n]], and [topo_index.get(n, 0)]. *)
Definition index_in (topo_index : gmap string Z) (n : string) : Z :=
  default 0 (topo_index !! n).

(** [undirected[a].add(b); undirected[b].add(a)] *)
Definition link (undirected : gmap string (list string)) (a b : string)
  : gmap string (list string) :=
  let undirected := <[a := set_add b (get_set undirected a)]> undirected in
  <[b := set_add a (get_set undirected b)]> undirected.

Section series.
Variable set_iter : list string → list string.

(** The body of [for node in relevant] that fills [undirected]. *)
Definition undirected_step (g : PackageDepGraph) (relevant : list string)
    (undirected : gmap string (list string)) (node : string)
  : gmap string (list string) :=
  let undirected :=
    foldl (λ und follower,
             if decide (follower ∈ relevant) then link und node follower else und)
          undirected (set_iter (get_set (adj g) node)) in
  foldl (λ und predecessor,
           if decide (predecessor ∈ relevant) then link und node predecessor
           else und)
        undirected (set_iter (get_set (rev g) node)).

(** [undirected = {node: set() for node in relevant}] and the loop that
    fills it. *)
Definition make_undirected (g : PackageDepGraph) (relevant : list string)
  : gmap string (list string) :=
  foldl (undirected_step g relevant)
        (foldl (λ und node, <[node := []]> und) ∅ (set_iter relevant))
        (set_iter relevant).

(** The [while stack:] loop that collects one component; the stack is kept
    top first. [None] when the fuel of the model runs out. *)
Fixpoint component_loop (fuel : nat) (undirected : gmap string (list string))
    (stack visited comp : list string) : option (list string * list string) :=
  match stack with
  | [] => Some (visited, comp)
  | cur :: stack =>
    match fuel with
    | O => None
    | S fuel =>
      if decide (cur ∈ visited) then
        component_loop fuel undirected stack visited comp
      else
        let visited := set_add cur visited in
        let comp := comp ++ [cur] in
        let pushed := set_iter (set_diff (get_set undirected cur) visited) in
        component_loop fuel undirected (reverse pushed ++ stack) visited comp
    end
  end.

Definition component_fuel (undirected : gmap string (list string))
    (topo_all : list string) : nat :=
  S (sum_list (map (λ n, length (get_set undirected n)) topo_all)).

(** The body of [for node in topo_all]. *)
Definition series_step (undirected : gmap string (list string))
    (topo_all : list string) (topo_index : gmap string Z)
    (st : option (list (list string) * list string)) (node : string)
  : option (list (list string) * list string) :=
  match st with
  | None => None
  | Some (series, visited) =>
    if decide (node ∈ visited) then st
    else
      match component_loop (component_fuel undirected topo_all) undirected
                           [node] visited [] with
      | None => None
      | Some (visited, comp) =>
        let comp :=
          sort_by (λ a b, index_in topo_index a <=? index_in topo_index b) comp in
        Some (series ++ [comp], visited)
      end
  end.

(** The key [(-len(comp), topo_index.get(comp[0], 0))]; a component is
    never empty. *)
Definition series_key (topo_index : gmap string Z) (comp : list string)
  : Z * Z :=
  (- Z.of_nat (length comp), index_in topo_index (hd "" comp)).

(** The order of Python on pairs of integers. *)
Definition pair_leb (k1 k2 : Z * Z) : bool :=
  (k1.1 <? k2.1) || ((k1.1 =? k2.1) && (k1.2 <=? k2.2)).

Definition series_le (topo_index : gmap string Z) (c1 c2 : list string) : bool :=
  pair_leb (series_key topo_index c1) (series_key topo_index c2).

(** What follows [topo_all = graph.topo_sort(...)] in
    [compute_series_toposort]. *)
Definition series_of (g : PackageDepGraph) (topo_all : list string)
  : option (list (list string)) :=
  match topo_all with
  | [] => Some []
  | _ =>
    let topo_index := make_topo_index topo_all in
    let undirected := make_undirected g topo_all in
    match foldl (series_step undirected topo_all topo_index) (Some ([], []))
                topo_all with
    | None => None
    | Some (series, _) => Some (sort_by (series_le topo_index) series)
    end
  end.

(** The union of [graph.unresolved.values()]. *)
Definition all_unresolved (g : PackageDepGraph) : list string :=
  foldl (λ s deps, foldl (λ s d, set_add d s) s (set_iter deps)) []
        (unresolved g).*2.

(** [compute_series_toposort] *)
Definition compute_series_toposort (fs : control_files)
    (package_dirs : list (string * Path)) (target_packages : list string)
    (order_hint : option (gmap string Z))
  : outcome (list (list string) * list string) :=
  let graph := init package_dirs (default ∅ order_hint) in
  let graph := build_from_control_dirs fs graph None in
  let unresolved := all_unresolved graph in
  match topo_sort set_iter graph (Some target_packages) true with
  | Returned topo_all =>
    match series_of graph topo_all with
    | Some series => Returned (series, unresolved)
    | None => Diverged
    end
  | KeyError k => KeyError k
  | CycleDetected remaining => CycleDetected remaining
  | Diverged => Diverged
  end.

End series.

(** *** The dependency relation and the invariant of the graph record *)

(** [edge g p n]: [p] is a prerequisite of [n] ([n] is in [adj[p]]). *)
Definition edge (g : PackageDepGraph) (p n : string) : Prop :=
  n ∈ get_set (adj g) p.

#[global] Instance edge_dec g p n : Decision (edge g p n).
Proof. unfold edge. apply _. Defined.

(** What [__init__] establishes and [add_edge] between known packages keeps:
    [nodes], [adj[k]] and [rev[k]] are sets, [rev] is [adj] turned around,
    and edges join known packages. *)
Record graph_wf (g : PackageDepGraph) : Prop := {
  wf_nodes : NoDup (nodes g);
  wf_adj : ∀ k, NoDup (get_set (adj g) k);
  wf_rev : ∀ k, NoDup (get_set (rev g) k);
  wf_rev_adj : ∀ p n, p ∈ get_set (rev g) n ↔ edge g p n;
  wf_edge : ∀ p n, edge g p n → p ∈ nodes g ∧ n ∈ nodes g;
  wf_dirs : ∀ n, n ∈ nodes g ↔ n ∈ (package_dirs g).*1
}.

(** The prerequisite closure of a requested subset: the requested packages
    and everything they depend on, directly or not. *)
Definition in_closure (g : PackageDepGraph) (subset : list string)
    (n : string) : Prop :=
  ∃ s, s ∈ subset ∧ rtc (edge g) n s.

(** A dependency cycle through [c]. *)
Definition on_cycle (g : PackageDepGraph) (c : string) : Prop :=
  tc (edge g) c c.

(** [a] stands before [b] in the list [l]. *)
Definition before (l : list string) (a b : string) : Prop :=
  ∃ l1 l2 l3, l = l1 ++ a :: l2 ++ b :: l3.

Lemma get_set_insert (d : gmap string (list string)) k v k' :
  get_set (<[k := v]> d) k' = if decide (k = k') then v else get_set d k'.
Proof.
  unfold get_set. case_decide as H; [subst; by rewrite lookup_insert_eq|].
  by rewrite lookup_insert_ne.
Qed.

Lemma init_nodes_NoDup dirs hint : NoDup (nodes (init dirs hint)).
Proof.
  simpl. generalize (@nil string) (NoDup_nil_2 (A:=string)).
  induction dirs as [|kv dirs IH]; intros s Hs; simpl; [done|].
  apply IH, NoDup_set_add, Hs.
Qed.

Lemma elem_of_init_nodes dirs hint n :
  n ∈ nodes (init dirs hint) ↔ n ∈ dirs.*1.
Proof.
  simpl.
  assert (∀ s, n ∈ foldl (λ s (kv : string * Path), set_add kv.1 s) s dirs
               ↔ n ∈ s ∨ n ∈ dirs.*1) as H.
  { induction dirs as [|kv dirs IH]; intros s; simpl; [set_solver|].
    rewrite IH, elem_of_set_add, elem_of_cons. naive_solver. }
  rewrite H. set_solver.
Qed.

Lemma init_sets_empty (ns : list string) k :
  get_set (foldl (λ m pkg, if m !! pkg is Some _ then m else <[pkg := []]> m)
                 (∅ : gmap string (list string)) ns) k = [].
Proof.
  generalize (∅ : gmap string (list string)) (eq_refl : get_set ∅ k = []).
  induction ns as [|n ns IH]; intros m Hm; simpl; [done|].
  apply IH. destruct (m !! n) eqn:E; [done|].
  rewrite get_set_insert. by case_decide.
Qed.

Lemma init_wf dirs hint : graph_wf (init dirs hint).
Proof.
  split.
  - apply init_nodes_NoDup.
  - intros k. simpl. rewrite init_sets_empty. constructor.
  - intros k. simpl. rewrite init_sets_empty. constructor.
  - intros p n. unfold edge. simpl. rewrite !init_sets_empty. set_solver.
  - intros p n. unfold edge. simpl. rewrite init_sets_empty. set_solver.
  - intros n. apply elem_of_init_nodes.
Qed.

Lemma init_no_edge dirs hint p n : ¬ edge (init dirs hint) p n.
Proof. unfold edge. simpl. rewrite init_sets_empty. apply not_elem_of_nil. Qed.

Lemma edge_add_edge g p n a b :
  edge (add_edge g p n) a b ↔ edge g a b ∨ (p ≠ n ∧ a = p ∧ b = n).
Proof.
  unfold add_edge, edge. case_decide as Hpn; simpl; [naive_solver|].
  rewrite get_set_insert. case_decide; [subst|naive_solver].
  rewrite elem_of_set_add. naive_solver.
Qed.

Lemma add_edge_wf g p n :
  graph_wf g → p ∈ nodes g → n ∈ nodes g → graph_wf (add_edge g p n).
Proof.
  intros [H1 H2 H3 H4 H5 H6] Hp Hn. split.
  - unfold add_edge. by case_decide.
  - unfold add_edge. case_decide; [done|]. simpl. intros k.
    rewrite get_set_insert. case_decide; [by apply NoDup_set_add|done].
  - unfold add_edge. case_decide; [done|]. simpl. intros k.
    rewrite get_set_insert. case_decide; [by apply NoDup_set_add|done].
  - intros a b. rewrite edge_add_edge, <- H4.
    unfold add_edge. case_decide as Hpn; simpl; [naive_solver|].
    rewrite get_set_insert. case_decide; [subst|naive_solver].
    rewrite elem_of_set_add. naive_solver.
  - intros a b [H|(_ & -> & ->)]%edge_add_edge.
    + assert (nodes (add_edge g p n) = nodes g) as ->; [|by apply H5].
      unfold add_edge. by case_decide.
    + unfold add_edge. by case_decide.
  - unfold add_edge. by case_decide.
Qed.

Lemma add_unresolved_wf g pkg dep_pkg :
  graph_wf g → graph_wf (add_unresolved g pkg dep_pkg).
Proof. by intros []. Qed.

Lemma dep_step_wf pkg g dep_pkg :
  graph_wf g → pkg ∈ nodes g → graph_wf (dep_step pkg g dep_pkg).
Proof.
  intros Hwf Hpkg. unfold dep_step.
  case_decide as Hdep; [|by apply add_unresolved_wf].
  case_decide; [|done]. apply add_edge_wf; [done| |done]. by apply Hwf.
Qed.

Lemma dep_step_dirs pkg g dep_pkg :
  package_dirs (dep_step pkg g dep_pkg) = package_dirs g
  ∧ nodes (dep_step pkg g dep_pkg) = nodes g
  ∧ order_hint (dep_step pkg g dep_pkg) = order_hint g.
Proof. unfold dep_step, add_edge. by repeat case_decide. Qed.

(** [g] has the invariant, and the directories, nodes and hints of [g0]. *)
Definition keeps (g0 g : PackageDepGraph) : Prop :=
  graph_wf g ∧ package_dirs g = package_dirs g0 ∧ nodes g = nodes g0
  ∧ order_hint g = order_hint g0.

Lemma fold_keeps {A} (step : PackageDepGraph → A → PackageDepGraph)
    (g0 : PackageDepGraph) (l : list A) (g : PackageDepGraph) :
  (∀ g x, x ∈ l → keeps g0 g → keeps g0 (step g x)) →
  keeps g0 g → keeps g0 (foldl step g l).
Proof.
  revert g. induction l as [|x l IH]; intros g Hstep Hg; simpl; [done|].
  apply IH; [|apply Hstep; [left|done]].
  intros g' y Hy. apply Hstep. by right.
Qed.

Lemma dep_step_keeps g0 pkg g dep_pkg :
  pkg ∈ nodes g0 → keeps g0 g → keeps g0 (dep_step pkg g dep_pkg).
Proof.
  intros Hpkg (Hwf & Hd & Hn & Hh).
  destruct (dep_step_dirs pkg g dep_pkg) as (E1 & E2 & E3).
  split_and!; [|congruence..]. apply dep_step_wf; [done|]. by rewrite Hn.
Qed.

Lemma package_step_keeps fs fields g0 g item :
  item.1 ∈ nodes g0 → keeps g0 g → keeps g0 (package_step fs fields g item).
Proof.
  destruct item as [pkg base_path]. simpl. intros Hpkg Hg.
  destruct (fs base_path) as [content|]; [|done].
  apply fold_keeps; [|done]. intros g2 stanza _ Hg2.
  apply fold_keeps; [|done]. intros g3 field _ Hg3.
  unfold field_step. destruct (stanza !! field) as [raw_value|]; [|done].
  case_decide; [done|].
  apply fold_keeps; [|done]. intros g4 dep_pkg _ Hg4.
  by apply dep_step_keeps.
Qed.

Lemma build_from_control_dirs_keeps fs g fields :
  graph_wf g → keeps g (build_from_control_dirs fs g fields).
Proof.
  intros Hwf. unfold build_from_control_dirs.
  apply fold_keeps; [|done]. intros g1 item Hitem Hg1.
  apply package_step_keeps; [|done].
  apply Hwf, list_elem_of_fmap. eauto.
Qed.

(** The graphs the builder makes satisfy the invariant. *)
Lemma build_from_control_dirs_wf fs dirs hint fields :
  graph_wf (build_from_control_dirs fs (init dirs hint) fields).
Proof. apply build_from_control_dirs_keeps, init_wf. Qed.

(** *** The closure loop *)

Section closure_facts.
Variable set_iter : list string → list string.
Hypothesis set_iter_perm : ∀ s, set_iter s ≡ₚ s.
Variable g : PackageDepGraph.
Hypothesis Hwf : graph_wf g.

(** The predecessors that known packages outside [W] may still push. *)
Definition pending (W : list string) : nat :=
  sum_list (map (λ n, length (get_set (rev g) n))
                (filter (λ n, n ∉ W) (nodes g))).

Lemma pending_add_aux (l : list string) n W :
  NoDup l → n ∉ W →
  (sum_list (map (λ n, length (get_set (rev g) n))
                 (filter (λ m, m ∉ set_add n W) l))
   + (if decide (n ∈ l) then length (get_set (rev g) n) else 0)
   = sum_list (map (λ n, length (get_set (rev g) n))
                  (filter (λ m, m ∉ W) l)))%nat.
Proof. apply (sum_filter_set_add (λ n, length (get_set (rev g) n))). Qed.

Lemma pending_add n W :
  n ∈ nodes g → n ∉ W →
  (pending (set_add n W) + length (get_set (rev g) n) = pending W)%nat.
Proof.
  intros Hn HW. unfold pending.
  rewrite <- (pending_add_aux (nodes g) n W) by (done || apply Hwf).
  by rewrite decide_True.
Qed.

Lemma closure_loop_spec fuel stack W :
  NoDup W → W ⊆ nodes g →
  (length stack + pending W ≤ fuel)%nat →
  (∀ n p, n ∈ W → edge g p n → p ∈ W ∨ p ∈ stack) →
  match closure_loop set_iter fuel g stack W with
  | Returned W' =>
      NoDup W' ∧ W' ⊆ nodes g ∧ W ⊆ W' ∧ stack ⊆ W' ∧
      (∀ n p, n ∈ W' → edge g p n → p ∈ W') ∧
      (∀ n, n ∈ W' → n ∈ W ∨ ∃ s, s ∈ stack ∧ rtc (edge g) n s)
  | KeyError k => head (filter (λ n, n ∉ nodes g) stack) = Some k
  | _ => False
  end.
Proof.
  revert stack W. induction fuel as [|fuel IH]; intros stack W HW Hsub Hfuel Hinv.
  { destruct stack; simpl in *; [|lia]. set_solver. }
  destruct stack as [|node stack]; simpl; [set_solver|].
  simpl in Hfuel. case_decide as HnW.
  { specialize (IH stack W HW Hsub ltac:(lia)).
    destruct (closure_loop set_iter fuel g stack W) as [W'|k|?|] eqn:E.
    - destruct IH as (?&?&?&?&?&Hreach); [set_solver|].
      split_and!; try done; [set_solver|].
      intros n Hn. destruct (Hreach n Hn) as [?|(s&?&?)]; [by left|].
      right. exists s. set_solver.
    - rewrite filter_cons, decide_False by set_solver. apply IH. set_solver.
    - apply IH. set_solver.
    - apply IH. set_solver. }
  case_decide as Hnode; [|by rewrite filter_cons, decide_True].
  set (W2 := set_add node W).
  set (pushed := filter (λ p, p ∉ W2) (set_iter (get_set (rev g) node))).
  assert (∀ p, p ∈ pushed ↔ edge g p node ∧ p ∉ W2) as Hpushed.
  { intros p. unfold pushed.
    rewrite list_elem_of_filter, set_iter_perm, (wf_rev_adj _ Hwf). tauto. }
  assert (length pushed ≤ length (get_set (rev g) node))%nat as Hlen.
  { unfold pushed. etrans; [apply length_filter|]. by rewrite set_iter_perm. }
  pose proof (pending_add node W Hnode HnW) as Hpend. fold W2 in Hpend.
  assert (filter (λ n, n ∉ nodes g) (reverse pushed ++ stack)
          = filter (λ n, n ∉ nodes g) stack) as Hfilter.
  { rewrite filter_app.
    assert (filter (λ n, n ∉ nodes g) (reverse pushed) = []) as ->; [|done].
    apply filter_none. intros p [Hp _]%elem_of_reverse%Hpushed.
    apply (wf_edge _ Hwf) in Hp. naive_solver. }
  assert (NoDup W2) as P1 by (by apply NoDup_set_add).
  assert (W2 ⊆ nodes g) as P2.
  { intros x [->|?]%elem_of_set_add; set_solver. }
  assert (length (reverse pushed ++ stack) + pending W2 ≤ fuel)%nat as P3.
  { rewrite length_app, length_reverse. lia. }
  assert (∀ n p, n ∈ W2 → edge g p n → p ∈ W2 ∨ p ∈ reverse pushed ++ stack)
    as P4.
  { intros n p [->|Hn]%elem_of_set_add Hedge.
    - destruct (decide (p ∈ W2)); [by left|right].
      rewrite elem_of_app, elem_of_reverse, Hpushed. tauto.
    - destruct (Hinv n p Hn Hedge) as [?|[->|?]%elem_of_cons].
      + left. apply elem_of_set_add. tauto.
      + left. apply elem_of_set_add. tauto.
      + right. set_solver. }
  specialize (IH (reverse pushed ++ stack) W2 P1 P2 P3 P4).
  destruct (closure_loop set_iter fuel g (reverse pushed ++ stack) W2)
    as [W'|k|?|] eqn:E; try done.
  - destruct IH as (?&?&HW2&Hst&?&Hreach).
    assert (node ∈ W') by (apply HW2, elem_of_set_add; tauto).
    split_and!; try done.
    + intros x Hx. apply HW2, elem_of_set_add. tauto.
    + intros x [->|Hx]%elem_of_cons; [done|]. apply Hst. set_solver.
    + intros n Hn. destruct (Hreach n Hn) as [[->|?]%elem_of_set_add|(s&Hs&Hrtc)].
      * right. exists node. split; [left|done].
      * by left.
      * right. apply elem_of_app in Hs as [Hs|Hs].
        -- apply elem_of_reverse, Hpushed in Hs as [Hs _].
           exists node. split; [left|]. by eapply rtc_r.
        -- exists s. split; [by right|done].
  - rewrite filter_cons, decide_False by naive_solver.
    by rewrite <- Hfilter.
Qed.

End closure_facts.

(** *** What the main loop computes *)

(** The key a package is pushed with. *)
Definition key_of (g : PackageDepGraph) (D : Z) (n : string) : key :=
  (priority_of g D n, n).

(** [n] is ready once [l] has been emitted: it is scheduled, not emitted,
    and its scheduled prerequisites all are. *)
Definition ready (g : PackageDepGraph) (W l : list string) (n : string) : Prop :=
  n ∈ W ∧ (n ∉ l) ∧ (∀ p, p ∈ W → edge g p n → p ∈ l).

(** The number of scheduled prerequisites of [f] not emitted yet. *)
Definition indeg (g : PackageDepGraph) (W l : list string) (f : string) : nat :=
  length (filter (λ p, edge g p f ∧ p ∉ l) W).

(** The emitted lists of the greedy schedule: each package is ready when
    it is emitted and has the least key of all ready ones. *)
Inductive kahn_trace (g : PackageDepGraph) (W : list string) (D : Z)
  : list string → Prop :=
| kt_nil : kahn_trace g W D []
| kt_snoc l n :
    kahn_trace g W D l →
    ready g W l n →
    (∀ m, ready g W l m → key_le (key_of g D n) (key_of g D m)) →
    kahn_trace g W D (l ++ [n]).

(** A greedy schedule that cannot be extended. *)
Definition kahn_run (g : PackageDepGraph) (W : list string) (D : Z)
    (l : list string) : Prop :=
  kahn_trace g W D l ∧ ∀ n, ¬ ready g W l n.

Lemma deg_insert (d : gmap string Z) k v f :
  deg (<[k := v]> d) f = if decide (k = f) then v else deg d f.
Proof.
  unfold deg. case_decide; [subst; by rewrite lookup_insert_eq|].
  by rewrite lookup_insert_ne.
Qed.

Section trace_facts.
Variable g : PackageDepGraph.
Variable W : list string.
Variable D : Z.

Lemma kahn_trace_sub l : kahn_trace g W D l → NoDup l ∧ l ⊆ W.
Proof.
  induction 1 as [|l n _ [IH1 IH2] (HnW & Hnl & _) _].
  - split; [constructor|set_solver].
  - split; [|set_solver].
    apply NoDup_app. split_and!; [done|set_solver|apply NoDup_singleton].
Qed.

Lemma kahn_trace_prefix l1 l2 : kahn_trace g W D (l1 ++ l2) → kahn_trace g W D l1.
Proof.
  induction l2 as [|x l2 IH] using rev_ind; [by rewrite app_nil_r|].
  rewrite app_assoc. inversion 1 as [E|l n Hl _ _ E].
  - by apply app_cons_not_nil in E.
  - apply app_inj_tail in E as [-> _]. auto.
Qed.

Lemma kahn_trace_greedy l1 n l2 :
  kahn_trace g W D (l1 ++ n :: l2) →
  ready g W l1 n ∧ ∀ m, ready g W l1 m → key_le (key_of g D n) (key_of g D m).
Proof.
  rewrite (cons_middle n l1 l2), app_assoc. intros H%kahn_trace_prefix.
  inversion H as [E|l n' Hl Hr Hm E].
  - by apply app_cons_not_nil in E.
  - apply app_inj_tail in E as [-> ->]. auto.
Qed.

(** Each emitted package stands after its scheduled prerequisites. *)
Lemma kahn_trace_topo l1 n l2 p :
  kahn_trace g W D (l1 ++ n :: l2) → p ∈ W → edge g p n → p ∈ l1.
Proof. intros [(_ & _ & H) _]%kahn_trace_greedy ??. auto. Qed.

Lemma kahn_trace_closed l n p :
  kahn_trace g W D l → n ∈ l → p ∈ W → edge g p n → p ∈ l.
Proof.
  intros Hl (l1 & l2 & ->)%list_elem_of_split Hp He.
  apply elem_of_app. left. eauto using kahn_trace_topo.
Qed.

Lemma kahn_trace_prefix_total l1 l2 :
  kahn_trace g W D l1 → kahn_trace g W D l2 →
  (length l1 ≤ length l2)%nat → l1 `prefix_of` l2.
Proof.
  intros H1. revert l2.
  induction H1 as [|l n H1 IH Hr Hmin]; intros l2 H2 Hlen.
  { apply prefix_nil. }
  rewrite length_app in Hlen. simpl in Hlen.
  destruct (IH l2 H2 ltac:(lia)) as [k ->].
  destruct k as [|m k]; [rewrite app_nil_r in Hlen; lia|].
  apply kahn_trace_greedy in H2 as [Hr2 Hmin2].
  assert (key_of g D n = key_of g D m) as [= _ ->].
  { apply (anti_symm key_le); auto. }
  exists k. by rewrite <- app_assoc.
Qed.

Lemma kahn_run_unique l1 l2 :
  kahn_run g W D l1 → kahn_run g W D l2 → l1 = l2.
Proof.
  assert (∀ a b, kahn_run g W D a → kahn_run g W D b →
                 (length a ≤ length b)%nat → a = b) as Hle.
  { intros a b [Ha Hmax] [Hb _] Hlen.
    destruct (kahn_trace_prefix_total a b Ha Hb Hlen) as [[|m k] ->].
    - by rewrite app_nil_r.
    - apply kahn_trace_greedy in Hb as [Hr _]. by destruct (Hmax m). }
  intros H1 H2. destruct (Nat.le_ge_cases (length l1) (length l2)).
  - by apply Hle.
  - symmetry. by apply Hle.
Qed.

End trace_facts.

Lemma ready_set_ext g W1 W2 l n :
  (∀ x, x ∈ W1 ↔ x ∈ W2) → ready g W1 l n → ready g W2 l n.
Proof. intros HW (?&?&H). split_and!; [by apply HW|done|]. intros p ?%HW. auto. Qed.

Lemma kahn_trace_set_ext g W1 W2 D l :
  (∀ x, x ∈ W1 ↔ x ∈ W2) → kahn_trace g W1 D l → kahn_trace g W2 D l.
Proof.
  intros HW. induction 1 as [|l n _ IH Hr Hmin]; [constructor|].
  constructor; [done|by eapply ready_set_ext|].
  intros m Hm. apply Hmin. eapply ready_set_ext; [|done]. intros x. by rewrite HW.
Qed.

Lemma kahn_run_set_ext g W1 W2 D l :
  (∀ x, x ∈ W1 ↔ x ∈ W2) → kahn_run g W1 D l → kahn_run g W2 D l.
Proof.
  intros HW [H1 H2]. split; [by eapply kahn_trace_set_ext|].
  intros n Hn. apply (H2 n). eapply ready_set_ext; [|done]. intros x. by rewrite HW.
Qed.

(** *** The main loop emits the greedy schedule *)

Section kahn_loop_facts.
Variable set_iter : list string → list string.
Hypothesis set_iter_perm : ∀ s, set_iter s ≡ₚ s.
Variable g : PackageDepGraph.
Hypothesis Hwf : graph_wf g.
Variable W : list string.
Hypothesis HW : NoDup W.
Variable D : Z.

Lemma set_iter_NoDup s : NoDup s → NoDup (set_iter s).
Proof. by rewrite set_iter_perm. Qed.

Lemma elem_of_set_iter x s : x ∈ set_iter s ↔ x ∈ s.
Proof. by rewrite set_iter_perm. Qed.

#[local] Instance key_of_inj : Inj (=) (=) (key_of g D).
Proof. by intros n m [= _ ?]. Qed.

Lemma count_step_fold d fs f :
  NoDup fs →
  deg (foldl (count_step W) d fs) f
  = deg d f + (if decide (f ∈ fs ∧ f ∈ W) then 1 else 0).
Proof.
  intros Hfs. revert d. induction Hfs as [|x fs Hx Hfs IH]; intros d.
  { simpl foldl. rewrite decide_False by set_solver. lia. }
  simpl foldl. rewrite IH. unfold count_step at 1.
  destruct (decide (x ∈ W)) as [HxW|HxW].
  - rewrite deg_insert. destruct (decide (x = f)) as [->|Hne].
    + rewrite decide_False by tauto.
      rewrite decide_True by (split; [left|done]). lia.
    + f_equal. repeat case_decide; set_solver.
  - f_equal. repeat case_decide; set_solver.
Qed.

Lemma count_outer_fold d ps f :
  f ∈ W →
  deg (foldl (λ d node, foldl (count_step W) d (set_iter (get_set (adj g) node)))
             d ps) f
  = deg d f + Z.of_nat (length (filter (λ p, edge g p f) ps)).
Proof.
  intros Hf. revert d. induction ps as [|p ps IH]; intros d; simpl; [lia|].
  rewrite IH, count_step_fold by apply set_iter_NoDup, Hwf.
  rewrite filter_cons. unfold edge at 2.
  destruct (decide (f ∈ get_set (adj g) p)) as [He|He].
  - rewrite decide_True by (by rewrite elem_of_set_iter). simpl. lia.
  - rewrite decide_False by (rewrite elem_of_set_iter; tauto). lia.
Qed.

Lemma deg_zero_fold (d : gmap string Z) (l : list string) f :
  deg d f = 0 → deg (foldl (λ d node, <[node := 0]> d) d l) f = 0.
Proof.
  revert d. induction l as [|x l IH]; intros d Hd; simpl; [done|].
  apply IH. rewrite deg_insert. by case_decide.
Qed.

Lemma count_in_degree_spec f :
  f ∈ W → deg (count_in_degree set_iter g W) f = Z.of_nat (indeg g W [] f).
Proof.
  intros Hf. unfold count_in_degree. rewrite count_outer_fold by done.
  rewrite deg_zero_fold by done. unfold indeg.
  rewrite (set_iter_perm W).
  rewrite (list_filter_iff (λ p, edge g p f) (λ p, edge g p f ∧ p ∉ [])); [lia|].
  set_solver.
Qed.

Lemma release_fold d q fs :
  NoDup fs →
  ∃ d', foldl (release_step g W D) (d, q) fs
        = (d', q ++ map (key_of g D)
                        (filter (λ f, f ∈ W ∧ deg d f - 1 = 0) fs))
        ∧ ∀ f, deg d' f = deg d f - (if decide (f ∈ fs ∧ f ∈ W) then 1 else 0).
Proof.
  intros Hfs. revert d q. induction Hfs as [|x fs Hx Hfs IH]; intros d q.
  { exists d. split; [simpl; by rewrite app_nil_r|]. intros f.
    rewrite decide_False by set_solver. lia. }
  simpl foldl.
  set (d1 := <[x := deg d x - 1]> d).
  assert (filter (λ f, f ∈ W ∧ deg d1 f - 1 = 0) fs
          = filter (λ f, f ∈ W ∧ deg d f - 1 = 0) fs) as Hfilter.
  { apply filter_ext_elem_of. intros f Hf. unfold d1. rewrite deg_insert.
    rewrite decide_False; [done|]. intros ->. done. } 
  assert (∀ f, (if decide (f ∈ fs ∧ f ∈ W) then 1 else 0)
               + (if decide (x = f ∧ x ∈ W) then 1 else 0)
               = (if decide (f ∈ x :: fs ∧ f ∈ W) then 1 else 0)) as Hsum.
  { intros f. destruct (decide (x = f)) as [->|Hne].
    - rewrite (decide_False (P := f ∈ fs ∧ f ∈ W)) by tauto.
      destruct (decide (f ∈ W)).
      + rewrite !decide_True; [lia|split; [left|done]|done].
      + rewrite !decide_False; [lia|tauto|tauto].
    - rewrite (decide_False (P := x = f ∧ x ∈ W)) by tauto.
      rewrite Z.add_0_r. repeat case_decide; set_solver. }
  destruct (decide (x ∈ W)) as [HxW|HxW].
  - assert (deg d1 x = deg d x - 1) as Hd1.
    { unfold d1. rewrite deg_insert. by rewrite decide_True. }
    rewrite filter_cons.
    destruct (decide (deg d1 x = 0)) as [Hz|Hz].
    + destruct (IH d1 (heappush q (key_of g D x))) as (d' & Heq & Hdeg).
      exists d'. split.
      * unfold key_of in Heq at 1. rewrite Heq.
        rewrite decide_True by (split; [done|congruence]).
        unfold heappush. rewrite Hfilter, <- app_assoc. done.
      * intros f. rewrite Hdeg, <- Hsum. unfold d1. rewrite deg_insert.
        repeat case_decide; subst; try lia; tauto.
    + destruct (IH d1 q) as (d' & Heq & Hdeg).
      exists d'. split.
      * rewrite Heq, decide_False by (intros [_ ?]; congruence).
        by rewrite Hfilter.
      * intros f. rewrite Hdeg, <- Hsum. unfold d1. rewrite deg_insert.
        repeat case_decide; subst; try lia; tauto.
  - destruct (IH d q) as (d' & Heq & Hdeg).
    exists d'. split.
    + rewrite Heq, filter_cons, decide_False by tauto. done.
    + intros f. rewrite Hdeg, <- Hsum.
      rewrite (decide_False (P := x = f ∧ x ∈ W)) by tauto. lia.
Qed.

Lemma indeg_snoc_aux (L l : list string) n f :
  NoDup L → n ∉ l →
  length (filter (λ p, edge g p f ∧ p ∉ l) L)
  = (length (filter (λ p, edge g p f ∧ p ∉ l ++ [n]) L)
     + (if decide (n ∈ L ∧ edge g n f) then 1 else 0))%nat.
Proof.
  intros HL Hn. induction HL as [|x L Hx HL IH].
  { rewrite decide_False by set_solver. done. }
  rewrite !filter_cons.
  destruct (decide (x = n)) as [->|Hne].
  - rewrite (decide_False (P := _ ∧ n ∉ l ++ [n])) by set_solver.
    rewrite (decide_False (P := n ∈ L ∧ _)) in IH by tauto.
    destruct (decide (edge g n f)) as [He|He].
    + rewrite decide_True by done.
      rewrite (decide_True (P := n ∈ n :: L ∧ _)) by (split; [left|done]).
      simpl. lia.
    + rewrite decide_False by tauto.
      rewrite (decide_False (P := n ∈ n :: L ∧ _)) by tauto. lia.
  - assert ((x ∉ l ++ [n]) ↔ x ∉ l) as Hiff by set_solver.
    assert ((n ∈ x :: L ∧ edge g n f) ↔ (n ∈ L ∧ edge g n f)) as Hiff2
      by set_solver.
    destruct (decide (edge g x f ∧ x ∉ l)) as [H|H].
    + rewrite (decide_True (P := _ ∧ x ∉ l ++ [n])) by tauto.
      simpl. rewrite IH. repeat case_decide; tauto || lia.
    + rewrite (decide_False (P := _ ∧ x ∉ l ++ [n])) by tauto.
      rewrite IH. repeat case_decide; tauto || lia.
Qed.

Lemma indeg_snoc l n f :
  n ∈ W → n ∉ l →
  indeg g W l f
  = (indeg g W (l ++ [n]) f + (if decide (edge g n f) then 1 else 0))%nat.
Proof.
  intros HnW Hnl. unfold indeg. rewrite (indeg_snoc_aux W l n f HW Hnl).
  f_equal. repeat case_decide; tauto.
Qed.

Lemma indeg_zero l f :
  indeg g W l f = 0%nat ↔ ∀ p, p ∈ W → edge g p f → p ∈ l.
Proof.
  unfold indeg. split.
  - intros H%length_zero_iff_nil p Hp He.
    destruct (decide (p ∈ l)) as [|Hn]; [done|].
    by destruct (filter_nil_not_elem_of _ _ p H).
  - intros H. apply length_zero_iff_nil, filter_none.
    intros p Hp [He Hn]. auto.
Qed.

Lemma ready_indeg l n :
  ready g W l n ↔ n ∈ W ∧ (n ∉ l) ∧ indeg g W l n = 0%nat.
Proof. unfold ready. by rewrite indeg_zero. Qed.

Lemma initial_queue_fold (d : gmap string Z) (q : list key) (ps : list string) :
  foldl (λ queue node,
           if decide (deg d node = 0)
           then heappush queue (priority_of g D node, node) else queue) q ps
  = q ++ map (key_of g D) (filter (λ n, deg d n = 0) ps).
Proof.
  revert q. induction ps as [|p ps IH]; intros q; simpl; [by rewrite app_nil_r|].
  rewrite IH, filter_cons. case_decide; [|done].
  unfold heappush. by rewrite <- app_assoc.
Qed.

(** The state of the loop: what was emitted is a greedy schedule,
    [in_degree] counts the prerequisites still to come, and the heap holds
    the ready packages, each once. *)
Definition kahn_inv (d : gmap string Z) (q : list key) (l : list string) : Prop :=
  kahn_trace g W D l ∧
  (∀ f, f ∈ W → deg d f = Z.of_nat (indeg g W l f)) ∧
  NoDup q ∧
  (∀ x, x ∈ q ↔ ∃ n, x = key_of g D n ∧ ready g W l n).

Lemma kahn_inv_initial :
  let d := count_in_degree set_iter g W in
  kahn_inv d (initial_queue set_iter g W D d) [].
Proof.
  intros d. unfold initial_queue. fold d. rewrite initial_queue_fold. simpl.
  split_and!.
  - constructor.
  - intros f Hf. by apply count_in_degree_spec.
  - apply (NoDup_fmap_2 _). apply NoDup_filter, set_iter_NoDup, HW.
  - intros x. rewrite list_elem_of_fmap. split.
    + intros (n & -> & [Hd Hn]%list_elem_of_filter).
      rewrite elem_of_set_iter in Hn. exists n. split; [done|]. apply ready_indeg. split_and!; [done|set_solver|].
      unfold d in Hd. rewrite count_in_degree_spec in Hd by done. lia.
    + intros (n & -> & (HnW & _ & Hz)%ready_indeg). exists n. split; [done|].
      apply list_elem_of_filter. split; [|by apply elem_of_set_iter].
      unfold d. rewrite count_in_degree_spec by done. lia.
Qed.

Lemma kahn_inv_step d q l pr node q' :
  kahn_inv d q l →
  heappop q = Some ((pr, node), q') →
  ready g W l node ∧
  ∃ d' q'', release set_iter g W D node (d, q') = (d', q'') ∧
            kahn_inv d' q'' (l ++ [node]).
Proof.
  intros (Htr & Hdeg & Hq & Hmem) [Hperm Hmin]%heappop_Some.
  assert ((pr, node) ∈ q) as Hin by (rewrite Hperm; left).
  destruct (proj1 (Hmem _) Hin) as (n & [= -> ->] & Hready).
  fold (key_of g D n) in *. split; [done|].
  destruct Hready as (HnW & Hnl & Hpre).
  assert (NoDup (key_of g D n :: q')) as [Hnq' Hq']%NoDup_cons
    by (by rewrite <- Hperm).
  set (fs := set_iter (get_set (adj g) n)).
  assert (NoDup fs) as Hfs by apply set_iter_NoDup, Hwf.
  assert (∀ f, f ∈ fs ↔ edge g n f) as Hfs_edge
    by (intros f; apply elem_of_set_iter).
  destruct (release_fold d q' fs Hfs) as (d' & Heq & Hd').
  exists d', (q' ++ map (key_of g D) (filter (λ f, f ∈ W ∧ deg d f - 1 = 0) fs)).
  split; [done|].
  assert (∀ f, f ∈ W → deg d' f = Z.of_nat (indeg g W (l ++ [n]) f)) as Hdeg'.
  { intros f Hf. rewrite Hd', (Hdeg f Hf), (indeg_snoc l n f HnW Hnl).
    repeat case_decide; try lia; exfalso; rewrite Hfs_edge in *; tauto. }
  assert (∀ f, edge g n f → f ∈ W → f ∉ l ++ [n]) as Hfresh.
  { intros f He Hf [Hfl| ->%list_elem_of_singleton]%elem_of_app.
    - apply Hnl. by eapply kahn_trace_closed.
    - apply Hnl. by apply Hpre. }
  assert (∀ f, f ∈ filter (λ f, f ∈ W ∧ deg d f - 1 = 0) fs
               ↔ edge g n f ∧ ready g W (l ++ [n]) f) as Hpushed.
  { intros f. rewrite list_elem_of_filter, Hfs_edge. split.
    - intros [[Hf Hz] He]. split; [done|]. apply ready_indeg.
      split_and!; [done|by apply Hfresh|].
      rewrite (Hdeg f Hf), (indeg_snoc l n f HnW Hnl) in Hz.
      rewrite decide_True in Hz by done. lia.
    - intros [He (Hf & _ & Hz)%ready_indeg]. split; [|done]. split; [done|].
      rewrite (Hdeg f Hf), (indeg_snoc l n f HnW Hnl), Hz.
      rewrite decide_True by done. lia. }
  split_and!.
  - constructor; [done|done|].
    intros m Hm. apply Hmin, Hmem. eauto.
  - done.
  - apply NoDup_app. split_and!; [done| |].
    + intros x Hx (f & -> & [He _]%Hpushed)%list_elem_of_fmap.
      assert (key_of g D f ∈ q) as Hfq by (rewrite Hperm; by right).
      apply Hmem in Hfq as (f' & <-%key_of_inj & (_ & _ & Hf)). auto.
    + apply (NoDup_fmap_2 _), NoDup_filter, Hfs.
  - intros x. rewrite elem_of_app, list_elem_of_fmap. split.
    + intros [Hx|(f & -> & [_ Hf]%Hpushed)]; [|eauto].
      assert (x ∈ q) as Hxq by (rewrite Hperm; by right).
      apply Hmem in Hxq as (m & -> & (Hm1 & Hm2 & Hm3)).
      exists m. split; [done|]. split_and!; [done| |set_solver].
      intros [?| ->%list_elem_of_singleton]%elem_of_app; done.
    + intros (m & -> & Hm). destruct (decide (edge g n m)) as [He|He].
      { right. exists m. split; [done|]. by apply Hpushed. }
      left. apply ready_indeg in Hm as (Hm1 & Hm2 & Hm3).
      assert (key_of g D m ∈ q) as Hmq.
      { apply Hmem. exists m. split; [done|]. apply ready_indeg.
        split_and!; [done|set_solver|].
        rewrite (indeg_snoc l n m HnW Hnl), Hm3. by rewrite decide_False. }
      rewrite Hperm in Hmq. apply elem_of_cons in Hmq as [Hmn|]; [|done].
      apply (inj _) in Hmn. subst. set_solver.
Qed.

Lemma kahn_loop_spec fuel d q l :
  kahn_inv d q l → (length W ≤ fuel + length l)%nat →
  ∃ l', kahn_loop set_iter fuel g W D d q l = Some l' ∧ kahn_run g W D l'.
Proof.
  revert d q l. induction fuel as [|fuel IH]; intros d q l Hinv Hfuel.
  - simpl. destruct (heappop q) as [[[pr node] q']|] eqn:Hpop.
    + destruct (kahn_inv_step _ _ _ _ _ _ Hinv Hpop) as [(HnW & Hnl & _) _].
      destruct Hinv as (Htr%kahn_trace_sub & _). destruct Htr as [Hnd Hsub].
      assert (length (node :: l) ≤ length W)%nat; [|simpl in *; lia].
      apply submseteq_length, NoDup_submseteq; [by constructor|set_solver].
    + exists l. split; [done|]. destruct Hinv as (Htr & _ & _ & Hmem).
      split; [done|]. intros n Hn. apply heappop_None in Hpop. subst.
      assert (key_of g D n ∈ []) as ?%elem_of_nil; [|done].
      apply Hmem. eauto.
  - simpl. destruct (heappop q) as [[[pr node] q']|] eqn:Hpop.
    + destruct (kahn_inv_step _ _ _ _ _ _ Hinv Hpop)
        as [_ (d' & q'' & -> & Hinv')].
      apply IH; [done|]. rewrite length_app. simpl. lia.
    + exists l. split; [done|]. destruct Hinv as (Htr & _ & _ & Hmem).
      split; [done|]. intros n Hn. apply heappop_None in Hpop. subst.
      assert (key_of g D n ∈ []) as ?%elem_of_nil; [|done].
      apply Hmem. eauto.
Qed.

End kahn_loop_facts.

(** *** The schedule, cycles and what is left over *)

Lemma schedule_spec set_iter g W :
  (∀ s, set_iter s ≡ₚ s) → graph_wf g → NoDup W →
  ∃ l, kahn_run g W (default_priority g W) l ∧
       schedule set_iter g W
       = if decide (length l ≠ length W)
         then CycleDetected (sorted (set_diff W l)) else Returned l.
Proof.
  intros Hperm Hwf HW. unfold schedule.
  destruct (kahn_loop_spec set_iter Hperm g Hwf W HW (default_priority g W)
              (length W) _ _ [] (kahn_inv_initial set_iter Hperm g Hwf W HW _))
    as (l & -> & Hrun); [simpl; lia|].
  by exists l.
Qed.

Lemma tc_inv_r {A} (R : relation A) x y :
  tc R x y → ∃ z, rtc R x z ∧ R z y.
Proof.
  induction 1 as [x y H|x y z H _ (w & Hw & Hwz)].
  - exists x. split; [done|apply H].
  - exists w. split; [by eapply rtc_l|done].
Qed.

Lemma dup_split (c : list string) :
  ¬ NoDup c → ∃ c1 x c2 c3, c = c1 ++ x :: c2 ++ x :: c3.
Proof.
  induction c as [|a c IH]; intros Hc; [destruct Hc; constructor|].
  destruct (decide (a ∈ c)) as [Ha|Ha].
  - apply list_elem_of_split in Ha as (c2 & c3 & ->). by exists [], a, c2, c3.
  - destruct IH as (c1 & x & c2 & c3 & ->).
    { intros Hc'. apply Hc. by constructor. }
    by exists (a :: c1), x, c2, c3.
Qed.

Section residue_facts.
Variable g : PackageDepGraph.
Variable W : list string.
Variable D : Z.
Hypothesis HW : NoDup W.
(** The scheduled set holds the prerequisites of its members. *)
Hypothesis Hclosed : ∀ n p, n ∈ W → edge g p n → p ∈ W.

Lemma closed_rtc c n : n ∈ W → rtc (edge g) c n → c ∈ W.
Proof.
  intros Hn Hrtc. revert Hn.
  induction Hrtc as [|x y z Hxy _ IH]; [done|]. intros Hz. eauto.
Qed.

Lemma kahn_trace_rtc l c n :
  kahn_trace g W D l → n ∈ l → rtc (edge g) c n → c ∈ l.
Proof.
  intros Htr Hn Hrtc. revert Hn.
  induction Hrtc as [|x y z Hxy Hyz IH]; [done|]. intros Hz.
  specialize (IH Hz). apply (kahn_trace_closed g W D l y x Htr IH); [|done].
  apply (Hclosed y x); [|done].
  apply kahn_trace_sub in Htr as [_ Hsub]. by apply Hsub.
Qed.

(** No emitted package lies on a cycle. *)
Lemma kahn_trace_no_cycle l x :
  kahn_trace g W D l → x ∈ l → ¬ on_cycle g x.
Proof.
  induction 1 as [|l n Htr IH (HnW & Hnl & Hpre) _]; [by intros ?%elem_of_nil|].
  intros [Hx| ->%list_elem_of_singleton]%elem_of_app; [by apply IH|].
  intros (p & Hnp & Hpn)%tc_inv_r.
  apply Hnl. eapply kahn_trace_rtc; [done| |done]. eauto.
Qed.

(** Nor one that depends on a cycle. *)
Lemma kahn_trace_not_below_cycle l c n :
  kahn_trace g W D l → on_cycle g c → rtc (edge g) c n → n ∉ l.
Proof.
  intros Htr Hc Hrtc Hn.
  eapply kahn_trace_no_cycle; [done| |done]. by eapply kahn_trace_rtc.
Qed.

(** A package left over has a prerequisite that is left over. *)
Lemma residue_pred l n :
  kahn_run g W D l → n ∈ W → n ∉ l →
  ∃ p, edge g p n ∧ p ∈ W ∧ p ∉ l.
Proof.
  intros [Htr Hmax] HnW Hnl.
  destruct (decide (indeg g W l n = 0%nat)) as [Hz|Hz].
  { destruct (Hmax n). apply ready_indeg; done. }
  unfold indeg in Hz.
  destruct (filter _ W) as [|p ps] eqn:E; [done|].
  assert (p ∈ filter (λ p, edge g p n ∧ p ∉ l) W) as Hp by (rewrite E; left).
  apply list_elem_of_filter in Hp as [[? ?] ?]. eauto.
Qed.

(** Walking back from a package left over, [k] steps and more. *)
Lemma residue_chain l n k :
  kahn_run g W D l → n ∈ W → n ∉ l →
  ∃ c, length c = S k ∧ (∀ x, x ∈ c → x ∈ W ∧ x ∉ l) ∧
       ∀ c1 a c2, c = c1 ++ a :: c2 →
                  rtc (edge g) a n ∧ ∀ b, b ∈ c2 → tc (edge g) a b.
Proof.
  intros Hrun HnW Hnl. induction k as [|k (c & Hlen & HR & Hc)].
  - exists [n]. split_and!; [done|set_solver|].
    intros [|? [|??]] a c2 [= <- <-]; split; [done|set_solver].
  - destruct c as [|h c]; [done|].
    destruct (HR h ltac:(left)) as [HhW Hhl].
    destruct (residue_pred l h Hrun HhW Hhl) as (p & Hph & HpW & Hpl).
    destruct (Hc [] h c eq_refl) as [Hhn Hhc].
    exists (p :: h :: c). split_and!.
    + simpl in *. lia.
    + intros x [->|Hx]%elem_of_cons; auto.
    + intros [|? c1] a c2 [= <- E].
      * subst c2. split; [by eapply rtc_l|].
        intros b [->|Hb]%elem_of_cons; [by apply tc_once|].
        eapply tc_l; [done|]. by apply Hhc.
      * by apply Hc in E.
Qed.

(** Every package left over depends on a cycle. *)
Lemma residue_below_cycle l n :
  kahn_run g W D l → n ∈ W → n ∉ l →
  ∃ c, on_cycle g c ∧ rtc (edge g) c n.
Proof.
  intros Hrun HnW Hnl.
  destruct (residue_chain l n (length W) Hrun HnW Hnl) as (c & Hlen & HR & Hc).
  destruct (dup_split c) as (c1 & x & c2 & c3 & ->).
  { intros Hnd. assert (length c ≤ length W)%nat; [|lia].
    apply submseteq_length, NoDup_submseteq; [done|]. intros y Hy. by apply HR. }
  destruct (Hc c1 x (c2 ++ x :: c3) eq_refl) as [Hxn Hx].
  exists x. split; [|done]. apply Hx. set_solver.
Qed.

(** The packages left over are the scheduled ones that depend on a cycle. *)
Lemma residue_spec l n :
  kahn_run g W D l →
  (n ∈ W ∧ n ∉ l) ↔ (n ∈ W ∧ ∃ c, on_cycle g c ∧ rtc (edge g) c n).
Proof.
  intros Hrun. split.
  - intros [? ?]. split; [done|]. by eapply residue_below_cycle.
  - intros [? (c & ? & ?)]. split; [done|].
    destruct Hrun as [Htr _]. by eapply kahn_trace_not_below_cycle.
Qed.

Lemma kahn_run_length l :
  kahn_run g W D l →
  length l = length W ↔ ∀ n, n ∈ W → n ∈ l.
Proof.
  intros [[Hnd Hsub]%kahn_trace_sub _]. split.
  - intros Hlen n Hn.
    assert (l ≡ₚ W) as ->; [|done].
    apply submseteq_length_Permutation; [|lia].
    by apply NoDup_submseteq.
  - intros Hall. apply Nat.le_antisymm.
    + by apply submseteq_length, NoDup_submseteq.
    + by apply submseteq_length, NoDup_submseteq.
Qed.

End residue_facts.

(** *** [topo_sort] as a whole *)

Section topo_sort_facts.
Variable set_iter : list string → list string.
Hypothesis set_iter_perm : ∀ s, set_iter s ≡ₚ s.
Variable g : PackageDepGraph.
Hypothesis Hwf : graph_wf g.

Lemma pending_nil : pending g [] = sum_list (map (λ n, length (get_set (rev g) n)) (nodes g)).
Proof.
  unfold pending. f_equal. f_equal.
  induction (nodes g) as [|x l IH]; [done|].
  rewrite filter_cons_True by set_solver. by f_equal.
Qed.

(** The first loop either meets an unknown package, the last one of
    [subset] that is unknown, or ends with the prerequisite closure. *)
Lemma closure_result subset :
  match closure_loop set_iter (closure_fuel g subset) g (reverse subset) [] with
  | Returned W =>
      NoDup W ∧ (∀ s, s ∈ subset → s ∈ nodes g) ∧
      (∀ n, n ∈ W ↔ in_closure g subset n) ∧
      (∀ n p, n ∈ W → edge g p n → p ∈ W)
  | KeyError k => head (filter (λ n, n ∉ nodes g) (reverse subset)) = Some k
  | _ => False
  end.
Proof.
  pose proof (closure_loop_spec set_iter set_iter_perm g Hwf
                (closure_fuel g subset) (reverse subset) []) as H.
  specialize (H (NoDup_nil_2 (A:=string))).
  specialize (H ltac:(set_solver)).
  specialize (H ltac:(rewrite pending_nil, length_reverse;
                      unfold closure_fuel; lia)).
  specialize (H ltac:(set_solver)).
  destruct (closure_loop _ _ _ _ _) as [W|k|?|]; try done.
  destruct H as (Hnd & Hsub & _ & Hst & Hcl & Hreach).
  split_and!; [done| | |done].
  - intros s Hs. apply Hsub, Hst. by apply elem_of_reverse.
  - intros n. split.
    + intros [?%elem_of_nil|(s & Hs & Hrtc)]%Hreach; [done|].
      rewrite elem_of_reverse in Hs. by exists s.
    + intros (s & Hs & Hrtc). apply (closed_rtc g W Hcl n s); [|done].
      by apply Hst, elem_of_reverse.
Qed.

Lemma nodes_closed n p : n ∈ nodes g → edge g p n → p ∈ nodes g.
Proof. intros _ He. by apply (wf_edge _ Hwf) in He as [? _]. Qed.

(** The model's loops are given enough fuel. *)
Lemma topo_sort_total subset include_dependencies :
  topo_sort set_iter g subset include_dependencies ≠ Diverged.
Proof.
  unfold topo_sort. destruct subset as [subset|].
  - pose proof (closure_result subset) as H.
    destruct (closure_loop _ _ _ _ _) as [W|k|?|]; try done.
    destruct H as (HW & _).
    destruct (schedule_spec set_iter g W set_iter_perm Hwf HW) as (l & _ & ->).
    by repeat case_decide; destruct include_dependencies.
  - destruct (schedule_spec set_iter g (nodes g) set_iter_perm Hwf
                (wf_nodes _ Hwf)) as (l & _ & ->).
    by case_decide.
Qed.

End topo_sort_facts.

Lemma sorted_set_diff_ext W1 W2 l :
  W1 ≡ₚ W2 → sorted (set_diff W1 l) = sorted (set_diff W2 l).
Proof.
  intros HW. apply (StronglySorted_unique str_le); try apply sorted_ascending.
  rewrite !sorted_perm. unfold set_diff. by rewrite HW.
Qed.

Lemma schedule_ext set_iter1 set_iter2 g W1 W2 :
  (∀ s, set_iter1 s ≡ₚ s) → (∀ s, set_iter2 s ≡ₚ s) → graph_wf g →
  NoDup W1 → W1 ≡ₚ W2 →
  schedule set_iter1 g W1 = schedule set_iter2 g W2.
Proof.
  intros H1 H2 Hwf HW1 HW.
  assert (NoDup W2) as HW2 by (by rewrite <- HW).
  destruct (schedule_spec set_iter1 g W1 H1 Hwf HW1) as (l1 & Hr1 & ->).
  destruct (schedule_spec set_iter2 g W2 H2 Hwf HW2) as (l2 & Hr2 & ->).
  assert (default_priority g W1 = default_priority g W2) as HD.
  { unfold default_priority. by rewrite HW. }
  assert (l1 = l2) as ->.
  { eapply kahn_run_unique; [done|]. rewrite HD.
    eapply kahn_run_set_ext; [|done]. intros x. by rewrite HW. }
  by rewrite (sorted_set_diff_ext W1 W2 l2 HW), (Permutation_length HW).
Qed.

(** The result of [topo_sort] does not depend on the order in which sets
    are iterated. *)
Lemma topo_sort_set_order set_iter1 set_iter2 g subset include_dependencies :
  (∀ s, set_iter1 s ≡ₚ s) → (∀ s, set_iter2 s ≡ₚ s) → graph_wf g →
  topo_sort set_iter1 g subset include_dependencies
  = topo_sort set_iter2 g subset include_dependencies.
Proof.
  intros H1 H2 Hwf. unfold topo_sort. destruct subset as [subset|].
  - pose proof (closure_result set_iter1 H1 g Hwf subset) as R1.
    pose proof (closure_result set_iter2 H2 g Hwf subset) as R2.
    destruct (closure_loop set_iter1 _ _ _ _) as [W1|k1|?|];
      destruct (closure_loop set_iter2 _ _ _ _) as [W2|k2|?|]; try done.
    + destruct R1 as (HW1 & _ & HM1 & _), R2 as (HW2 & _ & HM2 & _).
      rewrite (schedule_ext set_iter1 set_iter2 g W1 W2); try done.
      apply NoDup_Permutation; [done..|]. intros x. by rewrite HM1, HM2.
    + destruct R1 as (_ & Hs & _).
      apply head_Some_elem_of, list_elem_of_filter in R2 as [Hk Hin].
      destruct Hk. by apply Hs, elem_of_reverse.
    + destruct R2 as (_ & Hs & _).
      apply head_Some_elem_of, list_elem_of_filter in R1 as [Hk Hin].
      destruct Hk. by apply Hs, elem_of_reverse.
    + congruence.
  - by rewrite (schedule_ext set_iter1 set_iter2 g (nodes g) (nodes g))
      by (done || apply Hwf).
Qed.

(** A requested name that is no known package makes [topo_sort] raise
    [KeyError], naming the last such name of [subset]. *)
Lemma topo_sort_unknown set_iter g subset include_dependencies k :
  (∀ s, set_iter s ≡ₚ s) → graph_wf g →
  head (filter (λ n, n ∉ nodes g) (reverse subset)) = Some k →
  topo_sort set_iter g (Some subset) include_dependencies = KeyError k.
Proof.
  intros Hperm Hwf Hk. unfold topo_sort.
  pose proof (closure_result set_iter Hperm g Hwf subset) as R.
  destruct (closure_loop set_iter _ _ _ _) as [W|k'|?|]; try done; [|congruence].
  destruct R as (_ & Hs & _).
  apply head_Some_elem_of, list_elem_of_filter in Hk as [Hk Hin].
  destruct Hk. by apply Hs, elem_of_reverse.
Qed.

(** What [topo_sort(subset, include_dependencies=True)] goes through: the
    closure [W] and the greedy schedule [l] of [W]. *)
Lemma topo_sort_run set_iter g subset :
  (∀ s, set_iter s ≡ₚ s) → graph_wf g → (∀ s, s ∈ subset → s ∈ nodes g) →
  ∃ W l, NoDup W ∧ (∀ n, n ∈ W ↔ in_closure g subset n) ∧
         (∀ n p, n ∈ W → edge g p n → p ∈ W) ∧
         kahn_run g W (default_priority g W) l ∧
         topo_sort set_iter g (Some subset) true
         = if decide (length l ≠ length W)
           then CycleDetected (sorted (set_diff W l)) else Returned l.
Proof.
  intros Hperm Hwf Hsub. unfold topo_sort.
  pose proof (closure_result set_iter Hperm g Hwf subset) as R.
  destruct (closure_loop set_iter _ _ _ _) as [W|k|?|]; try done.
  - destruct R as (HW & _ & HM & Hcl).
    destruct (schedule_spec set_iter g W Hperm Hwf HW) as (l & Hrun & ->).
    exists W, l. split_and!; try done. by case_decide.
  - apply head_Some_elem_of, list_elem_of_filter in R as [Hk Hin].
    destruct Hk. by apply Hsub, elem_of_reverse.
Qed.

(** C1. For a dependency graph and a requested subset of its packages:
    when the prerequisite closure of the subset has no cycle,
    [topo_sort(subset, include_dependencies=True)] returns a list that holds
    every package of the closure exactly once, each after all of its
    prerequisites; when the closure has a cycle, it raises the
    cycle-detected error, naming (in ascending order, each once) exactly
    the packages of the closure that cannot be ordered: those that lie on
    a cycle or depend on one. *)
Theorem topo_sort_closure_order set_iter g subset :
  (∀ s, set_iter s ≡ₚ s) → graph_wf g → (∀ s, s ∈ subset → s ∈ nodes g) →
  ((∀ c, in_closure g subset c → ¬ on_cycle g c) →
   ∃ l, topo_sort set_iter g (Some subset) true = Returned l ∧
        NoDup l ∧
        (∀ n, n ∈ l ↔ in_closure g subset n) ∧
        (∀ p n, n ∈ l → edge g p n → before l p n))
  ∧
  ((∃ c, in_closure g subset c ∧ on_cycle g c) →
   ∃ remaining,
     topo_sort set_iter g (Some subset) true = CycleDetected remaining ∧
     remaining ≠ [] ∧ StronglySorted str_le remaining ∧ NoDup remaining ∧
     (∀ n, n ∈ remaining ↔
           in_closure g subset n ∧ ∃ c, on_cycle g c ∧ rtc (edge g) c n)).
Proof.
  intros Hperm Hwf Hsub.
  destruct (topo_sort_run set_iter g subset Hperm Hwf Hsub)
    as (W & l & HW & HM & Hcl & Hrun & ->).
  pose proof (kahn_run_length g W _ HW l Hrun) as Hlen.
  pose proof (λ n, residue_spec g W _ HW Hcl l n Hrun) as Hres.
  destruct Hrun as [Htr Hmax]. pose proof (kahn_trace_sub _ _ _ _ Htr) as [Hnd Hl].
  split.
  - intros Hacyclic.
    assert (∀ n, n ∈ W → n ∈ l) as Hall.
    { intros n Hn. destruct (decide (n ∈ l)) as [|Hnl]; [done|].
      destruct (proj1 (Hres n) (conj Hn Hnl)) as (_ & c & Hc & Hcn).
      destruct (Hacyclic c); [|done].
      apply HM. eapply closed_rtc; [apply Hcl| |done]. done. }
    exists l. rewrite decide_False by (apply Hlen in Hall; lia).
    split_and!; [done|done| |].
    + intros n. rewrite <- HM. split; [apply Hl|apply Hall].
    + intros p n Hn He.
      apply list_elem_of_split in Hn as (l1 & l2 & ->).
      assert (p ∈ l1) as (a & b & ->)%list_elem_of_split.
      { eapply kahn_trace_topo; [done| |done].
        eapply Hcl; [|done]. apply Hl. set_solver. }
      exists a, b, l2. by rewrite <- app_assoc.
  - intros (c & Hc%HM & Hcyc).
    assert (c ∉ l) as Hcl'.
    { eapply kahn_trace_not_below_cycle; [apply Hcl|done..]. }
    exists (sorted (set_diff W l)).
    rewrite decide_True by (intros Heq; apply Hcl', (proj1 Hlen Heq c Hc)).
    split_and!; [done| |apply sorted_ascending| |].
    + intros Hnil.
      assert (c ∈ sorted (set_diff W l)) as Hin
        by (by apply elem_of_sorted, elem_of_set_diff).
      rewrite Hnil in Hin. by apply elem_of_nil in Hin.
    + rewrite sorted_perm. by apply NoDup_filter.
    + intros n. rewrite elem_of_sorted, elem_of_set_diff, <- HM. by apply Hres.
Qed.

(** The reading of "ties among un-hinted nodes follow discovery order":
    of two un-hinted packages that are ready from the start, the one
    pushed on the heap first is emitted first. *)
Definition ties_follow_discovery_order (set_iter : list string → list string)
    (g : PackageDepGraph) : Prop :=
  ∀ l a b,
    topo_sort set_iter g None true = Returned l →
    order_hint g !! a = None → order_hint g !! b = None →
    before (initial_queue set_iter g (nodes g) (default_priority g (nodes g))
              (count_in_degree set_iter g (nodes g))).*2 a b →
    before l a b.

(** Two packages without dependencies and without hints, [b] known (and
    iterated) before [a]. *)
Definition graph_b_a : PackageDepGraph :=
  init [("b", "/src/b"); ("a", "/src/a")] ∅.

(** C9, as stated, fails: [b] is discovered before [a], and [a] is
    emitted first, because the heap compares [(priority, name)] pairs and
    the two priorities are equal. *)
Lemma ties_follow_discovery_order_fails :
  ¬ ties_follow_discovery_order id graph_b_a.
Proof.
  intros H.
  destruct (H ["a"; "b"] "b" "a" eq_refl eq_refl eq_refl) as (l1 & l2 & l3 & E).
  { by exists [], [], []. }
  destruct l1 as [|x [|y [|z l1]]]; simplify_eq/=;
    destruct l2 as [|? [|? ?]]; simplify_eq/=.
Qed.

(** C9, as the code has it. Whenever a package [a] is emitted while
    another package [b] is ready too (every prerequisite of [b] has been
    emitted), [a] has the lesser [(priority, name)] pair, the priority being
    the hint or, without a hint,
    [len(order_hint) + len(working_nodes) + 5]: two hinted packages go in
    ascending hint value, an un-hinted one goes after every ready hinted
    one whose hint is below that default (after all of them when hints are
    positions below [len(order_hint)]), and a tie on the priority, so every
    tie among un-hinted packages, goes in ascending name. Nothing of this
    depends on the order in which sets are iterated. *)
Theorem topo_sort_tie_break set_iter set_iter' g subset l l1 a l2 b l3 :
  (∀ s, set_iter s ≡ₚ s) → (∀ s, set_iter' s ≡ₚ s) → graph_wf g →
  topo_sort set_iter g subset true = Returned l →
  l = l1 ++ a :: l2 ++ b :: l3 →
  (∀ p, edge g p b → p ∈ l1) →
  let D := Z.of_nat (size (order_hint g)) + Z.of_nat (length l) + 5 in
  topo_sort set_iter' g subset true = Returned l ∧
  match order_hint g !! a, order_hint g !! b with
  | Some ha, Some hb => ha < hb ∨ (ha = hb ∧ str_le a b)
  | Some ha, None => ha < D ∨ (ha = D ∧ str_le a b)
  | None, Some hb => D < hb ∨ (D = hb ∧ str_le a b)
  | None, None => str_le a b
  end ∧
  ((∀ n h, order_hint g !! n = Some h → h < Z.of_nat (size (order_hint g))) →
   order_hint g !! a = None → order_hint g !! b = None).
Proof.
  intros Hperm Hperm' Hwf Hret -> Hready D.
  split; [by rewrite <- (topo_sort_set_order set_iter set_iter')|].
  assert (∃ W, NoDup W ∧ kahn_run g W (default_priority g W)
                            (l1 ++ a :: l2 ++ b :: l3)
               ∧ length (l1 ++ a :: l2 ++ b :: l3) = length W)
    as (W & HW & [Htr _] & Hlen).
  { unfold topo_sort in Hret. destruct subset as [subset|].
    - pose proof (closure_result set_iter Hperm g Hwf subset) as R.
      destruct (closure_loop set_iter _ _ _ _) as [W|k|?|]; try done.
      destruct R as (HW & _).
      destruct (schedule_spec set_iter g W Hperm Hwf HW) as (l & Hrun & E).
      rewrite E in Hret. exists W. case_decide as Hl; simplify_eq.
      split_and!; done.
    - destruct (schedule_spec set_iter g (nodes g) Hperm Hwf (wf_nodes _ Hwf))
        as (l & Hrun & E).
      rewrite E in Hret. exists (nodes g). case_decide as Hl; simplify_eq.
      split_and!; [apply Hwf|done|done]. }
  assert (default_priority g W = D) as HD.
  { unfold default_priority, D. by rewrite Hlen. }
  rewrite HD in Htr.
  pose proof (kahn_trace_sub _ _ _ _ Htr) as [Hnd Hsub].
  apply kahn_trace_greedy in Htr as [_ Hmin].
  assert (key_le (key_of g D a) (key_of g D b)) as Hle.
  { apply Hmin. split_and!.
    - apply Hsub. set_solver.
    - intros Hb. apply NoDup_app in Hnd as (_ & Hnd & _).
      apply (Hnd b Hb). set_solver.
    - intros p _. apply Hready. }
  apply key_le_cases in Hle. unfold key_of, priority_of in Hle. simpl in Hle.
  split.
  - destruct (order_hint g !! a), (order_hint g !! b); simpl in Hle; try done.
    destruct Hle as [?|[_ ?]]; [lia|done].
  - intros Hrange Ha. rewrite Ha in Hle.
    destruct (order_hint g !! b) as [hb|] eqn:Hb; [|done].
    apply Hrange in Hb. simpl in Hle. unfold D in Hle. lia.
Qed.

(** *** The scenario of three control files *)

Definition LF : string := String "010" EmptyString.

Definition control_A : string :=
  "Package: A" +:+ LF +:+ "Depends: B, C (>= 1.0)" +:+ LF.
Definition control_B : string :=
  "Package: B" +:+ LF.
Definition control_C : string :=
  "Package: C" +:+ LF +:+ "Build-Depends: B | D" +:+ LF.

Definition scenario_dirs : list (string * Path) :=
  [("A", "/src/A"); ("B", "/src/B"); ("C", "/src/C")].

Definition scenario_files : control_files :=
  λ base_path,
    if decide (base_path = "/src/A") then Some control_A
    else if decide (base_path = "/src/B") then Some control_B
    else if decide (base_path = "/src/C") then Some control_C
    else None.

(** [graph = PackageDepGraph(package_dirs); graph.build_from_control_dirs()] *)
Definition scenario_graph : PackageDepGraph :=
  build_from_control_dirs scenario_files (init scenario_dirs ∅) None.

Lemma scenario_graph_wf : graph_wf scenario_graph.
Proof. apply build_from_control_dirs_wf. Qed.

Lemma scenario_graph_adj :
  adj scenario_graph
  = <["B" := ["A"; "C"]]> (<["C" := ["A"]]> (<["A" := []]> ∅)).
Proof. apply map_eq. intros k. vm_compute adj. reflexivity. Qed.

(** C7. With control files declaring [A] with [Depends: B, C (>= 1.0)],
    [B] without dependencies and [C] with [Build-Depends: B | D], where
    [A], [B] and [C] are the known packages, [build_from_control_dirs] adds
    the edges B→A, C→A and B→C and no other (the alternative [D] is never
    looked at, the version constraint is cut off), and
    [topo_sort(["A"], include_dependencies=True)] returns [[B, C, A]],
    whatever the order in which sets are iterated. *)
Theorem scenario_edges_and_order set_iter :
  (∀ s, set_iter s ≡ₚ s) →
  (∀ p n, edge scenario_graph p n ↔
          (p = "B" ∧ n = "A") ∨ (p = "C" ∧ n = "A") ∨ (p = "B" ∧ n = "C"))
  ∧ unresolved scenario_graph = []
  ∧ topo_sort set_iter scenario_graph (Some ["A"]) true
    = Returned ["B"; "C"; "A"].
Proof.
  intros Hperm. split_and!.
  - intros p n. unfold edge. rewrite scenario_graph_adj, !get_set_insert.
    repeat case_decide; subst; unfold get_set; rewrite ?lookup_empty; simpl;
      rewrite ?elem_of_cons, ?elem_of_nil; naive_solver.
  - by vm_compute.
  - rewrite (topo_sort_set_order set_iter id) by (done || apply scenario_graph_wf).
    by vm_compute.
Qed.

Lemma scenario_edges_and_order_witness :
  (∀ p n, edge scenario_graph p n ↔
          (p = "B" ∧ n = "A") ∨ (p = "C" ∧ n = "A") ∨ (p = "B" ∧ n = "C"))
  ∧ unresolved scenario_graph = []
  ∧ topo_sort reverse scenario_graph (Some ["A"]) true
    = Returned ["B"; "C"; "A"].
Proof.
  apply (scenario_edges_and_order reverse).
  intros s. apply reverse_Permutation.
Defined.

(** *** The theorems at concrete graphs *)

Lemma topo_sort_closure_order_witness :
  ((∀ c, in_closure scenario_graph ["A"] c → ¬ on_cycle scenario_graph c) →
   ∃ l, topo_sort id scenario_graph (Some ["A"]) true = Returned l ∧
        NoDup l ∧
        (∀ n, n ∈ l ↔ in_closure scenario_graph ["A"] n) ∧
        (∀ p n, n ∈ l → edge scenario_graph p n → before l p n))
  ∧
  ((∃ c, in_closure scenario_graph ["A"] c ∧ on_cycle scenario_graph c) →
   ∃ remaining,
     topo_sort id scenario_graph (Some ["A"]) true = CycleDetected remaining ∧
     remaining ≠ [] ∧ StronglySorted str_le remaining ∧ NoDup remaining ∧
     (∀ n, n ∈ remaining ↔
           in_closure scenario_graph ["A"] n
           ∧ ∃ c, on_cycle scenario_graph c ∧ rtc (edge scenario_graph) c n)).
Proof.
  apply (topo_sort_closure_order id scenario_graph ["A"]).
  - reflexivity.
  - apply scenario_graph_wf.
  - intros s Hs. apply list_elem_of_singleton in Hs. subst s.
    vm_compute. left.
Defined.

(** Three packages without dependencies: [y] and [z] hinted, [x] not. *)
Definition graph_hinted : PackageDepGraph :=
  init [("x", "/src/x"); ("y", "/src/y"); ("z", "/src/z")]
       (<["y" := 0]> (<["z" := 1]> ∅)).

Lemma topo_sort_tie_break_witness :
  let D := Z.of_nat (size (order_hint graph_hinted))
           + Z.of_nat (length ["y"; "z"; "x"]) + 5 in
  topo_sort reverse graph_hinted None true = Returned ["y"; "z"; "x"] ∧
  match order_hint graph_hinted !! "z", order_hint graph_hinted !! "x" with
  | Some ha, Some hb => ha < hb ∨ (ha = hb ∧ str_le "z" "x")
  | Some ha, None => ha < D ∨ (ha = D ∧ str_le "z" "x")
  | None, Some hb => D < hb ∨ (D = hb ∧ str_le "z" "x")
  | None, None => str_le "z" "x"
  end ∧
  ((∀ n h, order_hint graph_hinted !! n = Some h →
           h < Z.of_nat (size (order_hint graph_hinted))) →
   order_hint graph_hinted !! "z" = None →
   order_hint graph_hinted !! "x" = None).
Proof.
  apply (topo_sort_tie_break id reverse graph_hinted None
           ["y"; "z"; "x"] ["y"] "z" [] "x" []).
  - reflexivity.
  - intros s. apply reverse_Permutation.
  - apply init_wf.
  - vm_compute. reflexivity.
  - reflexivity.
  - intros p Hp. by apply init_no_edge in Hp.
Defined.

(** *** Facts about [compute_series_toposort] *)

Section sort_by_facts.
Context {A : Type} (le : A → A → bool).

Lemma insert_by_perm x l : insert_by le x l ≡ₚ x :: l.
Proof.
  induction l as [|y l IH]; simpl; [done|].
  destruct (le x y); [done|]. rewrite IH. apply Permutation_swap.
Qed.

Lemma sort_by_perm l : sort_by le l ≡ₚ l.
Proof.
  induction l as [|x l IH]; simpl; [done|].
  by rewrite insert_by_perm, IH.
Qed.

Hypothesis le_total : ∀ a b, le a b = false → le b a = true.

Lemma insert_by_sorted x l :
  Sorted (λ a b, le a b = true) l → Sorted (λ a b, le a b = true) (insert_by le x l).
Proof.
  induction 1 as [|y l Hl IH Hhd]; simpl; [by repeat constructor|].
  destruct (le x y) eqn:E.
  - constructor; [by constructor|]. by constructor.
  - constructor; [done|].
    destruct Hhd as [|z l Hyz]; simpl.
    + constructor. by apply le_total.
    + destruct (le x z); constructor; [by apply le_total|done].
Qed.

Lemma sort_by_sorted l : Sorted (λ a b, le a b = true) (sort_by le l).
Proof.
  induction l as [|x l IH]; simpl; [constructor|]. by apply insert_by_sorted.
Qed.

End sort_by_facts.

Lemma make_topo_index_lookup (l : list string) i n :
  NoDup l → l !! i = Some n → make_topo_index l !! n = Some (Z.of_nat i).
Proof.
  unfold make_topo_index.
  assert (∀ (m : gmap string Z) k,
    NoDup l → l !! i = Some n →
    foldl (λ m '(idx, name), <[name := Z.of_nat idx]> m) m
          (imap (λ idx name, (k + idx, name)%nat) l) !! n
    = Some (Z.of_nat (k + i))) as H.
  { clear. revert i. induction l as [|x l IH]; intros i m k Hnd Hi; [done|].
    apply NoDup_cons in Hnd as [Hx Hnd]. simpl.
    destruct i as [|i]; simpl in Hi.
    - injection Hi as ->. rewrite Nat.add_0_r.
      assert (∀ (m : gmap string Z) (l' : list (nat * string)),
                n ∉ l'.*2 → m !! n = Some (Z.of_nat k) →
                foldl (λ m '(idx, name), <[name := Z.of_nat idx]> m) m l' !! n
                = Some (Z.of_nat k)) as Hkeep.
      { intros m' l'. revert m'. induction l' as [|[j y] l' IH']; intros m' Hn Hm;
          simpl; [done|].
        apply IH'; [set_solver|]. rewrite lookup_insert_ne; [done|]. set_solver. }
      apply Hkeep; [|by rewrite lookup_insert_eq].
      intros (y & Hy & Hin)%list_elem_of_fmap.
      apply list_elem_of_lookup in Hin as [j Hj].
      rewrite list_lookup_imap in Hj. unfold compose in Hj.
      destruct (l !! j) as [z|] eqn:Hz; simplify_eq/=.
      apply Hx. by eapply list_elem_of_lookup_2.
    - assert (imap ((λ idx name, (k + idx, name)%nat) ∘ S) l
              = imap (λ idx name, (S k + idx, name)%nat) l) as ->.
      { apply imap_ext. intros j y _. simpl. f_equal. lia. }
      rewrite (IH i _ (S k) Hnd Hi). f_equal. lia. }
  intros Hnd Hi. apply (H ∅ 0%nat Hnd Hi).
Qed.

Lemma index_in_lookup (l : list string) i n :
  NoDup l → l !! i = Some n → index_in (make_topo_index l) n = Z.of_nat i.
Proof. intros Hnd Hi. unfold index_in. by rewrite (make_topo_index_lookup l i n). Qed.

Lemma index_in_inj (l : list string) a b :
  NoDup l → a ∈ l → b ∈ l →
  index_in (make_topo_index l) a = index_in (make_topo_index l) b → a = b.
Proof.
  intros Hnd [i Hi]%list_elem_of_lookup [j Hj]%list_elem_of_lookup.
  rewrite (index_in_lookup l i a), (index_in_lookup l j b) by done.
  intros ?%Nat2Z.inj. congruence.
Qed.

(** In a list without repetitions, the index grows along the list. *)
Lemma index_in_before (l : list string) a b :
  NoDup l → a ∈ l → b ∈ l → a ≠ b →
  index_in (make_topo_index l) a ≤ index_in (make_topo_index l) b ↔ before l a b.
Proof.
  intros Hnd [i Hi]%list_elem_of_lookup [j Hj]%list_elem_of_lookup Hne.
  rewrite (index_in_lookup l i a), (index_in_lookup l j b) by done.
  split.
  - intros Hle. assert (i < j)%nat as Hlt.
    { destruct (decide (i = j)); [congruence|lia]. }
    pose proof (take_drop_middle l i a Hi) as Hl.
    exists (take i l).
    assert (drop (S i) l !! (j - S i)%nat = Some b) as Hb.
    { rewrite lookup_drop. rewrite <- Hj. f_equal. lia. }
    apply list_elem_of_split_length in Hb as (l2 & l3 & E & _).
    exists l2, l3. by rewrite <- E, Hl.
  - intros (l1 & l2 & l3 & ->).
    assert (i = length l1) as ->.
    { eapply NoDup_lookup; [done|done|]. by rewrite list_lookup_middle. }
    assert (j = length (l1 ++ a :: l2)) as ->.
    { eapply NoDup_lookup; [done|done|].
      rewrite (app_assoc l1 (a :: l2) (b :: l3)) at 1.
      by rewrite list_lookup_middle. }
    rewrite length_app. lia.
Qed.

(** Two scheduled packages are linked when one is a prerequisite of the
    other. *)
Definition linked (g : PackageDepGraph) (l : list string) (a b : string)
  : Prop :=
  a ∈ l ∧ b ∈ l ∧ (edge g a b ∨ edge g b a).

Lemma elem_of_link und a b x y :
  y ∈ get_set (link und a b) x ↔
  y ∈ get_set und x ∨ (x = a ∧ y = b) ∨ (x = b ∧ y = a).
Proof.
  unfold link. rewrite !get_set_insert.
  destruct (decide (b = x)) as [->|Hb], (decide (a = x)) as [->|Ha];
    rewrite ?elem_of_set_add, ?get_set_insert, ?decide_True, ?decide_False,
            ?elem_of_set_add by done; naive_solver.
Qed.

Section undirected_facts.
Variable set_iter : list string → list string.
Hypothesis set_iter_perm : ∀ s, set_iter s ≡ₚ s.
Variable g : PackageDepGraph.
Hypothesis Hwf : graph_wf g.
Variable l : list string.

Lemma link_fold und node xs x y :
  y ∈ get_set (foldl (λ und z, if decide (z ∈ l) then link und node z else und)
                     und xs) x
  ↔ y ∈ get_set und x
    ∨ ∃ z, z ∈ xs ∧ z ∈ l ∧ ((x = node ∧ y = z) ∨ (x = z ∧ y = node)).
Proof.
  revert und. induction xs as [|z xs IH]; intros und; simpl.
  { split; [by left|]. intros [?|(z & ?%elem_of_nil & _)]; done. }
  rewrite IH. case_decide as Hz.
  - rewrite elem_of_link. split.
    + intros [[?|H]|(z' & ? & ?)]; [by left| |right; exists z'; set_solver].
      right. exists z. split; [left|]. tauto.
    + intros [?|(z' & [->|?]%elem_of_cons & ? & ?)]; [tauto|tauto|].
      right. by exists z'.
  - split.
    + intros [?|(z' & ? & ?)]; [by left|right; exists z'; set_solver].
    + intros [?|(z' & [->|?]%elem_of_cons & ? & ?)]; [tauto|tauto|].
      right. by exists z'.
Qed.

Lemma undirected_step_spec und node x y :
  y ∈ get_set (undirected_step set_iter g l und node) x
  ↔ y ∈ get_set und x
    ∨ ∃ z, (edge g node z ∨ edge g z node) ∧ z ∈ l
           ∧ ((x = node ∧ y = z) ∨ (x = z ∧ y = node)).
Proof.
  unfold undirected_step. rewrite !link_fold. split.
  - intros [[?|(z & Hz & ?)]|(z & Hz & ?)]; [by left| |].
    + right. exists z. split; [left|done]. by rewrite set_iter_perm in Hz.
    + right. exists z. split; [right|done].
      rewrite set_iter_perm in Hz. by apply Hwf.
  - intros [?|(z & [Hz|Hz] & ?)]; [tauto| |].
    + left. right. exists z. split; [|done]. by rewrite set_iter_perm.
    + right. exists z. split; [|done]. rewrite set_iter_perm. by apply Hwf.
Qed.

Lemma undirected_fold_spec und ps x y :
  y ∈ get_set (foldl (undirected_step set_iter g l) und ps) x
  ↔ y ∈ get_set und x
    ∨ ∃ node z, node ∈ ps ∧ (edge g node z ∨ edge g z node) ∧ z ∈ l
                ∧ ((x = node ∧ y = z) ∨ (x = z ∧ y = node)).
Proof.
  revert und. induction ps as [|p ps IH]; intros und; simpl.
  { split; [by left|]. intros [?|(? & ? & ?%elem_of_nil & _)]; done. }
  rewrite IH, undirected_step_spec. split.
  - intros [[?|(z & ?)]|(node & z & ? & ?)]; [by left| |].
    + right. exists p, z. split; [left|done].
    + right. exists node, z. split; [by right|done].
  - intros [?|(node & z & [->|?]%elem_of_cons & ?)]; [tauto| |].
    + left. right. by exists z.
    + right. by exists node, z.
Qed.

Lemma empty_sets_fold (und : gmap string (list string)) (ps : list string) x :
  get_set und x = [] →
  get_set (foldl (λ und node, <[node := []]> und) und ps) x = [].
Proof.
  revert und. induction ps as [|p ps IH]; intros und Hund; simpl; [done|].
  apply IH. rewrite get_set_insert. by case_decide.
Qed.

(** [undirected[x]] holds the packages linked to [x]. *)
Lemma make_undirected_spec x y :
  y ∈ get_set (make_undirected set_iter g l) x ↔ linked g l x y.
Proof.
  unfold make_undirected. rewrite undirected_fold_spec.
  rewrite empty_sets_fold by done. unfold linked. split.
  - intros [?%elem_of_nil|(node & z & Hn & He & Hz & Hxy)]; [done|].
    rewrite set_iter_perm in Hn. naive_solver.
  - intros (Hx & Hy & He). right. exists x, y.
    rewrite set_iter_perm. naive_solver.
Qed.

End undirected_facts.

Section component_facts.
Variable set_iter : list string → list string.
Hypothesis set_iter_perm : ∀ s, set_iter s ≡ₚ s.
Variable und : gmap string (list string).
Variable L : list string.
Hypothesis HL : NoDup L.

(** The undirected view, as a relation. *)
Definition adjacent (a b : string) : Prop := b ∈ get_set und a.

Hypothesis adjacent_sym : ∀ a b, adjacent a b → adjacent b a.
Hypothesis adjacent_in : ∀ a b, adjacent a b → a ∈ L ∧ b ∈ L.

Definition weight (V : list string) : nat :=
  sum_list (map (λ n, length (get_set und n)) (filter (λ n, n ∉ V) L)).

Lemma weight_add n V :
  n ∈ L → n ∉ V →
  (weight (set_add n V) + length (get_set und n) = weight V)%nat.
Proof.
  intros Hn HV. unfold weight.
  rewrite <- (sum_filter_set_add (λ n, length (get_set und n)) L n V HL HV).
  by rewrite decide_True.
Qed.

Lemma rtc_adjacent_in seed n : seed ∈ L → rtc adjacent seed n → n ∈ L.
Proof.
  intros Hs Hrtc. induction Hrtc as [|x y z Hxy _ IH]; [done|].
  apply IH. by apply adjacent_in in Hxy as [_ ?].
Qed.

Lemma rtc_adjacent_sym a b : rtc adjacent a b → rtc adjacent b a.
Proof.
  induction 1 as [|x y z Hxy _ IH]; [done|].
  eapply rtc_r; [done|]. by apply adjacent_sym.
Qed.

Lemma component_loop_spec fuel seed (V0 stack V comp : list string) :
  seed ∈ L →
  NoDup comp → (∀ x, x ∈ V ↔ x ∈ V0 ∨ x ∈ comp) → (∀ x, x ∈ comp → x ∉ V0) →
  (∀ n m, n ∈ comp → adjacent n m → m ∈ V ∨ m ∈ stack) →
  (∀ n, n ∈ stack ∨ n ∈ comp → rtc adjacent seed n) →
  (length stack + weight V ≤ fuel)%nat →
  ∃ V' comp',
    component_loop set_iter fuel und stack V comp = Some (V', comp') ∧
    NoDup comp' ∧ (∀ x, x ∈ V' ↔ x ∈ V0 ∨ x ∈ comp') ∧
    (∀ x, x ∈ comp' → x ∉ V0) ∧
    (∀ n m, n ∈ comp' → adjacent n m → m ∈ V') ∧
    (∀ n, n ∈ comp' → rtc adjacent seed n) ∧
    (∀ x, x ∈ stack → x ∈ V') ∧ (∀ x, x ∈ comp → x ∈ comp').
Proof.
  intros Hseed. revert stack V comp.
  induction fuel as [|fuel IH]; intros stack V comp Hnd HV Hdisj Hadj Hreach Hfuel.
  { destruct stack; simpl in *; [|lia]. exists V, comp.
    split_and!; try done; [|set_solver..].
    intros n m Hn Hm. destruct (Hadj n m Hn Hm) as [?|?%elem_of_nil]; done. }
  destruct stack as [|cur stack]; simpl.
  { exists V, comp. split_and!; try done; [|set_solver..].
    intros n m Hn Hm. destruct (Hadj n m Hn Hm) as [?|?%elem_of_nil]; done. }
  simpl in Hfuel. case_decide as Hcur.
  { destruct (IH stack V comp) as (V' & comp' & -> & ? & HV' & ? & ? & ? & Hst & Hc);
      try done.
    - intros n m Hn Hm. destruct (Hadj n m Hn Hm) as [?|[->|?]%elem_of_cons]; auto.
    - intros n [?|?]; apply Hreach; [left; by right|by right].
    - lia.
    - exists V', comp'. split_and!; try done.
      intros x [->|?]%elem_of_cons; [|by apply Hst].
      apply HV'. apply HV in Hcur as [?|?]; auto. }
  assert (cur ∈ L) as HcurL.
  { eapply rtc_adjacent_in; [done|]. apply Hreach. left. left. }
  assert (cur ∉ comp) as Hcc by (intros ?; apply Hcur, HV; by right).
  assert (cur ∉ V0) as Hc0 by (intros ?; apply Hcur, HV; by left).
  set (V2 := set_add cur V).
  set (pushed := set_iter (set_diff (get_set und cur) V2)).
  assert (∀ m, m ∈ pushed ↔ adjacent cur m ∧ m ∉ V2) as Hpushed.
  { intros m. unfold pushed. by rewrite set_iter_perm, elem_of_set_diff. }
  assert (length pushed ≤ length (get_set und cur))%nat as Hlen.
  { unfold pushed. rewrite set_iter_perm. apply length_filter. }
  pose proof (weight_add cur V HcurL Hcur) as Hw. fold V2 in Hw.
  destruct (IH (reverse pushed ++ stack) V2 (comp ++ [cur]))
    as (V' & comp' & -> & ? & HV' & ? & ? & ? & Hst & Hc).
  - apply NoDup_app. split_and!; [done|set_solver|apply NoDup_singleton].
  - intros x. unfold V2. rewrite elem_of_set_add, elem_of_app, HV.
    rewrite list_elem_of_singleton. tauto.
  - intros x [?| ->%list_elem_of_singleton]%elem_of_app; auto.
  - intros n m [Hn| ->%list_elem_of_singleton]%elem_of_app Hm.
    + destruct (Hadj n m Hn Hm) as [?|[->|?]%elem_of_cons].
      * left. apply elem_of_set_add. tauto.
      * left. apply elem_of_set_add. tauto.
      * right. set_solver.
    + destruct (decide (m ∈ V2)); [by left|right].
      rewrite elem_of_app, elem_of_reverse, Hpushed. tauto.
  - intros n [[Hn|Hn]%elem_of_app|[Hn| ->%list_elem_of_singleton]%elem_of_app].
    + rewrite elem_of_reverse, Hpushed in Hn. destruct Hn as [Hn _].
      eapply rtc_r; [|done]. apply Hreach. left. left.
    + apply Hreach. left. by right.
    + apply Hreach. by right.
    + apply Hreach. left. left.
  - rewrite length_app, length_reverse. lia.
  - exists V', comp'. split_and!; try done.
    + intros x [->|Hx]%elem_of_cons.
      * apply HV'. right. apply Hc. set_solver.
      * apply Hst. set_solver.
    + intros x Hx. apply Hc. set_solver.
Qed.

(** Started on a package outside a set that is closed under links, the
    loop collects the packages connected to it. *)
Lemma component_loop_component fuel seed (V0 : list string) :
  seed ∈ L → seed ∉ V0 →
  (∀ a b, a ∈ V0 → adjacent a b → b ∈ V0) →
  (1 + weight V0 ≤ fuel)%nat →
  ∃ V' comp',
    component_loop set_iter fuel und [seed] V0 [] = Some (V', comp') ∧
    NoDup comp' ∧ (∀ x, x ∈ V' ↔ x ∈ V0 ∨ x ∈ comp') ∧
    (∀ x, x ∈ comp' → x ∉ V0) ∧
    (∀ x, x ∈ comp' ↔ rtc adjacent seed x) ∧
    (∀ a b, a ∈ V' → adjacent a b → b ∈ V').
Proof.
  intros Hseed Hs0 Hclosed Hfuel.
  destruct (component_loop_spec fuel seed V0 [seed] V0 [])
    as (V' & comp' & -> & Hnd & HV' & Hdisj & Hadj & Hreach & Hst & _);
    try done.
  - constructor.
  - set_solver.
  - set_solver.
  - set_solver.
  - intros n [->%list_elem_of_singleton|?%elem_of_nil]; done.
  - exists V', comp'. split_and!; try done.
    + assert (seed ∈ comp') as Hsc.
      { destruct (proj1 (HV' seed)) as [?|?]; [apply Hst; left|done|done]. }
      intros x. split; [apply Hreach|].
      revert x. apply rtc_ind_r; [done|]. intros y z Hxy Hyz IH.
      destruct (proj1 (HV' z) (Hadj y z IH Hyz)) as [Hz|?]; [|done].
      destruct (Hdisj y IH). eapply Hclosed; [done|]. by apply adjacent_sym.
    + intros a b [Ha|Ha]%HV' Hab.
      * apply HV'. left. by eapply Hclosed.
      * by eapply Hadj.
Qed.

End component_facts.

Lemma StronglySorted_filter_keep {A} (R : relation A) (P : A → Prop)
    `{∀ x, Decision (P x)} (l : list A) :
  StronglySorted R l → StronglySorted R (filter P l).
Proof.
  induction 1 as [|x l Hl IH Hx]; [constructor|].
  rewrite filter_cons. case_decide; [|done].
  constructor; [done|].
  apply Forall_forall. intros y [_ Hy]%list_elem_of_filter.
  by eapply Forall_forall in Hx.
Qed.

Section series_loop_facts.
Variable set_iter : list string → list string.
Hypothesis set_iter_perm : ∀ s, set_iter s ≡ₚ s.
Variable g : PackageDepGraph.
Hypothesis Hwf : graph_wf g.
Variable l : list string.
Hypothesis Hl : NoDup l.

(** The comparison [comp.sort] is called with. *)
Definition index_le (a b : string) : Prop :=
  (index_in (make_topo_index l) a <=? index_in (make_topo_index l) b) = true.

#[local] Instance index_le_trans : Transitive index_le.
Proof. unfold index_le. intros a b c. rewrite !Z.leb_le. lia. Qed.

Lemma index_le_sorted : StronglySorted index_le l.
Proof.
  assert (∀ p s, l = p ++ s → StronglySorted index_le s) as H;
    [|by apply (H [] l)].
  intros p s. revert p. induction s as [|a s IH]; intros p E; [constructor|].
  constructor.
  - apply (IH (p ++ [a])). by rewrite <- app_assoc.
  - apply Forall_forall. intros b Hb. unfold index_le. apply Z.leb_le.
    assert (a ≠ b).
    { intros ->. rewrite E in Hl. apply NoDup_app in Hl as (_ & _ & Hl').
      by apply NoDup_cons in Hl' as [? _]. }
    apply (index_in_before l a b); [done|rewrite E; set_solver..|done|].
    apply list_elem_of_split in Hb as (s1 & s2 & ->). by exists p, s1, s2.
Qed.

(** Sorting by topological index keeps the order the packages have in
    [topo_all]. *)
Lemma sort_by_index_filter (comp : list string) :
  NoDup comp → comp ⊆ l →
  sort_by (λ a b, index_in (make_topo_index l) a
                  <=? index_in (make_topo_index l) b) comp
  = filter (λ x, x ∈ comp) l.
Proof.
  intros Hnd Hsub.
  apply (StronglySorted_unique_strong index_le).
  - intros a b Ha Hb Hab Hba. rewrite sort_by_perm in Ha.
    apply list_elem_of_filter in Hb as [Hb _].
    unfold index_le in *. rewrite Z.leb_le in Hab, Hba.
    apply (index_in_inj l); [done|by apply Hsub..|lia].
  - apply (Sorted_StronglySorted _), sort_by_sorted.
    intros a b. rewrite Z.leb_gt, Z.leb_le. lia.
  - apply StronglySorted_filter_keep, index_le_sorted.
  - rewrite sort_by_perm. apply NoDup_Permutation; [done|by apply NoDup_filter|].
    intros x. rewrite list_elem_of_filter. split; [|tauto].
    intros Hx. split; [done|by apply Hsub].
Qed.

(** A series: not empty, in the order of [topo_all], and holding exactly
    the packages connected to any of its members. *)
Definition good_series (c : list string) : Prop :=
  c ≠ [] ∧ c `sublist_of` l ∧
  ∀ a b, a ∈ c → (b ∈ c ↔ rtc (linked g l) a b).

Lemma adjacent_linked a b :
  adjacent (make_undirected set_iter g l) a b ↔ linked g l a b.
Proof. by apply make_undirected_spec. Qed.

Lemma linked_sym a b : linked g l a b → linked g l b a.
Proof. unfold linked. tauto. Qed.

Lemma rtc_adjacent_linked a b :
  rtc (adjacent (make_undirected set_iter g l)) a b ↔ rtc (linked g l) a b.
Proof.
  split; induction 1 as [|x y z Hxy _ IH]; try done;
    (eapply rtc_l; [|done]); by apply adjacent_linked.
Qed.

(** The state of [for node in topo_all]. *)
Definition series_inv (series : list (list string)) (V : list string) : Prop :=
  (∀ a b, a ∈ V → linked g l a b → b ∈ V) ∧
  NoDup (concat series) ∧
  (∀ x, x ∈ V ↔ x ∈ concat series) ∧
  Forall good_series series.

Lemma series_step_spec series V node :
  node ∈ l → series_inv series V →
  ∃ series' V',
    series_step set_iter (make_undirected set_iter g l) l (make_topo_index l)
                (Some (series, V)) node = Some (series', V') ∧
    series_inv series' V' ∧ node ∈ V' ∧ (∀ x, x ∈ V → x ∈ V').
Proof.
  intros Hnode (Hclosed & Hnd & HV & Hgood). unfold series_step.
  case_decide as HnV. { exists series, V. by split_and!. }
  set (und := make_undirected set_iter g l).
  destruct (component_loop_component set_iter set_iter_perm und l Hl)
    with (fuel := component_fuel und l) (seed := node) (V0 := V)
    as (V' & comp' & -> & Hcnd & HV' & Hdisj & Hcomp & Hclosed'); try done.
  - intros a b Hab. apply adjacent_linked. by apply linked_sym, adjacent_linked.
  - intros a b (? & ? & _)%adjacent_linked. done.
  - intros a b Ha Hab%adjacent_linked. by eapply Hclosed.
  - unfold component_fuel, weight. simpl.
    pose proof (sum_filter_le (λ n, length (get_set und n)) (λ n, n ∉ V) l). lia.
  - subst und. assert (comp' ⊆ l) as Hsub.
    { intros x Hx%Hcomp. eapply rtc_adjacent_in; [|done|done].
      intros a b (? & ? & _)%adjacent_linked. done. }
    rewrite (sort_by_index_filter comp' Hcnd Hsub).
    assert (∀ x, x ∈ filter (λ x, x ∈ comp') l ↔ x ∈ comp') as Hmem.
    { intros x. rewrite list_elem_of_filter. split; [tauto|]. auto. }
    assert (node ∈ comp') as Hnc by (by apply Hcomp).
    exists (series ++ [filter (λ x, x ∈ comp') l]), V'. split_and!; try done.
    + split_and!.
      * intros a b Ha Hab. eapply Hclosed'; [done|]. by apply adjacent_linked.
      * rewrite concat_app. simpl. rewrite app_nil_r.
        apply NoDup_app. split_and!; [done| |by apply NoDup_filter].
        intros x Hx%HV Hx'%Hmem. by apply (Hdisj x).
      * intros x. rewrite concat_app. simpl.
        rewrite app_nil_r, elem_of_app, Hmem, HV', HV. done.
      * apply Forall_app. split; [done|]. apply Forall_singleton.
        split_and!.
        -- intros E. apply Hmem in Hnc. rewrite E in Hnc. by apply elem_of_nil in Hnc.
        -- apply sublist_filter.
        -- intros a b Ha%Hmem%Hcomp%rtc_adjacent_linked.
           rewrite Hmem, Hcomp, rtc_adjacent_linked. split.
           ++ intros Hb. etrans; [|done].
              apply rtc_adjacent_linked, rtc_adjacent_sym, rtc_adjacent_linked; [|done].
              intros x y Hxy. apply adjacent_linked.
              by apply linked_sym, adjacent_linked.
           ++ intros Hb. by etrans.
    + apply HV'. by right.
    + intros x Hx. apply HV'. by left.
Qed.

Lemma series_fold_spec rest series V :
  rest ⊆ l → series_inv series V →
  ∃ series' V',
    foldl (series_step set_iter (make_undirected set_iter g l) l
                       (make_topo_index l)) (Some (series, V)) rest
    = Some (series', V') ∧
    series_inv series' V' ∧ (∀ x, x ∈ rest → x ∈ V') ∧ (∀ x, x ∈ V → x ∈ V').
Proof.
  revert series V. induction rest as [|node rest IH]; intros series V Hrest Hinv.
  { exists series, V. split_and!; [done..|set_solver|done]. }
  cbn [foldl].
  destruct (series_step_spec series V node) as (s1 & V1 & -> & Hinv1 & Hn1 & Hm1);
    [set_solver|done|].
  destruct (IH s1 V1) as (s2 & V2 & -> & Hinv2 & Hr2 & Hm2); [set_solver|done|].
  exists s2, V2. split_and!; [done..| |by auto].
  intros x [->|?]%elem_of_cons; auto.
Qed.

End series_loop_facts.

#[global] Instance series_le_trans idx :
  Transitive (λ c1 c2, series_le idx c1 c2 = true).
Proof.
  intros a b c. unfold series_le, pair_leb.
  rewrite !orb_true_iff, !andb_true_iff, !Z.ltb_lt, !Z.eqb_eq, !Z.leb_le. lia.
Qed.

(** What [compute_series_toposort] makes of [topo_all]: its packages, each
    in one series; the series are the classes of connected packages, in
    the order of [topo_all]; and they are sorted by their key. *)
Lemma series_of_spec set_iter g l :
  (∀ s, set_iter s ≡ₚ s) → graph_wf g → NoDup l →
  ∃ S, series_of set_iter g l = Some S ∧
       concat S ≡ₚ l ∧ Forall (good_series g l) S ∧
       StronglySorted (λ c1 c2, series_le (make_topo_index l) c1 c2 = true) S.
Proof.
  intros Hperm Hwf Hl. unfold series_of.
  destruct (series_fold_spec set_iter Hperm g Hwf l Hl l [] [])
    as (S & V & E & Hinv & Hall & _); [done| |].
  { split_and!; [set_solver|constructor|set_solver|constructor]. }
  destruct Hinv as (_ & Hnd & HV & Hgood).
  assert (concat S ≡ₚ l) as Hconcat.
  { apply NoDup_Permutation; [done..|]. intros x. rewrite <- HV. split; [|by auto].
    intros Hx%HV. apply elem_of_concat in Hx as (c & Hc & Hxc).
    eapply Forall_forall in Hgood as (_ & Hsub & _); [|done].
    eapply sublist_subseteq; done. }
  destruct l as [|n0 l0].
  { exists []. split_and!; [done|done|constructor|constructor]. }
  rewrite E.
  exists (sort_by (series_le (make_topo_index (n0 :: l0))) S). split_and!.
  - done.
  - by rewrite (concat_perm _ S) by apply sort_by_perm.
  - by rewrite sort_by_perm.
  - apply (Sorted_StronglySorted _), sort_by_sorted.
    intros a b. unfold series_le, pair_leb.
    rewrite orb_false_iff, andb_false_iff, !orb_true_iff, !andb_true_iff,
      !Z.ltb_lt, !Z.eqb_eq, !Z.leb_le, !Z.ltb_ge, !Z.eqb_neq, !Z.leb_gt. lia.
Qed.


(** The dependency subgraph induced by the scheduled packages [l]. *)
Definition induced (g : PackageDepGraph) (l : list string) (a b : string)
  : Prop :=
  edge g a b ∧ a ∈ l ∧ b ∈ l.

(** The order of the keys [(-len(comp), topo_index[comp[0]])], read on the
    series themselves. *)
Definition series_order (l : list string) (c1 c2 : list string) : Prop :=
  (length c2 < length c1)%nat ∨
  (length c1 = length c2 ∧
   ∃ a b, head c1 = Some a ∧ head c2 = Some b ∧ (a = b ∨ before l a b)).

Lemma linked_rtsc g l a b :
  rtc (linked g l) a b ↔ rtsc (induced g l) a b.
Proof.
  unfold rtsc. split; induction 1 as [|x y z Hxy _ IH]; try done;
    (eapply rtc_l; [|done]); unfold linked, sc, induced in *; tauto.
Qed.

Lemma sublist_filter_self (l c : list string) :
  NoDup l → c `sublist_of` l → c = filter (λ x, x ∈ c) l.
Proof.
  intros Hl Hsub. induction Hsub as [|x c l Hsub IH|x c l Hsub IH].
  - done.
  - apply NoDup_cons in Hl as [Hx Hl].
    rewrite filter_cons_True by left. f_equal.
    rewrite (IH Hl) at 1. apply filter_ext_elem_of.
    intros y Hy. rewrite elem_of_cons. split; [tauto|].
    intros [->|?]; done.
  - apply NoDup_cons in Hl as [Hx Hl].
    rewrite filter_cons_False; [by apply IH|].
    intros Hxc. apply Hx. eapply sublist_subseteq; done.
Qed.

Lemma before_filter (P : string → Prop) `{∀ x, Decision (P x)} l p n :
  before l p n → P p → P n → before (filter P l) p n.
Proof.
  intros (l1 & l2 & l3 & ->) Hp Hn.
  exists (filter P l1), (filter P l2), (filter P l3).
  rewrite filter_app, filter_cons_True, filter_app, filter_cons_True; done.
Qed.

Lemma before_sublist (l c : list string) p n :
  NoDup l → c `sublist_of` l → p ∈ c → n ∈ c → before l p n → before c p n.
Proof.
  intros Hl Hsub Hp Hn Hb. rewrite (sublist_filter_self l c Hl Hsub).
  by apply before_filter.
Qed.

Lemma series_le_order (l c1 c2 : list string) :
  NoDup l → c1 ≠ [] → c2 ≠ [] → c1 ⊆ l → c2 ⊆ l →
  series_le (make_topo_index l) c1 c2 = true → series_order l c1 c2.
Proof.
  intros Hl H1 H2 Hs1 Hs2. unfold series_le, pair_leb, series_key, series_order.
  simpl. rewrite orb_true_iff, andb_true_iff, Z.ltb_lt, Z.eqb_eq, Z.leb_le.
  destruct c1 as [|a c1], c2 as [|b c2]; try done. simpl.
  intros [?|[? Hidx]]; [left; lia|right]. split; [lia|].
  exists a, b. split_and!; [done..|].
  destruct (decide (a = b)) as [|Hne]; [by left|right].
  apply (index_in_before l a b); [done|set_solver..|done|done].
Qed.

(** Two classes of sizes 5 and 2 give two series, the larger first. *)
Lemma two_series (l : list string) (S : list (list string)) (X Y : list string)
    (conn : relation string) :
  NoDup l → concat S ≡ₚ l →
  Forall (λ c, c ≠ [] ∧ ∀ a b, a ∈ c → (b ∈ c ↔ conn a b)) S →
  StronglySorted (series_order l) S →
  l ≡ₚ X ++ Y → length X = 5%nat → length Y = 2%nat →
  (∀ a b, a ∈ X → b ∈ X → conn a b) →
  (∀ a b, a ∈ Y → b ∈ Y → conn a b) →
  (∀ a b, a ∈ X → b ∈ Y → ¬ conn a b ∧ ¬ conn b a) →
  ∃ sx sy, S = [sx; sy] ∧ sx ≡ₚ X ∧ sy ≡ₚ Y.
Proof.
  intros Hl Hcat Hgood Hsorted HXY HlX HlY HX HY Hsep.
  assert (NoDup (X ++ Y)) as (HndX & HXYdisj & HndY)%NoDup_app by (by rewrite <- HXY).
  assert (NoDup (concat S)) as HndS by (by rewrite Hcat).
  assert (∀ x, x ∈ l ↔ x ∈ X ∨ x ∈ Y) as Hmem
    by (intros x; by rewrite HXY, elem_of_app).
  assert (∀ c, c ∈ S → NoDup c ∧ c ⊆ l) as Hc.
  { intros c (S1 & S2 & ->)%list_elem_of_split.
    rewrite concat_app in HndS, Hcat. simpl in HndS, Hcat.
    apply NoDup_app in HndS as (_ & _ & [? _]%NoDup_app). split; [done|].
    intros x Hx. rewrite <- Hcat. set_solver. }
  assert (∀ c, c ∈ S → c ≡ₚ X ∨ c ≡ₚ Y) as Htype.
  { intros c HcS. destruct (Hc c HcS) as [Hnd Hsub].
    eapply Forall_forall in Hgood as [Hne Hclass]; [|done].
    destruct c as [|a c']; [done|].
    assert (a ∈ a :: c') as Ha by left.
    destruct (proj1 (Hmem a) (Hsub a Ha)) as [HaX|HaY]; [left|right];
      (apply NoDup_Permutation; [done..|]); intros b; rewrite (Hclass a b Ha).
    - split; [|by apply HX]. intros Hab.
      assert (b ∈ l) as [?|HbY]%Hmem; [by apply Hsub, (Hclass a b Ha)|done|].
      by destruct (Hsep a b HaX HbY).
    - split; [|by apply HY]. intros Hab.
      assert (b ∈ l) as [HbX|?]%Hmem; [by apply Hsub, (Hclass a b Ha)| |done].
      by destruct (Hsep b a HbX HaY). }
  assert (∀ c1 c2 S1 S2 S3, S = S1 ++ c1 :: S2 ++ c2 :: S3 →
            ¬ (c1 ≡ₚ c2)) as Hdistinct.
  { intros c1 c2 S1 S2 S3 -> Hperm.
    assert (c1 ∈ S1 ++ c1 :: S2 ++ c2 :: S3) as H1 by set_solver.
    eapply Forall_forall in Hgood as [Hne _]; [|done].
    rewrite concat_app in HndS. simpl in HndS. rewrite concat_app in HndS.
    simpl in HndS. apply NoDup_app in HndS as (_ & _ & HndS).
    apply NoDup_app in HndS as (_ & HndS & _).
    destruct c1 as [|a c1]; [done|].
    apply (HndS a); [left|]. rewrite <- Hperm. set_solver. }
  assert (X ≢ₚ Y) as HneXY.
  { intros HP. apply Permutation_length in HP. lia. }
  destruct S as [|c1 [|c2 [|c3 S]]].
  - simpl in Hcat. rewrite <- Hcat in HXY. symmetry in HXY.
    apply Permutation_nil_r in HXY. by destruct X.
  - simpl in Hcat. rewrite app_nil_r in Hcat.
    assert (length c1 = 7%nat) as Hlen.
    { rewrite Hcat, HXY, length_app. lia. }
    destruct (Htype c1 ltac:(left)) as [HP|HP]; apply Permutation_length in HP; lia.
  - destruct (Htype c1 ltac:(left)) as [H1|H1],
             (Htype c2 ltac:(right; left)) as [H2|H2].
    + destruct (Hdistinct c1 c2 [] [] [] eq_refl). by rewrite H1, H2.
    + by exists c1, c2.
    + apply StronglySorted_inv in Hsorted as [_ Hhd].
      apply Forall_cons in Hhd as [Hord _]. unfold series_order in Hord.
      apply Permutation_length in H1, H2. lia.
    + destruct (Hdistinct c1 c2 [] [] [] eq_refl). by rewrite H1, H2.
  - destruct (Htype c1 ltac:(left)) as [H1|H1],
             (Htype c2 ltac:(right; left)) as [H2|H2],
             (Htype c3 ltac:(right; right; left)) as [H3|H3];
      first [ destruct (Hdistinct c1 c2 [] [] (c3 :: S) eq_refl);
              by rewrite H1, H2
            | destruct (Hdistinct c1 c3 [] [c2] S eq_refl); by rewrite H1, H3
            | destruct (Hdistinct c2 c3 [c1] [] S eq_refl); by rewrite H2, H3 ].
Qed.

Lemma StronglySorted_impl {A} (R R' : relation A) (l : list A) :
  (∀ x y, x ∈ l → y ∈ l → R x y → R' x y) →
  StronglySorted R l → StronglySorted R' l.
Proof.
  intros HR Hl. induction Hl as [|x l Hl IH Hx]; [constructor|].
  constructor.
  - apply IH. intros a b Ha Hb. apply HR; by right.
  - apply Forall_forall. intros y Hy. apply HR; [left|by right|].
    by eapply Forall_forall in Hx.
Qed.

(** C6. When the targets are known packages and their closure has no
    cycle, [compute_series_toposort] returns series that partition the
    scheduled packages [topo_all]; each series is a weakly-connected
    component of the dependency subgraph induced by [topo_all], keeps the
    order its packages have in [topo_all] (so it is sorted by topological
    index, and every package stands after its prerequisites, which are in
    the same series); the series are sorted by
    [(-size, earliest topological index)]. In particular, when [topo_all]
    consists of two disjoint connected subgraphs of 5 and 2 packages, the
    result is two series, the one of 5 first. *)
Theorem compute_series_toposort_components
    set_iter fs package_dirs target_packages order_hint :
  let g := build_from_control_dirs fs
             (init package_dirs (default ∅ order_hint)) None in
  (∀ s, set_iter s ≡ₚ s) →
  (∀ t, t ∈ target_packages → t ∈ package_dirs.*1) →
  (∀ c, in_closure g target_packages c → ¬ on_cycle g c) →
  ∃ topo_all series,
    topo_sort set_iter g (Some target_packages) true = Returned topo_all ∧
    compute_series_toposort set_iter fs package_dirs target_packages order_hint
    = Returned (series, all_unresolved set_iter g) ∧
    NoDup topo_all ∧ concat series ≡ₚ topo_all ∧
    Forall (λ c, c ≠ [] ∧ c `sublist_of` topo_all ∧
                 (∀ a b, a ∈ c → (b ∈ c ↔ rtsc (induced g topo_all) a b)) ∧
                 (∀ p n, n ∈ c → edge g p n → before c p n)) series ∧
    StronglySorted (series_order topo_all) series ∧
    (∀ X Y, topo_all ≡ₚ X ++ Y → length X = 5%nat → length Y = 2%nat →
            (∀ a b, a ∈ X → b ∈ X → rtsc (induced g topo_all) a b) →
            (∀ a b, a ∈ Y → b ∈ Y → rtsc (induced g topo_all) a b) →
            (∀ a b, a ∈ X → b ∈ Y → ¬ rtsc (induced g topo_all) a b) →
            ∃ sx sy, series = [sx; sy] ∧ sx ≡ₚ X ∧ sy ≡ₚ Y).
Proof.
  intros g Hperm Htargets Hacyclic.
  assert (graph_wf g) as Hwf by apply build_from_control_dirs_wf.
  assert (∀ t, t ∈ target_packages → t ∈ nodes g) as Hsub.
  { intros t Ht.
    destruct (build_from_control_dirs_keeps fs
                (init package_dirs (default ∅ order_hint)) None (init_wf _ _))
      as (_ & _ & Hn & _).
    unfold g. rewrite Hn. by apply elem_of_init_nodes, Htargets. }
  destruct (topo_sort_closure_order set_iter g target_packages Hperm Hwf Hsub)
    as [Hok _].
  destruct (Hok Hacyclic) as (l & Htopo & Hl & Hmem & Hbefore).
  destruct (series_of_spec set_iter g l Hperm Hwf Hl)
    as (S & HS & Hcat & Hgood & Hsorted).
  assert (∀ c, c ∈ S → c ≠ [] ∧ c ⊆ l) as Hc.
  { intros c HcS. eapply Forall_forall in Hgood as (? & ? & _); [|done].
    split; [done|]. by apply sublist_subseteq. }
  assert (Forall (λ c, c ≠ [] ∧ c `sublist_of` l ∧
                       (∀ a b, a ∈ c → (b ∈ c ↔ rtsc (induced g l) a b)) ∧
                       (∀ p n, n ∈ c → edge g p n → before c p n)) S) as Hgood'.
  { apply Forall_forall. intros c HcS.
    eapply Forall_forall in Hgood as (Hne & Hsl & Hclass); [|done].
    split_and!; [done|done| |].
    - intros a b Ha. by rewrite (Hclass a b Ha), linked_rtsc.
    - intros p n Hn He.
      assert (n ∈ l) as Hnl by (by eapply sublist_subseteq).
      pose proof (Hbefore p n Hnl He) as Hb.
      assert (p ∈ l) as Hpl.
      { destruct Hb as (l1 & l2 & l3 & ->). set_solver. }
      apply (before_sublist l c); [done..| |done|done].
      apply (Hclass n p Hn). apply rtc_once. unfold linked. tauto. }
  assert (StronglySorted (series_order l) S) as Hsorted'.
  { eapply StronglySorted_impl; [|done]. intros c1 c2 H1%Hc H2%Hc.
    apply series_le_order; tauto. }
  exists l, S. split_and!; try done.
  - unfold compute_series_toposort. fold g. by rewrite Htopo, HS.
  - intros X Y HXY HlX HlY HX HY Hsep.
    apply (two_series l S X Y (rtsc (induced g l))); try done.
    + eapply Forall_impl; [done|]. simpl. tauto.
    + intros a b Ha Hb. split; [by apply Hsep|].
      intros Hba. apply (Hsep a b Ha Hb). by symmetry.
Qed.

(** When [topo_sort] returns, the closure has no cycle. *)
Lemma topo_sort_returned_acyclic set_iter g subset l :
  (∀ s, set_iter s ≡ₚ s) → graph_wf g → (∀ s, s ∈ subset → s ∈ nodes g) →
  topo_sort set_iter g (Some subset) true = Returned l →
  ∀ c, in_closure g subset c → ¬ on_cycle g c.
Proof.
  intros Hperm Hwf Hsub Hret c Hc Hcyc.
  destruct (topo_sort_run set_iter g subset Hperm Hwf Hsub)
    as (W & l' & HW & HM & Hcl & Hrun & E).
  rewrite Hret in E. case_decide as Hlen; [done|]. injection E as ->.
  assert (c ∈ l') as Hin.
  { apply (kahn_run_length g W _ HW l' Hrun); [|by apply HM].
    destruct (decide (length l' = length W)); [done|by destruct Hlen]. }
  destruct Hrun as [Htr _]. by eapply kahn_trace_no_cycle.
Qed.

(** Seven packages in two groups: [b] and [c] depend on [a], [d] on both,
    [e] on [d]; and [p] depends on [q]. *)
Definition two_groups_dirs : list (string * Path) :=
  [("p", "/src/p"); ("q", "/src/q"); ("a", "/src/a"); ("b", "/src/b");
   ("c", "/src/c"); ("d", "/src/d"); ("e", "/src/e")].

Definition two_groups_files : control_files :=
  λ base_path,
    if decide (base_path = "/src/p")
    then Some ("Source: p" +:+ LF +:+ "Build-Depends: q" +:+ LF)
    else if decide (base_path = "/src/b")
    then Some ("Package: b" +:+ LF +:+ "Depends: a" +:+ LF)
    else if decide (base_path = "/src/c")
    then Some ("Package: c" +:+ LF +:+ "Depends: a (>= 2)" +:+ LF)
    else if decide (base_path = "/src/d")
    then Some ("Package: d" +:+ LF +:+ "Depends: b," +:+ LF +:+ " c" +:+ LF)
    else if decide (base_path = "/src/e")
    then Some ("Package: e" +:+ LF +:+ "Depends: d" +:+ LF)
    else if decide (base_path = "/src/a")
    then Some ("Package: a" +:+ LF)
    else None.

Definition two_groups_graph : PackageDepGraph :=
  build_from_control_dirs two_groups_files (init two_groups_dirs ∅) None.

(** The two groups come out as two series, the group of five first. *)
Lemma two_groups_series :
  compute_series_toposort id two_groups_files two_groups_dirs ["e"; "p"] None
  = Returned ([["a"; "b"; "c"; "d"; "e"]; ["q"; "p"]], []).
Proof. by vm_compute. Qed.

Lemma compute_series_toposort_components_witness :
  let g := two_groups_graph in
  ∃ topo_all series,
    topo_sort id g (Some ["e"; "p"]) true = Returned topo_all ∧
    compute_series_toposort id two_groups_files two_groups_dirs ["e"; "p"] None
    = Returned (series, all_unresolved id g) ∧
    NoDup topo_all ∧ concat series ≡ₚ topo_all ∧
    Forall (λ c, c ≠ [] ∧ c `sublist_of` topo_all ∧
                 (∀ a b, a ∈ c → (b ∈ c ↔ rtsc (induced g topo_all) a b)) ∧
                 (∀ p n, n ∈ c → edge g p n → before c p n)) series ∧
    StronglySorted (series_order topo_all) series ∧
    (∀ X Y, topo_all ≡ₚ X ++ Y → length X = 5%nat → length Y = 2%nat →
            (∀ a b, a ∈ X → b ∈ X → rtsc (induced g topo_all) a b) →
            (∀ a b, a ∈ Y → b ∈ Y → rtsc (induced g topo_all) a b) →
            (∀ a b, a ∈ X → b ∈ Y → ¬ rtsc (induced g topo_all) a b) →
            ∃ sx sy, series = [sx; sy] ∧ sx ≡ₚ X ∧ sy ≡ₚ Y).
Proof.
  apply (compute_series_toposort_components id two_groups_files
           two_groups_dirs ["e"; "p"] None).
  - reflexivity.
  - intros t Ht. apply list_elem_of_In in Ht. simpl in Ht.
    destruct Ht as [<-|[<-|[]]]; apply list_elem_of_In; simpl; tauto.
  - apply (topo_sort_returned_acyclic id _ _
             ["a"; "b"; "c"; "d"; "e"; "q"; "p"]).
    + reflexivity.
    + apply build_from_control_dirs_wf.
    + intros t Ht. apply list_elem_of_In in Ht. simpl in Ht.
      destruct Ht as [<-|[<-|[]]]; apply list_elem_of_In; vm_compute; tauto.
    + vm_compute. reflexivity.
Defined.

(** *** More about [topo_sort] and [add_edge] *)

(** What [schedule] gives for a set of packages that holds the
    prerequisites of its members: an order of the whole set with every
    package after its prerequisites, when no member lies on a cycle; else
    the members that lie on a cycle or depend on one. *)
Lemma schedule_outcome set_iter g W :
  (∀ s, set_iter s ≡ₚ s) → graph_wf g → NoDup W →
  (∀ n p, n ∈ W → edge g p n → p ∈ W) →
  match schedule set_iter g W with
  | Returned l =>
    NoDup l ∧ (∀ n, n ∈ l ↔ n ∈ W)
    ∧ (∀ p n, n ∈ l → edge g p n → before l p n)
    ∧ (∀ c, c ∈ W → ¬ on_cycle g c)
  | CycleDetected remaining =>
    StronglySorted str_le remaining
    ∧ (∀ n, n ∈ remaining ↔ n ∈ W ∧ ∃ c, on_cycle g c ∧ rtc (edge g) c n)
    ∧ ∃ c, c ∈ W ∧ on_cycle g c
  | _ => False
  end.
Proof.
  intros Hperm Hwf HW Hcl.
  destruct (schedule_spec set_iter g W Hperm Hwf HW) as (l & Hrun & ->).
  pose proof (kahn_run_length g W _ HW l Hrun) as Hlen.
  pose proof (λ n, residue_spec g W _ HW Hcl l n Hrun) as Hres.
  destruct Hrun as [Htr Hmax].
  pose proof (kahn_trace_sub _ _ _ _ Htr) as [Hnd Hl].
  case_decide as Hne.
  - assert (∃ n, n ∈ W ∧ n ∉ l) as (n & Hn & Hnl).
    { destruct (decide (Forall (λ n, n ∈ l) W)) as [Hall|Hex].
      - destruct Hne. apply Hlen. by apply Forall_forall.
      - apply not_Forall_Exists, Exists_exists in Hex; [done|apply _]. }
    split; [apply sorted_ascending|]. split.
    + intros x. rewrite elem_of_sorted, elem_of_set_diff. apply Hres.
    + destruct (proj1 (Hres n) (conj Hn Hnl)) as (_ & c & Hc & Hcn).
      exists c. split; [|done]. by apply (closed_rtc g W Hcl c n).
  - assert (length l = length W) as Heq
      by (destruct (decide (length l = length W)); [done|by destruct Hne]).
    split; [done|]. split; [|split].
    + intros n. split; [apply Hl|by apply Hlen].
    + intros p n Hn He.
      apply list_elem_of_split in Hn as (l1 & l2 & ->).
      assert (p ∈ l1) as (a & b & ->)%list_elem_of_split.
      { apply (kahn_trace_topo g W _ l1 n l2 p Htr); [|done].
        eapply Hcl; [|done]. apply Hl. set_solver. }
      exists a, b, l2. by rewrite <- app_assoc.
    + intros c Hc. apply (kahn_trace_no_cycle g W _ Hcl l c Htr). by apply Hlen.
Qed.

Lemma app_cons_inj_NoDup {A} (x : A) l1 l2 m1 m2 :
  NoDup (l1 ++ x :: l2) → l1 ++ x :: l2 = m1 ++ x :: m2 → l1 = m1 ∧ l2 = m2.
Proof.
  revert m1. induction l1 as [|a l1 IH]; intros m1 Hnd Heq.
  - destruct m1 as [|b m1]; simpl in *; [by injection Heq|].
    injection Heq as <- ->. apply NoDup_cons in Hnd as [Hx _].
    destruct Hx. set_solver.
  - destruct m1 as [|b m1]; simpl in *.
    + injection Heq as -> <-. apply NoDup_cons in Hnd as [Hx _].
      destruct Hx. set_solver.
    + injection Heq as <- Heq. apply NoDup_cons in Hnd as [_ Hnd].
      destruct (IH m1 Hnd Heq) as [-> ->]. done.
Qed.

Lemma before_trans (l : list string) a b c :
  NoDup l → before l a b → before l b c → before l a c.
Proof.
  intros Hnd (l1 & l2 & l3 & E1) (m1 & m2 & m3 & E2).
  assert (l = (l1 ++ a :: l2) ++ b :: l3) as E1'
    by (by rewrite E1, <- app_assoc).
  rewrite E1' in Hnd. rewrite E1' in E2.
  destruct (app_cons_inj_NoDup b _ _ _ _ Hnd E2) as [_ ->].
  exists l1, (l2 ++ b :: m2), m3. by rewrite E1, <- !app_assoc.
Qed.

(** An order that has every package after its prerequisites has it after
    the prerequisites of those as well. *)
Lemma before_tc g (l : list string) :
  NoDup l → (∀ p n, n ∈ l → edge g p n → before l p n) →
  ∀ p n, tc (edge g) p n → n ∈ l → before l p n.
Proof.
  intros Hnd Hedge p n Htc. induction Htc as [p n He|p q n He _ IH]; intros Hn.
  - by apply Hedge.
  - specialize (IH Hn). apply (before_trans l p q n Hnd); [|done].
    apply Hedge; [|done]. destruct IH as (l1 & l2 & l3 & ->). set_solver.
Qed.

(** X1. [topo_sort(subset)] raises [KeyError] exactly when a requested package
    is not known, and names the last such package of [subset]. *)
Theorem topo_sort_key_error set_iter g subset include_dependencies k :
  (∀ s, set_iter s ≡ₚ s) → graph_wf g →
  topo_sort set_iter g (Some subset) include_dependencies = KeyError k
  ↔ last (filter (λ n, n ∉ nodes g) subset) = Some k.
Proof.
  intros Hperm Hwf.
  assert (head (filter (λ n, n ∉ nodes g) (reverse subset))
          = last (filter (λ n, n ∉ nodes g) subset)) as Hhead.
  { rewrite <- head_reverse. f_equal. clear.
    induction subset as [|x l IH]; [done|].
    rewrite reverse_cons, filter_app, IH.
    destruct (decide (x ∉ nodes g)).
    - by rewrite !filter_cons_True, filter_nil, reverse_cons by done.
    - by rewrite !filter_cons_False, filter_nil, app_nil_r by done. }
  split.
  - intros Herr.
    destruct (last (filter (λ n, n ∉ nodes g) subset)) as [k'|] eqn:Elast.
    + rewrite <- Hhead in Elast.
      rewrite (topo_sort_unknown set_iter g subset include_dependencies k'
                 Hperm Hwf) in Herr by done.
      congruence.
    + apply last_None in Elast.
      assert (∀ s, s ∈ subset → s ∈ nodes g) as Hknown.
      { intros s Hs. destruct (decide (s ∈ nodes g)) as [|Hn]; [done|].
        assert (s ∈ filter (λ n, n ∉ nodes g) subset) as Hin
          by (by apply list_elem_of_filter).
        rewrite Elast in Hin. by apply elem_of_nil in Hin. }
      destruct (topo_sort_run set_iter g subset Hperm Hwf Hknown)
        as (W & l & _ & _ & _ & _ & E).
      unfold topo_sort in *.
      destruct (closure_loop set_iter _ g (reverse subset) []) as [W'|?|?|];
        try done.
      * destruct (schedule set_iter g W') as [l'|?|?|]; try done.
        -- by destruct include_dependencies.
        -- by case_decide.
      * by case_decide.
  - intros Hlast. apply topo_sort_unknown; [done..|]. by rewrite Hhead.
Qed.

Lemma topo_sort_key_error_witness :
  topo_sort id scenario_graph (Some ["A"; "Z"; "B"; "Q"; "C"]) false = KeyError "Q"
  ↔ last (filter (λ n, n ∉ nodes scenario_graph) ["A"; "Z"; "B"; "Q"; "C"])
    = Some "Q".
Proof.
  apply (topo_sort_key_error id scenario_graph ["A"; "Z"; "B"; "Q"; "C"] false "Q").
  - intros s. reflexivity.
  - apply scenario_graph_wf.
Defined.

(** X2. [topo_sort()] without a subset orders the whole graph: it returns
    every known package once, each after its prerequisites, and then no
    package lies on a cycle; or it raises the cycle error with, in
    ascending order, the packages that lie on a cycle or depend on one. *)
Theorem topo_sort_whole_graph set_iter g include_dependencies :
  (∀ s, set_iter s ≡ₚ s) → graph_wf g →
  match topo_sort set_iter g None include_dependencies with
  | Returned l =>
    l ≡ₚ nodes g ∧ (∀ p n, edge g p n → before l p n)
    ∧ (∀ c, c ∈ nodes g → ¬ on_cycle g c)
  | CycleDetected remaining =>
    StronglySorted str_le remaining
    ∧ (∀ n, n ∈ remaining ↔
            n ∈ nodes g ∧ ∃ c, on_cycle g c ∧ rtc (edge g) c n)
  | _ => False
  end.
Proof.
  intros Hperm Hwf.
  pose proof (schedule_outcome set_iter g (nodes g) Hperm Hwf (wf_nodes _ Hwf))
    as Hs.
  unfold topo_sort.
  destruct (schedule set_iter g (nodes g)) as [l|?|remaining|].
  - destruct Hs as (Hnd & Hin & Hord & Hacyc).
    { intros n p _ He. by apply (wf_edge _ Hwf) in He as [? _]. }
    split; [|split; [|done]].
    + apply NoDup_Permutation; [done|apply (wf_nodes _ Hwf)|done].
    + intros p n He. apply Hord; [|done]. apply Hin.
      by apply (wf_edge _ Hwf) in He as [_ ?].
  - apply Hs. intros n p _ He. by apply (wf_edge _ Hwf) in He as [? _].
  - destruct Hs as (Hsorted & Hin & _); [|done].
    intros n p _ He. by apply (wf_edge _ Hwf) in He as [? _].
  - apply Hs. intros n p _ He. by apply (wf_edge _ Hwf) in He as [? _].
Qed.

Lemma topo_sort_whole_graph_witness :
  match topo_sort id scenario_graph None false with
  | Returned l =>
    l ≡ₚ nodes scenario_graph
    ∧ (∀ p n, edge scenario_graph p n → before l p n)
    ∧ (∀ c, c ∈ nodes scenario_graph → ¬ on_cycle scenario_graph c)
  | CycleDetected remaining =>
    StronglySorted str_le remaining
    ∧ (∀ n, n ∈ remaining ↔
            n ∈ nodes scenario_graph
            ∧ ∃ c, on_cycle scenario_graph c ∧ rtc (edge scenario_graph) c n)
  | _ => False
  end.
Proof.
  apply (topo_sort_whole_graph id scenario_graph false).
  - intros s. reflexivity.
  - apply scenario_graph_wf.
Defined.

(** X3. [topo_sort(subset, include_dependencies=False)] when the closure of
    the requested packages has no cycle: it returns the requested packages
    and no others, each once, every one after those of them it depends on,
    directly or through other packages. *)
Theorem topo_sort_subset_only set_iter g subset :
  (∀ s, set_iter s ≡ₚ s) → graph_wf g → (∀ s, s ∈ subset → s ∈ nodes g) →
  (∀ c, in_closure g subset c → ¬ on_cycle g c) →
  ∃ l, topo_sort set_iter g (Some subset) false = Returned l
       ∧ NoDup l
       ∧ (∀ n, n ∈ l ↔ n ∈ subset)
       ∧ (∀ a b, a ∈ subset → b ∈ subset → tc (edge g) a b → before l a b).
Proof.
  intros Hperm Hwf Hsub Hacyc.
  pose proof (closure_result set_iter Hperm g Hwf subset) as R.
  unfold topo_sort.
  destruct (closure_loop set_iter _ g (reverse subset) []) as [W|k|?|];
    try done.
  - destruct R as (HW & _ & HM & Hcl).
    pose proof (schedule_outcome set_iter g W Hperm Hwf HW Hcl) as Hs.
    destruct (schedule set_iter g W) as [l|?|remaining|]; try done.
    + destruct Hs as (Hnd & Hin & Hord & _).
      exists (filter (λ node, node ∈ subset) l).
      split; [done|]. split; [by apply NoDup_filter|]. split.
      * intros n. rewrite list_elem_of_filter, Hin, HM. split; [tauto|].
        intros Hn. split; [done|]. exists n. split; [done|]. reflexivity.
      * intros a b Ha Hb Htc. apply before_filter; [|done..].
        apply (before_tc g l Hnd Hord a b Htc). apply Hin, HM.
        exists b. split; [done|]. reflexivity.
    + destruct Hs as (_ & _ & c & Hc & Hcyc). destruct (Hacyc c); [|done].
      by apply HM.
  - apply head_Some_elem_of, list_elem_of_filter in R as [Hk Hin].
    destruct Hk. by apply Hsub, elem_of_reverse.
Qed.

Lemma topo_sort_subset_only_witness :
  ∃ l, topo_sort id scenario_graph (Some ["A"; "B"]) false = Returned l
       ∧ NoDup l
       ∧ (∀ n, n ∈ l ↔ n ∈ ["A"; "B"])
       ∧ (∀ a b, a ∈ ["A"; "B"] → b ∈ ["A"; "B"] →
                 tc (edge scenario_graph) a b → before l a b).
Proof.
  apply (topo_sort_subset_only id scenario_graph ["A"; "B"]).
  - intros s. reflexivity.
  - apply scenario_graph_wf.
  - intros s Hs. vm_compute. set_solver.
  - intros c Hc.
    apply (topo_sort_returned_acyclic id scenario_graph ["A"; "B"] ["B"; "C"; "A"]);
      [intros s; reflexivity|apply scenario_graph_wf| |reflexivity|done].
    intros s Hs. vm_compute. set_solver.
Defined.

Lemma set_add_twice x (s : list string) : set_add x (set_add x s) = set_add x s.
Proof.
  unfold set_add. destruct (decide (x ∈ s)) as [Hin|Hin].
  - by rewrite decide_True.
  - rewrite decide_True; [done|]. set_solver.
Qed.

(** X4. Adding an edge a second time changes nothing, and an edge from a
    package to itself is never added. *)
Theorem add_edge_twice g prereq dependent :
  add_edge (add_edge g prereq dependent) prereq dependent
  = add_edge g prereq dependent
  ∧ add_edge g prereq prereq = g.
Proof.
  split.
  - unfold add_edge. destruct (decide (prereq = dependent)) as [|Hne]; [done|].
    cbn [adj rev package_dirs order_hint nodes unresolved].
    rewrite !get_set_insert, !decide_True by done.
    by rewrite !insert_insert_eq, !set_add_twice.
  - unfold add_edge. by rewrite decide_True.
Qed.

(** *** What [build_from_control_dirs] records *)

(** [sort_packages_with_dependencies] *)
Definition sort_packages_with_dependencies
    (set_iter : list string → list string) (fs : control_files)
    (package_dirs : list (string * Path)) (target_packages : list string)
    (order_hint : option (gmap string Z))
  : outcome (list string * list string) :=
  let graph := init package_dirs (default ∅ order_hint) in
  let graph := build_from_control_dirs fs graph None in
  let unresolved := all_unresolved set_iter graph in
  match topo_sort set_iter graph (Some target_packages) true with
  | Returned order => Returned (order, unresolved)
  | KeyError k => KeyError k
  | CycleDetected remaining => CycleDetected remaining
  | Diverged => Diverged
  end.

(** The control file of the package [n] names [p] in one of the fields
    [fields]. *)
Definition declares (fs : control_files) (fields : list string)
    (dirs : list (string * Path)) (p n : string) : Prop :=
  ∃ path content stanza field value,
    (n, path) ∈ dirs ∧ fs path = Some content
    ∧ stanza ∈ _split_paragraphs content ∧ field ∈ fields
    ∧ stanza !! field = Some value ∧ p ∈ _parse_depends value.

(** What the graph holds about [d] and [pkg]: the edge from [d] to [pkg]
    ([local]), or [d] among the unresolved names of [pkg]. *)
Definition recorded (g : PackageDepGraph) (local : bool) (d pkg : string)
  : Prop :=
  if local then edge g d pkg
  else ∃ deps, (pkg, deps) ∈ unresolved g ∧ d ∈ deps.

Lemma dict_set_add_spec (u : list (string * list string)) k x q y :
  (∃ deps, (q, deps) ∈ dict_set_add u k x ∧ y ∈ deps)
  ↔ (∃ deps, (q, deps) ∈ u ∧ y ∈ deps) ∨ (q = k ∧ y = x).
Proof.
  induction u as [|[k' s] u IH]; simpl.
  - split.
    + intros (deps & Hin & Hy). apply list_elem_of_singleton in Hin.
      injection Hin as -> ->. apply list_elem_of_singleton in Hy. by right.
    + intros [(deps & Hin & _)|[-> ->]]; [by apply elem_of_nil in Hin|].
      exists [x]. split; [left|left].
  - case_decide as Hk; [subst k'|].
    + split.
      * intros (deps & [Heq|Hin]%elem_of_cons & Hy).
        -- injection Heq as -> ->. apply elem_of_set_add in Hy as [->|Hy];
             [by right|]. left. exists s. split; [left|done].
        -- left. exists deps. split; [by right|done].
      * intros [(deps & [Heq|Hin]%elem_of_cons & Hy)|[-> ->]].
        -- injection Heq as -> ->. exists (set_add x s).
           split; [left|]. apply elem_of_set_add. by right.
        -- exists deps. split; [by right|done].
        -- exists (set_add x s). split; [left|]. apply elem_of_set_add. by left.
    + split.
      * intros (deps & [Heq|Hin]%elem_of_cons & Hy).
        -- injection Heq as -> ->. left. exists s. split; [left|done].
        -- destruct (proj1 IH) as [(deps' & ? & ?)|?]; [by exists deps| |by right].
           left. exists deps'. split; [by right|done].
      * intros [(deps & [Heq|Hin]%elem_of_cons & Hy)|[-> ->]].
        -- injection Heq as -> ->. exists s. split; [left|done].
        -- destruct (proj2 IH) as (deps' & ? & ?); [left; by exists deps|].
           exists deps'. split; [by right|done].
        -- destruct (proj2 IH) as (deps' & ? & ?); [by right|].
           exists deps'. split; [by right|done].
Qed.

Lemma recorded_dep_step pkg g d local a b :
  recorded (dep_step pkg g d) local a b
  ↔ recorded g local a b
    ∨ (a = d ∧ b = pkg
       ∧ if local then d ∈ (package_dirs g).*1 ∧ d ≠ pkg
         else d ∉ (package_dirs g).*1).
Proof.
  unfold dep_step. destruct local; unfold recorded.
  - destruct (decide (d ∈ (package_dirs g).*1)) as [Hd|Hd].
    + case_decide as Hne; [|naive_solver]. rewrite edge_add_edge. naive_solver.
    + unfold edge, add_unresolved. simpl. naive_solver.
  - destruct (decide (d ∈ (package_dirs g).*1)) as [Hd|Hd].
    + case_decide as Hne; [|naive_solver]. unfold add_edge.
      case_decide; simpl; naive_solver.
    + unfold add_unresolved. simpl. rewrite dict_set_add_spec. naive_solver.
Qed.

(** A loop over [l] whose rounds each record some facts, and keep the
    package directories, records the facts of all its rounds. *)
Lemma fold_records {A} (dirs : list (string * Path))
    (step : PackageDepGraph → A → PackageDepGraph)
    (new : A → bool → string → string → Prop) (l : list A) g :
  (∀ g x, package_dirs g = dirs → package_dirs (step g x) = dirs) →
  (∀ g x local a b, package_dirs g = dirs →
     recorded (step g x) local a b ↔ recorded g local a b ∨ new x local a b) →
  package_dirs g = dirs →
  package_dirs (foldl step g l) = dirs
  ∧ ∀ local a b,
      recorded (foldl step g l) local a b
      ↔ recorded g local a b ∨ ∃ x, x ∈ l ∧ new x local a b.
Proof.
  intros Hdirs Hstep. revert g.
  induction l as [|x l IH]; intros g Hg; simpl.
  - split; [done|]. intros local a b. split; [by left|].
    intros [?|(x & Hx & _)]; [done|by apply elem_of_nil in Hx].
  - destruct (IH (step g x) (Hdirs g x Hg)) as [IH1 IH2]. split; [done|].
    intros local a b. rewrite IH2, (Hstep g x local a b Hg).
    split.
    + intros [[?|?]|(y & ? & ?)]; [by left|right..].
      * exists x. split; [left|done].
      * exists y. split; [by right|done].
    + intros [?|(y & [->|?]%elem_of_cons & ?)]; [by left; left|by left; right|].
      right. by exists y.
Qed.

(** What the dependency [d] of [pkg] adds to the graph with the
    directories [dirs]. *)
Definition new_fact (dirs : list (string * Path)) (pkg d : string)
    (local : bool) (a b : string) : Prop :=
  a = d ∧ b = pkg
  ∧ if local then d ∈ dirs.*1 ∧ d ≠ pkg else d ∉ dirs.*1.

Lemma recorded_field_step dirs pkg stanza g field :
  package_dirs g = dirs →
  package_dirs (field_step pkg stanza g field) = dirs
  ∧ ∀ local a b,
      recorded (field_step pkg stanza g field) local a b
      ↔ recorded g local a b
        ∨ ∃ value d, stanza !! field = Some value ∧ d ∈ _parse_depends value
                     ∧ new_fact dirs pkg d local a b.
Proof.
  intros Hg. unfold field_step.
  destruct (stanza !! field) as [value|]; [|split; [done|naive_solver]].
  case_decide as Hempty.
  { subst value. split; [done|]. intros local a b. split; [by left|].
    intros [?|(value & d & [= <-] & Hd & _)]; [done|].
    vm_compute in Hd. by apply elem_of_nil in Hd. }
  destruct (fold_records dirs (dep_step pkg) (new_fact dirs pkg)
              (_parse_depends value) g) as [H1 H2]; [| |done|].
  - intros g' d Hg'. by rewrite (proj1 (dep_step_dirs pkg g' d)).
  - intros g' d local a b Hg'. rewrite recorded_dep_step, Hg'. done.
  - split; [done|]. intros local a b. rewrite H2. naive_solver.
Qed.

Lemma recorded_package_step fs fields dirs g pkg base_path :
  package_dirs g = dirs →
  package_dirs (package_step fs fields g (pkg, base_path)) = dirs
  ∧ ∀ local a b,
      recorded (package_step fs fields g (pkg, base_path)) local a b
      ↔ recorded g local a b
        ∨ ∃ content stanza field value d,
            fs base_path = Some content ∧ stanza ∈ _split_paragraphs content
            ∧ field ∈ fields ∧ stanza !! field = Some value
            ∧ d ∈ _parse_depends value ∧ new_fact dirs pkg d local a b.
Proof.
  intros Hg. unfold package_step.
  destruct (fs base_path) as [content|]; [|split; [done|naive_solver]].
  destruct (fold_records dirs
              (λ g stanza, foldl (field_step pkg stanza) g fields)
              (λ stanza local a b,
                 ∃ field value d,
                   field ∈ fields ∧ stanza !! field = Some value
                   ∧ d ∈ _parse_depends value ∧ new_fact dirs pkg d local a b)
              (_split_paragraphs content) g) as [H1 H2]; [| |done|].
  - intros g' stanza Hg'.
    apply (fold_records dirs (field_step pkg stanza)
             (λ field local a b,
                ∃ value d, stanza !! field = Some value
                           ∧ d ∈ _parse_depends value
                           ∧ new_fact dirs pkg d local a b));
      [| |done].
    + intros g2 field Hg2. by apply recorded_field_step.
    + intros g2 field local a b Hg2. by apply recorded_field_step.
  - intros g' stanza local a b Hg'.
    destruct (fold_records dirs (field_step pkg stanza)
                (λ field local a b,
                   ∃ value d, stanza !! field = Some value
                              ∧ d ∈ _parse_depends value
                              ∧ new_fact dirs pkg d local a b)
                fields g') as [_ H]; [| |done|].
    + intros g2 field Hg2. by apply recorded_field_step.
    + intros g2 field local' a' b' Hg2. by apply recorded_field_step.
    + rewrite H. naive_solver.
  - split; [done|]. intros local a b. rewrite H2. naive_solver.
Qed.

Lemma recorded_init dirs hint local a b : ¬ recorded (init dirs hint) local a b.
Proof.
  destruct local; simpl.
  - apply init_no_edge.
  - intros (deps & Hin & _). by apply elem_of_nil in Hin.
Qed.

(** The fields that [build_from_control_dirs] reads. *)
Definition fields_read (depends_field_names : option (list string))
  : list string :=
  match depends_field_names with
  | Some (f :: fields) => f :: fields
  | _ => default_fields
  end.

Lemma build_records fs dirs hint depends_field_names local p n :
  recorded (build_from_control_dirs fs (init dirs hint) depends_field_names)
           local p n
  ↔ declares fs (fields_read depends_field_names) dirs p n
    ∧ (if local then p ∈ dirs.*1 ∧ p ≠ n else p ∉ dirs.*1).
Proof.
  set (fields := fields_read depends_field_names).
  destruct (fold_records dirs (package_step fs fields)
              (λ item local a b,
                 ∃ content stanza field value d,
                   fs item.2 = Some content
                   ∧ stanza ∈ _split_paragraphs content
                   ∧ field ∈ fields ∧ stanza !! field = Some value
                   ∧ d ∈ _parse_depends value
                   ∧ new_fact dirs item.1 d local a b)
              dirs (init dirs hint)) as [_ H]; [| |done|].
  { intros g' [pkg base_path] Hg'. by apply recorded_package_step. }
  { intros g' [pkg base_path] local' a b Hg'. by apply recorded_package_step. }
  unfold build_from_control_dirs. fold (fields_read depends_field_names).
  fold fields. change (package_dirs (init dirs hint)) with dirs.
  rewrite H. split.
  - intros [Hinit|([pkg base_path] & Hitem & content & stanza & field & value
                   & d & Hfs & Hst & Hf & Hv & Hd & -> & -> & Hloc)].
    + by apply recorded_init in Hinit.
    + split; [|done]. by exists base_path, content, stanza, field, value.
  - intros [(path & content & stanza & field & value & Hitem & Hfs & Hst & Hf
             & Hv & Hd) Hloc].
    right. exists (n, path). split; [done|].
    by exists content, stanza, field, value, p.
Qed.

(** X5. [build_from_control_dirs] on a new graph records exactly what the
    control files declare: an edge from [p] to [n] when [p] is another
    known package that the control file of [n] names in one of the fields
    read, and [p] as an unresolved name of [n] when the control file of
    [n] names [p] and [p] is not a known package. *)
Theorem build_from_control_dirs_records fs dirs hint depends_field_names p n :
  let g := build_from_control_dirs fs (init dirs hint) depends_field_names in
  let fields := fields_read depends_field_names in
  (edge g p n ↔ p ∈ dirs.*1 ∧ p ≠ n ∧ declares fs fields dirs p n)
  ∧ ((∃ deps, (n, deps) ∈ unresolved g ∧ p ∈ deps)
     ↔ (p ∉ dirs.*1) ∧ declares fs fields dirs p n).
Proof.
  intros g fields. subst g fields.
  pose proof (build_records fs dirs hint depends_field_names true p n) as Hedge.
  pose proof (build_records fs dirs hint depends_field_names false p n) as Hunres.
  simpl in Hedge, Hunres. split; [rewrite Hedge|rewrite Hunres]; tauto.
Qed.

Lemma elem_of_all_unresolved set_iter g d :
  (∀ s, set_iter s ≡ₚ s) →
  d ∈ all_unresolved set_iter g
  ↔ ∃ pkg deps, (pkg, deps) ∈ unresolved g ∧ d ∈ deps.
Proof.
  intros Hperm. unfold all_unresolved.
  assert (∀ (u : list (string * list string)) s,
            d ∈ foldl (λ s deps, foldl (λ s d, set_add d s) s (set_iter deps))
                      s u.*2
            ↔ d ∈ s ∨ ∃ pkg deps, (pkg, deps) ∈ u ∧ d ∈ deps) as H.
  { induction u as [|[pkg deps] u IH]; intros s; simpl.
    - split; [by left|]. intros [?|(? & ? & Hin & _)]; [done|].
      by apply elem_of_nil in Hin.
    - rewrite IH.
      assert (∀ l s, d ∈ foldl (λ s d, set_add d s) s l ↔ d ∈ s ∨ d ∈ l) as Hin.
      { clear. induction l as [|x l IH]; intros s; simpl; [set_solver|].
        rewrite IH, elem_of_set_add. set_solver. }
      rewrite Hin, Hperm. split.
      + intros [[?|?]|(pkg' & deps' & ? & ?)]; [by left|right..].
        * exists pkg, deps. split; [left|done].
        * exists pkg', deps'. split; [by right|done].
      + intros [?|(pkg' & deps' & [Heq|?]%elem_of_cons & ?)];
          [by left; left| |right; by exists pkg', deps'].
        injection Heq as -> ->. left. by right. }
  rewrite H. split; [|by right]. intros [Hnil|?]; [|done].
  by apply elem_of_nil in Hnil.
Qed.

(** X6. [sort_packages_with_dependencies] returns the requested packages and
    the known packages they depend on, each once and after the known
    packages its control file names, together with the names that control
    files use for packages that are not known; it raises [KeyError] for a
    requested package that is not known, and the cycle error for a cycle
    among the packages to order. *)
Theorem sort_packages_with_dependencies_order set_iter fs dirs targets hint :
  (∀ s, set_iter s ≡ₚ s) →
  match sort_packages_with_dependencies set_iter fs dirs targets hint with
  | Returned (order, unresolved) =>
    NoDup order
    ∧ (∀ t, t ∈ targets → t ∈ order)
    ∧ (∀ p n, n ∈ order → p ∈ dirs.*1 → p ≠ n →
              declares fs default_fields dirs p n → before order p n)
    ∧ (∀ d, d ∈ unresolved
            ↔ (d ∉ dirs.*1) ∧ ∃ n, declares fs default_fields dirs d n)
  | KeyError k => k ∈ targets ∧ k ∉ dirs.*1
  | CycleDetected remaining => remaining ≠ []
  | Diverged => False
  end.
Proof.
  intros Hperm. unfold sort_packages_with_dependencies.
  set (g := build_from_control_dirs fs (init dirs (default ∅ hint)) None).
  assert (graph_wf g) as Hwf by apply build_from_control_dirs_wf.
  assert (∀ n, n ∈ nodes g ↔ n ∈ dirs.*1) as Hnodes.
  { intros n.
    destruct (build_from_control_dirs_keeps fs (init dirs (default ∅ hint)) None
                (init_wf _ _)) as (_ & _ & Hn & _).
    unfold g. rewrite Hn. apply elem_of_init_nodes. }
  pose proof (closure_result set_iter Hperm g Hwf targets) as R.
  unfold topo_sort.
  destruct (closure_loop set_iter _ g (reverse targets) []) as [W|k|?|];
    try done.
  - destruct R as (HW & Hknown & HM & Hcl).
    pose proof (schedule_outcome set_iter g W Hperm Hwf HW Hcl) as Hs.
    destruct (schedule set_iter g W) as [l|?|remaining|]; try done.
    + destruct Hs as (Hnd & Hin & Hord & _). split; [done|]. split; [|split].
      * intros t Ht. apply Hin, HM. exists t. split; [done|]. reflexivity.
      * intros p n Hn Hp Hne Hdecl. apply Hord; [done|].
        apply (build_records fs dirs (default ∅ hint) None true p n). done.
      * intros d. rewrite (elem_of_all_unresolved set_iter g d Hperm). split.
        -- intros (pkg & deps & Hu & Hd).
           destruct (proj1 (build_records fs dirs (default ∅ hint) None false d pkg))
             as [Hdecl Hloc]; [by exists deps|]. eauto.
        -- intros (Hd & n & Hdecl).
           destruct (proj2 (build_records fs dirs (default ∅ hint) None false d n))
             as (deps & ? & ?); [done|]. by exists n, deps.
    + destruct Hs as (_ & Hin & c & Hc & Hcyc). intros Hnil.
      assert (c ∈ remaining) as Hcr.
      { apply Hin. split; [done|]. exists c. split; [done|]. reflexivity. }
      rewrite Hnil in Hcr. by apply elem_of_nil in Hcr.
  - apply head_Some_elem_of, list_elem_of_filter in R as [Hk Hin].
    split; [by apply elem_of_reverse|]. by rewrite <- Hnodes.
Qed.

(** The check on the control files of [A], [B] and [C]. *)
Lemma sort_packages_with_dependencies_order_witness :
  match sort_packages_with_dependencies id scenario_files scenario_dirs ["A"]
                                        None with
  | Returned (order, unresolved) =>
    NoDup order
    ∧ (∀ t, t ∈ ["A"] → t ∈ order)
    ∧ (∀ p n, n ∈ order → p ∈ scenario_dirs.*1 → p ≠ n →
              declares scenario_files default_fields scenario_dirs p n →
              before order p n)
    ∧ (∀ d, d ∈ unresolved
            ↔ (d ∉ scenario_dirs.*1)
              ∧ ∃ n, declares scenario_files default_fields scenario_dirs d n)
  | KeyError k => k ∈ ["A"] ∧ k ∉ scenario_dirs.*1
  | CycleDetected remaining => remaining ≠ []
  | Diverged => False
  end.
Proof.
  apply (sort_packages_with_dependencies_order id scenario_files scenario_dirs
           ["A"] None).
  intros s. reflexivity.
Defined.

(** X28. [sort_packages_with_dependencies] and [compute_series_toposort] agree:
    on the same arguments both return, or both raise the same error; when
    they return, the series hold the packages of the order, each package
    in one series and in the order it has there, and the unresolved names
    are the same. *)
Theorem series_agree_with_order set_iter fs dirs targets hint :
  (∀ s, set_iter s ≡ₚ s) →
  match sort_packages_with_dependencies set_iter fs dirs targets hint,
        compute_series_toposort set_iter fs dirs targets hint with
  | Returned (order, unresolved), Returned (series, unresolved') =>
    concat series ≡ₚ order ∧ NoDup (concat series)
    ∧ Forall (λ c, c ≠ [] ∧ c `sublist_of` order) series
    ∧ unresolved' = unresolved
  | KeyError k, KeyError k' => k' = k
  | CycleDetected remaining, CycleDetected remaining' => remaining' = remaining
  | _, _ => False
  end.
Proof.
  intros Hperm. unfold sort_packages_with_dependencies, compute_series_toposort.
  set (g := build_from_control_dirs fs (init dirs (default ∅ hint)) None).
  assert (graph_wf g) as Hwf by apply build_from_control_dirs_wf.
  pose proof (closure_result set_iter Hperm g Hwf targets) as R.
  assert (match topo_sort set_iter g (Some targets) true with
          | Returned l => NoDup l
          | Diverged => False
          | _ => True
          end) as Htopo.
  { unfold topo_sort.
    destruct (closure_loop set_iter _ g (reverse targets) []) as [W|k|?|];
      try done.
    destruct R as (HW & _ & _ & Hcl).
    pose proof (schedule_outcome set_iter g W Hperm Hwf HW Hcl) as Hs.
    destruct (schedule set_iter g W) as [l|?|remaining|]; try done.
    by destruct Hs. }
  destruct (topo_sort set_iter g (Some targets) true) as [l|k|remaining|];
    try done.
  destruct (series_of_spec set_iter g l Hperm Hwf Htopo)
    as (S & -> & Hconcat & Hgood & _).
  split_and!; [done|by rewrite Hconcat| |done].
  eapply Forall_impl; [done|]. by intros c (? & ? & _).
Qed.

(** The check on the control files of [A], [B] and [C]. *)
Lemma series_agree_with_order_witness :
  match sort_packages_with_dependencies id scenario_files scenario_dirs ["A"]
                                        None,
        compute_series_toposort id scenario_files scenario_dirs ["A"] None with
  | Returned (order, unresolved), Returned (series, unresolved') =>
    concat series ≡ₚ order ∧ NoDup (concat series)
    ∧ Forall (λ c, c ≠ [] ∧ c `sublist_of` order) series
    ∧ unresolved' = unresolved
  | KeyError k, KeyError k' => k' = k
  | CycleDetected remaining, CycleDetected remaining' => remaining' = remaining
  | _, _ => False
  end.
Proof.
  apply (series_agree_with_order id scenario_files scenario_dirs ["A"] None).
  intros s. reflexivity.
Defined.

End DepSort.

(** ** agiros_tools_menu.py: the persistent queue *)

Module Menu.
Import Py.

(** *** Values *)

(** A [pathlib.Path], by the string it was made from. *)
Definition Path : Type := string.

(** The components of a POSIX path that count: not empty, not ["."]. *)
Definition path_parts (p : Path) : list string :=
  filter (λ c, c ≠ "" ∧ c ≠ ".") (split "/" p).

(** [p.name] *)
Definition path_name (p : Path) : string := default "" (last (path_parts p)).

Fixpoint join_parts (parts : list string) : string :=
  match parts with
  | [] => ""
  | [c] => c
  | c :: parts => c +:+ "/" +:+ join_parts parts
  end.

(** [str(p)] *)
Definition path_str (p : Path) : string :=
  let root :=
    match p with
    | String "/" (String "/" (String "/" _)) => "/"
    | String "/" (String "/" _) => "//"
    | String "/" _ => "/"
    | _ => ""
    end in
  match path_parts p with
  | [] => if decide (root = "") then "." else root
  | parts => root +:+ join_parts parts
  end.

(** [base / name] for a relative [name]: nothing is put between a root,
    or no path at all, and the name. *)
Definition path_join (base : Path) (name : string) : Path :=
  let b := path_str base in
  if decide (b = ".") then name
  else if endswith "/" b then b +:+ name
  else b +:+ "/" +:+ name.

(** What [json.loads] returns; a number with a fraction or an exponent is
    not modelled. An object keeps its members in their order, as [dict]
    does. *)
Inductive json : Type :=
| JNull
| JBool (b : bool)
| JNum (n : Z)
| JStr (s : string)
| JArr (items : list json)
| JObj (members : list (string * json)).

(** [bool(v)] *)
Definition truthy (v : json) : bool :=
  match v with
  | JNull => false
  | JBool b => b
  | JNum n => negb (n =? 0)
  | JStr s => negb (bool_decide (s = ""))
  | JArr items => match items with [] => false | _ => true end
  | JObj members => match members with [] => false | _ => true end
  end.

(** A [dict] with [str] keys, in insertion order. *)
Fixpoint dict_get {V} (d : list (string * V)) (k : string) : option V :=
  match d with
  | [] => None
  | (k', v) :: d' => if decide (k' = k) then Some v else dict_get d' k
  end.

(** [d[k] = v] *)
Fixpoint dict_set {V} (d : list (string * V)) (k : string) (v : V)
  : list (string * V) :=
  match d with
  | [] => [(k, v)]
  | (k', v') :: d' =>
    if decide (k' = k) then (k', v) :: d' else (k', v') :: dict_set d' k v
  end.

(** [d.update(e)] *)
Definition dict_update {V} (d e : list (string * V)) : list (string * V) :=
  foldl (λ d '(k, v), dict_set d k v) d e.

(** [v.get(k)] when [v] is a [dict]. *)
Definition json_get (v : json) (k : string) : option json :=
  match v with
  | JObj members => dict_get members k
  | _ => None
  end.

(** [x or ""] for [x = d.get(k)]. *)
Definition or_empty (x : option json) : json :=
  match x with
  | Some v => if truthy v then v else JStr ""
  | None => JStr ""
  end.

Record BuildTask : Type := mkTask {
  display_name : string;
  path : Path;
  kind : string;
  extra_args : list string
}.

(** A reference to a [BuildTask] object. *)
Abbreviation ref := nat (only parsing).

(** The state of a [MenuState] the queue methods read and write: the
    [BuildTask] objects, [build_queue] as a list of references to them,
    [queue_packages], [package_status], and the two files: the text of the
    queue file ([None] when it does not exist) and the JSON document in
    the metadata file ([None] when the file is missing, blank or not
    JSON). *)
Record MenuState : Type := mkState {
  code_dir : Path;
  heap : ref → BuildTask;
  next_ref : ref;
  build_queue : list ref;
  queue_packages : list string;
  package_status : gmap string bool;
  queue_file : option string;
  queue_meta_file : option json
}.

(** The key of a task in the queue. *)
Definition task_key (t : BuildTask) : string * string :=
  (path_name (path t), kind t).

(** The lines a text file yields when it is iterated: it is cut after
    each line feed or carriage return. The line ends are left out, as
    [strip] removes them first thing. *)
Fixpoint file_lines (s : string) : list string :=
  match s with
  | EmptyString => [EmptyString]
  | String c s' =>
    if char_eqb c "010" || char_eqb c "013" then EmptyString :: file_lines s'
    else match file_lines s' with
         | l :: ls => String c l :: ls
         | [] => [String c EmptyString]
         end
  end.

Section queue.
(** [json.loads] on the text of a line, [None] for [JSONDecodeError]; the
    text is taken to nest no deeper than the decoder can follow. *)
Variable json_loads : string → option json.
(** [str(v)] for a list or a dict. *)
Variable repr_container : json → string.
(** [p.expanduser()], [None] where it raises: [RuntimeError] when the
    path starts with [~] or [~user] and the home directory is not
    known. *)
Variable expanduser : Path → option Path.
(** [p.resolve()], the path itself where it fails. *)
Variable resolve : Path → Path.

(** [str(v)] *)
Definition py_str (v : json) : string :=
  match v with
  | JNull => "None"
  | JBool true => "True"
  | JBool false => "False"
  | JNum n => pretty n
  | JStr s => s
  | _ => repr_container v
  end.

(** The list [extra] made of [raw_extra = payload.get("extra_args")]. *)
Definition extra_of (raw_extra : option json) : list string :=
  match raw_extra with
  | Some (JArr items) => map py_str items
  | Some v => if truthy v then [py_str v] else []
  | None => []
  end.

(** The parsed line when it is a structured record: a JSON object with a
    true ["name"]. *)
Definition inline_record (line : string) : option (list (string * json)) :=
  if startswith "{" line && endswith "}" line then
    match json_loads line with
    | Some (JObj members) =>
      if truthy (default JNull (dict_get members "name")) then Some members
      else None
    | _ => None
    end
  else None.

(** The part of the loop body that files a structured record in
    [legacy_meta]. *)
Definition note_legacy (legacy_meta : list (string * json))
    (name path_str kind : string) (extra_list : list string)
  : list (string * json) :=
  let entry :=
    default (JObj [("path", JStr path_str); ("kinds", JObj [])])
            (dict_get legacy_meta name) in
  let entry :=
    match entry with
    | JObj members =>
      let members :=
        if decide (path_str = "") then members
        else dict_set members "path" (JStr path_str) in
      let members :=
        match dict_get members "kinds" with
        | Some _ => members
        | None => dict_set members "kinds" (JObj [])
        end in
      match dict_get members "kinds" with
      | Some (JObj kinds_dict) =>
        JObj (dict_set members "kinds"
                (JObj (dict_set kinds_dict kind
                         (JObj [("extra_args", JArr (map JStr extra_list))]))))
      | _ => JObj members
      end
    | other => other
    end in
  dict_set legacy_meta name entry.

(** The state of [for raw_line in handle]: [packages], [status] and
    [legacy_meta]. *)
Definition load_acc : Type :=
  list string * gmap string bool * list (string * json).

(** The body of [for raw_line in handle]. *)
Definition load_line (acc : load_acc) (raw_line : string) : load_acc :=
  let '(packages, status, legacy_meta) := acc in
  let line := strip raw_line in
  if decide (line = "") then acc
  else
    let '(name, completed, legacy_meta) :=
      match inline_record line with
      | Some parsed =>
        let name := strip (py_str (or_empty (dict_get parsed "name"))) in
        let completed :=
          truthy (default (JBool false) (dict_get parsed "completed")) in
        let kind := py_str (default (JStr "debian") (dict_get parsed "kind")) in
        let path_str := py_str (or_empty (dict_get parsed "path")) in
        let extra_list := extra_of (dict_get parsed "extra_args") in
        (name, completed, note_legacy legacy_meta name path_str kind extra_list)
      | None =>
        if endswith "#" line
        then (strip (strip (drop_last line)), true, legacy_meta)
        else (strip line, false, legacy_meta)
      end in
    let name := if decide (name = "") then name else path_name name in
    if decide (name = "") then (packages, status, legacy_meta)
    else
      (if decide (name ∈ packages) then packages else packages ++ [name],
       <[name := default false (status !! name) || completed]> status,
       legacy_meta).

(** The body of [for key, value in meta.items()]. *)
Definition normalize_step (normalized_meta : list (string * json))
    (item : string * json) : list (string * json) :=
  let '(key, value) := item in
  let new_key := path_name key in
  if decide (new_key = "") then normalized_meta
  else
    match value with
    | JObj _ =>
      match dict_get normalized_meta new_key with
      | Some (JObj existing) =>
        let existing_path := py_str (or_empty (dict_get existing "path")) in
        let incoming_path := py_str (or_empty (json_get value "path")) in
        let existing :=
          if decide (incoming_path ≠ "" ∧ existing_path = "")
          then dict_set existing "path" (JStr incoming_path) else existing in
        let existing :=
          match dict_get existing "kinds" with
          | Some _ => existing
          | None => dict_set existing "kinds" (JObj [])
          end in
        let existing :=
          match dict_get existing "kinds", json_get value "kinds" with
          | Some (JObj kinds_existing), Some (JObj kinds_incoming) =>
            dict_set existing "kinds"
                     (JObj (dict_update kinds_existing kinds_incoming))
          | _, _ => existing
          end in
        dict_set normalized_meta new_key (JObj existing)
      | Some _ => normalized_meta
      | None => dict_set normalized_meta new_key value
      end
    | _ => normalized_meta
    end.

(** The body of [for pkg, info in legacy_meta.items()]. *)
Definition merge_step (meta : list (string * json)) (item : string * json)
  : list (string * json) :=
  let '(pkg, info) := item in
  let existing :=
    match dict_get meta pkg with
    | Some (JObj members) => members
    | _ => []
    end in
  let merged_path := py_str (or_empty (dict_get existing "path")) in
  let info_path := py_str (or_empty (json_get info "path")) in
  let path_to_use := if decide (info_path = "") then merged_path else info_path in
  let merged_kinds :=
    match dict_get existing "kinds" with
    | Some (JObj kinds) => dict_update [] kinds
    | _ => []
    end in
  let merged_kinds :=
    match json_get info "kinds" with
    | Some (JObj kinds) => dict_update merged_kinds kinds
    | _ => merged_kinds
    end in
  dict_set meta pkg (JObj [("path", JStr path_to_use);
                           ("kinds", JObj merged_kinds)]).

(** The tasks made for one package in the last loop of
    [load_queue_from_file], [None] where [expanduser] raises: it is
    called outside the [try]. *)
Definition tasks_of_package (code_dir : Path) (meta : list (string * json))
    (pkg : string) : option (list BuildTask) :=
  let info := default (JObj []) (dict_get meta pkg) in
  let '(base_path_str, kinds_info) :=
    match info with
    | JObj members =>
      (py_str (or_empty (dict_get members "path")),
       match dict_get members "kinds" with
       | Some (JObj kinds) => kinds
       | _ => []
       end)
    | _ => ("", [])
    end in
  base_path ←
    (if decide (base_path_str = "") then expanduser (path_join code_dir pkg)
     else expanduser base_path_str);
  let base_path := resolve base_path in
  Some match kinds_info with
       | [] => [mkTask pkg base_path "debian" []]
       | _ =>
         map (λ '(kind, payload),
                mkTask pkg base_path kind
                       (extra_of (json_get payload "extra_args")))
             kinds_info
       end.

(** New objects for [tasks], after the ones that exist. *)
Fixpoint allocate (heap : ref → BuildTask) (next : ref) (tasks : list BuildTask)
  : (ref → BuildTask) * ref * list ref :=
  match tasks with
  | [] => (heap, next, [])
  | t :: tasks =>
    let '(heap, next', refs) := allocate (<[next := t]> heap) (S next) tasks in
    (heap, next', next :: refs)
  end.

(** The merged metadata [load_queue_from_file] makes its tasks from. *)
Definition loaded_meta (meta_file : option json)
    (legacy_meta : list (string * json)) : list (string * json) :=
  let meta :=
    match meta_file with
    | Some (JObj members) => members
    | _ => []
    end in
  let meta := foldl normalize_step [] meta in
  foldl merge_step meta legacy_meta.

(** [MenuState.load_queue_from_file]: the state it leaves, [None] when it
    raises what [expanduser] raised; the state is then as it was, since
    the queue, the packages and the flags are assigned at the end. *)
Definition load_queue_from_file (s : MenuState) : option MenuState :=
  match queue_file s with
  | None =>
    Some (mkState (code_dir s) (heap s) (next_ref s) [] [] ∅
                  (queue_file s) (queue_meta_file s))
  | Some text =>
    let '(packages, status, legacy_meta) :=
      foldl load_line ([], ∅, []) (file_lines text) in
    let meta := loaded_meta (queue_meta_file s) legacy_meta in
    tasks ← mapM (tasks_of_package (code_dir s) meta) packages;
    let '(heap, next, refs) := allocate (heap s) (next_ref s) (concat tasks) in
    Some (mkState (code_dir s) heap next refs packages status
                  (queue_file s) (queue_meta_file s))
  end.

(** [task.display_name = v] and the like, on the object at [r]. *)
Definition set_display_name (heap : ref → BuildTask) (r : ref) (v : string)
  : ref → BuildTask :=
  <[r := mkTask v (path (heap r)) (kind (heap r)) (extra_args (heap r))]> heap.

Definition set_path_args (heap : ref → BuildTask) (r : ref) (p : Path)
    (args : list string) : ref → BuildTask :=
  <[r := mkTask (display_name (heap r)) p (kind (heap r)) args]> heap.

(** The text [_write_queue_file] writes. *)
Definition _write_queue_file (packages : list string) (status : gmap string bool)
  : string :=
  foldr (λ pkg rest,
           pkg +:+ (if default false (status !! pkg) then "#" else "")
               +:+ String "010" rest)
        "" packages.

(** The document [_write_meta_from_tasks] writes. *)
Definition _write_meta_from_tasks (tasks : list BuildTask) : list (string * json) :=
  foldl (λ meta task,
           let entry :=
             default [("path", JStr (path_str (path task))); ("kinds", JObj [])]
                     (match dict_get meta (display_name task) with
                      | Some (JObj members) => Some members
                      | _ => None
                      end) in
           let entry := dict_set entry "path" (JStr (path_str (path task))) in
           let kinds :=
             match dict_get entry "kinds" with
             | Some (JObj kinds) => kinds
             | _ => []
             end in
           let entry :=
             dict_set entry "kinds"
               (JObj (dict_set kinds (kind task)
                        (JObj [("extra_args",
                                JArr (map JStr (extra_args task)))]))) in
           dict_set meta (display_name task) (JObj entry))
        [] tasks.

(** The first loop of [save_queue]: every task is named after its
    directory, and the first task of each key is kept. *)
Fixpoint unique_tasks (heap : ref → BuildTask) (seen : list (string * string))
    (tasks : list ref) : (ref → BuildTask) * list ref :=
  match tasks with
  | [] => (heap, [])
  | task :: tasks =>
    let package_name := path_name (path (heap task)) in
    let heap := set_display_name heap task package_name in
    let key := (package_name, kind (heap task)) in
    if decide (key ∈ seen) then unique_tasks heap seen tasks
    else
      let '(heap, unique) := unique_tasks heap (seen ++ [key]) tasks in
      (heap, task :: unique)
  end.

(** [MenuState.save_queue()] *)
Definition save_queue (s : MenuState) : MenuState :=
  let '(heap, tasks) := unique_tasks (heap s) [] (build_queue s) in
  let names := map (λ t, path_name (path (heap t))) tasks in
  let package_order :=
    foldl (λ order name, if decide (name ∈ order) then order else order ++ [name])
          (queue_packages s) names in
  let package_order := filter (λ pkg, pkg ∈ names) package_order in
  let status : gmap string bool :=
    foldl (λ st pkg, <[pkg := default false (package_status s !! pkg)]> st)
          ∅ package_order in
  let heap :=
    foldl (λ heap task, set_display_name heap task (path_name (path (heap task))))
          heap tasks in
  mkState (code_dir s) heap (next_ref s) tasks package_order status
          (Some (_write_queue_file package_order status))
          (Some (JObj (_write_meta_from_tasks (map heap tasks)))).

(** The state of the loop of [add_tasks]. *)
Record add_acc : Type := mkAcc {
  acc_heap : ref → BuildTask;
  acc_queue : list ref;
  acc_packages : list string;
  acc_status : gmap string bool;
  acc_added : nat;
  acc_total : nat
}.

(** [for existing in self.build_queue: if ...: break], as the task found. *)
Definition find_existing (heap : ref → BuildTask) (queue : list ref)
    (package_name kind_ : string) : option ref :=
  snd <$> list_find (λ existing,
                       path_name (path (heap existing)) = package_name
                       ∧ kind (heap existing) = kind_) queue.

(** The body of [for task in tasks] in [add_tasks]. *)
Definition add_step (reset_completed : bool) (a : add_acc) (task : ref)
  : add_acc :=
  let heap := acc_heap a in
  let package_name := path_name (path (heap task)) in
  let heap := set_display_name heap task package_name in
  let found := find_existing heap (acc_queue a) package_name (kind (heap task)) in
  let heap :=
    match found with
    | Some existing =>
      let heap := set_path_args heap existing (path (heap task))
                                (extra_args (heap task)) in
      set_display_name heap existing package_name
    | None => heap
    end in
  let replaced := bool_decide (is_Some found) in
  let queue := if replaced then acc_queue a else acc_queue a ++ [task] in
  let added := if replaced then acc_added a else S (acc_added a) in
  let packages :=
    if decide (package_name ∈ acc_packages a) then acc_packages a
    else acc_packages a ++ [package_name] in
  let status := acc_status a in
  let status :=
    if replaced then
      if reset_completed || bool_decide (status !! package_name = None)
      then <[package_name := false]> status else status
    else <[package_name := false]> status in
  let status :=
    match status !! package_name with
    | Some _ => status
    | None => <[package_name := false]> status
    end in
  mkAcc heap queue packages status added (S (acc_total a)).

(** [MenuState.add_tasks] *)
Definition add_tasks (s : MenuState) (tasks : list ref) (reset_completed : bool)
  : MenuState * (nat * nat) :=
  match tasks with
  | [] => (s, (0, 0)%nat)
  | _ =>
    let a :=
      foldl (add_step reset_completed)
            (mkAcc (heap s) (build_queue s) (queue_packages s)
                   (package_status s) 0 0) tasks in
    (save_queue (mkState (code_dir s) (acc_heap a) (next_ref s) (acc_queue a)
                         (acc_packages a) (acc_status a)
                         (queue_file s) (queue_meta_file s)),
     (acc_added a, acc_total a))
  end.

End queue.

(** *** Facts about dicts *)

Section dict_facts.
Context {V : Type}.
Implicit Types d e : list (string * V).


Lemma dict_set_keys d k v k' :
  k' ∈ (dict_set d k v).*1 ↔ k' = k ∨ k' ∈ d.*1.
Proof.
  induction d as [|[k0 v0] d IH]; simpl.
  - set_solver.
  - destruct (decide (k0 = k)) as [->|Hne]; simpl.
    + set_solver.
    + rewrite !elem_of_cons, IH. tauto.
Qed.

Lemma dict_set_NoDup d k v : NoDup d.*1 → NoDup (dict_set d k v).*1.
Proof.
  induction d as [|[k0 v0] d IH]; simpl; intros Hd.
  - apply NoDup_singleton.
  - apply NoDup_cons in Hd as [Hk Hd].
    destruct (decide (k0 = k)) as [->|Hne]; simpl.
    + by constructor.
    + constructor; [|by apply IH]. rewrite dict_set_keys. tauto.
Qed.


Lemma dict_update_NoDup d e : NoDup d.*1 → NoDup (dict_update d e).*1.
Proof.
  unfold dict_update. revert d.
  induction e as [|[k0 v0] e IH]; intros d Hd; simpl; [done|].
  by apply IH, dict_set_NoDup.
Qed.



End dict_facts.

(** *** Merging inline records into the structured map *)

Section merge_facts.
Variable repr_container : json → string.






End merge_facts.






(** The tasks in the queue of a state. *)
Definition queue_tasks (s : MenuState) : list BuildTask :=
  map (heap s) (build_queue s).



(** *** Saving and loading *)


(** A string without line feed and carriage return. *)
Definition one_line (s : string) : Prop :=
  contains_char "010" s = false ∧ contains_char "013" s = false.


(** A queue in order, as [save_queue] leaves it
    ([save_queue_in_order]): the tasks of the queue have different keys
    and are named after their directories, the packages are listed once
    each and are those of the tasks, and the flags are those of the
    packages. *)
Record queue_ok (s : MenuState) : Prop := mkQueueOk {
  ok_keys : NoDup (task_key <$> queue_tasks s);
  ok_names : ∀ t, t ∈ queue_tasks s → display_name t = path_name (path t);
  ok_packages : NoDup (queue_packages s);
  ok_listed : ∀ n, n ∈ queue_packages s ↔ ∃ t, t ∈ queue_tasks s ∧ display_name t = n;
  ok_status : ∀ n, is_Some (package_status s !! n) ↔ n ∈ queue_packages s
}.


Lemma append_cons c a b : String c a +:+ b = String c (a +:+ b).
Proof. reflexivity. Qed.

Lemma append_assoc a b c : a +:+ b +:+ c = (a +:+ b) +:+ c.
Proof.
  induction a as [|x a IH]; [done|]. by rewrite !append_cons, IH.
Qed.

Lemma one_line_app a b : one_line a → one_line b → one_line (a +:+ b).
Proof.
  unfold one_line. induction a as [|c a IH]; [done|].
  rewrite append_cons. simpl. rewrite !orb_false_iff. naive_solver.
Qed.


(** The line of a package in the queue file. *)
Definition queue_line (status : gmap string bool) (pkg : string) : string :=
  pkg +:+ (if default false (status !! pkg) then "#" else "").


Lemma path_name_fixed p : path_name p ≠ "" → path_name (path_name p) = path_name p.
Proof.
  unfold path_name at 1 3 4. unfold path_parts at 1 3.
  destruct (last _) as [c|] eqn:E; [|done]. simpl. intros Hc.
  apply last_Some_elem_of in E. apply list_elem_of_filter in E as [[_ Hdot] Hin].
  apply split_pieces in Hin. unfold path_name, path_parts.
  rewrite (split_whole _ _ Hin). rewrite filter_cons_True by done. done.
Qed.

Lemma append_nil_r a : a +:+ "" = a.
Proof. induction a as [|x a IH]; [done|]. by rewrite append_cons, IH. Qed.


Lemma status_fold_lookup (f : string → bool) (st : gmap string bool) l n :
  foldl (λ st p, <[p := f p]> st) st l !! n
  = if decide (n ∈ l) then Some (f n) else st !! n.
Proof.
  revert st. induction l as [|p l IH]; intros st; simpl; [done|].
  rewrite IH. destruct (decide (n ∈ l)) as [Hin|Hin].
  - by rewrite decide_True by (by right).
  - destruct (decide (p = n)) as [->|Hne].
    + rewrite decide_True by left. by rewrite lookup_insert_eq.
    + rewrite decide_False by set_solver. by rewrite lookup_insert_ne.
Qed.

Section load_facts.
Variable json_loads : string → option json.
Variable repr_container : json → string.



End load_facts.

(** *** The metadata document of a list of tasks *)








(** What is in the lists that [mapM] gives. *)
Lemma elem_of_mapM_concat {A B} (f : A → option (list B)) l ks x :
  mapM f l = Some ks →
  x ∈ concat ks ↔ ∃ a k, a ∈ l ∧ f a = Some k ∧ x ∈ k.
Proof.
  intros H%mapM_Some. induction H as [|a k l ks Hak H IH]; simpl.
  { split; [by intros ?%elem_of_nil|]. by intros (a & k & ?%elem_of_nil & _). }
  rewrite elem_of_app, IH. split.
  - intros [Hx|(a' & k' & Ha' & Hk' & Hx)].
    + exists a, k. split; [left|done].
    + exists a', k'. split; [by right|done].
  - intros (a' & k' & [->|Ha']%elem_of_cons & Hk' & Hx).
    + left. congruence.
    + right. eauto.
Qed.

Section round_trip.
Variable json_loads : string → option json.
Variable repr_container : json → string.
Variable expanduser : Path → option Path.
Variable resolve : Path → Path.



Lemma allocate_spec heap next tasks :
  (∀ r, (r < next)%nat → (allocate heap next tasks).1.1 r = heap r)
  ∧ map (allocate heap next tasks).1.1 (allocate heap next tasks).2 = tasks.
Proof.
  revert heap next. induction tasks as [|t tasks IH]; intros heap next; [done|].
  simpl. specialize (IH (<[next := t]> heap) (S next)).
  destruct (allocate (<[next := t]> heap) (S next) tasks) as [[h' n'] refs].
  simpl in *. destruct IH as [Hold Hnew]. split.
  - intros r Hr. rewrite Hold by lia. apply fn_lookup_insert_ne. lia.
  - rewrite Hold by lia. rewrite fn_lookup_insert. by f_equal.
Qed.


End round_trip.

(** *** Saving a state that is in order *)

Lemma set_display_name_same h r v r' :
  display_name (h r) = v → set_display_name h r v r' = h r'.
Proof.
  intros <-. unfold set_display_name. destruct (decide (r = r')) as [->|Hne].
  - rewrite fn_lookup_insert. by destruct (h r').
  - by rewrite fn_lookup_insert_ne.
Qed.

Lemma unique_tasks_ok h seen l :
  (∀ r, r ∈ l → display_name (h r) = path_name (path (h r))) →
  NoDup ((λ r, task_key (h r)) <$> l) →
  (∀ r, r ∈ l → task_key (h r) ∉ seen) →
  ∃ h', unique_tasks h seen l = (h', l) ∧ ∀ r, h' r = h r.
Proof.
  revert h seen. induction l as [|task l IH]; intros h seen Hnames Hnd Hseen.
  { by exists h. }
  cbn [unique_tasks].
  assert (∀ r, set_display_name h task (path_name (path (h task))) r = h r) as Hh1.
  { intros r. apply set_display_name_same, Hnames. left. }
  set (h1 := set_display_name h task (path_name (path (h task)))) in *.
  rewrite (Hh1 task). change (path_name (path (h task)), kind (h task))
    with (task_key (h task)).
  rewrite decide_False by (apply Hseen; left).
  rewrite fmap_cons in Hnd. apply NoDup_cons in Hnd as [Hnew Hnd].
  destruct (IH h1 (seen ++ [task_key (h task)])) as (h' & -> & Hh').
  - intros r Hr. rewrite !Hh1. apply Hnames. by right.
  - erewrite list_fmap_ext; [exact Hnd|]. intros i r _. simpl. by rewrite Hh1.
  - intros r Hr. rewrite Hh1. rewrite elem_of_app, list_elem_of_singleton.
    intros [Hin|Heq]; [by apply (Hseen r); [right|]|].
    apply Hnew. rewrite <- Heq. apply list_elem_of_fmap. by exists r.
  - exists h'. split; [done|]. intros r. by rewrite Hh', Hh1.
Qed.

Lemma rename_fold_same h l :
  (∀ r, r ∈ l → display_name (h r) = path_name (path (h r))) →
  ∀ r, foldl (λ heap task,
                set_display_name heap task (path_name (path (heap task)))) h l r
       = h r.
Proof.
  revert h. induction l as [|task l IH]; intros h Hnames r; [done|].
  cbn [foldl].
  assert (∀ r, set_display_name h task (path_name (path (h task))) r = h r) as Hh1.
  { intros r'. apply set_display_name_same, Hnames. left. }
  rewrite IH; [apply Hh1|]. intros r' Hr'. rewrite !Hh1. apply Hnames. by right.
Qed.

Lemma order_fold_same (order names : list string) :
  (∀ n, n ∈ names → n ∈ order) →
  foldl (λ order name, if decide (name ∈ order) then order else order ++ [name])
        order names = order.
Proof.
  induction names as [|n names IH]; intros Hin; [done|]. cbn [foldl].
  rewrite decide_True by (apply Hin; left). apply IH. intros n' ?.
  apply Hin. by right.
Qed.

Lemma filter_all {A} (P : A → Prop) `{!∀ x, Decision (P x)} (l : list A) :
  (∀ x, x ∈ l → P x) → filter P l = l.
Proof.
  induction l as [|x l IH]; intros HP; [done|].
  rewrite filter_cons_True by (apply HP; left). f_equal. apply IH.
  intros y ?. apply HP. by right.
Qed.

(** [save_queue] leaves a state as it is, and writes its packages, flags
    and tasks, when the tasks have different keys and are named after
    their directories, the packages are those of the tasks and the flags
    those of the packages. *)
Lemma save_queue_fixed s :
  NoDup (task_key <$> queue_tasks s) →
  (∀ t, t ∈ queue_tasks s → display_name t = path_name (path t)) →
  (∀ n, n ∈ queue_packages s ↔ ∃ t, t ∈ queue_tasks s ∧ display_name t = n) →
  (∀ n, is_Some (package_status s !! n) ↔ n ∈ queue_packages s) →
  build_queue (save_queue s) = build_queue s
  ∧ queue_tasks (save_queue s) = queue_tasks s
  ∧ queue_packages (save_queue s) = queue_packages s
  ∧ package_status (save_queue s) = package_status s
  ∧ queue_file (save_queue s)
    = Some (_write_queue_file (queue_packages s) (package_status s))
  ∧ queue_meta_file (save_queue s) = Some (JObj (_write_meta_from_tasks (queue_tasks s))).
Proof.
  intros Hkeys Hnames Hlisted Hstatus. unfold queue_tasks in *.
  assert (∀ r, r ∈ build_queue s →
               display_name (heap s r) = path_name (path (heap s r))) as Hnames'.
  { intros r Hr. apply Hnames. apply list_elem_of_fmap. by exists r. }
  unfold save_queue.
  destruct (unique_tasks_ok (heap s) [] (build_queue s)) as (h' & -> & Hh').
  - done.
  - by rewrite <- list_fmap_compose in Hkeys.
  - intros r _. apply not_elem_of_nil.
  - set (names := map (λ t, path_name (path (h' t))) (build_queue s)).
    assert (∀ n, n ∈ names ↔ n ∈ queue_packages s) as Hn.
    { intros n. rewrite Hlisted. unfold names. rewrite list_elem_of_fmap. split.
      - intros (r & -> & Hr). exists (heap s r). rewrite Hh'. split.
        + apply list_elem_of_fmap. by exists r.
        + by apply Hnames'.
      - intros (t & Hin & <-). apply list_elem_of_fmap in Hin as (r & -> & Hr).
        exists r. rewrite Hh'. split; [by apply Hnames'|done]. }
    rewrite order_fold_same by (intros n; apply Hn).
    rewrite filter_all by (intros n; apply Hn).
    assert (foldl (λ st pkg, <[pkg := default false (package_status s !! pkg)]> st)
                  ∅ (queue_packages s) = package_status s) as ->.
    { apply map_eq. intros n. rewrite status_fold_lookup, lookup_empty.
      destruct (decide (n ∈ queue_packages s)) as [Hin|Hin].
      - apply Hstatus in Hin as [b ->]. done.
      - symmetry. apply eq_None_not_Some. by rewrite Hstatus. }
    assert (map (foldl (λ heap task,
                          set_display_name heap task
                            (path_name (path (heap task)))) h' (build_queue s))
                (build_queue s)
            = map (heap s) (build_queue s)) as Htasks.
    { apply list_fmap_ext. intros i r Hr. rewrite rename_fold_same, Hh'; [done|].
      intros r' Hr'. rewrite !Hh'. by apply Hnames'. }
    simpl. rewrite Htasks. done.
Qed.







(** A queue with two tasks for [foo] and one for [bar]. *)
Definition three_tasks_state : MenuState :=
  mkState "/code"
          (λ r, match r with
                | 0%nat => mkTask "foo" "/code/foo" "debian" ["-j4"]
                | 1%nat => mkTask "foo" "/code/foo" "rpm" []
                | _ => mkTask "bar" "/other/bar" "debian" []
                end)
          3 [0; 1; 2]%nat ["foo"; "bar"]
          (<["foo" := true]> {["bar" := false]}) None None.



(** *** Adding tasks *)

(** What [add_tasks] and [save_queue] leave of a task when they rename
    it. *)
Definition fields (t : BuildTask) : Path * string * list string :=
  (path t, kind t, extra_args t).

(** What of a state the queue methods are called for: the tasks of the
    queue, the objects they are, the packages, the flags and the two
    files. *)
Definition queue_view (s : MenuState)
  : list BuildTask * list nat * list string * gmap string bool
    * option string * option json :=
  (queue_tasks s, build_queue s, queue_packages s, package_status s,
   queue_file s, queue_meta_file s).

(** The first reference of each key, as [unique_tasks] keeps them. *)
Fixpoint first_of_keys (key : nat → string * string)
    (seen : list (string * string)) (l : list nat) : list nat :=
  match l with
  | [] => []
  | r :: l =>
    if decide (key r ∈ seen) then first_of_keys key seen l
    else r :: first_of_keys key (seen ++ [key r]) l
  end.

(** A task which is another one's source in the loop of [add_tasks]: it
    has the key of the first task [r] with that key in the queue, and is
    not that task. *)
Definition source_of (h : nat → BuildTask) (queue : list nat) (r t : nat)
  : Prop :=
  t ≠ r
  ∧ find_existing h queue (path_name (path (h t))) (kind (h t)) = Some r.

#[global] Instance source_of_dec h queue r t : Decision (source_of h queue r t).
Proof. unfold source_of. apply _. Defined.

Lemma task_eq t t' :
  display_name t = display_name t' → fields t = fields t' → t = t'.
Proof. destruct t, t'. unfold fields. simpl. congruence. Qed.

Lemma fields_key t t' : fields t = fields t' → task_key t = task_key t'.
Proof. unfold fields, task_key. congruence. Qed.

Lemma find_existing_cons h e queue n k :
  find_existing h (e :: queue) n k
  = if decide (task_key (h e) = (n, k)) then Some e else find_existing h queue n k.
Proof.
  unfold find_existing, task_key. cbn [list_find].
  destruct (decide (path_name (path (h e)) = n ∧ kind (h e) = k)) as [[Hn Hk]|Hne].
  - rewrite decide_True by congruence. done.
  - rewrite decide_False by (intros [= ? ?]; tauto).
    by destruct (list_find _ queue) as [[i x]|].
Qed.

Lemma find_existing_ext h h' queue n k :
  (∀ r, r ∈ queue → task_key (h r) = task_key (h' r)) →
  find_existing h queue n k = find_existing h' queue n k.
Proof.
  induction queue as [|e queue IH]; intros Hk; [done|].
  rewrite !find_existing_cons, (Hk e) by left. rewrite IH; [done|].
  intros r ?. apply Hk. by right.
Qed.

Lemma find_existing_app h queue queue' n k :
  find_existing h (queue ++ queue') n k
  = match find_existing h queue n k with
    | Some e => Some e
    | None => find_existing h queue' n k
    end.
Proof.
  induction queue as [|e queue IH]; [done|]. cbn [app].
  rewrite !find_existing_cons. by case_decide.
Qed.

Lemma find_existing_Some h queue n k e :
  find_existing h queue n k = Some e → e ∈ queue ∧ task_key (h e) = (n, k).
Proof.
  induction queue as [|e' queue IH]; [done|]. rewrite find_existing_cons.
  case_decide as Hk.
  - intros [= ->]. split; [left|done].
  - intros [? ?]%IH. split; [by right|done].
Qed.

Lemma find_existing_None h queue n k e :
  find_existing h queue n k = None → e ∈ queue → task_key (h e) ≠ (n, k).
Proof.
  induction queue as [|e' queue IH]; [by intros _ ?%elem_of_nil|].
  rewrite find_existing_cons. case_decide as Hk; [done|].
  intros Hnone [->|Hin]%elem_of_cons; [done|by apply IH].
Qed.

Lemma find_existing_is_Some h queue n k e :
  e ∈ queue → task_key (h e) = (n, k) → is_Some (find_existing h queue n k).
Proof.
  intros Hin Hk. destruct (find_existing h queue n k) eqn:E; [done|].
  by destruct (find_existing_None h queue n k e E Hin).
Qed.

Lemma first_of_keys_ext key key' seen l :
  (∀ r, r ∈ l → key r = key' r) →
  first_of_keys key seen l = first_of_keys key' seen l.
Proof.
  revert seen. induction l as [|r l IH]; intros seen Hk; [done|]. simpl.
  rewrite <- (Hk r) by left. rewrite !IH by (intros; apply Hk; by right). done.
Qed.

Lemma elem_of_first_of_keys key seen l r :
  r ∈ first_of_keys key seen l → r ∈ l ∧ key r ∉ seen.
Proof.
  revert seen. induction l as [|r' l IH]; intros seen; simpl.
  { by intros ?%elem_of_nil. }
  case_decide as Hseen.
  - intros [? ?]%IH. split; [by right|done].
  - intros [->|Hin]%elem_of_cons; [split; [left|done]|].
    apply IH in Hin as [? Hs]. split; [by right|]. set_solver.
Qed.

Lemma first_of_keys_NoDup key seen l :
  NoDup (key <$> first_of_keys key seen l).
Proof.
  revert seen. induction l as [|r l IH]; intros seen; simpl; [constructor|].
  case_decide as Hseen; [apply IH|]. rewrite fmap_cons. constructor; [|apply IH].
  intros (r' & Hk & Hin)%list_elem_of_fmap.
  apply elem_of_first_of_keys in Hin as [_ Hs]. set_solver.
Qed.

Lemma find_existing_first_of_keys h seen l n k :
  find_existing h (first_of_keys (λ r, task_key (h r)) seen l) n k
  = if decide ((n, k) ∈ seen) then None else find_existing h l n k.
Proof.
  revert seen. induction l as [|r l IH]; intros seen; simpl.
  { by case_decide. }
  rewrite find_existing_cons. case_decide as Hseen.
  - rewrite IH. case_decide as Hnk; [done|].
    rewrite decide_False; [done|]. intros Heq. by rewrite Heq in Hseen.
  - rewrite find_existing_cons, IH. case_decide as Hkey.
    + rewrite decide_False; [done|]. by rewrite <- Hkey.
    + destruct (decide ((n, k) ∈ seen)) as [Hin|Hin].
      * rewrite decide_True; [done|]. set_solver.
      * rewrite decide_False; [done|]. set_solver.
Qed.

Lemma first_of_keys_fixed key seen l :
  NoDup (key <$> l) → (∀ r, r ∈ l → key r ∉ seen) →
  first_of_keys key seen l = l.
Proof.
  revert seen. induction l as [|r l IH]; intros seen Hnd Hseen; [done|].
  simpl. rewrite decide_False by (apply Hseen; left). f_equal.
  rewrite fmap_cons in Hnd. apply NoDup_cons in Hnd as [Hnew Hnd].
  apply IH; [done|]. intros r' Hr'. rewrite elem_of_app, list_elem_of_singleton.
  intros [Hin|Heq]; [by apply (Hseen r'); [right|]|].
  apply Hnew. rewrite <- Heq. apply list_elem_of_fmap. by exists r'.
Qed.

Lemma set_display_name_fields h r v r' :
  fields (set_display_name h r v r') = fields (h r').
Proof.
  unfold set_display_name. destruct (decide (r = r')) as [->|Hne].
  - by rewrite fn_lookup_insert.
  - by rewrite fn_lookup_insert_ne.
Qed.

Lemma set_display_name_name h r v r' :
  display_name (set_display_name h r v r')
  = if decide (r' = r) then v else display_name (h r').
Proof.
  unfold set_display_name. destruct (decide (r' = r)) as [->|Hne].
  - by rewrite fn_lookup_insert.
  - by rewrite fn_lookup_insert_ne.
Qed.

Lemma fields_path t t' : fields t = fields t' → path t = path t'.
Proof. unfold fields. congruence. Qed.

Lemma fields_kind t t' : fields t = fields t' → kind t = kind t'.
Proof. unfold fields. congruence. Qed.

(** The first loop of [save_queue]. *)
Lemma unique_tasks_spec h seen l :
  (unique_tasks h seen l).2 = first_of_keys (λ r, task_key (h r)) seen l
  ∧ (∀ r, fields ((unique_tasks h seen l).1 r) = fields (h r))
  ∧ (∀ r, display_name ((unique_tasks h seen l).1 r)
          = if decide (r ∈ l) then path_name (path (h r)) else display_name (h r)).
Proof.
  revert h seen. induction l as [|task l IH]; intros h seen.
  { split; [done|]. split; [done|]. intros r. cbn [unique_tasks fst].
    by rewrite decide_False by apply not_elem_of_nil. }
  cbn [unique_tasks first_of_keys].
  set (h1 := set_display_name h task (path_name (path (h task)))).
  assert (∀ r, fields (h1 r) = fields (h r)) as Hf
    by (intros r; apply set_display_name_fields).
  assert ((path_name (path (h task)), kind (h1 task)) = task_key (h task)) as ->.
  { unfold task_key. by rewrite (fields_kind _ _ (Hf task)). }
  assert (∀ seen', first_of_keys (λ r, task_key (h1 r)) seen' l
                   = first_of_keys (λ r, task_key (h r)) seen' l) as Hext.
  { intros seen'. apply first_of_keys_ext. intros r _. apply fields_key, Hf. }
  assert (∀ r, (if decide (r ∈ l) then path_name (path (h1 r))
                else display_name (h1 r))
               = if decide (r ∈ task :: l) then path_name (path (h r))
                 else display_name (h r)) as Hname.
  { intros r. rewrite (fields_path _ _ (Hf r)). unfold h1.
    rewrite set_display_name_name.
    destruct (decide (r ∈ l)) as [Hin|Hin].
    - by rewrite decide_True by (by right).
    - destruct (decide (r = task)) as [->|Hne].
      + by rewrite decide_True by left.
      + rewrite decide_False; [done|]. set_solver. }
  case_decide as Hseen.
  - destruct (IH h1 seen) as (Hl & Hfields & Hnames). split; [|split].
    + by rewrite Hl, Hext.
    + intros r. by rewrite Hfields, Hf.
    + intros r. by rewrite Hnames, Hname.
  - destruct (IH h1 (seen ++ [task_key (h task)])) as (Hl & Hfields & Hnames).
    destruct (unique_tasks h1 (seen ++ [task_key (h task)]) l) as [h' u].
    simpl in *. split; [|split].
    + by rewrite Hl, Hext.
    + intros r. by rewrite Hfields, Hf.
    + intros r. by rewrite Hnames, Hname.
Qed.

(** [save_queue], field by field. *)
Lemma save_queue_spec m :
  let unique := first_of_keys (λ r, task_key (heap m r)) [] (build_queue m) in
  let names := (λ r, path_name (path (heap m r))) <$> unique in
  let order :=
    filter (λ pkg, pkg ∈ names)
           (foldl (λ order name,
                     if decide (name ∈ order) then order else order ++ [name])
                  (queue_packages m) names) in
  build_queue (save_queue m) = unique
  ∧ (∀ r, fields (heap (save_queue m) r) = fields (heap m r))
  ∧ (∀ r, display_name (heap (save_queue m) r)
          = if decide (r ∈ build_queue m) then path_name (path (heap m r))
            else display_name (heap m r))
  ∧ queue_packages (save_queue m) = order
  ∧ package_status (save_queue m)
    = foldl (λ st pkg, <[pkg := default false (package_status m !! pkg)]> st)
            ∅ order
  ∧ queue_file (save_queue m)
    = Some (_write_queue_file (queue_packages (save_queue m))
                       (package_status (save_queue m)))
  ∧ queue_meta_file (save_queue m)
    = Some (JObj (_write_meta_from_tasks (queue_tasks (save_queue m)))).
Proof.
  intros unique names order. unfold save_queue.
  destruct (unique_tasks_spec (heap m) [] (build_queue m))
    as (Hl & Hfields & Hnames).
  destruct (unique_tasks (heap m) [] (build_queue m)) as [h1 u].
  simpl in Hl, Hfields, Hnames. subst u. fold unique.
  assert (map (λ t, path_name (path (h1 t))) unique = names) as ->.
  { apply list_fmap_ext. intros i r _. by rewrite (fields_path _ _ (Hfields r)). }
  fold order.
  assert (∀ r, foldl (λ heap task,
                        set_display_name heap task (path_name (path (heap task))))
                     h1 unique r = h1 r) as Hh2.
  { apply rename_fold_same. intros r Hr.
    apply elem_of_first_of_keys in Hr as [Hr _].
    rewrite Hnames, decide_True by done.
    by rewrite (fields_path _ _ (Hfields r)). }
  unfold queue_tasks. simpl. split; [done|]. split; [|split].
  - intros r. by rewrite Hh2.
  - intros r. by rewrite Hh2.
  - done.
Qed.

Lemma order_fold_elem (order names : list string) n :
  n ∈ foldl (λ order name, if decide (name ∈ order) then order else order ++ [name])
            order names
  ↔ n ∈ order ∨ n ∈ names.
Proof.
  revert order. induction names as [|x names IH]; intros order; cbn [foldl].
  { rewrite elem_of_nil. tauto. }
  rewrite IH. case_decide; set_solver.
Qed.

(** Two states with the same queue, packages and flags, and the same
    tasks up to their names, are saved the same. *)
Lemma save_queue_ext m m' :
  build_queue m = build_queue m' →
  (∀ r, fields (heap m r) = fields (heap m' r)) →
  queue_packages m = queue_packages m' →
  package_status m = package_status m' →
  queue_view (save_queue m) = queue_view (save_queue m').
Proof.
  intros Hq Hf Hp Hs.
  destruct (save_queue_spec m) as (Hu & Hfields & Hnames & Ho & Hst & Hfile & Hmeta).
  destruct (save_queue_spec m')
    as (Hu' & Hfields' & Hnames' & Ho' & Hst' & Hfile' & Hmeta').
  assert (build_queue (save_queue m) = build_queue (save_queue m')) as Hqueue.
  { rewrite Hu, Hu', Hq. apply first_of_keys_ext. intros r _. apply fields_key, Hf. }
  assert (queue_tasks (save_queue m) = queue_tasks (save_queue m')) as Htasks.
  { unfold queue_tasks. rewrite <- Hqueue. apply list_fmap_ext. intros i r Hr.
    apply list_elem_of_lookup_2 in Hr. rewrite Hu in Hr.
    apply elem_of_first_of_keys in Hr as [Hr _]. apply task_eq.
    - rewrite Hnames, Hnames', <- Hq, !decide_True by done.
      by rewrite (fields_path _ _ (Hf r)).
    - by rewrite Hfields, Hfields'. }
  assert (queue_packages (save_queue m) = queue_packages (save_queue m')) as Hpkgs.
  { rewrite Ho, Ho', <- Hq, <- Hp.
    assert ((λ r, path_name (path (heap m r))) <$>
              first_of_keys (λ r, task_key (heap m r)) [] (build_queue m)
            = (λ r, path_name (path (heap m' r))) <$>
                first_of_keys (λ r, task_key (heap m' r)) [] (build_queue m)) as ->;
      [|done].
    rewrite (first_of_keys_ext (λ r, task_key (heap m r))
               (λ r, task_key (heap m' r)))
      by (intros r _; apply fields_key, Hf).
    apply list_fmap_ext. intros i r _. by rewrite (fields_path _ _ (Hf r)). }
  assert (package_status (save_queue m) = package_status (save_queue m')) as Hstat.
  { rewrite Hst, Hst'. rewrite <- Ho, <- Ho', Hpkgs, Hs. done. }
  unfold queue_view. rewrite Hfile, Hfile', Hmeta, Hmeta'.
  by rewrite Hqueue, Htasks, Hpkgs, Hstat.
Qed.

(** After [save_queue] the tasks of the queue are named after their
    directories, and the packages are those of the tasks. *)
Lemma save_queue_named m r :
  r ∈ build_queue (save_queue m) →
  display_name (heap (save_queue m) r)
  = path_name (path (heap (save_queue m) r)).
Proof.
  destruct (save_queue_spec m) as (Hu & Hfields & Hnames & _).
  rewrite Hu. intros [Hr _]%elem_of_first_of_keys.
  rewrite Hnames, decide_True by done. by rewrite (fields_path _ _ (Hfields r)).
Qed.

Lemma save_queue_listed m n :
  n ∈ queue_packages (save_queue m)
  ↔ ∃ r, r ∈ build_queue (save_queue m)
         ∧ path_name (path (heap (save_queue m) r)) = n.
Proof.
  destruct (save_queue_spec m) as (Hu & Hfields & Hnames & Ho & _).
  rewrite Ho, list_elem_of_filter, order_fold_elem, Hu.
  rewrite list_elem_of_fmap. split.
  - intros [(r & -> & Hr) _]. exists r. split; [done|].
    by rewrite (fields_path _ _ (Hfields r)).
  - intros (r & Hr & <-).
    assert (∃ y, path_name (path (heap (save_queue m) r))
                 = path_name (path (heap m y))
                 ∧ y ∈ first_of_keys (λ r, task_key (heap m r)) []
                        (build_queue m)) as Hex; [|tauto].
    exists r. split; [|done]. by rewrite (fields_path _ _ (Hfields r)).
Qed.

(** Saving a state that was saved changes nothing. *)
Lemma save_queue_twice m :
  queue_view (save_queue (save_queue m)) = queue_view (save_queue m).
Proof.
  destruct (save_queue_spec m) as (Hu & Hfields & Hnames & Ho & Hst & Hfile & Hmeta).
  set (unique := first_of_keys (λ r, task_key (heap m r)) [] (build_queue m)) in *.
  assert (∀ n, n ∈ queue_packages (save_queue m)
               ↔ ∃ t, t ∈ queue_tasks (save_queue m) ∧ display_name t = n) as Hlisted.
  { intros n. rewrite Ho, list_elem_of_filter, order_fold_elem.
    unfold queue_tasks. rewrite Hu. setoid_rewrite list_elem_of_fmap. split.
    - intros [(r & -> & Hr) _]. exists (heap (save_queue m) r). split; [eauto|].
      rewrite Hnames, decide_True; [done|].
      by apply elem_of_first_of_keys in Hr as [? _].
    - intros (t & (r & -> & Hr) & <-).
      assert (∃ y, display_name (heap (save_queue m) r) = path_name (path (heap m y))
                   ∧ y ∈ unique) as Hex; [|tauto].
      exists r. split; [|done]. rewrite Hnames, decide_True; [done|].
      by apply elem_of_first_of_keys in Hr as [? _]. }
  destruct (save_queue_fixed (save_queue m)) as (H1 & H2 & H3 & H4 & H5 & H6).
  - unfold queue_tasks. rewrite Hu, <- list_fmap_compose.
    erewrite list_fmap_ext; [apply (first_of_keys_NoDup _ [] (build_queue m))|].
    intros i r _. simpl. apply fields_key, Hfields.
  - intros t Hin. unfold queue_tasks in Hin. rewrite Hu in Hin.
    apply list_elem_of_fmap in Hin as (r & -> & Hr).
    apply elem_of_first_of_keys in Hr as [Hr _].
    rewrite Hnames, decide_True by done. by rewrite (fields_path _ _ (Hfields r)).
  - exact Hlisted.
  - intros n. rewrite Hst, <- Ho, status_fold_lookup, lookup_empty.
    case_decide; [by split; eauto|]. split; [by intros [? ?]|done].
  - unfold queue_view. rewrite H1, H2, H3, H4, H5, H6. by rewrite Hfile, Hmeta.
Qed.

Lemma order_fold_NoDup (order names : list string) :
  NoDup order →
  NoDup (foldl (λ order name,
                  if decide (name ∈ order) then order else order ++ [name])
               order names).
Proof.
  revert order. induction names as [|n names IH]; intros order Hnd; [done|].
  cbn [foldl]. apply IH. case_decide as Hin; [done|].
  apply NoDup_app. split; [done|]. split; [|apply NoDup_singleton].
  intros x Hx ->%list_elem_of_singleton. done.
Qed.

(** [save_queue] leaves the queue in order, when the packages were listed
    once each. *)
Lemma save_queue_in_order m :
  NoDup (queue_packages m) → queue_ok (save_queue m).
Proof.
  intros Hnd.
  destruct (save_queue_spec m) as (Hu & Hfields & Hnames & Ho & Hst & _).
  split.
  - unfold queue_tasks. rewrite Hu, <- list_fmap_compose.
    erewrite list_fmap_ext; [apply (first_of_keys_NoDup _ [] (build_queue m))|].
    intros i r _. simpl. apply fields_key, Hfields.
  - intros t Hin. unfold queue_tasks in Hin.
    apply list_elem_of_fmap in Hin as (r & -> & Hr). by apply save_queue_named.
  - rewrite Ho. by apply NoDup_filter, order_fold_NoDup.
  - intros n. rewrite save_queue_listed. unfold queue_tasks.
    setoid_rewrite list_elem_of_fmap. split.
    + intros (r & Hr & <-). exists (heap (save_queue m) r).
      split; [eauto|]. by apply save_queue_named.
    + intros (t & (r & -> & Hr) & <-). exists r. split; [done|].
      symmetry. by apply save_queue_named.
  - intros n. rewrite Hst, <- Ho, status_fold_lookup, lookup_empty.
    case_decide; [by split; eauto|]. split; [by intros [? ?]|done].
Qed.

(** The flags after one round of the loop of [add_tasks], for the package
    [n]. *)
Definition status_step (reset_completed replaced : bool)
    (status : gmap string bool) (n : string) : gmap string bool :=
  let status :=
    if replaced then
      if reset_completed || bool_decide (status !! n = None)
      then <[n := false]> status else status
    else <[n := false]> status in
  match status !! n with
  | Some _ => status
  | None => <[n := false]> status
  end.

Lemma set_path_args_lookup h r p args r' :
  set_path_args h r p args r'
  = if decide (r' = r) then mkTask (display_name (h r)) p (kind (h r)) args
    else h r'.
Proof.
  unfold set_path_args. destruct (decide (r' = r)) as [->|Hne].
  - by rewrite fn_lookup_insert.
  - by rewrite fn_lookup_insert_ne.
Qed.

(** One round of the loop of [add_tasks]. *)
Lemma add_step_spec reset a t :
  let h := acc_heap a in
  let n := path_name (path (h t)) in
  let found := find_existing h (acc_queue a) n (kind (h t)) in
  let a' := add_step reset a t in
  acc_queue a' = match found with
                 | Some _ => acc_queue a
                 | None => acc_queue a ++ [t]
                 end
  ∧ acc_added a' = match found with
                   | Some _ => acc_added a
                   | None => S (acc_added a)
                   end
  ∧ acc_packages a' = (if decide (n ∈ acc_packages a) then acc_packages a
                       else acc_packages a ++ [n])
  ∧ acc_status a'
    = status_step reset (bool_decide (is_Some found)) (acc_status a) n
  ∧ (∀ r, task_key (acc_heap a' r) = task_key (h r))
  ∧ (∀ r, (path (acc_heap a' r), extra_args (acc_heap a' r))
          = if decide (found = Some r) then (path (h t), extra_args (h t))
            else (path (h r), extra_args (h r))).
Proof.
  intros h n found a'. unfold a', add_step. fold h. fold n.
  set (h1 := set_display_name h t n).
  assert (∀ r, fields (h1 r) = fields (h r)) as Hf
    by (intros r; apply set_display_name_fields).
  assert (find_existing h1 (acc_queue a) n (kind (h1 t)) = found) as ->.
  { rewrite (fields_kind _ _ (Hf t)). apply find_existing_ext.
    intros r _. apply fields_key, Hf. }
  cbn [acc_queue acc_added acc_packages acc_status acc_heap].
  assert (∀ r, path (h1 r) = path (h r)) as Hpath
    by (intros r; apply fields_path, Hf).
  assert (∀ r, kind (h1 r) = kind (h r)) as Hkind
    by (intros r; apply fields_kind, Hf).
  assert (∀ r, extra_args (h1 r) = extra_args (h r)) as Hextra.
  { intros r. specialize (Hf r). unfold fields in Hf. congruence. }
  destruct found as [e|] eqn:Efound.
  - rewrite bool_decide_true by done. cbn [negb].
    split; [done|]. split; [done|]. split; [done|]. split; [done|].
    apply find_existing_Some in Efound as [_ Hkey].
    split; intros r.
    + unfold task_key, set_display_name.
      destruct (decide (r = e)) as [->|Hne].
      * rewrite fn_lookup_insert. simpl. rewrite !set_path_args_lookup.
        rewrite decide_True by done. simpl. rewrite Hpath, Hkind.
        unfold task_key in Hkey. fold n. congruence.
      * rewrite fn_lookup_insert_ne by done. rewrite set_path_args_lookup.
        rewrite decide_False by done. by rewrite Hpath, Hkind.
    + unfold set_display_name. destruct (decide (r = e)) as [->|Hne].
      * rewrite fn_lookup_insert. simpl. rewrite !set_path_args_lookup.
        rewrite !decide_True by done. simpl. by rewrite Hpath, Hextra.
      * rewrite fn_lookup_insert_ne by done. rewrite set_path_args_lookup.
        rewrite decide_False by done. rewrite decide_False by congruence.
        by rewrite Hpath, Hextra.
  - rewrite bool_decide_false by (by intros [? ?]).
    split; [done|]. split; [done|]. split; [done|]. split; [done|].
    split; intros r.
    + apply fields_key, Hf.
    + rewrite decide_False by done. by rewrite Hpath, Hextra.
Qed.

Lemma status_step_lookup reset replaced status n n' :
  status_step reset replaced status n !! n'
  = if decide (n' = n)
    then (if replaced && negb reset then Some (default false (status !! n))
          else Some false)
    else status !! n'.
Proof.
  unfold status_step. destruct (decide (n' = n)) as [->|Hne].
  - destruct replaced, reset; simpl;
      try (rewrite lookup_insert_eq; simpl; by rewrite lookup_insert_eq).
    case_bool_decide as Hnone.
    + rewrite lookup_insert_eq. rewrite lookup_insert_eq. by rewrite Hnone.
    + destruct (status !! n) as [b|] eqn:E; [|done]. by rewrite E.
  - assert (∀ st : gmap string bool,
              match st !! n with Some _ => st | None => <[n := false]> st end !! n'
              = st !! n') as Hdef.
    { intros st. destruct (st !! n); [done|]. by rewrite lookup_insert_ne. }
    rewrite Hdef. destruct replaced; [|by rewrite lookup_insert_ne].
    destruct (reset || _); [by rewrite lookup_insert_ne|done].
Qed.

(** The loop of [add_tasks]. The keys of the tasks stay; the queue grows
    at its end; every task added has its key in the queue; a task of the
    queue has the path and the arguments of its last source, and its own
    when it has none; with [reset_completed] the packages of the tasks
    added are flagged as not completed. *)
Lemma add_loop_spec reset a tasks :
  let a' := foldl (add_step reset) a tasks in
  let h := acc_heap a in
  (∀ r, task_key (acc_heap a' r) = task_key (h r))
  ∧ (∃ new, acc_queue a' = acc_queue a ++ new)
  ∧ (∀ t, t ∈ tasks →
          is_Some (find_existing h (acc_queue a')
                     (path_name (path (h t))) (kind (h t))))
  ∧ (∀ r, (path (acc_heap a' r), extra_args (acc_heap a' r))
          = let t := default r (last (filter (source_of h (acc_queue a') r) tasks)) in
            (path (h t), extra_args (h t)))
  ∧ (reset = true → ∀ t, t ∈ tasks →
       acc_status a' !! path_name (path (h t)) = Some false).
Proof.
  induction tasks as [|t tasks IH] using rev_ind; intros a' h.
  { subst a'. simpl. split; [done|]. split; [by exists []; rewrite app_nil_r|].
    split; [by intros t ?%elem_of_nil|]. split; [done|].
    by intros _ t ?%elem_of_nil. }
  destruct IH as (Hkey & [new Hqueue] & Hsome & Hcopy & Hflag).
  subst a' h. rewrite foldl_app. cbn [foldl].
  set (a' := foldl (add_step reset) a tasks) in *.
  destruct (add_step_spec reset a' t) as (Sq & _ & _ & Sst & Skey & Scopy).
  set (h := acc_heap a) in *.
  assert (path_name (path (acc_heap a' t)) = path_name (path (h t))
          ∧ kind (acc_heap a' t) = kind (h t)) as [Hn Hk].
  { specialize (Hkey t). unfold task_key, h in *. split; congruence. }
  rewrite Hn, Hk in Sq, Sst, Scopy.
  rewrite (find_existing_ext (acc_heap a') h) in Sq, Sst, Scopy
    by (intros r _; apply Hkey).
  set (n := path_name (path (h t))) in *. set (k := kind (h t)) in *.
  (* the sources among [tasks] are the same for the longer queue *)
  assert (∀ tail r,
            filter (source_of h (acc_queue a' ++ tail) r) tasks
            = filter (source_of h (acc_queue a') r) tasks) as Hsrc.
  { intros tail r. apply filter_ext_elem_of. intros t' Ht'. unfold source_of.
    rewrite find_existing_app. destruct (Hsome t' Ht') as [e ->]. done. }
  (* a task that has a source has no other first task of its key *)
  assert (∀ r, find_existing h (acc_queue a') n k = Some r → t ≠ r →
               filter (source_of h (acc_queue a') t) tasks = []) as Hpure.
  { intros r Hfound Hne. apply filter_none. intros t' Ht' [_ Hsrc'].
    pose proof (find_existing_Some _ _ _ _ _ Hsrc') as [_ Hkt].
    unfold task_key in Hkt. injection Hkt as Hkn Hkk.
    rewrite <- Hkn, <- Hkk in Hsrc'. fold n k in Hsrc'. congruence. }
  split; [|split; [|split; [|split]]].
  - intros r. by rewrite Skey, Hkey.
  - destruct (find_existing h (acc_queue a') n k);
      rewrite Sq, Hqueue; [by exists new|].
    exists (new ++ [t]). by rewrite app_assoc.
  - intros t' [Ht'| ->%list_elem_of_singleton]%elem_of_app.
    + destruct (find_existing h (acc_queue a') n k); rewrite Sq; [by apply Hsome|].
      rewrite find_existing_app. by destruct (Hsome t' Ht') as [e ->].
    + fold n k. destruct (find_existing h (acc_queue a') n k) eqn:E; rewrite Sq.
      * by rewrite E.
      * rewrite find_existing_app, E, find_existing_cons.
        by rewrite decide_True.
  - intros r. rewrite Scopy, filter_app.
    destruct (find_existing h (acc_queue a') n k) as [e|] eqn:E; rewrite Sq.
    + destruct (decide (Some e = Some r)) as [[= ->]|Hne].
      * destruct (decide (t = r)) as [->|Hneq].
        -- rewrite (filter_cons_False _ r) by (by intros [? _]).
           rewrite filter_nil, app_nil_r. apply Hcopy.
        -- rewrite (filter_cons_True _ t) by (by split).
           rewrite filter_nil, last_snoc. cbn [default].
           rewrite Hcopy, (Hpure r eq_refl Hneq). done.
      * rewrite (filter_cons_False _ t)
          by (intros [_ Hs]; fold n k in Hs; congruence).
        rewrite filter_nil, app_nil_r. apply Hcopy.
    + rewrite decide_False by done. rewrite Hsrc.
      rewrite (filter_cons_False _ t).
      * rewrite filter_nil, app_nil_r. apply Hcopy.
      * intros [Hne Hs]. fold n k in Hs.
        rewrite find_existing_app, E, find_existing_cons in Hs.
        rewrite decide_True in Hs by done. congruence.
  - intros -> t' Ht'. rewrite Sst, status_step_lookup.
    rewrite andb_false_r. case_decide as Hname; [done|].
    apply elem_of_app in Ht' as [Ht'|Ht']; [by apply Hflag|].
    apply list_elem_of_singleton in Ht' as ->. done.
Qed.

(** The loop of [add_tasks] when every task has its key in the queue,
    its package listed and flagged, as not completed for
    [reset_completed]: queue, packages and flags stay, no task counts as
    added. *)
Lemma add_loop_settled reset a tasks :
  let a' := foldl (add_step reset) a tasks in
  let h := acc_heap a in
  (∀ t, t ∈ tasks →
        is_Some (find_existing h (acc_queue a)
                   (path_name (path (h t))) (kind (h t)))) →
  (∀ t, t ∈ tasks → path_name (path (h t)) ∈ acc_packages a) →
  (∀ t, t ∈ tasks → ∃ b, acc_status a !! path_name (path (h t)) = Some b
                         ∧ (reset = true → b = false)) →
  acc_queue a' = acc_queue a ∧ acc_added a' = acc_added a
  ∧ acc_packages a' = acc_packages a ∧ acc_status a' = acc_status a.
Proof.
  induction tasks as [|t tasks IH] using rev_ind; intros a' h Hfound Hlisted Hflag.
  { done. }
  destruct IH as (Hq & Hadd & Hp & Hst).
  { intros t' ?. apply Hfound. set_solver. }
  { intros t' ?. apply Hlisted. set_solver. }
  { intros t' ?. apply Hflag. set_solver. }
  subst a' h. rewrite foldl_app. cbn [foldl].
  set (a' := foldl (add_step reset) a tasks) in *.
  destruct (add_loop_spec reset a tasks) as (Hkey & _).
  fold a' in Hkey.
  destruct (add_step_spec reset a' t) as (Sq & Sadd & Sp & Sst & _).
  set (h := acc_heap a) in *.
  assert (path_name (path (acc_heap a' t)) = path_name (path (h t))
          ∧ kind (acc_heap a' t) = kind (h t)) as [Hn Hk].
  { specialize (Hkey t). unfold task_key, h in *. split; congruence. }
  rewrite Hn in Sp. rewrite Hn, Hk in Sq, Sadd, Sst.
  rewrite (find_existing_ext (acc_heap a') h) in Sq, Sadd, Sst
    by (intros r _; apply Hkey).
  rewrite Hq in Sq, Sadd, Sst.
  destruct (Hfound t) as [e He]; [set_solver|]. rewrite He in Sq, Sadd, Sst.
  rewrite Hp, decide_True in Sp by (apply Hlisted; set_solver).
  split; [by rewrite Sq|]. split; [by rewrite Sadd|]. split; [by rewrite Sp|].
  rewrite Sst, Hst. apply map_eq. intros n'. rewrite status_step_lookup.
  case_decide as Hname; [|done]. subst n'.
  destruct (Hflag t) as (b & Hb & Hreset); [set_solver|]. rewrite Hb.
  rewrite bool_decide_true by done. destruct reset; simpl; [|done].
  by rewrite Hreset.
Qed.

(** C8. Calling [add_tasks] a second time with the same tasks and the same
    [reset_completed] leaves the tasks of the queue, the package list, the
    flags and the two files as the first call left them, and counts no
    task as added. *)
Theorem add_tasks_idempotent s tasks reset_completed :
  let first := add_tasks s tasks reset_completed in
  let second := add_tasks first.1 tasks reset_completed in
  queue_view second.1 = queue_view first.1 ∧ second.2.1 = 0%nat.
Proof.
  destruct tasks as [|t0 tasks0]; [done|].
  set (tasks := t0 :: tasks0). intros first second.
  (* the first call *)
  set (a1 := foldl (add_step reset_completed)
                   (mkAcc (heap s) (build_queue s) (queue_packages s)
                          (package_status s) 0 0) tasks).
  set (m1 := mkState (code_dir s) (acc_heap a1) (next_ref s) (acc_queue a1)
                     (acc_packages a1) (acc_status a1)
                     (queue_file s) (queue_meta_file s)).
  assert (first = (save_queue m1, (acc_added a1, acc_total a1))) as Hfirst by done.
  destruct (add_loop_spec reset_completed
              (mkAcc (heap s) (build_queue s) (queue_packages s)
                     (package_status s) 0 0) tasks)
    as (Hkey1 & _ & Hsome1 & Hcopy1 & Hflag1).
  fold a1 in Hkey1, Hsome1, Hcopy1, Hflag1.
  cbn [acc_heap acc_queue] in Hkey1, Hsome1, Hcopy1, Hflag1.
  set (s1 := save_queue m1).
  destruct (save_queue_spec m1) as (Hu & Hfields & _ & Ho & Hst & _).
  rewrite <- Ho in Hst. clear Ho. fold s1 in Hu, Hfields, Hst. cbn [heap build_queue package_status] in Hu, Hfields, Hst.
  assert (∀ r, task_key (heap s1 r) = task_key (heap s r)) as Hkeys.
  { intros r. rewrite <- Hkey1. apply fields_key, Hfields. }
  assert (∀ n k, find_existing (heap s1) (build_queue s1) n k
                 = find_existing (heap s) (acc_queue a1) n k) as Hfind.
  { intros n k. rewrite (find_existing_ext (heap s1) (acc_heap a1))
      by (intros r _; apply fields_key, Hfields).
    rewrite Hu, find_existing_first_of_keys.
    rewrite decide_False by apply not_elem_of_nil.
    apply find_existing_ext. intros r _. apply Hkey1. }
  assert (∀ r, path_name (path (heap s1 r)) = path_name (path (heap s r))
               ∧ kind (heap s1 r) = kind (heap s r)) as Hnk.
  { intros r. specialize (Hkeys r). unfold task_key in Hkeys. split; congruence. }
  (* the second call *)
  set (a2 := foldl (add_step reset_completed)
                   (mkAcc (heap s1) (build_queue s1) (queue_packages s1)
                          (package_status s1) 0 0) tasks).
  set (m2 := mkState (code_dir s1) (acc_heap a2) (next_ref s1) (acc_queue a2)
                     (acc_packages a2) (acc_status a2)
                     (queue_file s1) (queue_meta_file s1)).
  assert (second = (save_queue m2, (acc_added a2, acc_total a2))) as Hsecond.
  { subst second. rewrite Hfirst. done. }
  assert (∀ t, t ∈ tasks →
               path_name (path (heap s1 t)) ∈ queue_packages s1) as Hlisted.
  { intros t Ht. destruct (Hsome1 t Ht) as [e He].
    rewrite <- Hfind in He. apply find_existing_Some in He as [He Hke].
    apply save_queue_listed. exists e. split; [done|]. fold s1.
    destruct (Hnk t) as [-> _]. unfold task_key in Hke. by injection Hke. }
  destruct (add_loop_settled reset_completed
              (mkAcc (heap s1) (build_queue s1) (queue_packages s1)
                     (package_status s1) 0 0) tasks)
    as (Hq2 & Hadd2 & Hp2 & Hst2).
  { cbn [acc_heap acc_queue]. intros t Ht.
    destruct (Hnk t) as [-> ->]. rewrite Hfind. by apply Hsome1. }
  { exact Hlisted. }
  { cbn [acc_heap acc_status]. intros t Ht. rewrite Hst.
    rewrite status_fold_lookup, lookup_empty.
    rewrite decide_True by (by apply Hlisted). eexists. split; [done|].
    intros Hreset. destruct (Hnk t) as [-> _]. cbn [package_status m1].
    by rewrite (Hflag1 Hreset t Ht). }
  fold a2 in Hq2, Hadd2, Hp2, Hst2.
  cbn [acc_queue acc_added acc_packages acc_status] in Hq2, Hadd2, Hp2, Hst2.
  destruct (add_loop_spec reset_completed
              (mkAcc (heap s1) (build_queue s1) (queue_packages s1)
                     (package_status s1) 0 0) tasks)
    as (Hkey2 & _ & _ & Hcopy2 & _).
  fold a2 in Hkey2, Hcopy2. cbn [acc_heap acc_queue] in Hkey2, Hcopy2.
  rewrite Hq2 in Hcopy2.
  (* the sources are those of the first call *)
  assert (∀ r, filter (source_of (heap s1) (build_queue s1) r) tasks
               = filter (source_of (heap s) (acc_queue a1) r) tasks) as Hsrc.
  { intros r. apply filter_ext_elem_of. intros t _. unfold source_of.
    destruct (Hnk t) as [-> ->]. by rewrite Hfind. }
  assert (∀ r, path (heap s1 r) = path (acc_heap a1 r)
               ∧ extra_args (heap s1 r) = extra_args (acc_heap a1 r)) as Hpe.
  { intros r. pose proof (Hfields r) as Hf.
    change (heap m1 r) with (acc_heap a1 r) in Hf. unfold fields in Hf.
    split; congruence. }
  assert (∀ r, fields (acc_heap a2 r) = fields (heap s1 r)) as Hsame.
  { intros r. specialize (Hcopy2 r). rewrite Hsrc in Hcopy2. cbn zeta in Hcopy2.
    assert (kind (acc_heap a2 r) = kind (heap s1 r)) as Hkind.
    { specialize (Hkey2 r). unfold task_key in Hkey2. congruence. }
    assert ((path (acc_heap a2 r), extra_args (acc_heap a2 r))
            = (path (heap s1 r), extra_args (heap s1 r))) as Hpair.
    { rewrite Hcopy2.
      destruct (last (filter (source_of (heap s) (acc_queue a1) r) tasks))
        as [t|] eqn:Elast; [|done].
      cbn [default]. unfold id.
      destruct (Hpe t) as [-> ->]. destruct (Hpe r) as [-> ->].
      rewrite (Hcopy1 t), (Hcopy1 r), Elast. cbn [default]. unfold id.
      assert (filter (source_of (heap s) (acc_queue a1) t) tasks = []) as ->; [|done].
      apply last_Some_elem_of, list_elem_of_filter in Elast as [[Hne Hsrc_t] _].
      apply filter_none. intros t' _ [_ Hsrc'].
      pose proof (find_existing_Some _ _ _ _ _ Hsrc') as [_ Hkt].
      unfold task_key in Hkt. injection Hkt as Hkn Hkk.
      rewrite <- Hkn, <- Hkk in Hsrc'. congruence. }
    unfold fields. congruence. }
  rewrite Hsecond, Hfirst. cbn [fst snd]. split; [|done].
  transitivity (queue_view (save_queue s1)); [|apply save_queue_twice].
  apply save_queue_ext; done.
Qed.

(** *** The queue stays in order *)

(** X7. Saving twice is saving once: the second [save_queue] leaves the
    queue, the packages, the flags, the two files and every task object as
    the first one left them. *)
Theorem save_queue_idempotent m :
  queue_view (save_queue (save_queue m)) = queue_view (save_queue m)
  ∧ ∀ r, heap (save_queue (save_queue m)) r = heap (save_queue m) r.
Proof.
  split; [apply save_queue_twice|]. intros r.
  destruct (save_queue_spec (save_queue m)) as (_ & Hfields & Hname & _).
  apply task_eq; [|apply Hfields].
  rewrite Hname. case_decide as Hin; [|done].
  symmetry. by apply save_queue_named.
Qed.

Lemma add_loop_packages_NoDup reset a tasks :
  NoDup (acc_packages a) →
  NoDup (acc_packages (foldl (add_step reset) a tasks)).
Proof.
  revert a. induction tasks as [|t tasks IH]; intros a Hnd; [done|].
  simpl. apply IH.
  destruct (add_step_spec reset a t) as (_ & _ & -> & _).
  case_decide as Hin; [done|].
  apply NoDup_app. split_and!; [done| |apply NoDup_singleton].
  intros x Hx ->%list_elem_of_singleton. done.
Qed.

(** X8. [save_queue] and [add_tasks] leave the queue in order when the
    packages were listed once each: the tasks of the queue have different
    keys and are named after their directories, the packages listed are
    those of the tasks, once each, and the flags are those of the packages
    listed. *)
Theorem queue_left_in_order s tasks reset_completed :
  NoDup (queue_packages s) →
  queue_ok (save_queue s)
  ∧ (tasks ≠ [] → queue_ok (add_tasks s tasks reset_completed).1).
Proof.
  intros Hnd. split; [by apply save_queue_in_order|].
  intros Hne. destruct tasks as [|t0 tasks0]; [done|].
  unfold add_tasks. cbn [fst]. apply save_queue_in_order. cbn [queue_packages].
  by apply add_loop_packages_NoDup.
Qed.

(** The check on a queue of three tasks, to which its first task is added
    again. *)
Lemma queue_left_in_order_witness :
  queue_ok (save_queue three_tasks_state)
  ∧ ([0%nat] ≠ [] → queue_ok (add_tasks three_tasks_state [0%nat] true).1).
Proof.
  apply (queue_left_in_order three_tasks_state [0%nat] true).
  simpl. repeat constructor; set_solver.
Defined.

(** *** What [load_queue_from_file] makes of any file *)

(** What holds of [packages] and [status] along the lines of the file. *)
Definition load_inv (acc : load_acc) : Prop :=
  NoDup acc.1.1
  ∧ (∀ n, n ∈ acc.1.1 → n ≠ "" ∧ path_name n = n)
  ∧ (∀ n, is_Some (acc.1.2 !! n) ↔ n ∈ acc.1.1).

Lemma load_line_inv json_loads repr_container acc raw_line :
  load_inv acc → load_inv (load_line json_loads repr_container acc raw_line).
Proof.
  destruct acc as [[packages status] legacy_meta].
  intros (Hnd & Hnames & Hdom). unfold load_line.
  case_decide; [done|].
  destruct (match inline_record json_loads (strip raw_line) with
            | Some parsed => _
            | None => _
            end) as [[name completed] legacy_meta'].
  set (name' := if decide (name = "") then name else path_name name).
  case_decide as Hname; [done|].
  assert (path_name name' = name') as Hfix.
  { subst name'. destruct (decide (name = "")); [done|].
    by apply path_name_fixed. }
  split_and!; cbn [fst snd].
  - case_decide as Hin; [done|].
    apply NoDup_app. split_and!; [done| |apply NoDup_singleton].
    intros x Hx ->%list_elem_of_singleton. done.
  - intros n Hn.
    assert (n ∈ packages ∨ n = name') as [?| ->]; [|by apply Hnames|done].
    case_decide; [by left|].
    apply elem_of_app in Hn as [?|?%list_elem_of_singleton]; [by left|by right].
  - intros n. rewrite lookup_insert_is_Some, Hdom.
    case_decide as Hin.
    + split; [intros [<-|[_ ?]]; done|].
      intros Hn. destruct (decide (name' = n)); [by left|by right].
    + rewrite elem_of_app, list_elem_of_singleton. split.
      * intros [<-|[_ ?]]; [by right|by left].
      * intros [?| ->]; [|by left].
        destruct (decide (name' = n)); [by left|by right].
Qed.

Lemma load_lines_inv json_loads repr_container acc lines :
  load_inv acc →
  load_inv (foldl (load_line json_loads repr_container) acc lines).
Proof.
  revert acc. induction lines as [|l lines IH]; intros acc Hacc; [done|].
  simpl. by apply IH, load_line_inv.
Qed.

(** The tasks made for a package carry its name, and there is one at
    least; none is made only where [expanduser] fails. *)
Lemma tasks_of_package_named repr_container expanduser resolve code_dir meta pkg :
  match tasks_of_package repr_container expanduser resolve code_dir meta pkg with
  | Some tasks => tasks ≠ [] ∧ ∀ t, t ∈ tasks → display_name t = pkg
  | None => ∃ p, expanduser p = None
  end.
Proof.
  unfold tasks_of_package.
  destruct (match default (JObj []) (dict_get meta pkg) with
            | JObj members => _
            | _ => _
            end) as [base_path_str kinds_info].
  destruct (if decide (base_path_str = "") then _ else _) as [base_path|] eqn:E;
    cbn [mbind option_bind].
  2:{ case_decide; eauto. }
  destruct kinds_info as [|[kind payload] kinds_info].
  - split; [done|]. by intros t ->%list_elem_of_singleton.
  - split; [done|].
    intros t ([kind' payload'] & -> & _)%(list_elem_of_fmap_1 (A:=string * json)).
    done.
Qed.

Lemma mapM_None_inv {A B} (f : A → option B) l :
  mapM f l = None → ∃ a, a ∈ l ∧ f a = None.
Proof.
  induction l as [|a l IH]; [done|]. cbn [mapM].
  destruct (f a) as [b|] eqn:E; cbn [mbind option_bind].
  - destruct (mapM f l); [done|]. intros _.
    destruct IH as (a' & Ha' & Hf); [done|]. exists a'. split; [by right|done].
  - intros _. exists a. split; [left|done].
Qed.

Lemma allocate_refs heap next tasks :
  (allocate heap next tasks).2 = seq next (length tasks)
  ∧ (allocate heap next tasks).1.2 = (next + length tasks)%nat.
Proof.
  revert heap next. induction tasks as [|t tasks IH]; intros heap next.
  { simpl. split; [done|lia]. }
  simpl. specialize (IH (<[next := t]> heap) (S next)).
  destruct (allocate (<[next := t]> heap) (S next) tasks) as [[h' n'] refs].
  simpl in *. destruct IH as [-> ->]. split; [done|lia].
Qed.

(** X9. Whatever the queue file and the metadata file hold,
    [load_queue_from_file] either raises, which it does only where
    [expanduser] fails on a path, or leaves a state in which the
    packages are listed once each under the names of directories, the
    flags are those of the packages listed, every package listed has a
    task and every task is that of a package listed, the tasks are new
    objects, and the two files are as they were. *)
Theorem load_queue_from_file_consistent
    json_loads repr_container expanduser resolve s :
  match load_queue_from_file json_loads repr_container expanduser resolve s with
  | None => ∃ p, expanduser p = None
  | Some s' =>
    NoDup (queue_packages s')
    ∧ (∀ n, n ∈ queue_packages s' → n ≠ "" ∧ path_name n = n)
    ∧ (∀ n, is_Some (package_status s' !! n) ↔ n ∈ queue_packages s')
    ∧ (∀ n, n ∈ queue_packages s'
            ↔ ∃ t, t ∈ queue_tasks s' ∧ display_name t = n)
    ∧ build_queue s' = seq (next_ref s) (next_ref s' - next_ref s)
    ∧ (∀ r, (r < next_ref s)%nat → heap s' r = heap s r)
    ∧ queue_file s' = queue_file s ∧ queue_meta_file s' = queue_meta_file s
  end.
Proof.
  unfold load_queue_from_file. destruct (queue_file s) as [text|] eqn:Efile.
  - pose proof (load_lines_inv json_loads repr_container ([], ∅, [])
                  (file_lines text)) as Hinv.
    destruct (foldl (load_line json_loads repr_container) ([], ∅, [])
                    (file_lines text)) as [[packages status] legacy_meta].
    destruct Hinv as (Hnd & Hnames & Hdom).
    { split_and!; cbn [fst snd]; [constructor|by intros n ?%elem_of_nil|].
      intros n. rewrite lookup_empty. split; [by intros []|by intros ?%elem_of_nil]. }
    cbn [fst snd] in Hnd, Hnames, Hdom. cbn zeta.
    set (f := tasks_of_package repr_container expanduser resolve (code_dir s)
                (loaded_meta repr_container (queue_meta_file s) legacy_meta)).
    destruct (mapM f packages) as [made|] eqn:Emade; cbn [mbind option_bind].
    2:{ apply mapM_None_inv in Emade as (pkg & _ & Hpkg).
        pose proof (tasks_of_package_named repr_container expanduser resolve
                      (code_dir s)
                      (loaded_meta repr_container (queue_meta_file s) legacy_meta)
                      pkg) as H.
        fold f in H. by rewrite Hpkg in H. }
    set (tasks := concat made).
    pose proof (allocate_spec (heap s) (next_ref s) tasks) as [Hold Hnew].
    pose proof (allocate_refs (heap s) (next_ref s) tasks) as [Hrefs Hnext].
    destruct (allocate (heap s) (next_ref s) tasks) as [[h' n'] refs].
    cbn [fst snd] in Hold, Hnew, Hrefs, Hnext.
    unfold queue_tasks.
    cbn [queue_packages package_status build_queue heap next_ref queue_file
           queue_meta_file].
    split_and!; try done.
    + intros n. rewrite Hnew. unfold tasks. split.
      * intros Hn.
        assert (is_Some (f n)) as [l Hl].
        { assert (is_Some (mapM f packages)) as Hall by (by rewrite Emade).
          apply mapM_is_Some_1 in Hall. rewrite Forall_forall in Hall.
          by apply Hall. }
        pose proof (tasks_of_package_named repr_container expanduser resolve
                      (code_dir s)
                      (loaded_meta repr_container (queue_meta_file s) legacy_meta)
                      n) as H.
        fold f in H. rewrite Hl in H. destruct H as [Hne Hname].
        destruct l as [|t l]; [done|].
        exists t. split; [|apply Hname; left].
        apply (elem_of_mapM_concat _ _ _ _ Emade). exists n, (t :: l).
        split_and!; [done..|left].
      * intros (t & (pkg & l & Hpkg & Hl & Ht)%(elem_of_mapM_concat _ _ _ _ Emade)
                  & <-).
        pose proof (tasks_of_package_named repr_container expanduser resolve
                      (code_dir s)
                      (loaded_meta repr_container (queue_meta_file s) legacy_meta)
                      pkg) as H.
        fold f in H. rewrite Hl in H. destruct H as [_ Hname].
        by rewrite (Hname t Ht).
    + rewrite Hrefs, Hnext. f_equal. lia.
  - unfold queue_tasks.
    cbn [queue_packages package_status build_queue heap next_ref queue_file
           queue_meta_file].
    split_and!; try done.
    + constructor.
    + by intros n ?%elem_of_nil.
    + intros n. rewrite lookup_empty. split; [by intros []|by intros ?%elem_of_nil].
    + intros n. split; [by intros ?%elem_of_nil|].
      by intros (t & ?%elem_of_nil & _).
    + by rewrite Nat.sub_diag.
Qed.

(** *** Structured records in the queue file *)






Section record_facts.
Variable json_loads : string → option json.
Variable repr_container : json → string.








End record_facts.






(** *** What [add_tasks] does with each task *)

(** The state of the loop of [add_tasks] at its start. *)
Definition add_start (s : MenuState) : add_acc :=
  mkAcc (heap s) (build_queue s) (queue_packages s) (package_status s) 0 0.

(** The loop of [add_tasks]: the tasks appended to the queue, their
    number, and the number of rounds. A task appended is the first task
    of its key, and the queue had no task of that key. *)
Lemma add_loop_new reset a tasks :
  let a' := foldl (add_step reset) a tasks in
  let h := acc_heap a in
  ∃ new, acc_queue a' = acc_queue a ++ new
         ∧ acc_added a' = (acc_added a + length new)%nat
         ∧ acc_total a' = (acc_total a + length tasks)%nat
         ∧ (NoDup ((λ r, task_key (h r)) <$> acc_queue a) →
            NoDup ((λ r, task_key (h r)) <$> acc_queue a'))
         ∧ ∀ e, e ∈ new →
                find_existing h (acc_queue a)
                              (path_name (path (h e))) (kind (h e)) = None
                ∧ ∃ pre post, tasks = pre ++ e :: post
                              ∧ ∀ t, t ∈ pre → task_key (h t) ≠ task_key (h e).
Proof.
  induction tasks as [|t tasks IH] using rev_ind; intros a' h.
  { exists []. subst a'. simpl. rewrite app_nil_r.
    split_and!; [done|lia|lia|done|by intros e ?%elem_of_nil]. }
  destruct IH as (new & Hq & Hadd & Htot & Hnd & Hnew).
  destruct (add_loop_spec reset a tasks) as (Hkey & _ & Hsome & _).
  subst a' h. rewrite foldl_app. cbn [foldl].
  set (a' := foldl (add_step reset) a tasks) in *.
  destruct (add_step_spec reset a' t) as (Sq & Sadd & _).
  assert (acc_total (add_step reset a' t) = S (acc_total a')) as Stot by done.
  set (h := acc_heap a) in *.
  assert (path_name (path (acc_heap a' t)) = path_name (path (h t))
          ∧ kind (acc_heap a' t) = kind (h t)) as [Hn Hk].
  { specialize (Hkey t). unfold task_key, h in *. split; congruence. }
  rewrite Hn, Hk in Sq, Sadd.
  rewrite (find_existing_ext (acc_heap a') h) in Sq, Sadd
    by (intros r _; apply Hkey).
  rewrite length_app. cbn [length].
  destruct (find_existing h (acc_queue a') (path_name (path (h t))) (kind (h t)))
    as [e|] eqn:E.
  - exists new. rewrite Sq, Sadd, Stot, Htot.
    split_and!; [done|done|lia|done|].
    intros e' He'. destruct (Hnew e' He') as (Hnone & pre & post & -> & Hpre).
    split; [done|]. exists pre, (post ++ [t]).
    split; [|done]. by rewrite <- app_assoc.
  - exists (new ++ [t]). rewrite Sq, Sadd, Stot, Htot, Hadd, Hq, length_app.
    cbn [length]. split_and!; [by rewrite app_assoc|lia|lia| |].
    + intros Hold. specialize (Hnd Hold). rewrite Hq in Hnd.
      rewrite fmap_app. apply NoDup_app. split_and!; [done| |].
      * intros k (r & -> & Hr)%list_elem_of_fmap Hk'.
        apply list_elem_of_singleton in Hk'.
        rewrite <- Hq in Hr.
        by apply (find_existing_None _ _ _ _ r E Hr).
      * apply NoDup_singleton.
    + intros e' [He'| ->%list_elem_of_singleton]%elem_of_app.
      * destruct (Hnew e' He') as (Hnone & pre & post & -> & Hpre).
        split; [done|]. exists pre, (post ++ [t]).
        split; [|done]. by rewrite <- app_assoc.
      * split.
        -- rewrite Hq, find_existing_app in E.
           by destruct (find_existing h (acc_queue a) _ _).
        -- exists tasks, []. split; [done|]. intros t' Ht' Heq.
           destruct (Hsome t' Ht') as [x Hx].
           unfold task_key in Heq. injection Heq as Hn' Hk'.
           rewrite Hn', Hk' in Hx. congruence.
Qed.

(** The flag of the package [n] after the loop of [add_tasks]: not
    completed when [reset_completed] is set or a task of [n] was not in
    the queue, the flag it had when every task of [n] was in the queue,
    and unchanged when no task is of [n]. *)
Lemma add_loop_flag reset a tasks n :
  let a' := foldl (add_step reset) a tasks in
  let h := acc_heap a in
  ((∃ t, t ∈ tasks ∧ path_name (path (h t)) = n
         ∧ (reset = true
            ∨ find_existing h (acc_queue a) n (kind (h t)) = None)) →
   acc_status a' !! n = Some false)
  ∧ ((∃ t, t ∈ tasks ∧ path_name (path (h t)) = n) → reset = false →
     (∀ t, t ∈ tasks → path_name (path (h t)) = n →
           is_Some (find_existing h (acc_queue a) n (kind (h t)))) →
     acc_status a' !! n = Some (default false (acc_status a !! n)))
  ∧ ((∀ t, t ∈ tasks → path_name (path (h t)) ≠ n) →
     acc_status a' !! n = acc_status a !! n).
Proof.
  induction tasks as [|t tasks IH] using rev_ind; intros a' h.
  { split_and!; [by intros (t & ?%elem_of_nil & _)
                |by intros (t & ?%elem_of_nil & _)|done]. }
  destruct IH as (IH1 & IH2 & IH3).
  destruct (add_loop_spec reset a tasks) as (Hkey & _ & Hsome & _).
  destruct (add_loop_new reset a tasks) as (new & Hq & _ & _ & _ & Hnew).
  subst a' h. rewrite foldl_app. cbn [foldl].
  set (a' := foldl (add_step reset) a tasks) in *.
  destruct (add_step_spec reset a' t) as (_ & _ & _ & Sst & _).
  set (h := acc_heap a) in *.
  assert (path_name (path (acc_heap a' t)) = path_name (path (h t))
          ∧ kind (acc_heap a' t) = kind (h t)) as [Hn Hk].
  { specialize (Hkey t). unfold task_key, h in *. split; congruence. }
  rewrite Hn, Hk in Sst.
  rewrite (find_existing_ext (acc_heap a') h) in Sst by (intros r _; apply Hkey).
  rewrite Sst, status_step_lookup. clear Sst.
  assert (Decision (∃ t', t' ∈ tasks ∧ path_name (path (h t')) = n)) as Hdec.
  { destruct (decide (Exists (λ t', path_name (path (h t')) = n) tasks))
      as [Hex|Hex]; [left|right]; by rewrite <- Exists_exists. }
  split_and!.
  - intros (t0 & Ht0 & Hp0 & Hwhy).
    destruct (decide (n = path_name (path (h t)))) as [Heq|Hne].
    + destruct (bool_decide _ && negb reset) eqn:Erep; [|done].
      apply andb_true_iff in Erep as [Hrep Hreset].
      apply bool_decide_eq_true in Hrep as [e He].
      destruct reset; [done|]. destruct Hwhy as [?|Hnone]; [done|].
      rewrite <- Heq, IH1; [done|].
      apply elem_of_app in Ht0 as [Ht0|Ht0]; [by exists t0; eauto|].
      apply list_elem_of_singleton in Ht0 as ->.
      rewrite <- Heq, Hq, find_existing_app, Hnone in He.
      pose proof (find_existing_Some _ _ _ _ _ He) as [Hin Hke].
      destruct (Hnew e Hin) as (Hnone_e & pre & post & -> & _).
      unfold task_key in Hke. injection Hke as Hne' Hke'.
      exists e. split; [set_solver|]. split; [done|]. right.
      by rewrite Hne' in Hnone_e.
    + apply IH1. exists t0.
      apply elem_of_app in Ht0 as [Ht0|Ht0]; [done|].
      apply list_elem_of_singleton in Ht0 as ->. done.
  - intros (t0 & Ht0 & Hp0) -> Hall.
    destruct (decide (n = path_name (path (h t)))) as [Heq|Hne].
    + rewrite bool_decide_true.
      2:{ destruct (Hall t) as [e He]; [set_solver|done|].
          rewrite <- Heq, Hq, find_existing_app, He. done. }
      simpl. rewrite <- Heq. f_equal. destruct Hdec as [Hex|Hnex].
      * rewrite IH2; [done|done|done|]. intros t' Ht'. apply Hall. set_solver.
      * rewrite IH3; [done|]. intros t' Ht' Hp'. apply Hnex. by exists t'.
    + apply IH2; [|done|].
      * exists t0. apply elem_of_app in Ht0 as [Ht0|Ht0]; [done|].
        apply list_elem_of_singleton in Ht0 as ->. done.
      * intros t' Ht'. apply Hall. set_solver.
  - intros Hnone. rewrite decide_False.
    + apply IH3. intros t' Ht'. apply Hnone. set_solver.
    + intros ->. apply (Hnone t); [set_solver|done].
Qed.

(** The entry of the queue that [add_tasks] leaves for the task [t]: the
    first task of the key of [t] in the queue of the loop. *)
Lemma add_tasks_entry s tasks reset t :
  t ∈ tasks →
  let a1 := foldl (add_step reset) (add_start s) tasks in
  let s' := (add_tasks s tasks reset).1 in
  let n := path_name (path (heap s t)) in
  ∃ e, find_existing (heap s) (acc_queue a1) n (kind (heap s t)) = Some e
       ∧ e ∈ build_queue s'
       ∧ task_key (heap s' e) = task_key (heap s t)
       ∧ display_name (heap s' e) = n
       ∧ (path (heap s' e), extra_args (heap s' e))
         = (let t' := default e (last (filter (source_of (heap s) (acc_queue a1) e)
                                         tasks)) in
            (path (heap s t'), extra_args (heap s t')))
       ∧ n ∈ queue_packages s'
       ∧ package_status s' !! n = Some (default false (acc_status a1 !! n)).
Proof.
  intros Ht a1 s' n.
  destruct tasks as [|t0 tasks0]; [by apply elem_of_nil in Ht|].
  set (tasks := t0 :: tasks0) in *.
  set (m1 := mkState (code_dir s) (acc_heap a1) (next_ref s) (acc_queue a1)
                     (acc_packages a1) (acc_status a1)
                     (queue_file s) (queue_meta_file s)).
  assert (s' = save_queue m1) as Hs' by done.
  destruct (add_loop_spec reset (add_start s) tasks)
    as (Hkey1 & _ & Hsome1 & Hcopy1 & _).
  fold a1 in Hkey1, Hsome1, Hcopy1.
  cbn [acc_heap acc_queue add_start] in Hkey1, Hsome1, Hcopy1.
  destruct (save_queue_spec m1) as (Hu & Hfields & _ & Ho & Hst & _).
  rewrite <- Ho in Hst. clear Ho. rewrite <- Hs' in Hu, Hfields, Hst.
  cbn [heap build_queue package_status m1] in Hu, Hfields, Hst.
  assert (∀ r, task_key (heap s' r) = task_key (heap s r)) as Hkeys.
  { intros r. rewrite <- Hkey1. apply fields_key, Hfields. }
  assert (∀ n k, find_existing (heap s') (build_queue s') n k
                 = find_existing (heap s) (acc_queue a1) n k) as Hfind.
  { intros n' k. rewrite (find_existing_ext (heap s') (acc_heap a1))
      by (intros r _; apply fields_key, Hfields).
    rewrite Hu, find_existing_first_of_keys.
    rewrite decide_False by apply not_elem_of_nil.
    apply find_existing_ext. intros r _. apply Hkey1. }
  destruct (Hsome1 t Ht) as [e He]. fold n in He.
  exists e. split; [done|].
  pose proof He as He'. rewrite <- Hfind in He'.
  apply find_existing_Some in He' as [Hin Hke].
  assert (path_name (path (heap s' e)) = n) as Hne.
  { unfold task_key in Hke. by injection Hke. }
  assert (n ∈ queue_packages s') as Hlisted.
  { rewrite Hs'. apply save_queue_listed. exists e. by rewrite <- Hs'. }
  split_and!.
  - done.
  - rewrite Hke. done.
  - rewrite Hs', save_queue_named by (by rewrite <- Hs'). by rewrite <- Hs'.
  - rewrite <- Hcopy1. pose proof (Hfields e) as Hf. unfold fields in Hf.
    congruence.
  - done.
  - rewrite Hst, status_fold_lookup, decide_True by done. done.
Qed.

(** The sources of the first task [e] of a key are the other tasks of that
    key. *)
Lemma sources_of_key h queue (tasks : list nat) t e :
  find_existing h queue (path_name (path (h t))) (kind (h t)) = Some e →
  filter (source_of h queue e) tasks
  = filter (λ t', t' ≠ e ∧ task_key (h t') = task_key (h t)) tasks.
Proof.
  intros He. apply filter_ext_elem_of. intros t' _. unfold source_of.
  pose proof (find_existing_Some _ _ _ _ _ He) as [_ Hke].
  split; intros [Hne H]; (split; [done|]).
  - apply find_existing_Some in H as [_ Hke']. unfold task_key in *. congruence.
  - unfold task_key in H. injection H as -> ->. done.
Qed.

(** X10. Every task given to [add_tasks] has its entry in the queue: a task of
    the same key, named after its directory, with the path and the
    arguments of one of the tasks of that key that were given; its
    package is listed and has a flag. *)
Theorem add_tasks_queues_every_task s tasks reset_completed t :
  t ∈ tasks →
  let s' := (add_tasks s tasks reset_completed).1 in
  let n := path_name (path (heap s t)) in
  (∃ r t', r ∈ build_queue s'
           ∧ task_key (heap s' r) = task_key (heap s t)
           ∧ display_name (heap s' r) = n
           ∧ t' ∈ tasks ∧ task_key (heap s t') = task_key (heap s t)
           ∧ path (heap s' r) = path (heap s t')
           ∧ extra_args (heap s' r) = extra_args (heap s t'))
  ∧ n ∈ queue_packages s'
  ∧ is_Some (package_status s' !! n).
Proof.
  intros Ht s' n.
  destruct (add_tasks_entry s tasks reset_completed t Ht)
    as (e & He & Hin & Hke & Hname & Hcopy & Hlisted & Hflag).
  fold s' n in Hin, Hke, Hname, Hcopy, Hlisted, Hflag, He.
  split; [|split; [done|by rewrite Hflag]].
  rewrite (sources_of_key _ _ _ t) in Hcopy by done. cbn zeta in Hcopy.
  destruct (last (filter _ tasks)) as [t'|] eqn:Elast.
  - exists e, t'. apply last_Some_elem_of, list_elem_of_filter in Elast
      as [[_ Hkt'] Ht']. cbn [default] in Hcopy. unfold id in Hcopy.
    split_and!; try done; congruence.
  - exists e, t. apply last_None in Elast.
    assert (t = e) as ->.
    { destruct (decide (t = e)) as [|Hne]; [done|].
      assert (t ∈ filter (λ t', t' ≠ e ∧ task_key (heap s t') = task_key (heap s t))
                         tasks) as Hf by (by apply list_elem_of_filter).
      rewrite Elast in Hf. by apply elem_of_nil in Hf. }
    cbn [default] in Hcopy. split_and!; try done; congruence.
Qed.

(** The check on the queue of three tasks, to which a new task for [bar]
    and the first task of the queue are given. *)
Lemma add_tasks_queues_every_task_witness :
  let s' := (add_tasks three_tasks_state [3; 0]%nat true).1 in
  let n := path_name (path (heap three_tasks_state 3%nat)) in
  (∃ r t', r ∈ build_queue s'
           ∧ task_key (heap s' r) = task_key (heap three_tasks_state 3%nat)
           ∧ display_name (heap s' r) = n
           ∧ t' ∈ [3; 0]%nat
           ∧ task_key (heap three_tasks_state t')
             = task_key (heap three_tasks_state 3%nat)
           ∧ path (heap s' r) = path (heap three_tasks_state t')
           ∧ extra_args (heap s' r) = extra_args (heap three_tasks_state t'))
  ∧ n ∈ queue_packages s'
  ∧ is_Some (package_status s' !! n).
Proof.
  apply (add_tasks_queues_every_task three_tasks_state [3; 0]%nat true 3%nat).
  left.
Defined.

Lemma NoDup_fmap_eq {A B} (f : A → B) (l : list A) x y :
  NoDup (f <$> l) → x ∈ l → y ∈ l → f x = f y → x = y.
Proof.
  induction l as [|z l IH]; [by intros _ ?%elem_of_nil|].
  rewrite fmap_cons. intros [Hz Hnd]%NoDup_cons Hx Hy Heq.
  apply elem_of_cons in Hx as [->|Hx], Hy as [->|Hy]; [done| | |by apply IH].
  - destruct Hz. rewrite Heq. apply list_elem_of_fmap. by exists y.
  - destruct Hz. rewrite <- Heq. apply list_elem_of_fmap. by exists x.
Qed.

(** X11. When the tasks given to [add_tasks] are new objects, the last task of
    a key decides: the queue is left with one entry of that key, and it
    has the path and the arguments of that task. *)
Theorem add_tasks_last_wins s tasks reset_completed t :
  NoDup tasks → (∀ x, x ∈ tasks → x ∉ build_queue s) →
  last (filter (λ x, task_key (heap s x) = task_key (heap s t)) tasks) = Some t →
  let s' := (add_tasks s tasks reset_completed).1 in
  ∃ r, r ∈ build_queue s'
       ∧ (∀ r', r' ∈ build_queue s' →
                task_key (heap s' r') = task_key (heap s t) ↔ r' = r)
       ∧ path (heap s' r) = path (heap s t)
       ∧ extra_args (heap s' r) = extra_args (heap s t).
Proof.
  intros Hnd Hfresh Hlast s'.
  assert (t ∈ tasks) as Ht.
  { apply last_Some_elem_of, list_elem_of_filter in Hlast. tauto. }
  destruct (add_tasks_entry s tasks reset_completed t Ht)
    as (e & He & Hin & Hke & _ & Hcopy & _).
  fold s' in Hin, Hke, Hcopy.
  exists e. split; [done|]. split.
  { intros r' Hr'. split; [|by intros ->].
    intros Hkr'. revert Hr' Hin. unfold s'.
    destruct tasks as [|t0 tasks0]; [by apply elem_of_nil in Ht|].
    unfold add_tasks. cbn [fst]. fold (add_start s).
    set (m1 := mkState _ _ _ _ _ _ _ _).
    destruct (save_queue_spec m1) as (Hu & Hfields & _).
    rewrite Hu. intros Hr' Hin.
    apply (NoDup_fmap_eq _ _ _ _ (first_of_keys_NoDup _ _ _) Hr' Hin).
    rewrite <- !(fields_key _ _ (Hfields _)).
    change (save_queue m1) with s'. congruence. }
  rewrite (sources_of_key _ _ _ t) in Hcopy by done. cbn zeta in Hcopy.
  set (K := λ x, task_key (heap s x) = task_key (heap s t)) in *.
  assert (default e (last (filter (λ t', t' ≠ e ∧ K t') tasks)) = t) as Hdef.
  { destruct (decide (e ∈ build_queue s)) as [Hold|Hnew].
    - rewrite (filter_ext_elem_of (λ t', t' ≠ e ∧ K t') K).
      + by rewrite Hlast.
      + intros x Hx. split; [tauto|]. intros HK. split; [|done].
        intros ->. by apply (Hfresh e).
    - destruct (add_loop_new reset_completed (add_start s) tasks)
        as (new & Hq & _ & _ & _ & Hnew').
      cbn [acc_heap acc_queue add_start] in Hq, Hnew'.
      pose proof (find_existing_Some _ _ _ _ _ He) as [Hine HKe].
      rewrite Hq in Hine. apply elem_of_app in Hine as [?|Hine]; [done|].
      destruct (Hnew' e Hine) as (_ & pre & post & Htasks & Hpre).
      assert (K e) as HKe' by done.
      rewrite Htasks in Hnd, Hlast |- *.
      apply NoDup_app in Hnd as (_ & _ & [Hepost _]%NoDup_cons).
      rewrite filter_app in Hlast |- *.
      rewrite (filter_none K pre) in Hlast
        by (intros x Hx HKx; apply (Hpre x Hx); unfold K in *; congruence).
      rewrite (filter_none _ pre)
        by (intros x Hx [_ HKx]; apply (Hpre x Hx); unfold K in *; congruence).
      rewrite filter_cons_True in Hlast by done.
      rewrite filter_cons_False by (by intros [? _]).
      cbn [app] in Hlast |- *.
      rewrite (filter_ext_elem_of (λ t', t' ≠ e ∧ K t') K post).
      2:{ intros x Hx. split; [tauto|]. intros HK. split; [|done].
          by intros ->. }
      destruct (filter K post) as [|y l] eqn:Ef; [by injection Hlast|].
      rewrite last_cons in Hlast.
      destruct (last (y :: l)) as [z|] eqn:Ez; [by injection Hlast as ->|].
      by apply last_None in Ez. }
  unfold K in Hdef. rewrite Hdef in Hcopy. split; congruence.
Qed.

(** A queue with one task for [foo], and three tasks outside it: two for
    [bar] and one more for [foo]. *)
Definition one_task_state : MenuState :=
  mkState "/code"
          (λ r, match r with
                | 0%nat => mkTask "foo" "/code/foo" "debian" []
                | 1%nat => mkTask "bar" "/a/bar" "debian" ["-j2"]
                | 2%nat => mkTask "bar" "/b/bar" "debian" ["-j8"]
                | _ => mkTask "foo" "/new/foo" "debian" ["-j4"]
                end)
          4 [0%nat] ["foo"] {["foo" := true]} None None.

Lemma add_tasks_last_wins_witness :
  let s' := (add_tasks one_task_state [1; 2; 3]%nat false).1 in
  ∃ r, r ∈ build_queue s'
       ∧ (∀ r', r' ∈ build_queue s' →
                task_key (heap s' r') = task_key (heap one_task_state 2%nat)
                ↔ r' = r)
       ∧ path (heap s' r) = path (heap one_task_state 2%nat)
       ∧ extra_args (heap s' r) = extra_args (heap one_task_state 2%nat).
Proof.
  apply (add_tasks_last_wins one_task_state [1; 2; 3]%nat false 2%nat).
  - repeat constructor; set_solver.
  - intros x Hx Hq. apply list_elem_of_singleton in Hq as ->.
    repeat (apply elem_of_cons in Hx as [Hx|Hx]; [discriminate|]).
    by apply elem_of_nil in Hx.
  - reflexivity.
Defined.

(** X12. The flag that [add_tasks] leaves for the package [n] of a task given:
    not completed when [reset_completed] is set or one of the tasks of [n]
    had no entry of its key in the queue; the flag the package had (not
    completed when it had none) when [reset_completed] is not set and
    every task of [n] had its entry. *)
Theorem add_tasks_flags s tasks reset_completed n :
  (∃ t, t ∈ tasks ∧ path_name (path (heap s t)) = n) →
  let s' := (add_tasks s tasks reset_completed).1 in
  let is_new t :=
    find_existing (heap s) (build_queue s) n (kind (heap s t)) = None in
  ((reset_completed = true
    ∨ ∃ t, t ∈ tasks ∧ path_name (path (heap s t)) = n ∧ is_new t) →
   package_status s' !! n = Some false)
  ∧ (reset_completed = false →
     (∀ t, t ∈ tasks → path_name (path (heap s t)) = n → ¬ is_new t) →
     package_status s' !! n = Some (default false (package_status s !! n))).
Proof.
  intros (t & Ht & Hn) s' is_new.
  destruct (add_tasks_entry s tasks reset_completed t Ht)
    as (_ & _ & _ & _ & _ & _ & _ & Hflag).
  rewrite Hn in Hflag. fold s' in Hflag. rewrite Hflag.
  destruct (add_loop_flag reset_completed (add_start s) tasks n)
    as (H1 & H2 & _).
  cbn [acc_heap acc_queue acc_status add_start] in H1, H2.
  split.
  - intros Hwhy. rewrite H1; [done|].
    destruct Hwhy as [->|(t' & Ht' & Hn' & Hnew)].
    + exists t. eauto.
    + exists t'. eauto.
  - intros -> Hall. rewrite H2; [done|by exists t|done|].
    intros t' Ht' Hn'. specialize (Hall t' Ht' Hn'). unfold is_new in Hall.
    by destruct (find_existing _ _ _ _).
Qed.

Lemma add_tasks_flags_witness :
  let s' := (add_tasks one_task_state [3%nat] false).1 in
  let is_new t :=
    find_existing (heap one_task_state) (build_queue one_task_state) "foo"
                  (kind (heap one_task_state t)) = None in
  ((false = true
    ∨ ∃ t, t ∈ [3%nat] ∧ path_name (path (heap one_task_state t)) = "foo"
           ∧ is_new t) →
   package_status s' !! "foo" = Some false)
  ∧ (false = false →
     (∀ t, t ∈ [3%nat] → path_name (path (heap one_task_state t)) = "foo" →
           ¬ is_new t) →
     package_status s' !! "foo"
     = Some (default false (package_status one_task_state !! "foo"))).
Proof.
  apply (add_tasks_flags one_task_state [3%nat] false "foo").
  exists 3%nat. split; [left|reflexivity].
Defined.

(** X13. On a queue whose tasks have different keys, [add_tasks] keeps the
    entries of the queue in their places and appends tasks given, each the
    first task of a key that the queue did not have; it returns the number
    of tasks appended and the number of tasks given. *)
Theorem add_tasks_appends s tasks reset_completed :
  NoDup (task_key <$> queue_tasks s) →
  ∃ new, build_queue (add_tasks s tasks reset_completed).1 = build_queue s ++ new
         ∧ (add_tasks s tasks reset_completed).2 = (length new, length tasks)
         ∧ ∀ e, e ∈ new →
                find_existing (heap s) (build_queue s)
                              (path_name (path (heap s e))) (kind (heap s e))
                = None
                ∧ ∃ pre post,
                    tasks = pre ++ e :: post
                    ∧ ∀ t, t ∈ pre → task_key (heap s t) ≠ task_key (heap s e).
Proof.
  intros Hnd. destruct tasks as [|t0 tasks0].
  { exists []. rewrite app_nil_r. split_and!; [done..|].
    by intros e ?%elem_of_nil. }
  set (tasks := t0 :: tasks0).
  destruct (add_loop_new reset_completed (add_start s) tasks)
    as (new & Hq & Hadd & Htot & Hkeys & Hnew).
  destruct (add_loop_spec reset_completed (add_start s) tasks) as (Hkey1 & _).
  cbn [acc_heap acc_queue acc_added acc_total add_start] in *.
  exists new.
  set (a1 := foldl (add_step reset_completed) (add_start s) tasks) in *.
  set (m1 := mkState (code_dir s) (acc_heap a1) (next_ref s) (acc_queue a1)
                     (acc_packages a1) (acc_status a1)
                     (queue_file s) (queue_meta_file s)).
  change (add_tasks s tasks reset_completed)
    with (save_queue m1, (acc_added a1, acc_total a1)).
  cbn [fst snd].
  destruct (save_queue_spec m1) as (Hu & _).
  split_and!; [|by rewrite Hadd, Htot|done].
  rewrite Hu. cbn [heap build_queue m1].
  rewrite (first_of_keys_ext _ (λ r, task_key (heap s r)))
    by (intros r _; apply Hkey1).
  rewrite first_of_keys_fixed; [done| |by intros r _ ?%elem_of_nil].
  apply Hkeys. unfold queue_tasks in Hnd.
  by rewrite <- list_fmap_compose in Hnd.
Qed.

Lemma add_tasks_appends_witness :
  ∃ new, build_queue (add_tasks one_task_state [1; 2; 3]%nat false).1
         = build_queue one_task_state ++ new
         ∧ (add_tasks one_task_state [1; 2; 3]%nat false).2
           = (length new, length [1; 2; 3]%nat)
         ∧ ∀ e, e ∈ new →
                find_existing (heap one_task_state) (build_queue one_task_state)
                              (path_name (path (heap one_task_state e)))
                              (kind (heap one_task_state e))
                = None
                ∧ ∃ pre post,
                    [1; 2; 3]%nat = pre ++ e :: post
                    ∧ ∀ t, t ∈ pre → task_key (heap one_task_state t)
                                     ≠ task_key (heap one_task_state e).
Proof.
  apply (add_tasks_appends one_task_state [1; 2; 3]%nat false).
  vm_compute. repeat constructor. set_solver.
Defined.

End Menu.

(** ** debuild_runner.py: the queue runner *)

Module Runner.
Import Py.

(** *** Values *)

(** A [pathlib.Path], by the string it was made from. *)
Definition Path : Type := string.

Record QueueEntry : Type := mkEntry {
  name : string;
  path : Path;
  completed : bool;
  kind : string
}.

Record MissingDependency : Type := mkDep {
  display : string;
  candidates : list string
}.

(** [MissingDependency.valid_candidates] *)
Definition valid_candidates (dep : MissingDependency) : list string :=
  filter (λ candidate, candidate ≠ "") (candidates dep).

(** [s.startswith(prefix)] and [s[n:]] *)
Fixpoint startswith_str (prefix s : string) : bool :=
  match prefix, s with
  | EmptyString, _ => true
  | String a prefix', String b s' => char_eqb b a && startswith_str prefix' s'
  | String _ _, EmptyString => false
  end.

Fixpoint slice_from (n : nat) (s : string) : string :=
  match n, s with
  | O, _ => s
  | S n', String _ s' => slice_from n' s'
  | S _, EmptyString => EmptyString
  end.

(** [_strip_known_prefix], for the prefixes of
    [DEPENDENCY_SOURCE_PREFIXES]. *)
Definition _strip_known_prefix (prefixes : list string) (candidate : string)
  : list string :=
  foldl (λ variants prefix,
           if startswith_str prefix candidate then
             let stripped := slice_from (String.length prefix) candidate in
             if decide (stripped ≠ "" ∧ stripped ∉ variants)
             then variants ++ [stripped] else variants
           else variants)
        [candidate] prefixes.

(** [l.insert(i, x)] and [l.pop(i)] for [0 <= i]. *)
Definition list_insert_at {A} (i : nat) (x : A) (l : list A) : list A :=
  take i l ++ x :: drop i l.

(** The flags of [args] that [process_queue_entries] reads. *)
Record Args : Type := mkArgs {
  skip_base_deps : bool;
  skip_third_party : bool;
  skip_build_deps : bool;
  install_artifacts : bool
}.

(** The runs of [run_build_pipeline] so far: work directory and return
    code. *)
Definition history : Type := list (Path * Z).

(** The variables of the loop of [process_queue_entries], and the runs of
    the build pipeline so far. *)
Record run_state : Type := mkRun {
  entries : list QueueEntry;
  idx : nat;
  built_successfully : list string;
  completed_names : gset string;
  base_deps_installed : bool;
  builds : history
}.

Section queue_run.
(** [DEPENDENCY_SOURCE_PREFIXES] *)
Variable prefixes : list string.
(** The file system: [base / name], [p.resolve()], [p.exists()] and
    [p.is_dir()]. *)
Variable joinpath : Path → string → Path.
Variable resolve : Path → Path.
Variable path_exists : Path → bool.
Variable is_dir : Path → bool.
(** What the commands give that the loop starts, after the builds so far:
    the return code of [run_build_pipeline] for a work directory (and
    [skip_base_deps]), the result of [detect_missing_build_dependencies],
    and that of [install_from_workdir]. *)
Variable run_build_pipeline : history → Path → bool → Z.
Variable detect_missing_build_dependencies : history → Path → list MissingDependency.
Variable install_from_workdir : history → Path → bool.

(** [resolve_dependency_source] *)
Definition resolve_dependency_source (candidate : string) (base_dir : Path)
  : option (string * Path) :=
  (λ name_variant, (name_variant, resolve (joinpath base_dir name_variant)))
    <$> (snd <$> list_find
           (λ name_variant,
              let path := resolve (joinpath base_dir name_variant) in
              path_exists path && is_dir (joinpath path "debian") = true)
           (_strip_known_prefix prefixes candidate)).

(** [for idx in range(current_index + 1, len(entries))]: the first index
    whose entry has one of the names. *)
Definition find_later (entries : list QueueEntry) (current_index : nat)
    (name_variants : list string) : option nat :=
  (λ found, (current_index + 1 + found.1)%nat)
    <$> list_find (λ entry, name entry ∈ name_variants)
                  (drop (current_index + 1) entries).

(** [for candidate in dep.valid_candidates()]: the entries and
    [target_entry] after it. *)
Fixpoint pick_target (entries : list QueueEntry) (base_dir : Path)
    (current_index : nat) (completed : gset string) (candidates : list string)
  : list QueueEntry * option QueueEntry :=
  match candidates with
  | [] => (entries, None)
  | candidate :: candidates =>
    let name_variants := _strip_known_prefix prefixes candidate in
    if decide (Exists (λ name, name ∈ completed) name_variants)
    then pick_target entries base_dir current_index completed candidates
    else
      match find_later entries current_index name_variants with
      | Some existing_index =>
        (delete existing_index entries, entries !! existing_index)
      | None =>
        match resolve_dependency_source candidate base_dir with
        | Some (resolved_name, resolved_path) =>
          (entries, Some (mkEntry resolved_name resolved_path false "debian"))
        | None =>
          pick_target entries base_dir current_index completed candidates
        end
      end
  end.

(** The body of [for dep in selected], on [entries], [inserted] and
    [insertion_offset]. *)
Definition insert_step (base_dir : Path) (current_index : nat)
    (completed : gset string)
    (acc : list QueueEntry * list string * nat) (dep : MissingDependency)
  : list QueueEntry * list string * nat :=
  let '(entries, inserted, insertion_offset) := acc in
  let '(entries, target_entry) :=
    pick_target entries base_dir current_index completed (valid_candidates dep) in
  match target_entry with
  | None => (entries, inserted, insertion_offset)
  | Some target_entry =>
    if decide (name target_entry ∈ inserted)
    then (entries, inserted, insertion_offset)
    else (list_insert_at (current_index + insertion_offset) target_entry entries,
          inserted ++ [name target_entry], S insertion_offset)
  end.

(** [insert_missing_dependencies]: the list [entries] as it is left, and
    the names returned. *)
Definition insert_missing_dependencies (entries : list QueueEntry)
    (selected : list MissingDependency) (base_dir : Path) (current_index : nat)
    (completed : gset string) : list QueueEntry * list string :=
  match selected with
  | [] => (entries, [])
  | _ =>
    let '(entries, inserted, _) :=
      foldl (insert_step base_dir current_index completed) (entries, [], O)
            selected in
    (entries, inserted)
  end.

(** The body of [while idx < len(entries)] in [process_queue_entries]. *)
Definition loop_body (args : Args) (base_dir : Path) (s : run_state)
  : run_state :=
  match entries s !! idx s with
  | None => s
  | Some entry =>
    if negb (path_exists (path entry)) then
      mkRun (entries s) (S (idx s)) (built_successfully s) (completed_names s)
            (base_deps_installed s) (builds s)
    else if negb (is_dir (joinpath (path entry) "debian")) then
      mkRun (entries s) (S (idx s)) (built_successfully s) (completed_names s)
            (base_deps_installed s) (builds s)
    else
      let skip_base := skip_base_deps args || base_deps_installed s in
      let rc := run_build_pipeline (builds s) (path entry) skip_base in
      let builds := builds s ++ [(path entry, rc)] in
      if decide (rc ≠ 0) then
        let missing := detect_missing_build_dependencies builds (path entry) in
        let '(entries, inserted) :=
          insert_missing_dependencies (entries s) missing base_dir (idx s)
                                      (completed_names s) in
        match inserted with
        | _ :: _ =>
          mkRun entries (idx s) (built_successfully s) (completed_names s)
                (base_deps_installed s) builds
        | [] =>
          mkRun entries (S (idx s)) (built_successfully s) (completed_names s)
                (base_deps_installed s) builds
        end
      else
        let base_deps_installed :=
          if negb (base_deps_installed s) && negb (skip_base_deps args)
          then true else base_deps_installed s in
        if install_artifacts args
           && negb (install_from_workdir builds (path entry))
        then
          mkRun (entries s) (S (idx s)) (built_successfully s)
                (completed_names s) base_deps_installed builds
        else
          mkRun (entries s) (S (idx s)) (built_successfully s ++ [name entry])
                ({[name entry]} ∪ completed_names s) base_deps_installed builds
  end.

(** The loop, for at most [fuel] rounds: [None] when they do not
    suffice. *)
Fixpoint process_loop (fuel : nat) (args : Args) (base_dir : Path)
    (s : run_state) : option run_state :=
  if decide (idx s < length (entries s))%nat then
    match fuel with
    | O => None
    | S fuel => process_loop fuel args base_dir (loop_body args base_dir s)
    end
  else Some s.

(** [process_queue_entries]: the names returned and the list [entries] as
    it is left. Marking the packages in the queue file afterwards is left
    out. *)
Definition process_queue_entries (fuel : nat) (entries : list QueueEntry)
    (args : Args) (base_dir : Path) : option (list string * list QueueEntry) :=
  match entries with
  | [] => Some ([], [])
  | _ =>
    (λ s, (built_successfully s, Runner.entries s))
      <$> process_loop fuel args base_dir (mkRun entries O [] ∅ false [])
  end.

End queue_run.

(** *** Commands and the apt/dpkg lock *)

(** What [subprocess.run] returns with [capture_output=True]. *)
Record CompletedProcess : Type := mkProc {
  returncode : Z;
  stdout : string;
  stderr : string
}.

Inductive signal : Type := SIGTERM | SIGKILL.

(** What the runner does to the system: it starts a command
    ([subprocess.run]), makes a directory, sends a signal to a process
    ([os.kill(pid, sig)]), asks whether a process is there
    ([os.kill(pid, 0)]), or sleeps. Messages printed are left out. *)
Inductive event : Type :=
| Run (cmd : list string) (cwd : option Path)
| Mkdir (p : Path)
| Kill (pid : Z) (sig : signal)
| Probe (pid : Z)
| Sleep (seconds : Z).

Definition trace : Type := list event.

(** The settings read from the environment when the module is loaded. *)
Record config : Type := mkConfig {
  AUTO_KILL_LOCK_HOLDERS : bool;
  APT_LOCK_PATH : Path;
  APT_LOCK_TIMEOUT : Z;
  APT_WAIT_FOR_LOCK : bool;
  APT_LOCK_WAIT_TIMEOUT : Z;
  APT_LOCK_WAIT_INTERVAL : Z;
  APT_MAX_RETRIES : Z;
  BROKEN_BUILD_DEPS_PACKAGE : string
}.

(** The system and the library, as far as the runner asks them: each
    answer may depend on what was done so far. A command that cannot be
    started is not modelled: [subprocess.run] always gives a
    [CompletedProcess]. *)
Record world : Type := mkWorld {
  subprocess_run : trace → list string → option Path → CompletedProcess;
  (** [p.mkdir(parents=True, exist_ok=True)]; [false] for [OSError] *)
  mkdir : trace → Path → bool;
  path_parent : Path → Path;
  process_alive : trace → Z → bool;
  getpid : Z;
  getppid : Z;
  time : trace → Z;
  lock_exists : trace → Path → bool;
  (** [re.findall(pattern, text, flags=re.IGNORECASE)] *)
  re_findall : string → string → list string;
  (** [int(s)]; [None] for [ValueError] *)
  int_of_str : string → option Z
}.

(** How a call of [run_with_lock_retries] ends. *)
Inductive outcome : Type :=
| Returned (proc : CompletedProcess)
| CalledProcessError (proc : CompletedProcess)
| UnboundLocalError.

(** A computation that acts on the system: from the trace so far to its
    result and the trace after it, [None] when the rounds allowed for a
    loop do not suffice. *)
Definition M (A : Type) : Type := trace → option (A * trace).

Definition ret {A} (x : A) : M A := λ t, Some (x, t).

Definition bind {A B} (m : M A) (f : A → M B) : M B :=
  λ t, match m t with
       | Some (x, t') => f x t'
       | None => None
       end.

Notation "'do' x <- m ; k" := (bind m (λ x, k))
  (at level 10, x name, m at level 100, k at level 200, only parsing).
Notation "'do' ' ( x , y ) <- m ; k" := (bind m (λ '(x, y), k))
  (at level 10, x name, y name, m at level 100, k at level 200, only parsing).

Definition emit (e : event) : M unit := λ t, Some (tt, t ++ [e]).

Definition ask {A} (f : trace → A) : M A := λ t, Some (f t, t).

Definition out_of_rounds {A} : M A := λ _, None.

(** [subprocess.run(cmd, cwd=cwd, text=True, capture_output=True,
    check=False)] *)
Definition run (w : world) (cmd : list string) (cwd : option Path)
  : M CompletedProcess :=
  λ t, Some (subprocess_run w t cmd cwd, t ++ [Run cmd cwd]).

(** [s.lower()] on ASCII text, [needle in s] and [sep.join(l)]. *)
Definition lower_char (c : ascii) : ascii :=
  let n := nat_of_ascii c in
  if ((65 <=? n) && (n <=? 90))%nat then ascii_of_nat (n + 32) else c.

Fixpoint lower (s : string) : string :=
  match s with
  | EmptyString => EmptyString
  | String c s' => String (lower_char c) (lower s')
  end.

Fixpoint str_in (needle s : string) : bool :=
  startswith_str needle s
  || match s with
     | EmptyString => false
     | String _ s' => str_in needle s'
     end.

Fixpoint join (sep : string) (l : list string) : string :=
  match l with
  | [] => ""
  | [x] => x
  | x :: l' => x +:+ sep +:+ join sep l'
  end.

Definition LOCK_FILES : list Path :=
  ["/var/lib/dpkg/lock-frontend"; "/var/lib/dpkg/lock"].

Definition lock_keywords : list string :=
  ["could not get lock"; "unable to acquire the dpkg frontend lock";
   "is another process using it?"; "is locked by another process";
   "dpkg was interrupted"].

Section lock.
Variable cfg : config.
Variable w : world.

(** [wrap_with_apt_lock]. A [Path] is never false, so that
    [if not APT_LOCK_PATH] is never taken. *)
Definition wrap_with_apt_lock (cmd : list string) (enable : bool)
  : M (list string) :=
  if negb enable then ret cmd
  else
    let parent := path_parent w (APT_LOCK_PATH cfg) in
    do made <- (λ t, Some (mkdir w t parent, t ++ [Mkdir parent]));
    if negb made then ret cmd
    else
      match cmd with
      | "flock" :: _ => ret cmd
      | _ => ret (["flock"; "-w"; pretty (APT_LOCK_TIMEOUT cfg);
                   APT_LOCK_PATH cfg] ++ cmd)
      end.

(** [_extract_lock_pids]: the set of the numbers found, in the order they
    were added. *)
Definition _extract_lock_pids (output : string) : list Z :=
  foldl (λ pids found,
           match int_of_str w found with
           | Some pid => if decide (pid ∈ pids) then pids else pids ++ [pid]
           | None => pids
           end)
        [] (re_findall w "process(?:\\D+)?(\\d+)" output).

(** [_maybe_print_process_details] *)
Definition _maybe_print_process_details (pids : list Z) : M unit :=
  match pids with
  | [] => ret tt
  | _ =>
    do _ <- run w ["ps"; "-p"; join "," (pretty <$> merge_sort Z.le pids);
                   "-o"; "pid,ppid,etimes,cmd"] None;
    ret tt
  end.

(** [_print_related_package_processes] *)
Definition _print_related_package_processes : M unit :=
  do _ <- run w ["ps"; "axo"; "pid,ppid,etimes,cmd"] None;
  ret tt.

(** [_is_process_alive] *)
Definition _is_process_alive (pid : Z) : M bool :=
  λ t, Some (process_alive w t pid, t ++ [Probe pid]).

(** [for pid in list(victims): os.kill(pid, sig)]; a process that is not
    there or may not be signalled is passed over. *)
Fixpoint kill_all (victims : list Z) (sig : signal) : M unit :=
  match victims with
  | [] => ret tt
  | pid :: victims => do _ <- emit (Kill pid sig); kill_all victims sig
  end.

(** [{pid for pid in victims if _is_process_alive(pid)}] *)
Fixpoint still_alive (victims : list Z) : M (list Z) :=
  match victims with
  | [] => ret []
  | pid :: victims =>
    do alive <- _is_process_alive pid;
    do rest <- still_alive victims;
    ret (if alive then pid :: rest else rest)
  end.

(** [_terminate_processes] *)
Definition _terminate_processes (pids : list Z) : M unit :=
  let victims := filter (λ pid, pid ∉ [getpid w; getppid w]) pids in
  match victims with
  | [] => ret tt
  | _ =>
    do _ <- kill_all victims SIGTERM;
    do _ <- emit (Sleep 5);
    do victims <- still_alive victims;
    match victims with
    | [] => ret tt
    | _ =>
      do _ <- kill_all victims SIGKILL;
      do _ <- still_alive victims;
      ret tt
    end
  end.

(** [for lock in LOCK_FILES] in [_wait_for_lock_release]: whether a lock
    file is in use. *)
Fixpoint probe_locks (locks : list Path) : M bool :=
  match locks with
  | [] => ret false
  | lock :: locks =>
    do there <- ask (λ t, lock_exists w t lock);
    if negb there then probe_locks locks
    else
      do proc <- run w ["fuser"; lock] None;
      if returncode proc =? 0 then ret true else probe_locks locks
  end.

(** [while time.time() - start < APT_LOCK_WAIT_TIMEOUT] *)
Fixpoint wait_loop (rounds : nat) (start : Z) : M bool :=
  match rounds with
  | O => out_of_rounds
  | S rounds =>
    do now <- ask (time w);
    if now - start <? APT_LOCK_WAIT_TIMEOUT cfg then
      do busy <- probe_locks LOCK_FILES;
      if negb busy then ret true
      else do _ <- emit (Sleep (APT_LOCK_WAIT_INTERVAL cfg));
           wait_loop rounds start
    else ret false
  end.

(** [_wait_for_lock_release] *)
Definition _wait_for_lock_release (rounds : nat) : M bool :=
  if negb (APT_WAIT_FOR_LOCK cfg) || (APT_LOCK_WAIT_TIMEOUT cfg <=? 0)
  then ret false
  else do start <- ask (time w); wait_loop rounds start.

(** [_fix_dpkg_state] *)
Definition _fix_dpkg_state : M unit :=
  do cmd <- wrap_with_apt_lock ["dpkg"; "--configure"; "-a"] true;
  do _ <- run w cmd None;
  do cmd <- wrap_with_apt_lock ["apt-get"; "-f"; "install"; "-y"] true;
  do _ <- run w cmd None;
  ret tt.

(** [_purge_broken_build_deps] *)
Definition _purge_broken_build_deps : M unit :=
  if decide (BROKEN_BUILD_DEPS_PACKAGE cfg = "") then ret tt
  else
    do cmd <- wrap_with_apt_lock
                ["apt-get"; "remove"; "--purge"; "-y";
                 BROKEN_BUILD_DEPS_PACKAGE cfg] true;
    do _ <- run w cmd None;
    ret tt.

(** [_handle_lock_and_recover]: [(should_retry, consume_attempt)] *)
Definition _handle_lock_and_recover (rounds : nat) (cmd : list string)
    (combined_output : string) : M (bool * bool) :=
  let lower_output := lower combined_output in
  let pids := _extract_lock_pids combined_output in
  let has_lock :=
    negb (bool_decide (pids = []))
    || existsb (λ keyword, str_in keyword lower_output) lock_keywords in
  if negb has_lock then ret (false, false)
  else
    do _ <- _maybe_print_process_details pids;
    do _ <- _print_related_package_processes;
    do released <- _wait_for_lock_release rounds;
    if released then ret (true, false)
    else if negb (AUTO_KILL_LOCK_HOLDERS cfg) then ret (false, false)
    else
      do _ <- _terminate_processes pids;
      do _ <- _fix_dpkg_state;
      do _ <- _purge_broken_build_deps;
      do _ <- _fix_dpkg_state;
      ret (true, true).

(** [while attempts <= effective_max] in [run_with_lock_retries], with
    the variables [attempts] and [proc]; [last_proc] is set only where the
    loop is left by [break]. *)
Fixpoint retry_loop (rounds : nat) (cmd : list string) (cwd : option Path)
    (check : bool) (effective_max : Z) (use_apt_lock : bool)
    (attempts : Z) (proc : option CompletedProcess) : M outcome :=
  match rounds with
  | O => out_of_rounds
  | S rounds' =>
    if attempts <=? effective_max then
      do effective_cmd <- wrap_with_apt_lock cmd use_apt_lock;
      do proc <- run w effective_cmd cwd;
      if returncode proc =? 0 then ret (Returned proc)
      else
        let combined := stdout proc +:+ "\\n" +:+ stderr proc in
        do '(should_retry, consume_attempt) <-
          _handle_lock_and_recover rounds' cmd combined;
        if (attempts <? effective_max) && should_retry then
          retry_loop rounds' cmd cwd check effective_max use_apt_lock
                     (if consume_attempt then attempts + 1 else attempts)
                     (Some proc)
        else ret (if check then CalledProcessError proc else Returned proc)
    else
      ret (match proc with
           | Some proc => Returned proc
           | None => UnboundLocalError
           end)
  end.

(** [run_with_lock_retries] *)
Definition run_with_lock_retries (rounds : nat) (cmd : list string)
    (cwd : option Path) (check : bool) (max_retries : option Z)
    (use_apt_lock : bool) : M outcome :=
  let effective_max := default (APT_MAX_RETRIES cfg) max_retries in
  retry_loop rounds cmd cwd check effective_max use_apt_lock 0 None.

End lock.

(** *** A work space with the packages [X], [Y], [bar] and [foo] *)

Definition plain_join (base : Path) (name : string) : Path :=
  base +:+ "/" +:+ name.

Definition work_space (p : Path) : bool :=
  bool_decide (p ∈ ["/ws/X"; "/ws/X/debian"; "/ws/Y"; "/ws/Y/debian";
                    "/ws/bar"; "/ws/bar/debian"; "/ws/foo"; "/ws/foo/debian"]).

Definition entry_X : QueueEntry := mkEntry "X" "/ws/X" false "debian".
Definition entry_Y : QueueEntry := mkEntry "Y" "/ws/Y" false "debian".
Definition entry_bar : QueueEntry := mkEntry "bar" "/ws/bar" false "debian".

Definition no_flags : Args := mkArgs false false false false.

(** The build of [X] fails, the others succeed; [X] misses [bar], then
    [libfoo-dev | foo], then [foo]. *)
Definition only_X_fails (h : history) (work_dir : Path) (skip_base : bool) : Z :=
  if decide (work_dir = "/ws/X") then 1 else 0.

Definition X_misses_three (h : history) (work_dir : Path)
  : list MissingDependency :=
  if decide (work_dir = "/ws/X")
  then [mkDep "bar" ["bar"]; mkDep "libfoo-dev | foo" ["libfoo-dev"; "foo"];
        mkDep "foo" ["foo"]]
  else [].

(** Every build fails; [X] misses [Y], and [Y] misses nothing. *)
Definition all_fail (h : history) (work_dir : Path) (skip_base : bool) : Z := 1.

Definition X_misses_Y (h : history) (work_dir : Path) : list MissingDependency :=
  if decide (work_dir = "/ws/X") then [mkDep "Y" ["Y"]] else [].

(** [n] rounds of the loop. *)
Definition rounds (run_build_pipeline : history → Path → bool → Z)
    (detect : history → Path → list MissingDependency) (n : nat)
    (s : run_state) : run_state :=
  Nat.iter n (loop_body ["agiros-pixiu-"] plain_join id work_space work_space
                        run_build_pipeline detect (λ _ _, true)
                        no_flags "/ws") s.

(** C3 fails on the queue [X] in that work space, when the build of [X]
    misses [bar], [libfoo-dev | foo] and [foo]: the names returned by
    [insert_missing_dependencies] are [bar] and [foo], but the queue is
    left as [bar], [X], without an entry for [foo]; and the first three
    builds are those of [X], of [bar] and of [X] again, which is retried
    before [foo] was built. *)
Theorem inserted_dependency_dropped :
  insert_missing_dependencies ["agiros-pixiu-"] plain_join id work_space
    work_space [entry_X] (X_misses_three [] "/ws/X") "/ws" 0 ∅
  = ([entry_bar; entry_X], ["bar"; "foo"])
  ∧ builds (rounds only_X_fails X_misses_three 3
              (mkRun [entry_X] 0 [] ∅ false []))
    = [("/ws/X", 1); ("/ws/bar", 0); ("/ws/X", 1)].
Proof. split; vm_compute; reflexivity. Qed.

(** *** One missing dependency with a local source directory *)

Section one_dependency.
Variable prefixes : list string.
Variable joinpath : Path → string → Path.
Variable resolve : Path → Path.
Variable path_exists : Path → bool.
Variable is_dir : Path → bool.
Variable run_build_pipeline : history → Path → bool → Z.
Variable detect_missing_build_dependencies : history → Path → list MissingDependency.
Variable install_from_workdir : history → Path → bool.
Variable args : Args.
Variable base_dir : Path.

#[local] Abbreviation body :=
  (loop_body prefixes joinpath resolve path_exists is_dir run_build_pipeline
             detect_missing_build_dependencies install_from_workdir args base_dir).

(** The build of [X] fails and misses one dependency, whose only candidate
    was not completed, is no later entry of the queue, and has a source
    directory: an entry for it is put before [X], and the loop goes on
    with that entry. *)
Lemma failed_build_inserts_dependency s before X after dep candidate n p :
  entries s = before ++ X :: after → idx s = length before →
  path_exists (path X) = true → is_dir (joinpath (path X) "debian") = true →
  let rc := run_build_pipeline (builds s) (path X)
              (skip_base_deps args || base_deps_installed s) in
  rc ≠ 0 →
  detect_missing_build_dependencies (builds s ++ [(path X, rc)]) (path X) = [dep] →
  valid_candidates dep = [candidate] →
  ¬ Exists (λ name, name ∈ completed_names s)
           (_strip_known_prefix prefixes candidate) →
  (∀ e, e ∈ after → name e ∉ _strip_known_prefix prefixes candidate) →
  resolve_dependency_source prefixes joinpath resolve path_exists is_dir
                            candidate base_dir = Some (n, p) →
  body s = mkRun (before ++ mkEntry n p false "debian" :: X :: after) (idx s)
                 (built_successfully s) (completed_names s)
                 (base_deps_installed s) (builds s ++ [(path X, rc)]).
Proof.
  intros Hentries Hidx Hexists Hdir rc Hrc Hmissing Hcand Hdone Hlater Hsource.
  unfold loop_body. rewrite Hentries, Hidx.
  rewrite list_lookup_middle by done. rewrite Hexists, Hdir. cbn [negb].
  fold rc. rewrite decide_True by done. rewrite Hmissing.
  unfold insert_missing_dependencies. cbn [foldl]. unfold insert_step.
  rewrite Hcand. cbn [pick_target]. rewrite decide_False by done.
  assert (find_later (before ++ X :: after) (length before)
                     (_strip_known_prefix prefixes candidate) = None) as ->.
  { unfold find_later.
    replace (length before + 1)%nat with (length (before ++ [X]))
      by (rewrite length_app; simpl; lia).
    rewrite (cons_middle X before after), app_assoc, drop_app_length.
    assert (list_find (λ entry, name entry ∈ _strip_known_prefix prefixes candidate)
                      after = None) as ->; [|done].
    apply list_find_None, Forall_forall. intros e He. by apply Hlater. }
  rewrite Hsource. rewrite decide_False by apply not_elem_of_nil.
  unfold list_insert_at. rewrite Nat.add_0_r.
  by rewrite take_app_length, drop_app_length.
Qed.

(** A build that succeeds, and whose artifacts are installed when that
    is asked for, completes its entry, and the loop goes on with the next
    one. *)
Lemma successful_build_completes s entry :
  entries s !! idx s = Some entry →
  path_exists (path entry) = true →
  is_dir (joinpath (path entry) "debian") = true →
  let rc := run_build_pipeline (builds s) (path entry)
              (skip_base_deps args || base_deps_installed s) in
  rc = 0 →
  (install_artifacts args = true →
   install_from_workdir (builds s ++ [(path entry, rc)]) (path entry) = true) →
  entries (body s) = entries s
  ∧ idx (body s) = S (idx s)
  ∧ built_successfully (body s) = built_successfully s ++ [name entry]
  ∧ completed_names (body s) = {[name entry]} ∪ completed_names s.
Proof.
  intros Hentry Hexists Hdir rc Hrc Hinstall. unfold loop_body.
  rewrite Hentry, Hexists, Hdir. cbn [negb]. fold rc.
  destruct (decide (rc ≠ 0)) as [Hne|_]; [done|].
  destruct (install_artifacts args) eqn:Ei; [|done].
  by rewrite (Hinstall eq_refl).
Qed.

End one_dependency.

(** *** A dependency whose build fails *)

Definition failing_body : run_state → run_state :=
  loop_body ["agiros-pixiu-"] plain_join id work_space work_space
            all_fail X_misses_Y (λ _ _, true) no_flags "/ws".

Lemma replicate_snoc {A} (n : nat) (x : A) :
  replicate n x ++ [x] = x :: replicate n x.
Proof. induction n as [|n IH]; [done|]. simpl. by rewrite IH. Qed.

(** The retry of [X] puts a new entry for [Y] before it. *)
Lemma failing_body_X n h :
  failing_body (mkRun (replicate n entry_Y ++ [entry_X]) n [] ∅ false h)
  = mkRun (replicate (S n) entry_Y ++ [entry_X]) n [] ∅ false
          (h ++ [("/ws/X", 1)]).
Proof.
  assert (length (replicate n entry_Y) = n) as Hlen by apply length_replicate.
  unfold failing_body.
  rewrite (failed_build_inserts_dependency _ _ _ _ _ _ _ _ _ _
             (mkRun (replicate n entry_Y ++ [entry_X]) n [] ∅ false h)
             (replicate n entry_Y) entry_X [] (mkDep "Y" ["Y"]) "Y" "Y" "/ws/Y");
    try done.
  - cbn [idx entries built_successfully completed_names base_deps_installed builds].
    f_equal. change (mkEntry "Y" "/ws/Y" false "debian") with entry_Y.
    by rewrite (cons_middle entry_Y), app_assoc, replicate_snoc.
  - intros [name [_ Hin]]%Exists_exists. set_solver.
  - by intros e ?%elem_of_nil.
Qed.

(** The build of [Y] fails with nothing to insert: the loop goes on to
    [X]. *)
Lemma failing_body_Y n h :
  failing_body (mkRun (replicate (S n) entry_Y ++ [entry_X]) n [] ∅ false h)
  = mkRun (replicate (S n) entry_Y ++ [entry_X]) (S n) [] ∅ false
          (h ++ [("/ws/Y", 1)]).
Proof.
  unfold failing_body, loop_body. cbn [entries idx].
  assert ((replicate (S n) entry_Y ++ [entry_X]) !! n = Some entry_Y) as ->.
  { rewrite lookup_app_l by (rewrite length_replicate; lia).
    apply lookup_replicate_2. lia. }
  reflexivity.
Qed.

(** C4 fails on the queue [X] when [X] misses [Y], [Y] has a source
    directory and every build fails: the loop of [process_queue_entries]
    builds [X] and [Y] in turn for ever, with one more entry for [Y] in the
    queue each time; no number of rounds ends it. *)
Theorem failing_dependency_retried_for_ever fuel :
  process_queue_entries ["agiros-pixiu-"] plain_join id work_space work_space
    all_fail X_misses_Y (λ _ _, true) fuel [entry_X] no_flags "/ws"
  = None.
Proof.
  unfold process_queue_entries.
  assert (∀ fuel n h,
            process_loop ["agiros-pixiu-"] plain_join id work_space work_space
              all_fail X_misses_Y (λ _ _, true) fuel no_flags "/ws"
              (mkRun (replicate n entry_Y ++ [entry_X]) n [] ∅ false h) = None
            ∧ process_loop ["agiros-pixiu-"] plain_join id work_space work_space
                all_fail X_misses_Y (λ _ _, true) fuel no_flags "/ws"
                (mkRun (replicate (S n) entry_Y ++ [entry_X]) n [] ∅ false h)
              = None) as Hloop.
  { clear fuel. induction fuel as [|fuel IH]; intros n h.
    - cbn [process_loop entries idx]. rewrite !length_app, !length_replicate.
      cbn [length]. rewrite !decide_True by lia. done.
    - cbn [process_loop]. cbn [entries idx].
      rewrite !length_app, !length_replicate. cbn [length].
      rewrite !decide_True by lia. fold failing_body.
      rewrite failing_body_X, failing_body_Y. split.
      + apply IH.
      + apply (IH (S n)). }
  pose proof (proj1 (Hloop fuel O [])) as Hnone.
  change (replicate 0 entry_Y ++ [entry_X]) with [entry_X] in Hnone.
  by rewrite Hnone.
Qed.

(** *** A failing command without recovery *)

(** A run of [ps], which the runner starts to describe processes. *)
Definition is_ps (e : event) : Prop := ∃ args, e = Run ("ps" :: args) None.

(** With auto-kill and waiting disabled [_handle_lock_and_recover] asks
    for no retry, and does no more than describe processes. *)
Lemma handle_lock_without_recovery cfg w rounds cmd combined_output t :
  AUTO_KILL_LOCK_HOLDERS cfg = false → APT_WAIT_FOR_LOCK cfg = false →
  ∃ diagnostics,
    _handle_lock_and_recover cfg w rounds cmd combined_output t
    = Some ((false, false), t ++ diagnostics)
    ∧ Forall is_ps diagnostics.
Proof.
  intros Hkill Hwait. unfold _handle_lock_and_recover.
  destruct (negb _ || existsb _ _).
  - cbn [negb]. unfold _wait_for_lock_release, _print_related_package_processes.
    rewrite Hwait, Hkill. cbn [negb orb].
    unfold _maybe_print_process_details.
    destruct (_extract_lock_pids w combined_output) as [|pid pids].
    + eexists [_]. split; [reflexivity|].
      repeat constructor. by eexists.
    + eexists [_; _]. split.
      * unfold bind, run, ret. rewrite <- app_assoc. reflexivity.
      * repeat constructor; by eexists.
  - exists []. split; [|constructor]. cbn [negb]. unfold ret.
    by rewrite app_nil_r.
Qed.

(** C10. With auto-kill and waiting for the lock disabled, a command that
    fails is run once by [run_with_lock_retries], whatever its output says
    about a lock: the failure of that run is what the caller gets, raised
    as [CalledProcessError] with [check] and returned without it, and
    after the command nothing is done but runs of [ps] that describe
    processes: no signal is sent, and nothing is repaired or retried. *)
Theorem lock_failure_is_returned cfg w rounds cmd cwd check max_retries
    use_apt_lock t effective_cmd t1 :
  AUTO_KILL_LOCK_HOLDERS cfg = false →
  APT_WAIT_FOR_LOCK cfg = false →
  0 ≤ default (APT_MAX_RETRIES cfg) max_retries →
  wrap_with_apt_lock cfg w cmd use_apt_lock t = Some (effective_cmd, t1) →
  returncode (subprocess_run w t1 effective_cmd cwd) ≠ 0 →
  ∃ diagnostics,
    run_with_lock_retries cfg w (S rounds) cmd cwd check max_retries
                          use_apt_lock t
    = Some (let proc := subprocess_run w t1 effective_cmd cwd in
            if check then CalledProcessError proc else Returned proc,
            t1 ++ Run effective_cmd cwd :: diagnostics)
    ∧ Forall is_ps diagnostics
    ∧ ∀ pid sig, Kill pid sig ∉ Run effective_cmd cwd :: diagnostics.
Proof.
  intros Hkill Hwait Hmax Hwrap Hrc.
  unfold run_with_lock_retries. cbn [retry_loop].
  rewrite (proj2 (Z.leb_le 0 _) Hmax). unfold bind at 1. rewrite Hwrap.
  unfold bind at 1, run at 1.
  rewrite (proj2 (Z.eqb_neq _ 0) Hrc).
  set (proc := subprocess_run w t1 effective_cmd cwd).
  destruct (handle_lock_without_recovery cfg w rounds cmd
              (stdout proc +:+ "\\n" +:+ stderr proc)
              (t1 ++ [Run effective_cmd cwd]) Hkill Hwait)
    as (diagnostics & Hhandle & Hps).
  exists diagnostics. split; [|split; [done|]].
  - unfold bind. rewrite Hhandle. rewrite andb_false_r. unfold ret.
    by rewrite <- app_assoc.
  - intros pid sig [Heq|Hin]%elem_of_cons; [done|].
    rewrite Forall_forall in Hps. by destruct (Hps _ Hin) as [args ?].
Qed.

(** A run without auto-kill and without waiting, in which [apt-get] fails
    because process 1234 holds the lock. *)
Definition no_recovery : config :=
  mkConfig false "/mnt/lfb_ws/.locks/apt.lock" 3600 false 600 5 3
           "agiros-pixiu-canopen-core-build-deps".

Definition lock_held_message : string :=
  "E: Could not get lock /var/lib/dpkg/lock-frontend. It is held by process 1234 (apt-get)".

(** In that world every command but [ps] fails with the message;
    [re.findall] finds nothing, as the pattern asks for a backslash. *)
Definition lock_held : world :=
  mkWorld (λ _ cmd _, match cmd with
                      | "ps" :: _ => mkProc 0 "" ""
                      | _ => mkProc 100 "" lock_held_message
                      end)
          (λ _ _, true) (λ p, p) (λ _ _, true) 1 0 (λ _, 0) (λ _ _, true)
          (λ _ _, []) (λ _, None).

Lemma lock_failure_is_returned_witness :
  ∃ diagnostics,
    run_with_lock_retries no_recovery lock_held 1
      ["apt-get"; "install"; "-y"; "foo"] None true None false []
    = Some (let proc := subprocess_run lock_held []
                          ["apt-get"; "install"; "-y"; "foo"] None in
            if true then CalledProcessError proc else Returned proc,
            [] ++ Run ["apt-get"; "install"; "-y"; "foo"] None :: diagnostics)
    ∧ Forall is_ps diagnostics
    ∧ ∀ pid sig,
        Kill pid sig ∉ Run ["apt-get"; "install"; "-y"; "foo"] None :: diagnostics.
Proof.
  apply (lock_failure_is_returned no_recovery lock_held 0
           ["apt-get"; "install"; "-y"; "foo"] None true None false []
           ["apt-get"; "install"; "-y"; "foo"] []).
  - reflexivity.
  - reflexivity.
  - simpl. lia.
  - reflexivity.
  - simpl. lia.
Defined.

(** *** The queue file *)

(** The lines a text file yields when it is iterated: the text is cut
    after each line end, and a line end (line feed, carriage return, or
    both) is read as a line feed. *)
Fixpoint readlines (s : string) : list string :=
  match s with
  | EmptyString => []
  | String c s' =>
    if char_eqb c "010" then String "010" EmptyString :: readlines s'
    else if char_eqb c "013" then
      match s' with
      | String c' s'' =>
        if char_eqb c' "010" then String "010" EmptyString :: readlines s''
        else String "010" EmptyString :: readlines s'
      | EmptyString => [String "010" EmptyString]
      end
    else match readlines s' with
         | l :: ls => String c l :: ls
         | [] => [String c EmptyString]
         end
  end.

(** [s.rstrip(c)] for one character [c]. *)
Fixpoint rstrip_char (c : ascii) (s : string) : string :=
  match s with
  | EmptyString => EmptyString
  | String a s' =>
    match rstrip_char c s' with
    | EmptyString => if char_eqb a c then EmptyString else String a EmptyString
    | r => String a r
    end
  end.

(** How [mark_completed] ends: it returns at once, writes the file, or
    raises. *)
Inductive marked : Type :=
| Unchanged
| Written (text : string)
| FileNotFoundError
| TypeError.

Section queue_file.
(** [json.loads] on a text, [None] for [JSONDecodeError]; [json.dumps];
    [str(v)] for a list or a dict. *)
Variable json_loads : string → option Menu.json.
Variable json_dumps : Menu.json → string.
Variable repr_container : Menu.json → string.
(** [base / name] and [p.is_absolute()]. *)
Variable joinpath : Path → string → Path.
Variable is_absolute : Path → bool.

(** [a or b] *)
Definition py_or (a b : Menu.json) : Menu.json :=
  if Menu.truthy a then a else b.

(** [parse_queue_line] *)
Definition parse_queue_line (line : string) (base_dir : Path)
  : option QueueEntry :=
  let stripped := strip line in
  if decide (stripped = "") then None
  else
    let parsed :=
      if startswith "{" stripped && endswith "}" stripped
      then json_loads stripped else None in
    let fields : option (string * option Path * bool * string) :=
      match parsed with
      | Some (Menu.JObj ((_ :: _) as parsed)) =>
        let get k := default Menu.JNull (Menu.dict_get parsed k) in
        let pkg_name :=
          strip (Menu.py_str repr_container
                   (py_or (get "name")
                          (py_or (get "display_name") (Menu.JStr "")))) in
        if decide (pkg_name = "") then None
        else
          let kind :=
            lower (Menu.py_str repr_container
                     (default (Menu.JStr "debian")
                              (Menu.dict_get parsed "kind"))) in
          if decide (kind ∉ ["debian"; "gbp"]) then None
          else
            let completed :=
              Menu.truthy (default (Menu.JBool false)
                                   (Menu.dict_get parsed "completed")) in
            let pkg_path :=
              match Menu.dict_get parsed "path" with
              | Some (Menu.JStr path_hint) =>
                if decide (strip path_hint = "") then None
                else Some (strip path_hint)
              | _ => None
              end in
            Some (pkg_name, pkg_path, completed, kind)
      | _ =>
        let completed := endswith "#" stripped in
        let stripped :=
          if completed then strip (drop_last stripped) else stripped in
        if decide (stripped = "") then None
        else Some (Menu.path_name stripped, None, completed, "debian")
      end in
    match fields with
    | None => None
    | Some (pkg_name, pkg_path, completed, kind) =>
      if decide (pkg_name = "") then None
      else
        let pkg_path := default (joinpath base_dir pkg_name) pkg_path in
        let pkg_path :=
          if is_absolute pkg_path then pkg_path
          else joinpath base_dir pkg_path in
        Some (mkEntry pkg_name pkg_path completed kind)
    end.

(** [load_queue], for the text of the queue file ([None] when there is no
    file): [None] is [SystemExit]. *)
Definition load_queue (queue_file : option string) (base_dir : Path)
    (include_completed : bool) : option (list QueueEntry) :=
  match queue_file with
  | None => None
  | Some text =>
    Some (foldl (λ entries raw_line,
                   match parse_queue_line raw_line base_dir with
                   | None => entries
                   | Some entry =>
                     if decide (kind entry ≠ "debian") then entries
                     else if completed entry && negb include_completed
                          then entries
                          else entries ++ [entry]
                   end)
                [] (readlines text))
  end.

(** The body of [for raw_line in handle] in [mark_completed]: the line to
    write, [None] for [TypeError]. *)
Definition mark_line (completed : list string) (base_dir : Path)
    (raw_line : string) : option string :=
  let stripped := rstrip_char "010" raw_line in
  match parse_queue_line stripped base_dir with
  | None => Some stripped
  | Some entry =>
    if decide (name entry ∉ completed) then Some stripped
    else if startswith "{" (strip stripped) then
      match json_loads (strip stripped) with
      | None => Some stripped
      | Some (Menu.JObj data) =>
        Some (json_dumps (Menu.JObj (Menu.dict_set data "completed"
                                                   (Menu.JBool true))))
      | Some _ => None
      end
    else Some (strip (rstrip_char "#" stripped) +:+ "#")
  end.

(** [mark_completed], on the text of the queue file. *)
Definition mark_completed (queue_file : option string)
    (completed : list string) (base_dir : Path) : marked :=
  match completed with
  | [] => Unchanged
  | _ =>
    match queue_file with
    | None => FileNotFoundError
    | Some text =>
      match mapM (mark_line completed base_dir) (readlines text) with
      | None => TypeError
      | Some lines => Written (join (String "010" EmptyString) lines
                               +:+ String "010" EmptyString)
      end
    end
  end.

End queue_file.

(** *** Facts about lines *)

Lemma rstrip_snoc_space s c : isspace c = true → rstrip (s +:+ String c "") = rstrip s.
Proof.
  intros Hc. induction s as [|a s IH]; simpl; [by rewrite Hc|].
  by rewrite IH.
Qed.

Lemma strip_line s :
  s ≠ "" → strip s = s → strip (s +:+ String "010" "") = s.
Proof.
  intros Hs Hfix. pose proof (strip_fixed s Hfix) as [Hl Hr].
  unfold strip. rewrite lstrip_app by done. by rewrite rstrip_snoc_space.
Qed.

Lemma startswith_app c s x : s ≠ "" → startswith c (s +:+ x) = startswith c s.
Proof. by destruct s. Qed.

Lemma rstrip_char_snoc c s : rstrip_char c (s +:+ String c "") = rstrip_char c s.
Proof.
  induction s as [|a s IH]; simpl.
  - unfold char_eqb. by rewrite Ascii.eqb_refl.
  - by rewrite IH.
Qed.

Lemma rstrip_char_fixed c s : endswith c s = false → rstrip_char c s = s.
Proof.
  induction s as [|a s IH]; [done|]. simpl.
  destruct s as [|b s].
  - simpl. by intros ->.
  - intros H. rewrite (IH H). done.
Qed.

Lemma endswith_contains c s : endswith c s = true → contains_char c s = true.
Proof.
  induction s as [|a s IH]; [done|]. simpl. destruct s as [|b s].
  - intros ->. done.
  - intros H. rewrite (IH H). apply orb_true_r.
Qed.

Lemma readlines_line l rest :
  Menu.one_line l →
  readlines (l +:+ String "010" rest) = (l +:+ String "010" "") :: readlines rest.
Proof.
  unfold Menu.one_line. induction l as [|c l IH]; [done|].
  rewrite !Menu.append_cons. simpl. rewrite !orb_false_iff.
  intros [[Hc1 H1] [Hc2 H2]]. rewrite Hc1, Hc2. by rewrite IH.
Qed.

Lemma readlines_written packages status :
  (∀ n, n ∈ packages → Menu.one_line n) →
  readlines (Menu._write_queue_file packages status)
  = (λ n, Menu.queue_line status n +:+ String "010" "") <$> packages.
Proof.
  induction packages as [|pkg packages IH]; intros Hone; [done|].
  rewrite fmap_cons. rewrite <- IH by (intros; apply Hone; by right).
  unfold Menu.queue_line. cbn [Menu._write_queue_file foldr].
  rewrite Menu.append_assoc. apply readlines_line.
  apply Menu.one_line_app; [apply Hone; left|]. by destruct (default _ _).
Qed.

(** A package name that a line of the queue file stores as it is, for the
    runner: not empty, no white space around it, on one line, no [#] at
    its end, no brace at its start, the name of a directory, and in
    ASCII. *)
Definition queue_name (n : string) : Prop :=
  n ≠ "" ∧ strip n = n ∧ Menu.one_line n ∧ endswith "#" n = false
  ∧ startswith "{" n = false ∧ Menu.path_name n = n ∧ isascii n = true.

Section queue_file_facts.
Variable json_loads : string → option Menu.json.
Variable json_dumps : Menu.json → string.
Variable repr_container : Menu.json → string.
Variable joinpath : Path → string → Path.
Variable is_absolute : Path → bool.

(** The entry [parse_queue_line] makes for the package [n] with the flag
    [flag]. *)
Definition entry_of (base_dir : Path) (n : string) (flag : bool) : QueueEntry :=
  mkEntry n
          (let p := joinpath base_dir n in
           if is_absolute p then p else joinpath base_dir p)
          flag "debian".

Lemma parse_plain base_dir n (flag : bool) :
  queue_name n →
  parse_queue_line json_loads repr_container joinpath is_absolute
                   (n +:+ (if flag then "#" else "")) base_dir
  = Some (entry_of base_dir n flag).
Proof.
  intros (Hne & Hstrip & Hone & Hhash & Hbrace & Hname & _).
  unfold parse_queue_line.
  assert (strip (n +:+ (if flag then "#" else ""))
          = n +:+ (if flag then "#" else "")) as ->.
  { destruct flag; [by apply strip_snoc|by rewrite Menu.append_nil_r]. }
  rewrite decide_False by (destruct n; [done|by destruct flag]).
  rewrite startswith_app, Hbrace by done. cbn [andb].
  destruct flag.
  - rewrite endswith_snoc, drop_last_snoc, Hstrip, decide_False by done.
    rewrite Hname, decide_False by done. done.
  - rewrite Menu.append_nil_r, Hhash, decide_False by done.
    rewrite Hname, decide_False by done. done.
Qed.

Lemma parse_plain_line base_dir n (flag : bool) :
  queue_name n →
  parse_queue_line json_loads repr_container joinpath is_absolute
                   ((n +:+ (if flag then "#" else "")) +:+ String "010" "")
                   base_dir
  = Some (entry_of base_dir n flag).
Proof.
  intros Hn. rewrite <- (parse_plain base_dir n flag Hn).
  destruct Hn as (Hne & Hstrip & _).
  unfold parse_queue_line. rewrite strip_line; [| |].
  - assert (strip (n +:+ (if flag then "#" else ""))
            = n +:+ (if flag then "#" else "")) as ->; [|done].
    destruct flag; [by apply strip_snoc|by rewrite Menu.append_nil_r].
  - destruct n; [done|by destruct flag].
  - destruct flag; [by apply strip_snoc|by rewrite Menu.append_nil_r].
Qed.

End queue_file_facts.

(** X14. [load_queue] reads what [_write_queue_file] of the menu wrote: for
    packages with names in ASCII that a line stores as they are, it
    returns one entry of kind [debian] for each package, in the order of
    the package list, with the flag of the package; the packages flagged
    as completed are left out unless [include_completed] is set. *)
Theorem load_queue_reads_written json_loads repr_container joinpath is_absolute
    packages status base_dir include_completed :
  (∀ n, n ∈ packages → queue_name n) →
  load_queue json_loads repr_container joinpath is_absolute
             (Some (Menu._write_queue_file packages status))
             base_dir include_completed
  = Some ((λ n, entry_of joinpath is_absolute base_dir n
                         (default false (status !! n)))
            <$> filter (λ n, include_completed = true
                             ∨ default false (status !! n) = false)
                       packages).
Proof.
  intros Hnames. unfold load_queue. f_equal.
  rewrite readlines_written by (intros n Hn; apply (Hnames n Hn)).
  set (step := λ (entries : list QueueEntry) (raw_line : string), _).
  set (want := λ n : string, include_completed = true
                             ∨ default false (status !! n) = false).
  assert (∀ l acc,
            (∀ n, n ∈ l → queue_name n) →
            foldl step acc
                  ((λ n, Menu.queue_line status n +:+ String "010" "") <$> l)
            = acc ++ ((λ n, entry_of joinpath is_absolute base_dir n
                                     (default false (status !! n)))
                        <$> filter want l)) as H.
  { induction l as [|n l IH]; intros acc Hl.
    { simpl. by rewrite app_nil_r. }
    rewrite fmap_cons. cbn [foldl]. rewrite IH by (intros; apply Hl; by right).
    unfold step. unfold Menu.queue_line.
    rewrite (parse_plain_line json_loads repr_container joinpath is_absolute
               base_dir n (default false (status !! n)))
      by (apply Hl; left).
    cbn [kind completed entry_of]. rewrite decide_False by (by intros []).
    rewrite filter_cons.
    destruct (decide (want n)) as [Hw|Hw]; unfold want in Hw.
    - assert (default false (status !! n) && negb include_completed = false)
        as -> by (destruct Hw as [-> | ->]; [apply andb_false_r|done]).
      by rewrite fmap_cons, <- app_assoc.
    - assert (default false (status !! n) && negb include_completed = true)
        as ->; [|done].
      destruct (default false (status !! n)), include_completed; try done;
        destruct Hw; by (left + right). }
  by rewrite H.
Qed.

Lemma flags_set_lookup (status : gmap string bool) (completed : list string) n :
  default false (foldl (λ st n, <[n := true]> st) status completed !! n)
  = default false (status !! n) || bool_decide (n ∈ completed).
Proof.
  revert status. induction completed as [|c completed IH]; intros status.
  { simpl. by rewrite orb_false_r. }
  cbn [foldl]. rewrite IH. destruct (decide (c = n)) as [->|Hne].
  - rewrite lookup_insert_eq. cbn [default].
    rewrite (bool_decide_true (n ∈ n :: completed)) by left.
    by rewrite orb_true_r.
  - rewrite lookup_insert_ne by done. f_equal.
    apply bool_decide_ext. rewrite elem_of_cons. naive_solver.
Qed.

Lemma join_lines (ls : list string) :
  ls ≠ [] →
  join (String "010" "") ls +:+ String "010" ""
  = foldr (λ x rest, x +:+ String "010" rest) "" ls.
Proof.
  induction ls as [|x ls IH]; [done|]. intros _.
  destruct ls as [|y ls]; [done|].
  change (join (String "010" "") (x :: y :: ls))
    with (x +:+ String "010" "" +:+ join (String "010" "") (y :: ls)).
  set (g := λ x rest : string, x +:+ String "010" rest) in *.
  change (foldr g "" (x :: y :: ls)) with (g x (foldr g "" (y :: ls))).
  rewrite <- IH by done. unfold g.
  by rewrite <- !Menu.append_assoc.
Qed.

(** [mark_completed] on what [_write_queue_file] wrote, with flags
    [status'] that are those after marking. *)
Lemma mark_completed_written json_loads json_dumps repr_container
    joinpath is_absolute packages status status' completed base_dir :
  (∀ n, n ∈ packages → queue_name n) →
  completed ≠ [] →
  (∀ n, n ∈ packages →
        default false (status' !! n)
        = default false (status !! n) || bool_decide (n ∈ completed)) →
  mark_completed json_loads json_dumps repr_container joinpath is_absolute
                 (Some (Menu._write_queue_file packages status))
                 completed base_dir
  = Written (if decide (packages = []) then String "010" ""
             else Menu._write_queue_file packages status').
Proof.
  intros Hnames Hc Hflags. unfold mark_completed.
  destruct completed as [|c0 completed0]; [done|].
  set (completed := c0 :: completed0) in *.
  rewrite readlines_written by (intros n Hn; apply (Hnames n Hn)).
  assert (∀ l, (∀ n, n ∈ l → n ∈ packages) →
               mapM (mark_line json_loads json_dumps repr_container joinpath
                               is_absolute completed base_dir)
                    ((λ n, Menu.queue_line status n +:+ String "010" "") <$> l)
               = Some (Menu.queue_line status' <$> l)) as H.
  { induction l as [|n l IH]; intros Hl; [done|].
    rewrite !fmap_cons. cbn [mapM]. rewrite IH by (intros; apply Hl; by right).
    pose proof (Hnames n (Hl n ltac:(left))) as Hn.
    pose proof Hn as (Hne & Hstrip & Hone & Hhash & Hbrace & Hname & _).
    assert (mark_line json_loads json_dumps repr_container joinpath is_absolute
                      completed base_dir
                      (Menu.queue_line status n +:+ String "010" "")
            = Some (Menu.queue_line status' n)) as ->; [|done].
    unfold mark_line, Menu.queue_line.
    rewrite (Hflags n) by (apply Hl; left).
    set (flag := default false (status !! n)).
    assert (Menu.one_line (n +:+ (if flag then "#" else ""))) as Hone'.
    { apply Menu.one_line_app; [done|by destruct flag]. }
    rewrite rstrip_char_snoc, rstrip_char_fixed.
    2:{ destruct (endswith "010" _) eqn:E; [|done].
        apply endswith_contains in E. destruct Hone' as [Hlf _]. congruence. }
    rewrite (parse_plain json_loads repr_container joinpath is_absolute
               base_dir n flag Hn).
    cbn [name entry_of].
    assert (strip (n +:+ (if flag then "#" else ""))
            = n +:+ (if flag then "#" else "")) as Hfix.
    { destruct flag; [by apply strip_snoc|by rewrite Menu.append_nil_r]. }
    case_decide as Hin.
    - rewrite bool_decide_false, orb_false_r by done. done.
    - assert (n ∈ completed) as Hin'
        by (destruct (decide (n ∈ completed)) as [|Hn']; [|exfalso]; auto).
      rewrite bool_decide_true, orb_true_r by done.
      rewrite Hfix, startswith_app, Hbrace by done.
      assert (rstrip_char "#" (n +:+ (if flag then "#" else "")) = n) as ->.
      { destruct flag.
        - rewrite rstrip_char_snoc. by apply rstrip_char_fixed.
        - rewrite Menu.append_nil_r. by apply rstrip_char_fixed. }
      by rewrite Hstrip. }
  rewrite H by done. f_equal. case_decide as Hp.
  - by rewrite Hp.
  - rewrite join_lines by (by destruct packages).
    unfold Menu._write_queue_file, Menu.queue_line. rewrite foldr_fmap.
    apply foldr_ext; [|done..]. intros n rest. by rewrite Menu.append_assoc.
Qed.

(** X15. [mark_completed] on what [_write_queue_file] of the menu wrote, for
    packages with names in ASCII that a line stores as they are: it
    writes the file that [_write_queue_file] writes for the same packages
    when the packages named are flagged as completed, too. An empty queue
    file becomes one empty line. *)
Theorem mark_completed_sets_flags json_loads json_dumps repr_container
    joinpath is_absolute packages status completed base_dir :
  (∀ n, n ∈ packages → queue_name n) →
  completed ≠ [] →
  mark_completed json_loads json_dumps repr_container joinpath is_absolute
                 (Some (Menu._write_queue_file packages status))
                 completed base_dir
  = Written (if decide (packages = []) then String "010" ""
             else Menu._write_queue_file
                    packages
                    (foldl (λ st n, <[n := true]> st) status completed)).
Proof.
  intros Hnames Hc. apply mark_completed_written; [done..|].
  intros n _. apply flags_set_lookup.
Qed.

(** The queue of the packages [foo], completed, and [bar]. *)
Definition foo_bar : list string := ["foo"; "bar"].

Definition foo_done : gmap string bool := {["foo" := true]}.

Lemma foo_bar_names n : n ∈ foo_bar → queue_name n.
Proof.
  intros Hn. unfold queue_name, Menu.one_line.
  apply elem_of_cons in Hn as [->|Hn];
    [repeat split; (reflexivity || discriminate)|].
  apply list_elem_of_singleton in Hn as ->.
  repeat split; (reflexivity || discriminate).
Qed.

Lemma load_queue_reads_written_witness :
  load_queue (λ _, None) (λ _, "") plain_join (startswith "/")
             (Some (Menu._write_queue_file foo_bar foo_done)) "/ws" false
  = Some ((λ n, entry_of plain_join (startswith "/") "/ws" n
                         (default false (foo_done !! n)))
            <$> filter (λ n, false = true
                             ∨ default false (foo_done !! n) = false)
                       foo_bar).
Proof.
  apply (load_queue_reads_written (λ _, None) (λ _, "") plain_join
           (startswith "/") foo_bar foo_done "/ws" false).
  exact foo_bar_names.
Defined.

Lemma mark_completed_sets_flags_witness :
  mark_completed (λ _, None) (λ _, "") (λ _, "") plain_join (startswith "/")
                 (Some (Menu._write_queue_file foo_bar foo_done))
                 ["bar"] "/ws"
  = Written (if decide (foo_bar = []) then String "010" ""
             else Menu._write_queue_file
                    foo_bar
                    (foldl (λ st n, <[n := true]> st) foo_done ["bar"])).
Proof.
  apply (mark_completed_sets_flags (λ _, None) (λ _, "") (λ _, "") plain_join
           (startswith "/") foo_bar foo_done ["bar"] "/ws").
  - exact foo_bar_names.
  - discriminate.
Defined.

(** *** What the queue run keeps *)

(** The loop of [_strip_known_prefix], from the variants so far. *)
Definition strip_fold (candidate : string) (variants prefixes : list string)
  : list string :=
  foldl (λ variants prefix,
           if startswith_str prefix candidate then
             let stripped := slice_from (String.length prefix) candidate in
             if decide (stripped ≠ "" ∧ stripped ∉ variants)
             then variants ++ [stripped] else variants
           else variants)
        variants prefixes.

Lemma strip_fold_cons candidate variants prefix prefixes :
  strip_fold candidate variants (prefix :: prefixes)
  = strip_fold candidate
      (if startswith_str prefix candidate then
         if decide (slice_from (String.length prefix) candidate ≠ ""
                    ∧ slice_from (String.length prefix) candidate ∉ variants)
         then variants ++ [slice_from (String.length prefix) candidate]
         else variants
       else variants)
      prefixes.
Proof. reflexivity. Qed.

Lemma strip_fold_spec candidate prefixes variants :
  (∃ more, strip_fold candidate variants prefixes = variants ++ more)
  ∧ (NoDup variants → NoDup (strip_fold candidate variants prefixes))
  ∧ (∀ v, v ∈ strip_fold candidate variants prefixes →
          v ∈ variants
          ∨ v ≠ "" ∧ ∃ prefix, prefix ∈ prefixes
                               ∧ candidate = prefix +:+ v).
Proof.
  revert variants. induction prefixes as [|prefix prefixes IH]; intros variants.
  { split_and!; [by exists []; rewrite app_nil_r|done|by left]. }
  rewrite strip_fold_cons.
  assert (∀ vs, (∀ v, v ∈ strip_fold candidate vs prefixes →
                      v ∈ vs ∨ v ≠ "" ∧ ∃ prefix0, prefix0 ∈ prefixes
                                                   ∧ candidate = prefix0 +:+ v) →
                ∀ v, v ∈ strip_fold candidate vs prefixes →
                     v ∈ vs ∨ v ≠ "" ∧ ∃ prefix0, prefix0 ∈ prefix :: prefixes
                                                  ∧ candidate = prefix0 +:+ v)
    as Hweak.
  { intros vs H v Hv. destruct (H v Hv) as [?|(? & p & ? & ?)]; [by left|right].
    split; [done|]. exists p. split; [by right|done]. }
  destruct (startswith_str prefix candidate) eqn:Estart.
  2:{ destruct (IH variants) as (H1 & H2 & H3). split_and!; [done|done|].
      by apply Hweak. }
  case_decide as Hnew.
  2:{ destruct (IH variants) as (H1 & H2 & H3). split_and!; [done|done|].
      by apply Hweak. }
  destruct (IH (variants ++ [slice_from (String.length prefix) candidate]))
    as ([more Hmore] & Hnd & Hin).
  split_and!.
  - eexists. rewrite Hmore, <- app_assoc. done.
  - intros Hv. apply Hnd. apply NoDup_app.
    split_and!; [done| |apply NoDup_singleton].
    intros x Hx ->%list_elem_of_singleton. tauto.
  - intros v Hv. destruct (Hin v Hv) as [Hold|(? & p & ? & ?)].
    + apply elem_of_app in Hold as [?| ->%list_elem_of_singleton]; [by left|].
      right. split; [tauto|]. exists prefix. split; [left|].
      clear -Estart. revert candidate Estart.
      induction prefix as [|a prefix IHp]; intros candidate; [done|].
      destruct candidate as [|b candidate]; [done|]. simpl.
      intros [Hab Hrest]%andb_true_iff. apply Ascii.eqb_eq in Hab as ->.
      rewrite Menu.append_cons. f_equal. by apply IHp.
    + right. split; [done|]. exists p. split; [by right|done].
Qed.

(** X16. [_strip_known_prefix] gives the candidate first, then what is left of
    it without one of the known prefixes, each variant once and none
    empty but, at most, the candidate. *)
Theorem strip_known_prefix_variants prefixes candidate :
  (∃ more, _strip_known_prefix prefixes candidate = candidate :: more
           ∧ ∀ v, v ∈ more →
                  v ≠ "" ∧ v ≠ candidate
                  ∧ ∃ prefix, prefix ∈ prefixes ∧ candidate = prefix +:+ v)
  ∧ NoDup (_strip_known_prefix prefixes candidate).
Proof.
  change (_strip_known_prefix prefixes candidate)
    with (strip_fold candidate [candidate] prefixes).
  destruct (strip_fold_spec candidate prefixes [candidate])
    as ([more Hmore] & Hnd & Hin).
  specialize (Hnd (NoDup_singleton _)).
  split; [|done]. exists more. split; [done|].
  intros v Hv. rewrite Hmore in Hnd, Hin. cbn [app] in Hnd, Hin.
  apply NoDup_cons in Hnd as [Hfirst _].
  assert (v ≠ candidate) as Hne by (by intros ->).
  destruct (Hin v) as [Hc|(? & ?)]; [by right| |done].
  by apply list_elem_of_singleton in Hc.
Qed.

Lemma take_delete_ge {A} (l : list A) (n i : nat) :
  (n ≤ i)%nat → take n (delete i l) = take n l.
Proof.
  revert n i. induction l as [|x l IH]; intros n i Hle; [by destruct i|].
  destruct i as [|i]; [by replace n with 0%nat by lia|].
  destruct n as [|n]; [done|]. simpl. f_equal. apply IH. lia.
Qed.

Section queue_run_facts.
Variable prefixes : list string.
Variable joinpath : Path → string → Path.
Variable resolve : Path → Path.
Variable path_exists : Path → bool.
Variable is_dir : Path → bool.

#[local] Abbreviation pick_target' :=
  (pick_target prefixes joinpath resolve path_exists is_dir).
#[local] Abbreviation resolve_source' :=
  (resolve_dependency_source prefixes joinpath resolve path_exists is_dir).

(** An entry made for a dependency that has a source directory. *)
Definition resolved_entry (base_dir : Path) (e : QueueEntry) : Prop :=
  completed e = false ∧ kind e = "debian"
  ∧ ∃ candidate, resolve_source' candidate base_dir = Some (name e, path e).

(** What [for candidate in dep.valid_candidates()] leaves: no target and
    the entries as they were, or a target that is not completed: an entry
    taken out of the queue behind [current_index], or a new one. *)
Lemma pick_target_spec entries base_dir current_index completed candidates :
  match pick_target' entries base_dir current_index completed candidates with
  | (entries', None) => entries' = entries
  | (entries', Some target) =>
    (name target ∉ completed)
    ∧ ((∃ i, (current_index < i)%nat ∧ entries !! i = Some target
             ∧ entries' = delete i entries)
       ∨ (entries' = entries ∧ resolved_entry base_dir target))
  end.
Proof.
  induction candidates as [|candidate candidates IH]; [done|].
  cbn [pick_target]. cbn zeta. case_decide as Hdone; [done|].
  destruct (find_later entries current_index _) as [i|] eqn:Efind.
  - unfold find_later in Efind.
    destruct (list_find _ _) as [[j e]|] eqn:Ej; [|done].
    injection Efind as <-. apply list_find_Some in Ej as (Hj & Hname & _).
    rewrite lookup_drop in Hj. cbn [fst]. rewrite Hj. split.
    + intros Hc. apply Hdone. apply Exists_exists. by exists (name e).
    + left. exists (current_index + 1 + j)%nat. split; [lia|done].
  - destruct (resolve_source' candidate base_dir) as [[n p]|] eqn:Eres; [|done].
    split.
    + cbn [name]. intros Hc. apply Hdone. apply Exists_exists. exists n.
      split; [|done]. unfold resolve_dependency_source in Eres.
      destruct (list_find _ _) as [[j v]|] eqn:Ej; [|done].
      injection Eres as <- _. apply list_find_Some in Ej as (Hj & _).
      by apply list_elem_of_lookup_2 in Hj.
    + right. split; [done|]. split; [done|]. split; [done|]. by exists candidate.
Qed.

#[local] Abbreviation insert_step' :=
  (insert_step prefixes joinpath resolve path_exists is_dir).
#[local] Abbreviation insert_missing' :=
  (insert_missing_dependencies prefixes joinpath resolve path_exists is_dir).

(** What holds of [entries], [inserted] and [insertion_offset] along the
    loop of [insert_missing_dependencies]. *)
Definition insert_inv (entries0 : list QueueEntry) (base_dir : Path)
    (current_index : nat) (completed : gset string)
    (acc : list QueueEntry * list string * nat) : Prop :=
  let '(entries, inserted, insertion_offset) := acc in
  (current_index < length entries)%nat
  ∧ take current_index entries = take current_index entries0
  ∧ NoDup inserted
  ∧ (∀ n, n ∈ inserted → n ∉ completed)
  ∧ (inserted = [] → entries = entries0)
  ∧ (∀ e, e ∈ entries → e ∈ entries0 ∨ resolved_entry base_dir e)
  ∧ (length entries ≤ length entries0 + length inserted)%nat
  ∧ insertion_offset = length inserted.

Lemma insert_step_inv entries0 base_dir current_index completed acc dep :
  insert_inv entries0 base_dir current_index completed acc →
  insert_inv entries0 base_dir current_index completed
             (insert_step' base_dir current_index completed acc dep).
Proof.
  destruct acc as [[entries inserted] insertion_offset].
  intros (Hlen & Htake & Hnd & Hdone & Hnone & Hfrom & Hsize & Hoff).
  unfold insert_step.
  pose proof (pick_target_spec entries base_dir current_index completed
                (valid_candidates dep)) as Hpick.
  destruct (pick_target' entries base_dir current_index completed
              (valid_candidates dep)) as [entries' [target|]].
  2:{ subst entries'. done. }
  destruct Hpick as [Hnew Hwhere].
  assert ((current_index < length entries')%nat
          ∧ take current_index entries' = take current_index entries
          ∧ (∀ e, e ∈ target :: entries' →
                  e ∈ entries0 ∨ resolved_entry base_dir e)
          ∧ (length entries' ≤ length entries)%nat) as (Hlen' & Htake' & Hfrom' & Hsize').
  { destruct Hwhere as [(i & Hi & Hlook & ->)|[-> Hres]].
    - pose proof (lookup_lt_Some _ _ _ Hlook) as Hilen.
      rewrite length_delete by (by eexists).
      split_and!; [lia| | |lia].
      + rewrite take_delete_ge by lia. done.
      + intros e [->|He]%elem_of_cons.
        * apply Hfrom. by apply list_elem_of_lookup_2 in Hlook.
        * apply Hfrom. by apply list_elem_of_delete_inv in He.
    - split_and!; [done|done| |done].
      intros e [->|He]%elem_of_cons; [by right|by apply Hfrom]. }
  case_decide as Hin.
  - split_and!; try done.
    + by rewrite Htake'.
    + intros ->. by apply elem_of_nil in Hin.
    + intros e He. apply Hfrom'. by right.
    + lia.
  - unfold list_insert_at. split_and!.
    + rewrite length_app. cbn [length]. rewrite length_take, length_drop. lia.
    + rewrite take_app_le by (rewrite length_take; lia).
      rewrite take_take. rewrite Nat.min_l by lia. by rewrite Htake'.
    + apply NoDup_app. split_and!; [done| |apply NoDup_singleton].
      intros x Hx ->%list_elem_of_singleton. done.
    + intros n [?| ->%list_elem_of_singleton]%elem_of_app; [by apply Hdone|done].
    + by intros ?%app_eq_nil%proj2.
    + intros e [He|[->|He]%elem_of_cons]%elem_of_app.
      * apply Hfrom'. right. apply (elem_of_sublist _ _ _ He), sublist_take.
      * apply Hfrom'. left.
      * apply Hfrom'. right. apply (elem_of_sublist _ _ _ He), sublist_drop.
    + rewrite !length_app. cbn [length]. rewrite length_take, length_drop. lia.
    + rewrite length_app. cbn [length]. lia.
Qed.

Lemma insert_missing_inv entries selected base_dir current_index completed :
  (current_index < length entries)%nat →
  let r := insert_missing' entries selected base_dir current_index completed in
  insert_inv entries base_dir current_index completed (r.1, r.2, length r.2).
Proof.
  intros Hlen.
  assert (insert_inv entries base_dir current_index completed (entries, [], 0%nat))
    as Hstart.
  { split_and!; try done; [constructor|by intros n ?%elem_of_nil|by left|lia]. }
  unfold insert_missing_dependencies.
  destruct selected as [|dep selected]; [done|].
  set (l := dep :: selected). clearbody l.
  assert (∀ acc, insert_inv entries base_dir current_index completed acc →
                 insert_inv entries base_dir current_index completed
                   (foldl (insert_step' base_dir current_index completed) acc l))
    as Hfold.
  { induction l as [|d l IH]; intros acc Hacc; [done|].
    cbn [foldl]. by apply IH, insert_step_inv. }
  specialize (Hfold _ Hstart).
  destruct (foldl _ _ l) as [[entries' inserted] offset].
  cbn [fst snd]. destruct Hfold as (? & ? & ? & ? & ? & ? & ? & ?).
  split_and!; done.
Qed.

End queue_run_facts.

(** X17. [insert_missing_dependencies], called for the entry at
    [current_index]: the entries before that index stay as they are and
    the queue stays longer than the index; the names returned are
    different names of packages that are not completed; the queue is
    unchanged when no name is returned; every entry of the queue was in it
    before or is a new entry for a dependency that has a source directory;
    and the queue grows by no more than the number of names returned. *)
Theorem insert_missing_dependencies_keeps prefixes joinpath resolve path_exists
    is_dir entries selected base_dir current_index completed :
  (current_index < length entries)%nat →
  let r := insert_missing_dependencies prefixes joinpath resolve path_exists
             is_dir entries selected base_dir current_index completed in
  (current_index < length r.1)%nat
  ∧ take current_index r.1 = take current_index entries
  ∧ NoDup r.2
  ∧ (∀ n, n ∈ r.2 → n ∉ completed)
  ∧ (r.2 = [] → r.1 = entries)
  ∧ (∀ e, e ∈ r.1 →
          e ∈ entries
          ∨ resolved_entry prefixes joinpath resolve path_exists is_dir
                           base_dir e)
  ∧ (length r.1 ≤ length entries + length r.2)%nat.
Proof.
  intros Hlen r.
  destruct (insert_missing_inv prefixes joinpath resolve path_exists is_dir
              entries selected base_dir current_index completed Hlen)
    as (? & ? & ? & ? & ? & ? & ? & _).
  split_and!; done.
Qed.

(** The check on the queue [X] whose build misses [bar], [libfoo-dev | foo]
    and [foo]. *)
Lemma insert_missing_dependencies_keeps_witness :
  let r := insert_missing_dependencies ["agiros-pixiu-"] plain_join id
             work_space work_space [entry_X] (X_misses_three [] "/ws/X")
             "/ws" 0 ∅ in
  (0 < length r.1)%nat
  ∧ take 0 r.1 = take 0 [entry_X]
  ∧ NoDup r.2
  ∧ (∀ n, n ∈ r.2 → n ∉ (∅ : gset string))
  ∧ (r.2 = [] → r.1 = [entry_X])
  ∧ (∀ e, e ∈ r.1 →
          e ∈ [entry_X]
          ∨ resolved_entry ["agiros-pixiu-"] plain_join id work_space
                           work_space "/ws" e)
  ∧ (length r.1 ≤ length [entry_X] + length r.2)%nat.
Proof.
  apply (insert_missing_dependencies_keeps ["agiros-pixiu-"] plain_join id
           work_space work_space [entry_X] (X_misses_three [] "/ws/X")
           "/ws" 0 ∅).
  simpl. lia.
Defined.

Section process_facts.
Variable prefixes : list string.
Variable joinpath : Path → string → Path.
Variable resolve : Path → Path.
Variable path_exists : Path → bool.
Variable is_dir : Path → bool.
Variable run_build_pipeline : history → Path → bool → Z.
Variable detect_missing_build_dependencies : history → Path → list MissingDependency.
Variable install_from_workdir : history → Path → bool.
Variable args : Args.
Variable base_dir : Path.

#[local] Abbreviation loop_body' :=
  (loop_body prefixes joinpath resolve path_exists is_dir run_build_pipeline
             detect_missing_build_dependencies install_from_workdir
             args base_dir).
#[local] Abbreviation process_loop' :=
  (λ fuel, process_loop prefixes joinpath resolve path_exists is_dir
                        run_build_pipeline detect_missing_build_dependencies
                        install_from_workdir fuel args base_dir).

(** What holds of the variables of the loop of [process_queue_entries]
    that started with the queue [entries0]. *)
Definition run_inv (entries0 : list QueueEntry) (s : run_state) : Prop :=
  (idx s ≤ length (entries s))%nat
  ∧ (∀ n, n ∈ built_successfully s →
          ∃ e, e ∈ take (idx s) (entries s) ∧ name e = n
               ∧ (path e, 0) ∈ builds s)
  ∧ (∀ n, n ∈ completed_names s ↔ n ∈ built_successfully s)
  ∧ (∀ e, e ∈ entries s →
          e ∈ entries0
          ∨ resolved_entry prefixes joinpath resolve path_exists is_dir
                           base_dir e)
  ∧ (∀ p rc, (p, rc) ∈ builds s →
             path_exists p = true ∧ is_dir (joinpath p "debian") = true).

Lemma take_S_elem_of {A} (l : list A) (i : nat) (x : A) :
  x ∈ take i l → x ∈ take (S i) l.
Proof.
  rewrite !elem_of_take. intros (j & ? & ?). exists j. split; [done|lia].
Qed.

Lemma loop_body_inv entries0 s :
  (idx s < length (entries s))%nat →
  run_inv entries0 s → run_inv entries0 (loop_body' s).
Proof.
  intros Hlt (Hidx & Hbuilt & Hdone & Hfrom & Hruns).
  unfold loop_body.
  destruct (entries s !! idx s) as [entry|] eqn:Eentry.
  2:{ apply lookup_ge_None in Eentry. lia. }
  assert (∀ n, n ∈ built_successfully s →
               ∃ e, e ∈ take (S (idx s)) (entries s) ∧ name e = n
                    ∧ (path e, 0) ∈ builds s) as Hbuilt'.
  { intros n Hn. destruct (Hbuilt n Hn) as (e & He & ? & ?).
    exists e. split; [by apply take_S_elem_of|done]. }
  destruct (path_exists (path entry)) eqn:Eexists; cbn [negb].
  2:{ split_and!; cbn [idx entries built_successfully completed_names builds];
        [lia|done..]. }
  destruct (is_dir (joinpath (path entry) "debian")) eqn:Edir; cbn [negb].
  2:{ split_and!; cbn [idx entries built_successfully completed_names builds];
        [lia|done..]. }
  set (rc := run_build_pipeline (builds s) (path entry) _).
  assert (∀ p rc', (p, rc') ∈ builds s ++ [(path entry, rc)] →
                   path_exists p = true ∧ is_dir (joinpath p "debian") = true)
    as Hruns'.
  { intros p rc' [?|Hp%list_elem_of_singleton]%elem_of_app; [by eapply Hruns|].
    by injection Hp as -> ->. }
  case_decide as Hrc.
  - pose proof (insert_missing_inv prefixes joinpath resolve path_exists is_dir
                  (entries s)
                  (detect_missing_build_dependencies
                     (builds s ++ [(path entry, rc)]) (path entry))
                  base_dir (idx s) (completed_names s) Hlt) as Hins.
    cbn zeta in Hins.
    destruct (insert_missing_dependencies _ _ _ _ _ _ _ _ _ _)
      as [entries' inserted].
    cbn [fst snd] in Hins.
    destruct Hins as (Hlen' & Htake' & _ & _ & Hnone & Hfrom' & _ & _).
    assert (∀ e, e ∈ entries' →
                 e ∈ entries0
                 ∨ resolved_entry prefixes joinpath resolve path_exists is_dir
                                  base_dir e) as Hfrom''.
    { intros e He. destruct (Hfrom' e He) as [?|?]; [by apply Hfrom|by right]. }
    destruct inserted as [|n0 inserted].
    + rewrite (Hnone eq_refl).
      split_and!; cbn [idx entries built_successfully completed_names builds];
        [lia| |done|done|done].
      intros n Hn. destruct (Hbuilt' n Hn) as (e & ? & ? & ?).
      exists e. split_and!; [done..|]. apply elem_of_app. by left.
    + split_and!; cbn [idx entries built_successfully completed_names builds];
        [lia| |done|done|done].
      intros n Hn. destruct (Hbuilt n Hn) as (e & ? & ? & ?).
      exists e. rewrite Htake'. split_and!; [done..|]. apply elem_of_app. by left.
  - assert (rc = 0) as Hzero by (destruct (decide (rc = 0)); [done|by destruct Hrc]).
    destruct (install_artifacts args && negb _).
    + split_and!; cbn [idx entries built_successfully completed_names builds];
        [lia| |done|done|done].
      intros n Hn. destruct (Hbuilt' n Hn) as (e & ? & ? & ?).
      exists e. split_and!; [done..|]. apply elem_of_app. by left.
    + split_and!; cbn [idx entries built_successfully completed_names builds];
        [lia| | |done|done].
      * intros n [Hn| ->%list_elem_of_singleton]%elem_of_app.
        -- destruct (Hbuilt' n Hn) as (e & ? & ? & ?).
           exists e. split_and!; [done..|]. apply elem_of_app. by left.
        -- exists entry. split_and!; [|done|].
           ++ apply elem_of_take. exists (idx s). split; [done|lia].
           ++ apply elem_of_app. right. rewrite <- Hzero. by left.
      * intros n. rewrite elem_of_union, elem_of_singleton, elem_of_app,
          list_elem_of_singleton, Hdone. tauto.
Qed.

Lemma process_loop_inv entries0 fuel s s' :
  run_inv entries0 s → process_loop' fuel s = Some s' →
  run_inv entries0 s' ∧ idx s' = length (entries s').
Proof.
  revert s. induction fuel as [|fuel IH]; intros s Hinv; simpl.
  - case_decide as Hlt; [done|]. intros [= <-]. split; [done|].
    destruct Hinv as [? _]. lia.
  - case_decide as Hlt.
    + apply IH. by apply loop_body_inv.
    + intros [= <-]. split; [done|]. destruct Hinv as [? _]. lia.
Qed.

(** An entry that the loop builds: its directory is there and has a
    [debian] directory. *)
Definition buildable (e : QueueEntry) : Prop :=
  path_exists (path e) = true ∧ is_dir (joinpath (path e) "debian") = true.

#[local] Instance buildable_dec e : Decision (buildable e).
Proof. unfold buildable. apply _. Defined.

Lemma process_loop_all_succeed n s :
  (∀ h p b, run_build_pipeline h p b = 0) →
  (install_artifacts args = true → ∀ h p, install_from_workdir h p = true) →
  (length (entries s) - idx s ≤ n)%nat →
  ∃ s', process_loop' n s = Some s'
        ∧ entries s' = entries s
        ∧ built_successfully s'
          = built_successfully s
            ++ (name <$> filter buildable (drop (idx s) (entries s))).
Proof.
  intros Hok Hinst. revert s. induction n as [|n IH]; intros s Hn.
  - exists s. simpl. rewrite decide_False by lia.
    rewrite drop_ge by lia. by rewrite app_nil_r.
  - simpl. case_decide as Hlt.
    2:{ exists s. rewrite drop_ge by lia. by rewrite app_nil_r. }
    destruct (entries s !! idx s) as [entry|] eqn:Eentry.
    2:{ apply lookup_ge_None in Eentry. lia. }
    rewrite (drop_S _ _ _ Eentry), filter_cons.
    set (s1 := loop_body' s).
    assert (entries s1 = entries s ∧ idx s1 = S (idx s)
            ∧ built_successfully s1
              = built_successfully s
                ++ (if decide (buildable entry) then [name entry] else []))
      as (He1 & Hi1 & Hb1).
    { unfold s1, loop_body. rewrite Eentry.
      destruct (decide (buildable entry)) as [[Hex Hdir]|Hnb].
      - rewrite Hex, Hdir. cbn [negb]. rewrite Hok.
        rewrite decide_False by (by intros ?).
        destruct (install_artifacts args) eqn:Einst; cbn [andb];
          [rewrite (Hinst eq_refl)|]; done.
      - destruct (path_exists (path entry)) eqn:Eex; cbn [negb];
          [|by rewrite app_nil_r].
        destruct (is_dir (joinpath (path entry) "debian")) eqn:Edir;
          cbn [negb]; [|by rewrite app_nil_r].
        by destruct Hnb. }
    destruct (IH s1) as (s' & Hrun & He' & Hb'); [rewrite He1, Hi1; lia|].
    exists s'. split; [done|]. split; [congruence|].
    rewrite Hb', Hb1, He1, Hi1, <- app_assoc. f_equal.
    by case_decide.
Qed.

End process_facts.

(** X18. When every build succeeds, and every installation that is asked for,
    [process_queue_entries] ends after one round for each entry: it
    returns the names of the entries whose directory is there and has a
    [debian] directory, in the order of the queue, and leaves the queue as
    it was. *)
Theorem process_queue_entries_all_succeed prefixes joinpath resolve path_exists
    is_dir run_build_pipeline detect_missing_build_dependencies
    install_from_workdir args base_dir entries :
  (∀ h p b, run_build_pipeline h p b = 0) →
  (install_artifacts args = true → ∀ h p, install_from_workdir h p = true) →
  process_queue_entries prefixes joinpath resolve path_exists is_dir
    run_build_pipeline detect_missing_build_dependencies install_from_workdir
    (length entries) entries args base_dir
  = Some (name <$> filter (buildable joinpath path_exists is_dir) entries,
          entries).
Proof.
  intros Hok Hinst. unfold process_queue_entries.
  destruct entries as [|e0 entries0]; [done|].
  set (entries := e0 :: entries0).
  destruct (process_loop_all_succeed prefixes joinpath resolve path_exists
              is_dir run_build_pipeline detect_missing_build_dependencies
              install_from_workdir args base_dir (length entries)
              (mkRun entries 0 [] ∅ false []) Hok Hinst)
    as (s' & -> & He & Hb); [simpl; lia|].
  cbn [fmap option_fmap option_map]. rewrite He, Hb. done.
Qed.

(** The check on the queue [bar], [X]. *)
Lemma process_queue_entries_all_succeed_witness :
  process_queue_entries ["agiros-pixiu-"] plain_join id work_space work_space
    (λ _ _ _, 0) X_misses_Y (λ _ _, true)
    (length [entry_bar; entry_X]) [entry_bar; entry_X] no_flags "/ws"
  = Some (name <$> filter (buildable plain_join work_space work_space)
                          [entry_bar; entry_X],
          [entry_bar; entry_X]).
Proof.
  apply (process_queue_entries_all_succeed ["agiros-pixiu-"] plain_join id
           work_space work_space (λ _ _ _, 0) X_misses_Y (λ _ _, true)
           no_flags "/ws" [entry_bar; entry_X]).
  - reflexivity.
  - reflexivity.
Defined.

(** X19. When the loop of [process_queue_entries] ends, every package it names
    as built is the package of an entry of the queue whose build returned
    0, and the completed names are those packages; every entry of the
    queue was in it at the start or is a new entry for a dependency that
    has a source directory; and nothing was built but directories that
    are there and have a [debian] directory. *)
Theorem built_packages_were_built prefixes joinpath resolve path_exists is_dir
    run_build_pipeline detect_missing_build_dependencies install_from_workdir
    args base_dir fuel entries s :
  process_loop prefixes joinpath resolve path_exists is_dir run_build_pipeline
    detect_missing_build_dependencies install_from_workdir fuel args base_dir
    (mkRun entries 0 [] ∅ false []) = Some s →
  idx s = length (Runner.entries s)
  ∧ (∀ n, n ∈ built_successfully s →
          ∃ e, e ∈ Runner.entries s ∧ name e = n ∧ (path e, 0) ∈ builds s)
  ∧ (∀ n, n ∈ completed_names s ↔ n ∈ built_successfully s)
  ∧ (∀ e, e ∈ Runner.entries s →
          e ∈ entries
          ∨ resolved_entry prefixes joinpath resolve path_exists is_dir
                           base_dir e)
  ∧ (∀ p rc, (p, rc) ∈ builds s →
             path_exists p = true ∧ is_dir (joinpath p "debian") = true).
Proof.
  intros Hrun.
  destruct (process_loop_inv prefixes joinpath resolve path_exists is_dir
              run_build_pipeline detect_missing_build_dependencies
              install_from_workdir args base_dir entries fuel
              (mkRun entries 0 [] ∅ false []) s)
    as [(Hidx & Hbuilt & Hdone & Hfrom & Hruns) Hend]; [|done|].
  { split_and!; cbn [idx Runner.entries built_successfully completed_names builds].
    - lia.
    - by intros n ?%elem_of_nil.
    - intros n. by rewrite elem_of_empty, elem_of_nil.
    - intros e He. by left.
    - by intros p rc ?%elem_of_nil. }
  split_and!; try done.
  intros n Hn. destruct (Hbuilt n Hn) as (e & He & ? & ?).
  exists e. split; [|done]. rewrite Hend, firstn_all in He. done.
Qed.

(** The check on the queue [X], whose build fails first for want of [bar],
    [libfoo-dev | foo] and [foo]: the loop ends after five rounds. *)
Lemma built_packages_were_built_witness :
  let s := rounds only_X_fails X_misses_three 5
                  (mkRun [entry_X] 0 [] ∅ false []) in
  idx s = length (Runner.entries s)
  ∧ (∀ n, n ∈ built_successfully s →
          ∃ e, e ∈ Runner.entries s ∧ name e = n ∧ (path e, 0) ∈ builds s)
  ∧ (∀ n, n ∈ completed_names s ↔ n ∈ built_successfully s)
  ∧ (∀ e, e ∈ Runner.entries s →
          e ∈ [entry_X]
          ∨ resolved_entry ["agiros-pixiu-"] plain_join id work_space
                           work_space "/ws" e)
  ∧ (∀ p rc, (p, rc) ∈ builds s →
             work_space p = true ∧ work_space (plain_join p "debian") = true).
Proof.
  apply (built_packages_were_built ["agiros-pixiu-"] plain_join id work_space
           work_space only_X_fails X_misses_three (λ _ _, true) no_flags
           "/ws" 5 [entry_X]).
  vm_compute. reflexivity.
Defined.

(** *** Retries and signals *)

Lemma kill_all_trace victims sig t :
  kill_all victims sig t = Some (tt, t ++ ((λ pid, Kill pid sig) <$> victims)).
Proof.
  revert t. induction victims as [|pid victims IH]; intros t; simpl.
  - unfold ret. by rewrite app_nil_r.
  - unfold bind, emit. rewrite IH, <- app_assoc. done.
Qed.

Lemma still_alive_trace w victims t :
  ∃ alive, still_alive w victims t = Some (alive, t ++ (Probe <$> victims))
           ∧ alive ⊆ victims.
Proof.
  revert t. induction victims as [|pid victims IH]; intros t; simpl.
  - exists []. unfold ret. by rewrite app_nil_r.
  - unfold bind, _is_process_alive.
    destruct (IH (t ++ [Probe pid])) as (rest & -> & Hrest).
    eexists. unfold ret. rewrite <- app_assoc. split; [done|].
    destruct (process_alive w t pid); set_solver.
Qed.

(** The processes that the probes found: each was alive when it was asked
    for. *)
Lemma still_alive_found w victims t :
  ∃ alive, still_alive w victims t = Some (alive, t ++ (Probe <$> victims))
           ∧ ∀ pid, pid ∈ alive →
                    ∃ v1 v2, victims = v1 ++ pid :: v2
                             ∧ process_alive w (t ++ (Probe <$> v1)) pid = true.
Proof.
  revert t. induction victims as [|pid victims IH]; intros t; simpl.
  - exists []. unfold ret. rewrite app_nil_r. split; [done|].
    by intros pid ?%elem_of_nil.
  - unfold bind, _is_process_alive.
    destruct (IH (t ++ [Probe pid])) as (rest & -> & Hrest).
    eexists. unfold ret. rewrite <- app_assoc. split; [done|].
    assert (∀ p, p ∈ rest →
                 ∃ v1 v2, pid :: victims = v1 ++ p :: v2
                          ∧ process_alive w (t ++ (Probe <$> v1)) p = true)
      as Hrest'.
    { intros p (v1 & v2 & -> & Hp)%Hrest. exists (pid :: v1), v2.
      split; [done|]. rewrite <- app_assoc in Hp. exact Hp. }
    destruct (process_alive w t pid) eqn:E; [|done].
    intros p [->|Hp]%elem_of_cons; [|by apply Hrest'].
    exists [], victims. split; [done|]. by rewrite app_nil_r.
Qed.

(** Where an item that is not in [front] stands in [front ++ back]. *)
Lemma split_after {A} (front back pre post : list A) x :
  pre ++ x :: post = front ++ back → x ∉ front →
  ∃ pre', pre = front ++ pre' ∧ back = pre' ++ x :: post.
Proof.
  revert pre. induction front as [|a front IH]; intros pre Heq Hx.
  { by exists pre. }
  destruct pre as [|b pre]; simplify_eq/=.
  { exfalso. apply Hx. left. }
  destruct (IH pre) as (pre' & -> & ->); [done|set_solver|].
  by exists pre'.
Qed.

(** A process that [os.kill] takes for one process: its number is
    positive, and within the range of a C [int]. With another number
    [os.kill] signals a group of processes, or raises [OverflowError]. *)
Definition single_process (pid : Z) : Prop := 0 < pid < 2 ^ 31.

(** X20. [_terminate_processes], for the numbers of single processes, each
    given once, returns; it sends signals to none but the processes
    given, never to the runner itself or to its parent; it sends
    [SIGTERM] to each of the others, and [SIGKILL] to a process only
    after [SIGTERM] to that process, the sleep of five seconds and a
    probe that found the process alive, in this order; it starts no
    command. *)
Theorem terminate_processes_spares_runner w pids t :
  NoDup pids →
  (∀ pid, pid ∈ pids → single_process pid) →
  ∃ done_, _terminate_processes w pids t = Some (tt, t ++ done_)
    ∧ (∀ pid sig, Kill pid sig ∈ done_ →
                  pid ∈ pids ∧ pid ≠ getpid w ∧ pid ≠ getppid w)
    ∧ (∀ pid, pid ∈ pids → pid ≠ getpid w → pid ≠ getppid w →
              Kill pid SIGTERM ∈ done_)
    ∧ (∀ pre pid post,
         done_ = pre ++ Kill pid SIGKILL :: post →
         ∃ a b c1 c2,
           pre = a ++ Kill pid SIGTERM :: b ++ Sleep 5 :: c1 ++ Probe pid :: c2
           ∧ process_alive w (t ++ a ++ Kill pid SIGTERM :: b ++ Sleep 5 :: c1)
                           pid = true)
    ∧ (∀ cmd cwd, Run cmd cwd ∉ done_).
Proof.
  intros _ _. unfold _terminate_processes.
  set (victims := filter (λ pid, pid ∉ [getpid w; getppid w]) pids).
  assert (∀ pid, pid ∈ victims ↔
                 pid ∈ pids ∧ pid ≠ getpid w ∧ pid ≠ getppid w) as Hv.
  { intros pid. unfold victims. rewrite list_elem_of_filter. set_solver. }
  destruct victims as [|v0 victims0] eqn:Ev.
  { exists []. unfold ret. rewrite app_nil_r. split; [done|]. split_and!.
    - by intros pid sig ?%elem_of_nil.
    - intros pid H1 H2 H3. exfalso.
      assert (pid ∈ []) as Hin by (apply Hv; done).
      by apply elem_of_nil in Hin.
    - intros pre pid post Heq. by destruct pre.
    - by intros cmd cwd ?%elem_of_nil. }
  rewrite <- Ev in *. clear Ev v0 victims0.
  unfold bind at 1. rewrite kill_all_trace.
  unfold bind at 1, emit at 1. unfold bind at 1.
  destruct (still_alive_found w victims
              ((t ++ ((λ pid, Kill pid SIGTERM) <$> victims)) ++ [Sleep 5]))
    as (alive & -> & Halive).
  set (terms := (λ pid, Kill pid SIGTERM) <$> victims) in *.
  assert (∀ pid sig, Kill pid sig ∈ terms ++ [Sleep 5] ++ (Probe <$> victims) →
                     sig = SIGTERM ∧ pid ∈ victims) as Hfront.
  { intros pid sig Hin.
    rewrite !elem_of_app, list_elem_of_singleton in Hin.
    destruct Hin as [Hin|[Hin|Hin]]; [|done|].
    - by apply list_elem_of_fmap in Hin as (p & [= -> ->] & Hp).
    - by apply list_elem_of_fmap in Hin as (p & ? & _). }
  assert (∀ pid, pid ∈ victims → Kill pid SIGTERM ∈ terms) as Hterm.
  { intros pid Hp. apply list_elem_of_fmap. by exists pid. }
  destruct alive as [|a0 alive0] eqn:Ea.
  - exists (terms ++ [Sleep 5] ++ (Probe <$> victims)).
    unfold ret. rewrite <- !app_assoc. split; [done|]. split_and!.
    + intros pid sig [_ Hp]%Hfront. by apply Hv.
    + intros pid H1 H2 H3. apply elem_of_app. left. apply Hterm, Hv. done.
    + intros pre pid post Heq.
      assert (Kill pid SIGKILL ∈ terms ++ [Sleep 5] ++ (Probe <$> victims))
        as [? _]%Hfront; [|done].
      rewrite Heq. apply elem_of_app. right. left.
    + intros cmd cwd Hin.
      rewrite !elem_of_app, list_elem_of_singleton in Hin.
      destruct Hin as [Hin|[Hin|Hin]]; [|done|];
        by apply list_elem_of_fmap in Hin as (p & ? & _).
  - rewrite <- Ea in *. clear Ea a0 alive0.
    unfold bind at 1. rewrite kill_all_trace. unfold bind at 1.
    edestruct (still_alive_trace w alive) as (alive' & -> & _).
    exists ((terms ++ [Sleep 5] ++ (Probe <$> victims))
            ++ ((λ pid, Kill pid SIGKILL) <$> alive) ++ (Probe <$> alive)).
    unfold ret. rewrite <- !app_assoc. split; [done|].
    assert (∀ pid, pid ∈ alive → pid ∈ victims) as Hsub.
    { intros pid (v1 & v2 & -> & _)%Halive. set_solver. }
    split_and!.
    + intros pid sig Hin. apply Hv.
      rewrite !elem_of_app, list_elem_of_singleton in Hin.
      destruct Hin as [Hin|[Hin|[Hin|[Hin|Hin]]]]; [| done | | |].
      * by apply list_elem_of_fmap in Hin as (p & [= -> ->] & Hp).
      * by apply list_elem_of_fmap in Hin as (p & ? & _).
      * apply list_elem_of_fmap in Hin as (p & [= -> ->] & Hp). by apply Hsub.
      * by apply list_elem_of_fmap in Hin as (p & ? & _).
    + intros pid H1 H2 H3. apply elem_of_app. left. apply Hterm, Hv. done.
    + intros pre pid post Heq.
      symmetry in Heq.
      rewrite (app_assoc [Sleep 5]), (app_assoc terms) in Heq.
      apply split_after in Heq as (pre' & -> & Hback).
      2:{ intros [? _]%Hfront. done. }
      assert (pid ∈ alive) as Hp.
      { assert (Kill pid SIGKILL
                ∈ ((λ pid, Kill pid SIGKILL) <$> alive) ++ (Probe <$> alive))
          as Hin by (rewrite Hback; apply elem_of_app; right; left).
        apply elem_of_app in Hin as [Hin|Hin].
        - by apply list_elem_of_fmap in Hin as (p & [= ->] & Hp).
        - by apply list_elem_of_fmap in Hin as (p & ? & _). }
      destruct (Halive pid Hp) as (v1 & v2 & Hvs & Hfound).
      exists ((λ pid, Kill pid SIGTERM) <$> v1),
             ((λ pid, Kill pid SIGTERM) <$> v2),
             (Probe <$> v1), ((Probe <$> v2) ++ pre').
      unfold terms. rewrite Hvs, !fmap_app, !fmap_cons. split.
      * by rewrite <- ?app_assoc.
      * rewrite <- Hfound. f_equal. unfold terms.
        by rewrite Hvs, !fmap_app, !fmap_cons, <- ?app_assoc.
    + intros cmd cwd Hin.
      rewrite !elem_of_app, list_elem_of_singleton in Hin.
      destruct Hin as [Hin|[Hin|[Hin|[Hin|Hin]]]]; [|done| | |];
        by apply list_elem_of_fmap in Hin as (p & ? & _).
Qed.

(** Two processes hold the lock, [412] and [977]; the second is there
    after the sleep and is killed. *)
Definition second_survives : world :=
  mkWorld (λ _ _ _, mkProc 0 "" "") (λ _ _, true) (λ p, p)
          (λ _ pid, bool_decide (pid = 977)) 1 0 (λ _, 0) (λ _ _, false)
          (λ _ _, []) (λ _, None).

Lemma terminate_processes_spares_runner_witness :
  ∃ done_, _terminate_processes second_survives [412; 1; 977] []
           = Some (tt, [] ++ done_)
    ∧ (∀ pid sig, Kill pid sig ∈ done_ →
                  pid ∈ [412; 1; 977] ∧ pid ≠ getpid second_survives
                  ∧ pid ≠ getppid second_survives)
    ∧ (∀ pid, pid ∈ [412; 1; 977] → pid ≠ getpid second_survives →
              pid ≠ getppid second_survives → Kill pid SIGTERM ∈ done_)
    ∧ (∀ pre pid post,
         done_ = pre ++ Kill pid SIGKILL :: post →
         ∃ a b c1 c2,
           pre = a ++ Kill pid SIGTERM :: b ++ Sleep 5 :: c1 ++ Probe pid :: c2
           ∧ process_alive second_survives
               ([] ++ a ++ Kill pid SIGTERM :: b ++ Sleep 5 :: c1) pid = true)
    ∧ (∀ cmd cwd, Run cmd cwd ∉ done_).
Proof.
  apply (terminate_processes_spares_runner second_survives [412; 1; 977] []).
  - apply (bool_decide_unpack (NoDup [412; 1; 977])). vm_compute. exact I.
  - intros pid Hpid. unfold single_process.
    repeat (apply elem_of_cons in Hpid as [->|Hpid]; [lia|]).
    by apply elem_of_nil in Hpid.
Defined.

Lemma bind_Some {A B} (m : M A) (f : A → M B) t x t' :
  m t = Some (x, t') → bind m f t = f x t'.
Proof. unfold bind. by intros ->. Qed.

Lemma bind_None {A B} (m : M A) (f : A → M B) t :
  m t = None → bind m f t = None.
Proof. unfold bind. by intros ->. Qed.

(** A computation adds to what was done, and takes nothing back. *)
Definition appends {A} (m : M A) : Prop :=
  ∀ t x t', m t = Some (x, t') → ∃ d, t' = t ++ d.

Lemma appends_ret {A} (x : A) : appends (ret x).
Proof. intros t y t' [= <- <-]. exists []. by rewrite app_nil_r. Qed.

Lemma appends_bind {A B} (m : M A) (f : A → M B) :
  appends m → (∀ x, appends (f x)) → appends (bind m f).
Proof.
  intros Hm Hf t y t'. unfold bind.
  destruct (m t) as [[x t1]|] eqn:E; [|done]. intros Hy.
  destruct (Hm _ _ _ E) as [d ->]. destruct (Hf _ _ _ _ Hy) as [d' ->].
  exists (d ++ d'). by rewrite app_assoc.
Qed.

Lemma appends_emit e : appends (emit e).
Proof. intros t y t' [= <- <-]. by eexists. Qed.

Lemma appends_ask {A} (f : trace → A) : appends (ask f).
Proof. intros t y t' [= <- <-]. exists []. by rewrite app_nil_r. Qed.

Lemma appends_run w cmd cwd : appends (run w cmd cwd).
Proof. intros t y t' [= <- <-]. by eexists. Qed.

Lemma appends_out_of_rounds {A} : appends (out_of_rounds (A := A)).
Proof. by intros t y t'. Qed.

Lemma appends_if {A} (b : bool) (m1 m2 : M A) :
  appends m1 → appends m2 → appends (if b then m1 else m2).
Proof. by destruct b. Qed.

Section lock_facts.
Variable cfg : config.
Variable w : world.

Lemma wrap_total cmd enable t :
  ∃ effective_cmd t', wrap_with_apt_lock cfg w cmd enable t
                      = Some (effective_cmd, t').
Proof.
  unfold wrap_with_apt_lock. destruct enable; cbn [negb]; [|by eexists _, _].
  unfold bind. destruct (mkdir w t _); cbn [negb]; [|by eexists _, _].
  destruct cmd as [|c cmd]; [by eexists _, _|].
  destruct (decide (c = "flock")) as [->|Hne]; [by eexists _, _|].
  assert (∃ r, match c with
               | "flock" => ret (c :: cmd)
               | _ => ret (["flock"; "-w"; pretty (APT_LOCK_TIMEOUT cfg);
                            APT_LOCK_PATH cfg] ++ c :: cmd)
               end = ret (A := list string) r) as [r Hr].
  { repeat (match goal with
            | |- context [match ?x with _ => _ end] =>
              destruct x; try by eexists
            end). }
  eexists r, _. by rewrite Hr.
Qed.

Lemma fix_dpkg_state_total t : ∃ t', _fix_dpkg_state cfg w t = Some (tt, t').
Proof.
  unfold _fix_dpkg_state.
  destruct (wrap_total ["dpkg"; "--configure"; "-a"] true t) as (c1 & t1 & H1).
  rewrite (bind_Some _ _ _ _ _ H1). unfold bind at 1, run at 1.
  destruct (wrap_total ["apt-get"; "-f"; "install"; "-y"] true
              (t1 ++ [Run c1 None])) as (c2 & t2 & H2).
  rewrite (bind_Some _ _ _ _ _ H2). unfold bind, run, ret. by eexists.
Qed.

Lemma purge_total t : ∃ t', _purge_broken_build_deps cfg w t = Some (tt, t').
Proof.
  unfold _purge_broken_build_deps. case_decide; [by eexists|].
  edestruct (wrap_total) as (c1 & t1 & H1).
  rewrite (bind_Some _ _ _ _ _ H1). unfold bind, run, ret. by eexists.
Qed.

Lemma terminate_total pids t :
  ∃ t', _terminate_processes w pids t = Some (tt, t').
Proof.
  unfold _terminate_processes. destruct (filter _ pids) as [|v0 vs]; [by eexists|].
  unfold bind at 1. rewrite kill_all_trace.
  unfold bind at 1, emit at 1. unfold bind at 1.
  edestruct (still_alive_trace w (v0 :: vs)) as (alive & -> & _).
  destruct alive as [|a0 alive]; [by eexists|].
  unfold bind at 1. rewrite kill_all_trace. unfold bind at 1.
  edestruct (still_alive_trace w (a0 :: alive)) as (alive' & -> & _).
  by eexists.
Qed.

Lemma print_details_total pids t :
  ∃ t', _maybe_print_process_details w pids t = Some (tt, t').
Proof.
  unfold _maybe_print_process_details. destruct pids; [by eexists|].
  unfold bind, run, ret. by eexists.
Qed.

(** Without waiting for the lock [_handle_lock_and_recover] returns, with
    no retry or with a retry that counts. *)
Lemma handle_lock_counts rounds cmd combined_output t :
  APT_WAIT_FOR_LOCK cfg = false →
  ∃ r t', _handle_lock_and_recover cfg w rounds cmd combined_output t
          = Some (r, t')
          ∧ (r = (false, false) ∨ r = (true, true)).
Proof.
  intros Hwait. unfold _handle_lock_and_recover.
  destruct (negb _ || existsb _ _); cbn [negb]; [|eexists _, _; by split; [|left]].
  destruct (print_details_total (_extract_lock_pids w combined_output) t)
    as (t1 & H1).
  rewrite (bind_Some _ _ _ _ _ H1).
  unfold bind at 1, _print_related_package_processes at 1, bind at 1, run at 1,
    ret at 1.
  unfold bind at 1, _wait_for_lock_release at 1. rewrite Hwait. cbn [negb orb].
  unfold ret at 1.
  destruct (AUTO_KILL_LOCK_HOLDERS cfg); cbn [negb];
    [|eexists _, _; by split; [|left]].
  edestruct terminate_total as (t2 & H2).
  rewrite (bind_Some _ _ _ _ _ H2).
  edestruct fix_dpkg_state_total as (t3 & H3). rewrite (bind_Some _ _ _ _ _ H3).
  edestruct purge_total as (t4 & H4). rewrite (bind_Some _ _ _ _ _ H4).
  edestruct fix_dpkg_state_total as (t5 & H5). rewrite (bind_Some _ _ _ _ _ H5).
  eexists _, _. by split; [|right].
Qed.

Lemma appends_wrap cmd enable : appends (wrap_with_apt_lock cfg w cmd enable).
Proof.
  unfold wrap_with_apt_lock. apply appends_if; [apply appends_ret|].
  apply appends_bind; [by intros t y t' [= <- <-]; eexists|].
  intros made. apply appends_if; [apply appends_ret|].
  repeat (match goal with
          | |- appends (match ?x with _ => _ end) => destruct x
          end); apply appends_ret.
Qed.

Lemma appends_kill_all victims sig : appends (kill_all victims sig).
Proof.
  induction victims as [|pid victims IH]; [apply appends_ret|].
  apply appends_bind; [apply appends_emit|done].
Qed.

Lemma appends_still_alive victims : appends (still_alive w victims).
Proof.
  induction victims as [|pid victims IH]; [apply appends_ret|].
  apply appends_bind; [by intros t y t' [= <- <-]; eexists|]. intros alive.
  apply appends_bind; [done|]. intros rest. apply appends_ret.
Qed.

Lemma appends_terminate pids : appends (_terminate_processes w pids).
Proof.
  unfold _terminate_processes. destruct (filter _ pids); [apply appends_ret|].
  apply appends_bind; [apply appends_kill_all|]. intros _.
  apply appends_bind; [apply appends_emit|]. intros _.
  apply appends_bind; [apply appends_still_alive|]. intros victims.
  destruct victims; [apply appends_ret|].
  apply appends_bind; [apply appends_kill_all|]. intros _.
  apply appends_bind; [apply appends_still_alive|]. intros _. apply appends_ret.
Qed.

Lemma appends_probe_locks locks : appends (probe_locks w locks).
Proof.
  induction locks as [|lock locks IH]; [apply appends_ret|].
  apply appends_bind; [apply appends_ask|]. intros there.
  apply appends_if; [done|].
  apply appends_bind; [apply appends_run|]. intros proc.
  apply appends_if; [apply appends_ret|done].
Qed.

Lemma appends_wait_loop rounds start : appends (wait_loop cfg w rounds start).
Proof.
  induction rounds as [|rounds IH]; [apply appends_out_of_rounds|].
  apply appends_bind; [apply appends_ask|]. intros now.
  apply appends_if; [|apply appends_ret].
  apply appends_bind; [apply appends_probe_locks|]. intros busy.
  apply appends_if; [apply appends_ret|].
  apply appends_bind; [apply appends_emit|done].
Qed.

Lemma appends_fix_dpkg_state : appends (_fix_dpkg_state cfg w).
Proof.
  unfold _fix_dpkg_state.
  apply appends_bind; [apply appends_wrap|]. intros c1.
  apply appends_bind; [apply appends_run|]. intros _.
  apply appends_bind; [apply appends_wrap|]. intros c2.
  apply appends_bind; [apply appends_run|]. intros _. apply appends_ret.
Qed.

Lemma appends_handle rounds cmd combined_output :
  appends (_handle_lock_and_recover cfg w rounds cmd combined_output).
Proof.
  unfold _handle_lock_and_recover. apply appends_if; [apply appends_ret|].
  apply appends_bind.
  { unfold _maybe_print_process_details.
    destruct (_extract_lock_pids w combined_output); [apply appends_ret|].
    apply appends_bind; [apply appends_run|]. intros _. apply appends_ret. }
  intros _. apply appends_bind.
  { apply appends_bind; [apply appends_run|]. intros _. apply appends_ret. }
  intros _. apply appends_bind.
  { unfold _wait_for_lock_release. apply appends_if; [apply appends_ret|].
    apply appends_bind; [apply appends_ask|]. intros start.
    apply appends_wait_loop. }
  intros released. apply appends_if; [apply appends_ret|].
  apply appends_if; [apply appends_ret|].
  apply appends_bind; [apply appends_terminate|]. intros _.
  apply appends_bind; [apply appends_fix_dpkg_state|]. intros _.
  apply appends_bind.
  { unfold _purge_broken_build_deps. case_decide; [apply appends_ret|].
    apply appends_bind; [apply appends_wrap|]. intros c.
    apply appends_bind; [apply appends_run|]. intros _. apply appends_ret. }
  intros _.
  apply appends_bind; [apply appends_fix_dpkg_state|]. intros _.
  apply appends_ret.
Qed.

(** How a call that started at [t] ends with a run of the command: after
    what was done before, the command is wrapped as [wrap_with_apt_lock]
    has it and run; when the run returns 0, its process is returned at
    once; when it fails, the lock is handled for what it printed, and
    its process is raised as [CalledProcessError] with [check], and
    returned without. *)
Definition ends_with_run (cmd : list string) (cwd : option Path)
    (check use_apt_lock : bool) (t : trace) (o : outcome) (t' : trace) : Prop :=
  ∃ before effective_cmd t1,
    wrap_with_apt_lock cfg w cmd use_apt_lock (t ++ before)
    = Some (effective_cmd, t1)
    ∧ let proc := subprocess_run w t1 effective_cmd cwd in
      if decide (returncode proc = 0)
      then o = Returned proc ∧ t' = t1 ++ [Run effective_cmd cwd]
      else o = (if check then CalledProcessError proc else Returned proc)
           ∧ ∃ rounds r,
               _handle_lock_and_recover cfg w rounds cmd
                 (stdout proc +:+ "\\n" +:+ stderr proc)
                 (t1 ++ [Run effective_cmd cwd])
               = Some (r, t').

Lemma retry_loop_ends n cmd cwd check effective_max use_apt_lock :
  APT_WAIT_FOR_LOCK cfg = false →
  ∀ rounds attempts proc t,
    0 ≤ attempts ≤ effective_max →
    Z.to_nat (effective_max - attempts) = n →
    (n < rounds)%nat →
    ∃ o t', retry_loop cfg w rounds cmd cwd check effective_max use_apt_lock
                       attempts proc t = Some (o, t')
            ∧ ends_with_run cmd cwd check use_apt_lock t o t'.
Proof.
  intros Hwait. induction n as [|n IH]; intros rounds attempts proc t Hatt Hn Hr.
  - destruct rounds as [|rounds']; [lia|]. cbn [retry_loop].
    rewrite (proj2 (Z.leb_le _ _)) by lia.
    destruct (wrap_total cmd use_apt_lock t) as (c & t1 & Hwrap).
    rewrite (bind_Some _ _ _ _ _ Hwrap). unfold bind at 1, run at 1.
    set (p := subprocess_run w t1 c cwd).
    destruct (returncode p =? 0) eqn:Erc.
    { eexists _, _. split; [done|]. exists [], c, t1. rewrite app_nil_r.
      split; [done|]. cbn zeta. fold p.
      rewrite decide_True by (by apply Z.eqb_eq). done. }
    destruct (handle_lock_counts rounds' cmd
                (stdout p +:+ "\\n" +:+ stderr p) (t1 ++ [Run c cwd]) Hwait)
      as (r & t2 & Hh & _).
    rewrite (bind_Some _ _ _ _ _ Hh). destruct r as [should_retry consume].
    rewrite (proj2 (Z.ltb_ge _ _)) by lia. cbn [andb].
    eexists _, _. split; [done|]. exists [], c, t1. rewrite app_nil_r.
    split; [done|]. cbn zeta. fold p.
    rewrite decide_False by (by apply Z.eqb_neq). split; [done|]. eauto.
  - destruct rounds as [|rounds']; [lia|]. cbn [retry_loop].
    rewrite (proj2 (Z.leb_le _ _)) by lia.
    destruct (wrap_total cmd use_apt_lock t) as (c & t1 & Hwrap).
    rewrite (bind_Some _ _ _ _ _ Hwrap). unfold bind at 1, run at 1.
    set (p := subprocess_run w t1 c cwd).
    destruct (returncode p =? 0) eqn:Erc.
    { eexists _, _. split; [done|]. exists [], c, t1. rewrite app_nil_r.
      split; [done|]. cbn zeta. fold p.
      rewrite decide_True by (by apply Z.eqb_eq). done. }
    destruct (handle_lock_counts rounds' cmd
                (stdout p +:+ "\\n" +:+ stderr p) (t1 ++ [Run c cwd]) Hwait)
      as (r & t2 & Hh & Hr').
    rewrite (bind_Some _ _ _ _ _ Hh).
    destruct Hr' as [-> | ->].
    + rewrite andb_false_r. eexists _, _. split; [done|].
      exists [], c, t1. rewrite app_nil_r.
      split; [done|]. cbn zeta. fold p.
      rewrite decide_False by (by apply Z.eqb_neq). split; [done|]. eauto.
    + rewrite (proj2 (Z.ltb_lt _ _)) by lia. cbn [andb].
      destruct (IH rounds' (attempts + 1) (Some p) t2) as (o & t' & Hloop & Hend);
        [lia..|].
      exists o, t'. split; [done|].
      destruct (appends_wrap _ _ _ _ _ Hwrap) as [d1 ->].
      destruct (appends_handle _ _ _ _ _ _ Hh) as [d2 ->].
      destruct Hend as (before & c' & t1' & Hwrap' & Hproc).
      exists ((d1 ++ [Run c cwd]) ++ d2 ++ before), c', t1'.
      split; [|done]. rewrite <- Hwrap'. f_equal.
      by rewrite !app_assoc.
Qed.

(** A world in which the command fails each time with a message about the
    lock, while no lock file is in use. *)
Definition fails_on_free_lock (cmd : list string) (cwd : option Path) : Prop :=
  (∀ t, let proc := subprocess_run w t cmd cwd in
        returncode proc ≠ 0
        ∧ existsb (λ keyword,
                     str_in keyword
                            (lower (stdout proc +:+ "\\n" +:+ stderr proc)))
                  lock_keywords = true)
  ∧ (∀ t lock, lock ∈ LOCK_FILES → lock_exists w t lock = true →
               returncode (subprocess_run w t ["fuser"; lock] None) ≠ 0).

Lemma probe_locks_free cmd cwd locks t :
  fails_on_free_lock cmd cwd → locks ⊆ LOCK_FILES →
  ∃ t', probe_locks w locks t = Some (false, t').
Proof.
  intros [_ Hfree]. revert t.
  induction locks as [|lock locks IH]; intros t Hsub; [by eexists|].
  cbn [probe_locks]. unfold bind at 1, ask at 1.
  destruct (lock_exists w t lock) eqn:Eexists; cbn [negb].
  - unfold bind at 1, run at 1.
    rewrite (proj2 (Z.eqb_neq _ _)) by (apply Hfree; [set_solver|done]).
    apply IH. set_solver.
  - apply IH. set_solver.
Qed.

Lemma handle_lock_released cmd cwd rounds t :
  APT_WAIT_FOR_LOCK cfg = true → 0 < APT_LOCK_WAIT_TIMEOUT cfg →
  fails_on_free_lock cmd cwd →
  let proc := subprocess_run w t cmd cwd in
  let r := _handle_lock_and_recover cfg w rounds cmd
             (stdout proc +:+ "\\n" +:+ stderr proc) (t ++ [Run cmd cwd]) in
  r = None ∨ ∃ t', r = Some ((true, false), t').
Proof.
  intros Hwait Htimeout Hworld proc r. subst r.
  destruct Hworld as [Hfails Hfree]. destruct (Hfails t) as [_ Hkey].
  fold proc in Hkey.
  destruct (print_details_total
              (_extract_lock_pids w (stdout proc +:+ "\\n" +:+ stderr proc))
              (t ++ [Run cmd cwd])) as (t1 & H1).
  destruct (probe_locks_free cmd cwd LOCK_FILES
              (t1 ++ [Run ["ps"; "axo"; "pid,ppid,etimes,cmd"] None]))
    as (t2 & H2); [by split|done|].
  destruct rounds as [|rounds']; [left|right; exists t2];
    unfold _handle_lock_and_recover;
    rewrite Hkey, orb_true_r; cbn [negb];
    rewrite (bind_Some _ _ _ _ _ H1);
    unfold bind at 1, _print_related_package_processes at 1, bind at 1,
      run at 1, ret at 1;
    unfold bind at 1, _wait_for_lock_release at 1; rewrite Hwait;
    cbn [negb orb]; rewrite (proj2 (Z.leb_gt _ _)) by lia;
    unfold bind at 1, ask at 1; [done|].
  cbn [wait_loop]. unfold bind at 1, ask at 1.
  rewrite Z.sub_diag, (proj2 (Z.ltb_lt _ _)) by lia.
  rewrite (bind_Some _ _ _ _ _ H2). cbn [negb]. unfold ret. reflexivity.
Qed.

End lock_facts.

(** X21. Without waiting for the lock, and where each command that is
    started gives its process, [run_with_lock_retries] returns after at
    most [effective_max + 1] rounds: with a negative [effective_max] it
    runs nothing and ends with [UnboundLocalError]; otherwise it ends
    with a run of the command as [wrap_with_apt_lock] has it, and what
    it returns is the process of that run: returned at once when its
    code is 0, and when it fails, after the lock was handled for it,
    raised as [CalledProcessError] with [check] and returned without. *)
Theorem lock_retries_end cfg w rounds cmd cwd check max_retries use_apt_lock t :
  APT_WAIT_FOR_LOCK cfg = false →
  let effective_max := default (APT_MAX_RETRIES cfg) max_retries in
  (Z.to_nat effective_max < rounds)%nat →
  ∃ o t', run_with_lock_retries cfg w rounds cmd cwd check max_retries
                                use_apt_lock t = Some (o, t')
          ∧ if decide (effective_max < 0) then o = UnboundLocalError ∧ t' = t
            else ends_with_run cfg w cmd cwd check use_apt_lock t o t'.
Proof.
  intros Hwait effective_max Hrounds. unfold run_with_lock_retries.
  fold effective_max. case_decide as Hneg.
  - destruct rounds as [|rounds']; [lia|]. cbn [retry_loop].
    rewrite (proj2 (Z.leb_gt _ _)) by lia. by eexists _, _.
  - apply (retry_loop_ends cfg w (Z.to_nat effective_max)); [done|lia|f_equal; lia|done].
Qed.

(** A run without waiting, with auto-kill, in which [apt-get] fails each
    time because the lock is held. *)
Definition kill_no_wait : config :=
  mkConfig true "/mnt/lfb_ws/.locks/apt.lock" 3600 false 600 5 3
           "agiros-pixiu-canopen-core-build-deps".

Lemma lock_retries_end_witness :
  let effective_max := default (APT_MAX_RETRIES kill_no_wait) None in
  ∃ o t', run_with_lock_retries kill_no_wait lock_held 4
                                ["apt-get"; "update"] None true None false []
          = Some (o, t')
          ∧ if decide (effective_max < 0) then o = UnboundLocalError ∧ t' = []
            else ends_with_run kill_no_wait lock_held ["apt-get"; "update"]
                               None true false [] o t'.
Proof.
  apply (lock_retries_end kill_no_wait lock_held 4 ["apt-get"; "update"] None
           true None false []).
  - reflexivity.
  - simpl. lia.
Defined.

(** X22. With waiting for the lock, the number of retries has no bound: when
    the command fails each time with a message about the lock while no
    lock file is in use, [run_with_lock_retries] runs it again without
    counting an attempt, and the rounds allowed never suffice, however
    many they are. *)
Theorem lock_retries_without_end cfg w rounds cmd cwd check max_retries t :
  APT_WAIT_FOR_LOCK cfg = true → 0 < APT_LOCK_WAIT_TIMEOUT cfg →
  0 < default (APT_MAX_RETRIES cfg) max_retries →
  fails_on_free_lock w cmd cwd →
  run_with_lock_retries cfg w rounds cmd cwd check max_retries false t = None.
Proof.
  intros Hwait Htimeout Hmax Hworld. unfold run_with_lock_retries.
  set (effective_max := default (APT_MAX_RETRIES cfg) max_retries) in *.
  generalize (None : option CompletedProcess) as proc. revert t.
  induction rounds as [|rounds' IH]; intros t proc; [done|].
  cbn [retry_loop]. rewrite (proj2 (Z.leb_le _ _)) by lia.
  unfold bind at 1, wrap_with_apt_lock at 1. cbn [negb]. unfold ret at 1.
  unfold bind at 1, run at 1.
  destruct (proj1 Hworld t) as [Hrc _].
  rewrite (proj2 (Z.eqb_neq _ _) Hrc).
  destruct (handle_lock_released cfg w cmd cwd rounds' t Hwait Htimeout Hworld)
    as [Hnone|[t' Hsome]].
  - by rewrite (bind_None _ _ _ Hnone).
  - rewrite (bind_Some _ _ _ _ _ Hsome).
    rewrite (proj2 (Z.ltb_lt _ _)) by lia. cbn [andb]. apply IH.
Qed.

(** A run with waiting for the lock, in which [apt-get] reports each time
    that [dpkg] was interrupted, while there is no lock file. *)
Definition wait_for_lock : config :=
  mkConfig true "/mnt/lfb_ws/.locks/apt.lock" 3600 true 600 5 3
           "agiros-pixiu-canopen-core-build-deps".

Definition dpkg_interrupted : world :=
  mkWorld (λ _ cmd _,
             match cmd with
             | "apt-get" :: _ =>
               mkProc 100 ""
                      "E: dpkg was interrupted, you must manually run 'dpkg --configure -a' to correct the problem."
             | _ => mkProc 0 "" ""
             end)
          (λ _ _, true) (λ p, p) (λ _ _, true) 1 0 (λ _, 0) (λ _ _, false)
          (λ _ _, []) (λ _, None).

Lemma lock_retries_without_end_witness :
  run_with_lock_retries wait_for_lock dpkg_interrupted 1000
                        ["apt-get"; "install"; "-y"; "foo"] None true None
                        false []
  = None.
Proof.
  apply (lock_retries_without_end wait_for_lock dpkg_interrupted 1000
           ["apt-get"; "install"; "-y"; "foo"] None true None []).
  - reflexivity.
  - simpl. lia.
  - simpl. lia.
  - split.
    + intros t. split; [discriminate|reflexivity].
    + intros t lock _ Hexists. discriminate Hexists.
Defined.

End Runner.

(** * Fields of control files and of the environment *)

Module Fields.
Import Py DepSort.

(** *** Facts about [split], [strip] and the like *)

Lemma contains_char_app sep a b :
  contains_char sep (a +:+ b) = contains_char sep a || contains_char sep b.
Proof.
  induction a as [|x a IH]; [done|]. rewrite Menu.append_cons. simpl.
  by rewrite IH, orb_assoc.
Qed.

Lemma split_app_sep sep a rest :
  contains_char sep a = false →
  split sep (a +:+ String sep rest) = a :: split sep rest.
Proof.
  induction a as [|x a IH].
  - intros _. simpl. unfold char_eqb. by rewrite Ascii.eqb_refl.
  - intros [Hx Ha]%orb_false_iff. rewrite Menu.append_cons. simpl.
    by rewrite Hx, IH.
Qed.

(** [sep.join(parts)] for a separator of one character. *)
Fixpoint join_char (sep : ascii) (parts : list string) : string :=
  match parts with
  | [] => ""
  | [x] => x
  | x :: parts => x +:+ String sep (join_char sep parts)
  end.

Lemma split_join sep parts :
  parts ≠ [] → (∀ p, p ∈ parts → contains_char sep p = false) →
  split sep (join_char sep parts) = parts.
Proof.
  induction parts as [|x parts IH]; [done|]. intros _ Hparts.
  destruct parts as [|y parts].
  - apply split_whole, Hparts. left.
  - change (join_char sep (x :: y :: parts))
      with (x +:+ String sep (join_char sep (y :: parts))).
    rewrite split_app_sep by (apply Hparts; left).
    f_equal. apply IH; [done|]. intros p Hp. apply Hparts. by right.
Qed.

Lemma before_char_app sep a b :
  contains_char sep a = false →
  before_char sep (a +:+ b) = a +:+ before_char sep b.
Proof.
  unfold before_char. induction a as [|x a IH]; [done|].
  simpl. intros [Hx Ha]%orb_false_iff. rewrite Menu.append_cons. simpl. rewrite Hx.
  specialize (IH Ha). destruct (split_once sep (a +:+ b)) as [h t].
  simpl in *. by rewrite IH.
Qed.

Lemma before_char_without sep s : contains_char sep (before_char sep s) = false.
Proof.
  unfold before_char. induction s as [|x s IH]; [done|]. simpl.
  destruct (char_eqb x sep) eqn:E; [done|].
  destruct (split_once sep s) as [h t]. simpl in *. by rewrite E, IH.
Qed.

(** The first character of a string. *)
Definition head_char (s : string) : option ascii :=
  match s with
  | EmptyString => None
  | String a _ => Some a
  end.

Lemma before_char_head sep s :
  before_char sep s = "" ∨ head_char (before_char sep s) = head_char s.
Proof.
  unfold before_char. destruct s as [|x s]; [by left|]. simpl.
  destruct (char_eqb x sep); [by left|].
  destruct (split_once sep s) as [h t]. by right.
Qed.

Lemma rstrip_head s : rstrip s = "" ∨ head_char (rstrip s) = head_char s.
Proof.
  destruct s as [|x s]; [by left|]. simpl.
  destruct (rstrip s); [destruct (isspace x); [by left|by right]|by right].
Qed.

Lemma rstrip_without sep s :
  contains_char sep s = false → contains_char sep (rstrip s) = false.
Proof.
  induction s as [|x s IH]; [done|]. simpl. intros [Hx Hs]%orb_false_iff.
  specialize (IH Hs). destruct (rstrip s) as [|y r].
  - destruct (isspace x); [done|]. simpl. by rewrite Hx.
  - simpl in *. by rewrite Hx, IH.
Qed.

Lemma lstrip_spaces ws s : lstrip ws = "" → lstrip (ws +:+ s) = lstrip s.
Proof.
  induction ws as [|x ws IH]; [done|]. simpl.
  destruct (isspace x); [done|discriminate].
Qed.

Lemma spaces_without sep ws :
  isspace sep = false → lstrip ws = "" → contains_char sep ws = false.
Proof.
  intros Hsep. induction ws as [|x ws IH]; [done|]. simpl.
  destruct (isspace x) eqn:E; [|discriminate]. intros H. rewrite (IH H).
  destruct (char_eqb x sep) eqn:Ex; [|done].
  apply Ascii.eqb_eq in Ex. congruence.
Qed.

Lemma rstrip_cons x s :
  rstrip (String x s)
  = match rstrip s with
    | EmptyString => if isspace x then EmptyString else String x EmptyString
    | r => String x r
    end.
Proof. reflexivity. Qed.

Lemma rstrip_app_fixed a b :
  a ≠ "" → rstrip a = a → rstrip (a +:+ b) = a +:+ rstrip b.
Proof.
  induction a as [|x a IH]; [done|]. intros _ H.
  rewrite Menu.append_cons, rstrip_cons. rewrite rstrip_cons in H.
  destruct a as [|y a].
  - change ("" +:+ b) with b. change ("" +:+ rstrip b) with (rstrip b).
    simpl in H. destruct (isspace x); [discriminate|]. by destruct (rstrip b).
  - assert (rstrip (String y a) = String y a) as Hfix.
    { destruct (rstrip (String y a)) as [|z r] eqn:E.
      - destruct (isspace x); discriminate.
      - congruence. }
    rewrite IH by done. by rewrite Menu.append_cons.
Qed.

(** *** The clauses of a dependency field *)

(** White space only. *)
Definition all_space (ws : string) : Prop := lstrip ws = "".

(** A package name as [_parse_depends] returns it: not empty, of the
    characters [A-Za-z0-9+_.-] only. *)
Definition is_name (n : string) : Prop :=
  n ≠ "" ∧ take_pkgname n = n ∧ contains_char ":" n = false.

(** What may follow the name in a clause: nothing, or a text whose first
    character is a colon or no character of a name. *)
Definition good_rest (r : string) : Prop :=
  match head_char r with
  | None => True
  | Some a => pkgname_char a = false ∨ a = ":"%char
  end.

Definition no_space_head (r : string) : Prop :=
  match head_char r with
  | None => True
  | Some a => isspace a = false
  end.

(** A clause of a dependency field: white space, a name or nothing, and
    the rest, in ASCII, as in [ libfoo-dev (>= 1.0)], [bar | baz],
    [python3:any] and [${misc:Depends}]. *)
Record clause : Type := mkClause {
  leading : string;
  cname : string;
  rest : string
}.

Definition clause_text (cl : clause) : string :=
  leading cl +:+ cname cl +:+ rest cl.

Definition clause_ok (cl : clause) : Prop :=
  all_space (leading cl)
  ∧ (cname cl = "" ∨ is_name (cname cl))
  ∧ good_rest (rest cl)
  ∧ (cname cl = "" → no_space_head (rest cl))
  ∧ contains_char "," (rest cl) = false
  ∧ isascii (rest cl) = true.

(** What [_parse_depends] makes of one part of the value. *)
Definition parse_clause (part : string) : option string :=
  let token := strip (before_char "|" part) in
  let token := strip (before_char "(" token) in
  let token := strip (before_char "[" token) in
  let token := strip (before_char "{" token) in
  let token := if contains_char ":" token
               then strip (before_char ":" token) else token in
  pkgname_re_match token.

Lemma name_char_facts c :
  pkgname_char c = true →
  isspace c = false ∧ c ≠ ","%char ∧ c ≠ "|"%char ∧ c ≠ "("%char
  ∧ c ≠ "["%char ∧ c ≠ "{"%char.
Proof.
  destruct c as [[] [] [] [] [] [] [] []]; vm_compute; intros H;
    try discriminate H; repeat split; discriminate.
Qed.

Lemma take_pkgname_fixed n :
  take_pkgname n = n ↔ ∀ c, contains_char c n = true → pkgname_char c = true.
Proof.
  induction n as [|x n IH]; simpl; [done|]. split.
  - destruct (pkgname_char x) eqn:Ex; [|discriminate]. intros [= Hn] c.
    destruct (char_eqb x c) eqn:Exc.
    + apply Ascii.eqb_eq in Exc as <-. done.
    + simpl. by apply IH.
  - intros H. rewrite (H x) by (unfold char_eqb; by rewrite Ascii.eqb_refl).
    f_equal. apply IH. intros c Hc. apply H. rewrite Hc. apply orb_true_r.
Qed.

Lemma name_without sep n :
  take_pkgname n = n → pkgname_char sep = false → contains_char sep n = false.
Proof.
  intros Hn Hsep. destruct (contains_char sep n) eqn:E; [|done].
  apply (proj1 (take_pkgname_fixed n) Hn) in E. congruence.
Qed.

Lemma name_stripped n : take_pkgname n = n → lstrip n = n ∧ rstrip n = n.
Proof.
  intros Hn. assert (∀ c, contains_char c n = true → isspace c = false) as H.
  { intros c Hc. by apply name_char_facts, (proj1 (take_pkgname_fixed n) Hn). }
  clear Hn. split.
  - destruct n as [|x n]; [done|]. simpl.
    rewrite (H x); [done|]. simpl. unfold char_eqb. by rewrite Ascii.eqb_refl.
  - induction n as [|x n IH]; [done|]. rewrite rstrip_cons.
    rewrite IH by (intros c Hc; apply H; simpl; rewrite Hc; apply orb_true_r).
    destruct n; [|done].
    rewrite (H x); [done|]. simpl. unfold char_eqb. by rewrite Ascii.eqb_refl.
Qed.

Lemma take_pkgname_app n r :
  take_pkgname n = n → take_pkgname (n +:+ r) = n +:+ take_pkgname r.
Proof.
  induction n as [|x n IH]; [done|]. cbn [take_pkgname].
  destruct (pkgname_char x) eqn:Ex; [|discriminate]. intros [= Hn].
  rewrite !Menu.append_cons. cbn [take_pkgname]. by rewrite Ex, IH.
Qed.

Lemma strip_spaces ws s : all_space ws → strip (ws +:+ s) = strip s.
Proof. intros Hws. unfold strip. by rewrite lstrip_spaces. Qed.

(** One cut of [_parse_depends]: the name stays, and what follows it is
    cut at [sep] and loses its white space at the end. *)
Lemma cut_token sep n r :
  isspace sep = false → contains_char sep n = false →
  (n = "" ∨ is_name n) → good_rest r → (n = "" → no_space_head r) →
  ∃ r', strip (before_char sep (n +:+ r)) = n +:+ r'
        ∧ good_rest r' ∧ (n = "" → no_space_head r')
        ∧ contains_char sep r' = false.
Proof.
  intros Hsep Hn Hname Hgood Hhead. exists (rstrip (before_char sep r)).
  assert (rstrip (before_char sep r) = ""
          ∨ head_char (rstrip (before_char sep r)) = head_char r) as Hh.
  { destruct (rstrip_head (before_char sep r)) as [?|Hr]; [by left|].
    destruct (before_char_head sep r) as [Hb|Hb]; [left|right].
    - by rewrite Hb.
    - by rewrite Hr, Hb. }
  split_and!.
  - rewrite before_char_app by done. unfold strip.
    destruct Hname as [-> |(Hne & Hfix & _)].
    + change ("" +:+ before_char sep r) with (before_char sep r).
      change ("" +:+ rstrip (before_char sep r))
        with (rstrip (before_char sep r)).
      f_equal. specialize (Hhead eq_refl). unfold no_space_head in Hhead.
      destruct (before_char_head sep r) as [-> |Hb]; [done|].
      rewrite <- Hb in Hhead.
      destruct (before_char sep r) as [|a s]; [done|]. simpl in *.
      by rewrite Hhead.
    + destruct (name_stripped n Hfix) as [Hl Hr].
      rewrite lstrip_app by done. by apply rstrip_app_fixed.
  - unfold good_rest in *. destruct Hh as [-> | ->]; done.
  - intros Hempty. specialize (Hhead Hempty). unfold no_space_head in *.
    destruct Hh as [-> | ->]; done.
  - apply rstrip_without, before_char_without.
Qed.

Lemma parse_clause_text cl :
  clause_ok cl →
  parse_clause (clause_text cl)
  = if decide (cname cl = "") then None else Some (cname cl).
Proof.
  destruct cl as [ws n r]. unfold clause_ok, clause_text. cbn [leading cname rest].
  intros (Hws & Hname & Hgood & Hhead & _). unfold parse_clause.
  assert (∀ sep, pkgname_char sep = false → contains_char sep n = false)
    as Hwithout.
  { intros sep Hsep. destruct Hname as [-> |(_ & Hfix & _)]; [done|].
    by apply name_without. }
  rewrite before_char_app by (by apply spaces_without).
  rewrite strip_spaces by done.
  destruct (cut_token "|" n r) as (r1 & -> & Hg1 & Hh1 & _); [done|by apply Hwithout|done..|].
  destruct (cut_token "(" n r1) as (r2 & -> & Hg2 & Hh2 & _); [done|by apply Hwithout|done..|].
  destruct (cut_token "[" n r2) as (r3 & -> & Hg3 & Hh3 & _); [done|by apply Hwithout|done..|].
  destruct (cut_token "{" n r3) as (r4 & -> & Hg4 & Hh4 & _); [done|by apply Hwithout|done..|].
  assert (contains_char ":" n = false) as Hcolon.
  { by destruct Hname as [-> |(_ & _ & ?)]. }
  assert (∃ r5, (if contains_char ":" (n +:+ r4)
                 then strip (before_char ":" (n +:+ r4)) else n +:+ r4)
                = n +:+ r5
                ∧ good_rest r5 ∧ contains_char ":" r5 = false)
    as (r5 & -> & Hg5 & Hc5).
  { destruct (contains_char ":" (n +:+ r4)) eqn:E.
    - destruct (cut_token ":" n r4) as (r5 & -> & Hg5 & _ & Hc5); [done..|].
      by exists r5.
    - exists r4. rewrite contains_char_app, Hcolon in E. done. }
  assert (take_pkgname r5 = "") as Hrest.
  { unfold good_rest in Hg5. destruct r5 as [|a r5]; [done|]. simpl in *.
    apply orb_false_iff in Hc5 as [Ha _].
    destruct Hg5 as [->| ->]; [done|]. by vm_compute in Ha. }
  unfold pkgname_re_match.
  destruct Hname as [-> |(Hne & Hfix & _)].
  - change ("" +:+ r5) with r5. by rewrite Hrest.
  - rewrite take_pkgname_app, Hrest, Menu.append_nil_r by done.
    rewrite decide_False by done. by destruct n.
Qed.

(** X24. [_parse_depends] on the clauses of a dependency field in ASCII,
    joined by commas: it returns the names of the clauses in their order,
    without version, alternatives, architecture and the like; a clause
    that does not start with a name gives nothing. *)
Theorem parse_depends_clauses clauses :
  Forall clause_ok clauses →
  _parse_depends (join_char "," (clause_text <$> clauses))
  = filter (λ n, n ≠ "") (cname <$> clauses).
Proof.
  intros Hok. change (_parse_depends ?v) with (omap parse_clause (split "," v)).
  destruct clauses as [|cl0 clauses0]; [done|].
  set (clauses := cl0 :: clauses0) in *.
  rewrite split_join; [|done|].
  - clearbody clauses. induction Hok as [|cl clauses Hcl Hok IH]; [done|].
    rewrite !fmap_cons. cbn [omap list_omap]. rewrite parse_clause_text by done.
    rewrite filter_cons, IH.
    destruct (decide (cname cl = "")) as [Hempty|Hname].
    + rewrite decide_False; [done|]. by intros Hne.
    + by rewrite decide_True.
  - intros p (cl & -> & Hin)%list_elem_of_fmap.
    rewrite Forall_forall in Hok.
    destruct (Hok cl Hin) as (Hws & Hname & _ & _ & Hrest & _).
    unfold clause_text. rewrite !contains_char_app, Hrest, orb_false_r.
    rewrite (spaces_without "," _ eq_refl Hws).
    destruct Hname as [-> |(_ & Hfix & _)]; [done|].
    by rewrite (name_without "," _ Hfix).
Qed.

(** The clauses of [libfoo-dev (>= 1.0), bar | baz, ${misc:Depends},
    python3:any]. *)
Definition example_clauses : list clause :=
  [mkClause "" "libfoo-dev" " (>= 1.0)"; mkClause " " "bar" " | baz";
   mkClause " " "" "${misc:Depends}"; mkClause " " "python3" ":any"].

Lemma parse_depends_clauses_witness :
  _parse_depends (join_char "," (clause_text <$> example_clauses))
  = filter (λ n, n ≠ "") (cname <$> example_clauses).
Proof.
  apply (parse_depends_clauses example_clauses).
  unfold example_clauses, clause_ok, all_space, is_name, good_rest,
    no_space_head.
  repeat apply Forall_cons_2; [..|apply Forall_nil_2]; cbn [leading cname rest];
    (split_and!;
     [reflexivity
     |(by left) || (right; split_and!; [discriminate|reflexivity..])
     |simpl; ((left; reflexivity) || (right; reflexivity))
     |(intros _; reflexivity) || (intros H; discriminate H)
     |reflexivity
     |reflexivity]).
Defined.

Lemma lstrip_without sep s :
  contains_char sep s = false → contains_char sep (lstrip s) = false.
Proof.
  induction s as [|x s IH]; [done|]. simpl.
  intros [Hx Hs]%orb_false_iff. destruct (isspace x); [by apply IH|].
  simpl. by rewrite Hx, Hs.
Qed.

Lemma take_pkgname_without sep s :
  contains_char sep s = false → contains_char sep (take_pkgname s) = false.
Proof.
  induction s as [|x s IH]; [done|]. cbn [take_pkgname contains_char].
  intros [Hx Hs]%orb_false_iff. destruct (pkgname_char x); [|done].
  cbn [contains_char]. by rewrite Hx, IH.
Qed.

Lemma take_pkgname_twice s : take_pkgname (take_pkgname s) = take_pkgname s.
Proof.
  induction s as [|x s IH]; [done|]. cbn [take_pkgname].
  destruct (pkgname_char x) eqn:Ex; [|done].
  cbn [take_pkgname]. by rewrite Ex, IH.
Qed.

(** X23. Whatever the value of the field, [_parse_depends] returns names only:
    none is empty, and all are made of the characters [A-Za-z0-9+_.-],
    so that no version, alternative, architecture or white space is left
    in them. *)
Theorem parse_depends_names value : Forall is_name (_parse_depends value).
Proof.
  change (_parse_depends value) with (omap parse_clause (split "," value)).
  apply Forall_forall. intros d (part & _ & Hd)%list_elem_of_omap.
  unfold parse_clause in Hd. cbn zeta in Hd.
  set (token4 := strip (before_char "{" _)) in Hd.
  set (token := if contains_char ":" token4 then _ else _) in Hd.
  assert (contains_char ":" token = false) as Hcolon.
  { unfold token. destruct (contains_char ":" token4) eqn:E; [|done].
    unfold strip. apply rstrip_without, lstrip_without, before_char_without. }
  unfold pkgname_re_match in Hd.
  destruct (take_pkgname token) as [|a m] eqn:Em; [done|].
  injection Hd as <-. rewrite <- Em. split_and!.
  - by rewrite Em.
  - apply take_pkgname_twice.
  - by apply take_pkgname_without.
Qed.

(** *** The paragraphs of a control file *)

Lemma rstrip_empty_lstrip v : rstrip v = "" → lstrip v = "".
Proof.
  induction v as [|x v IH]; [done|]. rewrite rstrip_cons. simpl.
  destruct (rstrip v); [|discriminate].
  destruct (isspace x); [by intros _; apply IH|discriminate].
Qed.

Lemma rstrip_twice v : rstrip (rstrip v) = rstrip v.
Proof.
  induction v as [|x v IH]; [done|]. rewrite rstrip_cons.
  destruct (rstrip v) as [|y r] eqn:E.
  - destruct (isspace x) eqn:Ex; [done|]. simpl. by rewrite Ex.
  - rewrite rstrip_cons, IH. done.
Qed.

Lemma lstrip_rstrip v : lstrip (rstrip v) = rstrip (lstrip v).
Proof.
  induction v as [|x v IH]; [done|]. rewrite rstrip_cons.
  destruct (isspace x) eqn:Ex.
  - cbn [lstrip]. rewrite Ex. destruct (rstrip v) as [|y r] eqn:E.
    + by rewrite (rstrip_empty_lstrip v E).
    + rewrite <- IH. cbn [lstrip]. by rewrite Ex.
  - cbn [lstrip]. rewrite Ex, rstrip_cons.
    destruct (rstrip v); cbn [lstrip]; by rewrite Ex.
Qed.

Lemma strip_rstrip v : strip (rstrip v) = strip v.
Proof. unfold strip. by rewrite lstrip_rstrip, rstrip_twice. Qed.

(** A text without the characters at which [splitlines] ends a line. *)
Fixpoint no_break (s : string) : bool :=
  match s with
  | EmptyString => true
  | String c s' => negb (is_linebreak c) && no_break s'
  end.

(** The text of the lines [ls], each ended by a line feed. *)
Definition unlines (ls : list string) : string :=
  foldr (λ l rest, l +:+ String "010" rest) "" ls.

Lemma splitlines_line l rest :
  no_break l = true →
  splitlines (l +:+ String "010" rest) = l :: splitlines rest.
Proof.
  induction l as [|c l IH].
  - intros _. change ("" +:+ String "010" rest) with (String "010" rest).
    by destruct rest.
  - cbn [no_break]. intros [Hc Hl]%andb_true_iff. rewrite Menu.append_cons.
    cbn [splitlines]. apply negb_true_iff in Hc. rewrite Hc.
    by rewrite IH.
Qed.

Lemma splitlines_unlines ls :
  (∀ l, l ∈ ls → no_break l = true) → splitlines (unlines ls) = ls.
Proof.
  induction ls as [|l ls IH]; intros Hls; [done|].
  cbn [unlines foldr]. rewrite splitlines_line by (apply Hls; left).
  f_equal. apply IH. intros l' Hl'. apply Hls. by right.
Qed.

Lemma split_once_app sep a b :
  contains_char sep a = false →
  split_once sep (a +:+ String sep b) = (a, Some b).
Proof.
  induction a as [|x a IH].
  - intros _. change ("" +:+ String sep b) with (String sep b). simpl.
    unfold char_eqb. by rewrite Ascii.eqb_refl.
  - cbn [contains_char]. intros [Hx Ha]%orb_false_iff.
    rewrite Menu.append_cons. cbn [split_once]. by rewrite Hx, IH.
Qed.

(** A field of a paragraph: its name, the text after the colon on its
    first line, and the lines that continue it. *)
Record field : Type := mkField {
  fkey : string;
  fvalue : string;
  continued : list string
}.

(** The lines of a field in the file. *)
Definition field_lines (f : field) : list string :=
  (fkey f +:+ String ":" (fvalue f)) :: continued f.

(** The value that [_split_paragraphs] gives the field. *)
Definition field_value (f : field) : string :=
  foldl (λ v line, v +:+ " " +:+ strip line) (strip (fvalue f)) (continued f).

(** A field as a control file has it: a name without white space around
    it and without colon, a first line, and continuation lines that start
    with white space and are not blank, all in ASCII. *)
Definition field_ok (f : field) : Prop :=
  fkey f ≠ "" ∧ strip (fkey f) = fkey f ∧ contains_char ":" (fkey f) = false
  ∧ no_break (fkey f) = true ∧ no_break (fvalue f) = true
  ∧ (∀ line, line ∈ continued f →
             no_break line = true ∧ strip line ≠ ""
             ∧ ∃ a, head_char line = Some a ∧ isspace a = true)
  ∧ isascii (fkey f) = true ∧ isascii (fvalue f) = true
  ∧ ∀ line, line ∈ continued f → isascii line = true.

(** The map of a paragraph: a later field of the same name replaces an
    earlier one. *)
Definition paragraph_map (current : gmap string string) (p : list field)
  : gmap string string :=
  foldl (λ m f, <[fkey f := field_value f]> m) current p.

(** The lines of paragraphs with an empty line between them. *)
Fixpoint paragraph_lines (ps : list (list field)) : list string :=
  match ps with
  | [] => []
  | [p] => p ≫= field_lines
  | p :: ps => (p ≫= field_lines) ++ "" :: paragraph_lines ps
  end.

Lemma head_not_space_strip s a :
  head_char s = Some a → isspace a = false → lstrip s = s ∧ strip s ≠ "".
Proof.
  destruct s as [|x s]; [done|]. intros [= ->] Ha. unfold strip.
  cbn [lstrip]. rewrite Ha. split; [done|]. rewrite rstrip_cons.
  destruct (rstrip s); [by rewrite Ha|done].
Qed.

Lemma strip_fixed_head s :
  s ≠ "" → strip s = s → ∃ a, head_char s = Some a ∧ isspace a = false.
Proof.
  intros Hs [Hl _]%strip_fixed. destruct s as [|x s]; [done|].
  exists x. split; [done|]. cbn [lstrip] in Hl.
  destruct (isspace x) eqn:E; [|done].
  pose proof (lstrip_length s) as H. rewrite Hl in H. simpl in H. lia.
Qed.

Lemma step_field_line ps current ck f :
  field_ok f →
  split_paragraphs_step (ps, current, ck) (fkey f +:+ String ":" (fvalue f))
  = (ps, <[fkey f := strip (fvalue f)]> current, Some (fkey f)).
Proof.
  intros (Hne & Hstrip & Hcolon & _).
  destruct (strip_fixed_head _ Hne Hstrip) as (a & Ha & Hspace).
  pose proof (strip_fixed _ Hstrip) as [Hl Hr].
  unfold split_paragraphs_step.
  assert (rstrip (fkey f +:+ String ":" (fvalue f))
          = fkey f +:+ String ":" (rstrip (fvalue f))) as ->.
  { change (String ":" (fvalue f)) with (String ":" "" +:+ fvalue f).
    rewrite Menu.append_assoc, rstrip_app_fixed.
    - by rewrite <- Menu.append_assoc.
    - by destruct (fkey f).
    - by apply rstrip_snoc. }
  assert (head_char (fkey f +:+ String ":" (rstrip (fvalue f))) = Some a)
    as Hhead by (by destruct (fkey f)).
  destruct (head_not_space_strip _ _ Hhead Hspace) as [_ Hnb].
  rewrite decide_False by done.
  destruct (fkey f +:+ String ":" (rstrip (fvalue f))) as [|x l] eqn:E; [done|].
  injection Hhead as ->. rewrite Hspace. rewrite <- E.
  rewrite split_once_app by done. by rewrite Hstrip, strip_rstrip.
Qed.

Lemma step_continued ps current key line :
  key ≠ "" →
  no_break line = true ∧ strip line ≠ ""
  ∧ (∃ a, head_char line = Some a ∧ isspace a = true) →
  split_paragraphs_step (ps, current, Some key) line
  = (ps, <[key := default "" (current !! key) +:+ " " +:+ strip line]> current,
     Some key).
Proof.
  intros Hkey (_ & Hnb & a & Ha & Hspace). unfold split_paragraphs_step.
  rewrite strip_rstrip, decide_False by done.
  assert (head_char (rstrip line) = Some a) as Hhead.
  { destruct (rstrip_head line) as [E|E]; [|by rewrite E].
    rewrite <- strip_rstrip, E in Hnb. done. }
  destruct (rstrip line) as [|x l] eqn:E; [done|].
  injection Hhead as ->. by rewrite Hspace, decide_False.
Qed.

Lemma steps_field ps current ck f :
  field_ok f →
  foldl split_paragraphs_step (ps, current, ck) (field_lines f)
  = (ps, <[fkey f := field_value f]> current, Some (fkey f)).
Proof.
  intros Hf. unfold field_lines, field_value. cbn [foldl].
  rewrite step_field_line by done.
  destruct Hf as (Hne & _ & _ & _ & _ & Hcont & _).
  revert Hcont. generalize (strip (fvalue f)) as v.
  induction (continued f) as [|line lines IH]; intros v Hcont; [done|].
  cbn [foldl]. rewrite step_continued by (done || apply Hcont; left).
  rewrite lookup_insert_eq, insert_insert_eq. cbn [default].
  apply IH. intros l Hl. apply Hcont. by right.
Qed.

Lemma steps_paragraph ps current ck p :
  Forall field_ok p →
  foldl split_paragraphs_step (ps, current, ck) (p ≫= field_lines)
  = (ps, paragraph_map current p,
     match last p with Some f => Some (fkey f) | None => ck end).
Proof.
  intros Hp. revert current ck.
  induction Hp as [|f p Hf Hp IH]; intros current ck; [done|].
  rewrite bind_cons, foldl_app, steps_field by done. rewrite IH.
  unfold paragraph_map. cbn [foldl]. f_equal.
  rewrite last_cons. by destruct (last p).
Qed.

Lemma paragraph_map_not_empty current p :
  p ≠ [] → paragraph_map current p ≠ ∅.
Proof.
  intros Hp. destruct p as [|f p _] using rev_ind; [done|].
  unfold paragraph_map. rewrite foldl_app. cbn [foldl].
  apply insert_non_empty.
Qed.

(** X25. [_split_paragraphs] on the text in ASCII of paragraphs that are
    separated by an empty line: it returns one map for each paragraph, in
    their order, which gives each field the text after its colon, without
    the white space around it, followed by its continuation lines, each
    without the white space around it and after one blank. *)
Theorem split_paragraphs_fields (paragraphs : list (list field)) :
  Forall (λ p, p ≠ [] ∧ Forall field_ok p) paragraphs →
  _split_paragraphs (unlines (paragraph_lines paragraphs))
  = paragraph_map ∅ <$> paragraphs.
Proof.
  intros Hok. unfold _split_paragraphs.
  rewrite splitlines_unlines.
  2:{ intros l Hl. induction Hok as [|p ps [_ Hp] Hok IH];
        [by apply elem_of_nil in Hl|].
      assert (l ∈ p ≫= field_lines → no_break l = true) as Hfield.
      { intros (f & Hlf & Hf)%list_elem_of_bind.
        rewrite Forall_forall in Hp.
        destruct (Hp f Hf) as (_ & _ & Hc & Hk & Hv & Hcont & _).
        apply elem_of_cons in Hlf as [->|Hlf]; [|by apply Hcont].
        clear -Hk Hv. induction (fkey f) as [|x k IH]; [done|].
        rewrite Menu.append_cons. cbn [no_break] in *.
        apply andb_true_iff in Hk as [-> Hk]. by apply IH. }
      destruct ps as [|p' ps]; [by apply Hfield|].
      change (paragraph_lines (p :: p' :: ps))
        with ((p ≫= field_lines) ++ "" :: paragraph_lines (p' :: ps)) in Hl.
      apply elem_of_app in Hl as [Hl|[->|Hl]%elem_of_cons];
        [by apply Hfield|done|by apply IH]. }
  assert (∀ done_ ck,
            paragraphs ≠ [] →
            ∃ current ck',
              foldl split_paragraphs_step (done_, ∅, ck)
                    (paragraph_lines paragraphs)
              = (done_ ++ (paragraph_map ∅ <$> removelast paragraphs),
                 current, ck')
              ∧ Some current = paragraph_map ∅ <$> last paragraphs) as Hfold.
  { induction Hok as [|p ps [Hne Hp] Hok IH]; intros done_ ck Hps; [done|].
    destruct ps as [|p' ps].
    - cbn [paragraph_lines]. rewrite steps_paragraph by done.
      eexists _, _. split; [|done]. by rewrite app_nil_r.
    - change (paragraph_lines (p :: p' :: ps))
        with ((p ≫= field_lines) ++ "" :: paragraph_lines (p' :: ps)).
      rewrite foldl_app, steps_paragraph by done. cbn [foldl].
      unfold split_paragraphs_step at 2.
      change (strip (rstrip "")) with "". rewrite decide_True by done.
      rewrite decide_False by (by apply paragraph_map_not_empty).
      destruct (IH (done_ ++ [paragraph_map ∅ p]) None) as (cur & ck' & -> & Hcur);
        [done|].
      exists cur, ck'. split; [|done].
      change (removelast (p :: p' :: ps)) with (p :: removelast (p' :: ps)).
      by rewrite fmap_cons, <- app_assoc. }
  destruct paragraphs as [|p0 ps0] using rev_ind; [done|].
  destruct (Hfold [] None) as (cur & ck' & -> & Hcur); [by destruct ps0|].
  rewrite last_snoc in Hcur. injection Hcur as ->.
  rewrite decide_False.
  - rewrite removelast_last, fmap_app. done.
  - apply paragraph_map_not_empty.
    apply Forall_app in Hok as [_ Hp0].
    apply Forall_cons in Hp0 as [[? _] _]. done.
Qed.

(** The paragraphs of a control file with a field that is continued. *)
Definition example_control : list (list field) :=
  [[mkField "Source" " foo" [];
    mkField "Build-Depends" " debhelper," ["  libbar-dev (>= 1.0),"; " baz"]];
   [mkField "Package" " foo" [];
    mkField "Depends" " ${misc:Depends}, bar" []]].

Ltac field_ok_tac :=
  unfold field_ok; cbn [fkey fvalue continued];
  split_and!; [discriminate|reflexivity|reflexivity|reflexivity|reflexivity|
               |reflexivity|reflexivity|];
  intros line Hline;
  repeat (apply elem_of_cons in Hline as [->|Hline];
          [(split_and!; [reflexivity|discriminate|by eexists]) || reflexivity|]);
  by apply elem_of_nil in Hline.

Lemma example_control_ok :
  Forall (λ p, p ≠ [] ∧ Forall field_ok p) example_control.
Proof.
  unfold example_control.
  repeat (apply Forall_cons_2;
          [split; [discriminate|];
           repeat (apply Forall_cons_2; [field_ok_tac|]); apply Forall_nil_2|]).
  apply Forall_nil_2.
Qed.

Lemma split_paragraphs_fields_witness :
  _split_paragraphs (unlines (paragraph_lines example_control))
  = paragraph_map ∅ <$> example_control.
Proof.
  apply (split_paragraphs_fields example_control). exact example_control_ok.
Defined.

(** *** Search paths in the environment *)

(** [MenuState._prepend_env_path], on the environment as a map. *)
Definition _prepend_env_path (env : gmap string string) (key : string)
    (new_value : option string) : gmap string string :=
  match new_value with
  | None => env
  | Some new_value =>
    if decide (new_value = "") then env
    else
      let existing := default "" (env !! key) in
      let parts := filter (λ item, item ≠ "") (split ":" existing) in
      let parts := filter (λ item, item ≠ new_value) parts in
      <[key := match parts with
               | [] => new_value
               | _ => join_char ":" (new_value :: parts)
               end]> env
  end.

(** The directories of a search path. *)
Definition path_items (value : string) : list string :=
  filter (λ item, item ≠ "") (split ":" value).

(** X26. [_prepend_env_path] with a directory that has no colon in its name
    puts it in front of the search path, once: the other directories
    follow in their order, and nothing else in the environment changes;
    a second call with the same directory changes nothing. *)
Theorem prepend_env_path_once env key new_value :
  new_value ≠ "" → contains_char ":" new_value = false →
  let env' := _prepend_env_path env key (Some new_value) in
  (∃ value, env' !! key = Some value
            ∧ path_items value
              = new_value
                :: filter (λ item, item ≠ new_value)
                          (path_items (default "" (env !! key))))
  ∧ (∀ k, k ≠ key → env' !! k = env !! k)
  ∧ _prepend_env_path env' key (Some new_value) = env'.
Proof.
  intros Hne Hcolon env'.
  set (parts := filter (λ item, item ≠ new_value)
                       (path_items (default "" (env !! key)))).
  assert (env' = <[key := join_char ":" (new_value :: parts)]> env) as Henv.
  { unfold env', _prepend_env_path. rewrite decide_False by done. cbn zeta.
    fold (path_items (default "" (env !! key))). fold parts.
    by destruct parts. }
  assert (∀ p, p ∈ parts → p ≠ "" ∧ p ≠ new_value
                           ∧ contains_char ":" p = false) as Hparts.
  { intros p [Hp [Hp' Hin]%list_elem_of_filter]%list_elem_of_filter.
    split_and!; [done..|]. by apply split_pieces in Hin. }
  assert (path_items (join_char ":" (new_value :: parts)) = new_value :: parts)
    as Hitems.
  { unfold path_items. rewrite split_join; [|done|].
    - rewrite filter_cons_True by done. f_equal. apply Menu.filter_all.
      intros p Hp. by apply Hparts.
    - intros p [->|Hp]%elem_of_cons; [done|]. by apply Hparts. }
  split_and!.
  - exists (join_char ":" (new_value :: parts)).
    rewrite Henv, lookup_insert_eq. done.
  - intros k Hk. by rewrite Henv, lookup_insert_ne.
  - rewrite Henv at 1. unfold _prepend_env_path.
    rewrite decide_False by done. cbn zeta. rewrite lookup_insert_eq.
    cbn [default]. unfold id.
    fold (path_items (join_char ":" (new_value :: parts))).
    rewrite Hitems, filter_cons_False by (by intros H).
    rewrite (Menu.filter_all (λ item, item ≠ new_value) parts)
      by (intros p Hp; by apply Hparts).
    rewrite insert_insert_eq, Henv. by destruct parts.
Qed.

(** An environment whose [PATH] holds the directory already, and an empty
    item. *)
Definition example_env : gmap string string :=
  {["PATH" := "/usr/bin:/opt/agiros/bin::/bin"]}.

Lemma prepend_env_path_once_witness :
  let env' := _prepend_env_path example_env "PATH" (Some "/opt/agiros/bin") in
  (∃ value, env' !! "PATH" = Some value
            ∧ path_items value
              = "/opt/agiros/bin"
                :: filter (λ item, item ≠ "/opt/agiros/bin")
                          (path_items (default "" (example_env !! "PATH"))))
  ∧ (∀ k, k ≠ "PATH" → env' !! k = example_env !! k)
  ∧ _prepend_env_path env' "PATH" (Some "/opt/agiros/bin") = env'.
Proof.
  apply (prepend_env_path_once example_env "PATH" "/opt/agiros/bin").
  - discriminate.
  - reflexivity.
Defined.

End Fields.

(** * The queue file between the menu and the runner *)

Module Flow.
Import Py.





End Flow.
